(** * A simple integer language interpreter: shallow embedding and properties

    The repository holds two interpreters for the same little language:
    [parser.c], which tokenises the whole source first and then parses and
    evaluates it while accumulating errors in a sticky flag, and
    [simple_parser.c], a minimal variant that scans lazily and leaves the
    process at the first error.  Both are embedded below, each in a module
    of its own, as executable functions over explicit state. *)

From Stdlib Require Import ZArith Ascii String.
From stdpp Require Import base tactics option list strings pretty gmap.

Local Open Scope string_scope.
Local Open Scope Z_scope.
Local Open Scope list_scope.

(** ** How a call of the C code ends *)

(** [Done a]: the call returns [a].  [Undefined]: the call runs into
    behaviour that C leaves undefined and that the source does not guard
    against (a quotient that is not an [int], a store behind the end of an
    array); the process is then killed or goes on with corrupted memory,
    and nothing is said about it.  [Unfinished] is an artefact of the
    embedding: the fuel of a recursive definition was too small. *)
Inductive run (A : Type) : Type :=
  | Done (a : A)
  | Undefined
  | Unfinished.
Global Arguments Done {A} a.
Global Arguments Undefined {A}.
Global Arguments Unfinished {A}.

Global Instance run_ret : MRet run := λ A a, Done a.
Global Instance run_bind : MBind run := λ A B k m,
  match m with
  | Done a => k a
  | Undefined => Undefined
  | Unfinished => Unfinished
  end.
Global Instance run_fmap : FMap run := λ A B f m,
  match m with
  | Done a => Done (f a)
  | Undefined => Undefined
  | Unfinished => Unfinished
  end.

Global Instance Done_inj {A} : Inj (=) (=) (@Done A).
Proof. by injection 1. Qed.

(** What the call returned; [d] if it did not return. *)
Definition returned {A} (d : A) (m : run A) : A :=
  match m with Done a => a | _ => d end.

(** The call ends: it returns or it is undefined. *)
Definition finishes {A} (m : run A) : Prop := m ≠ Unfinished.

(** ** C integers and characters, shared by both programs *)

(** [int] is a 32-bit two's complement integer; the overflow of [+], [-]
    and [*] wraps around. *)
Definition wrap (z : Z) : Z := (z + 2 ^ 31) `mod` 2 ^ 32 - 2 ^ 31.

Definition INT_MIN : Z := - 2 ^ 31.
Definition INT_MAX : Z := 2 ^ 31 - 1.
Definition LONG_MAX : Z := 2 ^ 63 - 1.

Definition int_add (a b : Z) : Z := wrap (a + b).
Definition int_sub (a b : Z) : Z := wrap (a - b).
Definition int_mul (a b : Z) : Z := wrap (a * b).
(** C division truncates toward zero.  It is undefined for a zero divisor
    and for [INT_MIN / -1], whose quotient is not an [int]: the processor
    traps and the process is killed by SIGFPE. *)
Definition int_div (a b : Z) : run Z :=
  if decide (b = 0 ∨ (a = INT_MIN ∧ b = -1)) then Undefined
  else Done (a `quot` b).

Definition char_code (c : ascii) : N := N_of_ascii c.

Definition isdigit (c : ascii) : bool :=
  ((48 <=? char_code c) && (char_code c <=? 57))%N.
Definition isalpha (c : ascii) : bool :=
  (((65 <=? char_code c) && (char_code c <=? 90))
   || ((97 <=? char_code c) && (char_code c <=? 122)))%N.
Definition isalnum (c : ascii) : bool := isalpha c || isdigit c.
(** space, \t, \n, \v, \f, \r *)
Definition isspace (c : ascii) : bool :=
  ((char_code c =? 32) || ((9 <=? char_code c) && (char_code c <=? 13)))%N.

Definition is_char (c d : ascii) : bool := bool_decide (c = d).
Definition newline : ascii := ascii_of_N 10.
Definition tab : ascii := ascii_of_N 9.
Definition carriage_return : ascii := ascii_of_N 13.
Definition nul : ascii := ascii_of_N 0.

Definition ident_char (c : ascii) : bool := isalnum c || is_char c "_".
Definition ident_start (c : ascii) : bool := isalpha c || is_char c "_".

(** [span p s]: the longest prefix of [s] whose characters satisfy [p], and
    what follows it; the shape of the loops [while (p(src[i])) i++]. *)
Fixpoint span (p : ascii → bool) (s : string) : string * string :=
  match s with
  | EmptyString => (EmptyString, EmptyString)
  | String c rest =>
      if p c then let '(a, b) := span p rest in (String c a, b)
      else (EmptyString, s)
  end.

(** Strings of decimal digits. *)
Fixpoint digits_only (s : string) : Prop :=
  match s with
  | EmptyString => True
  | String c rest => isdigit c = true ∧ digits_only rest
  end.

(** The character at the read position; the terminating NUL at the end. *)
Definition peek (s : string) : ascii :=
  match s with String c _ => c | EmptyString => nul end.

(** A C string ends at its first NUL byte. *)
Definition c_str (buf : string) : string :=
  (span (λ c, negb (is_char c nul)) buf).1.

Definition digit_value (c : ascii) : Z := Z.of_N (char_code c) - 48.

Fixpoint atoi_go (acc : Z) (s : string) : Z :=
  match s with
  | EmptyString => acc
  | String c rest =>
      if isdigit c then atoi_go (10 * acc + digit_value c) rest else acc
  end.
(** [strtol] on a digit string (no sign, no leading blanks occur here):
    a value above [LONG_MAX] is replaced by [LONG_MAX]. *)
Definition strtol (s : string) : Z := Z.min (atoi_go 0 s) LONG_MAX.
(** [atoi] is [(int) strtol(s, NULL, 10)]: the [long] is cut to 32 bits. *)
Definition atoi (s : string) : Z := wrap (strtol s).

Definition strncpy (s : string) (n : nat) : string := String.substring 0 n s.

Module Parser.

(** ** Tokens *)

Inductive TokenType :=
  | TOK_INT | TOK_PRINT
  | TOK_IDENTIFIER | TOK_INTEGER
  | TOK_ASSIGN | TOK_PLUS | TOK_MINUS | TOK_STAR | TOK_SLASH
  | TOK_LPAREN | TOK_RPAREN | TOK_SEMICOLON
  | TOK_EOF | TOK_UNKNOWN.

Global Instance TokenType_eq_dec : EqDecision TokenType.
Proof. solve_decision. Defined.

Definition token_type_name (t : TokenType) : string :=
  match t with
  | TOK_INT => "keyword 'int'"
  | TOK_PRINT => "keyword 'print'"
  | TOK_IDENTIFIER => "identifier"
  | TOK_INTEGER => "integer literal"
  | TOK_ASSIGN => "'='"
  | TOK_PLUS => "'+'"
  | TOK_MINUS => "'-'"
  | TOK_STAR => "'*'"
  | TOK_SLASH => "'/'"
  | TOK_LPAREN => "'('"
  | TOK_RPAREN => "')'"
  | TOK_SEMICOLON => "';'"
  | TOK_EOF => "end of file"
  | TOK_UNKNOWN => "unknown token"
  end.

Record Token := mkToken {
  type : TokenType;
  text : string;
  int_value : Z;
  line : nat;
  col : nat
}.

(** A slot of the static array [tokens] that was never written: all zero. *)
Definition zero_token : Token := mkToken TOK_INT "" 0 0 0.

Definition MAX_TOKENS : nat := 4096.

(** ** Tokeniser *)

(** Result of [tokenise]: 0 with the filled token array, or -1 with the
    line written to standard error; or no result, when the EOF token is
    stored behind the end of the array. *)
Inductive lex_result :=
  | LexOk (toks : list Token)
  | LexFail (msg : string)
  | LexOverrun.

Definition too_many_tokens : string :=
  "Error: too many tokens (max " +:+ pretty MAX_TOKENS +:+ ")".

Definition lexical_error (ln cl : nat) (what : string) : string :=
  "Lexical Error [line " +:+ pretty ln +:+ ", col " +:+ pretty cl +:+ "]: "
  +:+ what.

Definition keyword_type (lexeme : string) : TokenType :=
  if decide (lexeme = "int") then TOK_INT
  else if decide (lexeme = "print") then TOK_PRINT
  else TOK_IDENTIFIER.

Definition single_char_type (c : ascii) : option TokenType :=
  if is_char c "=" then Some TOK_ASSIGN
  else if is_char c "+" then Some TOK_PLUS
  else if is_char c "-" then Some TOK_MINUS
  else if is_char c "*" then Some TOK_STAR
  else if is_char c "/" then Some TOK_SLASH
  else if is_char c "(" then Some TOK_LPAREN
  else if is_char c ")" then Some TOK_RPAREN
  else if is_char c ";" then Some TOK_SEMICOLON
  else None.

Definition starts_comment (src : string) : bool :=
  match src with
  | String c (String d _) => is_char c "/" && is_char d "/"
  | _ => false
  end.

(** Append to [tokens[]], refusing when the array is full. *)
Definition push_token (toks : list Token) (tok : Token)
    (k : list Token → option lex_result) : option lex_result :=
  if decide (MAX_TOKENS ≤ length toks)%nat then Some (LexFail too_many_tokens)
  else k (toks ++ [tok]).

(** The [while (src[i] != '\0')] loop of [tokenise]; [src] is the text from
    index [i] on, [toks] the array filled so far.  Every round consumes at
    least one character, so [fuel] above the length of [src] is enough. *)
Fixpoint tokenise_loop (fuel : nat) (src : string) (ln cl : nat)
    (toks : list Token) : option lex_result :=
  match fuel with
  | O => None
  | S fuel =>
    match src with
    | EmptyString =>
        (* the EOF token is stored without a capacity test *)
        if decide (MAX_TOKENS ≤ length toks)%nat then Some LexOverrun
        else Some (LexOk (toks ++ [mkToken TOK_EOF "EOF" 0 ln cl]))
    | String c rest =>
        if is_char c " " || is_char c tab || is_char c carriage_return then
          tokenise_loop fuel rest ln (S cl) toks
        else if is_char c newline then
          tokenise_loop fuel rest (S ln) 1%nat toks
        else if starts_comment src then
          tokenise_loop fuel
            (span (λ d, negb (is_char d newline)) src).2 ln cl toks
        else if ident_start c then
          let '(lexeme, rest') := span ident_char src in
          let txt := strncpy lexeme 255 in
          push_token toks (mkToken (keyword_type txt) txt 0 ln cl)
            (tokenise_loop fuel rest' ln (cl + String.length lexeme)%nat)
        else if isdigit c then
          let '(lexeme, rest') := span isdigit src in
          if ident_start (peek rest') then
            Some (LexFail (lexical_error ln cl
              ("invalid token '" +:+ String (peek rest')
                 "' after integer literal")))
          else
            let txt := strncpy lexeme 255 in
            push_token toks (mkToken TOK_INTEGER txt (atoi txt) ln cl)
              (tokenise_loop fuel rest' ln (cl + String.length lexeme)%nat)
        else
          match single_char_type c with
          | Some ty =>
              push_token toks (mkToken ty (String c "") 0 ln cl)
                (tokenise_loop fuel rest ln (S cl))
          | None =>
              Some (LexFail (lexical_error ln cl
                ("unexpected character '" +:+ String c "'")))
          end
    end
  end.

(** [tokenise] proper; the fuel never runs out (see [tokenise_loop_total]),
    so the last branch is dead. *)
Definition tokenise (src : string) : lex_result :=
  match tokenise_loop (S (String.length src)) src 1 1 [] with
  | Some r => r
  | None => LexFail ""
  end.


(** ** Symbol table *)

Definition MAX_VARS : nat := 256.

Record variable := mkVariable {
  name : string;
  value : Z;
  declared : Z
}.

(** ** Parser and interpreter state *)

(** The globals [pos], [had_error], [sym_table] (its first [sym_count]
    entries) and the two output streams, one list element per line. *)
Record State := mkState {
  pos : nat;
  had_error : bool;
  sym_table : list variable;
  stdout : list string;
  stderr : list string
}.

Definition set_pos (p : nat) (s : State) : State :=
  mkState p (had_error s) (sym_table s) (stdout s) (stderr s).
Definition set_had_error (s : State) : State :=
  mkState (pos s) true (sym_table s) (stdout s) (stderr s).
Definition set_sym_table (tbl : list variable) (s : State) : State :=
  mkState (pos s) (had_error s) tbl (stdout s) (stderr s).
Definition printf (ln : string) (s : State) : State :=
  mkState (pos s) (had_error s) (sym_table s) (stdout s ++ [ln]) (stderr s).
Definition fprintf_stderr (ln : string) (s : State) : State :=
  mkState (pos s) (had_error s) (sym_table s) (stdout s) (stderr s ++ [ln]).

(** The recurring pair [fprintf(stderr, ...); had_error = 1;]. *)
Definition report (msg : string) (s : State) : State :=
  set_had_error (fprintf_stderr msg s).

(** [<Category> Error [line L, col C]: <message>] *)
Definition located (category : string) (ln cl : nat) (msg : string) : string :=
  category +:+ " Error [line " +:+ pretty ln +:+ ", col " +:+ pretty cl
  +:+ "]: " +:+ msg.

Definition found (t : Token) : string :=
  token_type_name (type t) +:+ " ('" +:+ text t +:+ "')".

Definition already_declared (nm : string) (ln : nat) : string :=
  "Semantic Error [line " +:+ pretty ln +:+ "]: variable '" +:+ nm
  +:+ "' is already declared".

Definition too_many_variables : string :=
  "Error: too many variables (max " +:+ pretty MAX_VARS +:+ ")".

(** Look up a variable; the index of its slot, or [None] for NULL. *)
Definition sym_lookup (tbl : list variable) (nm : string) : option nat :=
  fst <$> list_find (λ v, name v = nm) tbl.

(** Declare a new variable; its slot, or [None] (NULL) on redeclaration
    and on a full table. *)
Definition sym_declare (nm : string) (ln : nat) (s : State)
    : option nat * State :=
  match sym_lookup (sym_table s) nm with
  | Some _ => (None, fprintf_stderr (already_declared nm ln) s)
  | None =>
      if decide (MAX_VARS ≤ length (sym_table s))%nat then
        (None, fprintf_stderr too_many_variables s)
      else
        (Some (length (sym_table s)),
         set_sym_table (sym_table s ++ [mkVariable (strncpy nm 255) 0 1]) s)
  end.

(** [v->value = x] through the pointer returned by [sym_declare]. *)
Definition store_value (i : nat) (x : Z) (s : State) : State :=
  set_sym_table
    (alter (λ v, mkVariable (name v) x (declared v)) i (sym_table s)) s.

Section parser.

Context (tokens : list Token).

(** [tokens[p]]; beyond what [tokenise] wrote the array is still zero. *)
Definition token_at (p : nat) : Token := default zero_token (tokens !! p).

Definition current_token (s : State) : Token := token_at (pos s).

Definition advance (s : State) : Token * State :=
  let t := current_token s in
  (t, if decide (type t = TOK_EOF) then s else set_pos (S (pos s)) s).

Definition check (ty : TokenType) (s : State) : bool :=
  bool_decide (type (current_token s) = ty).

Definition expect (ty : TokenType) (s : State) : Token * State :=
  let t := current_token s in
  if decide (type t = ty) then advance s
  else
    (t, report (located "Syntax" (line t) (col t)
                  ("expected " +:+ token_type_name ty +:+ " but found "
                   +:+ found t)) s).

(** The three mutually recursive procedures of the expression grammar and
    their two [while] loops. *)
Fixpoint parse_factor (fuel : nat) (s : State) : run (Z * State) :=
  match fuel with
  | O => Unfinished
  | S fuel =>
    let t := current_token s in
    match type t with
    | TOK_INTEGER => Done (int_value t, (advance s).2)
    | TOK_IDENTIFIER =>
        let s := (advance s).2 in
        match sym_lookup (sym_table s) (text t) with
        | None =>
            Done (0, report (located "Semantic" (line t) (col t)
                               ("undeclared variable '" +:+ text t +:+ "'")) s)
        | Some i => Done (default 0 (value <$> sym_table s !! i), s)
        end
    | TOK_LPAREN =>
        let s := (advance s).2 in
        '(val, s) ← parse_expr fuel s;
        Done (val, (expect TOK_RPAREN s).2)
    | _ =>
        let s := report (located "Syntax" (line t) (col t)
                           ("expected expression but found " +:+ found t)) s in
        Done (0, if decide (type t = TOK_EOF) then s else (advance s).2)
    end
  end
with parse_term_loop (fuel : nat) (lhs : Z) (s : State) : run (Z * State) :=
  match fuel with
  | O => Unfinished
  | S fuel =>
    if check TOK_STAR s || check TOK_SLASH s then
      let '(op, s) := advance s in
      '(rhs, s) ← parse_factor fuel s;
      if decide (type op = TOK_STAR) then
        parse_term_loop fuel (int_mul lhs rhs) s
      else if decide (rhs = 0) then
        parse_term_loop fuel 0
          (report (located "Runtime" (line op) (col op) "division by zero") s)
      else
        quotient ← int_div lhs rhs;
        parse_term_loop fuel quotient s
    else Done (lhs, s)
  end
with parse_term (fuel : nat) (s : State) : run (Z * State) :=
  match fuel with
  | O => Unfinished
  | S fuel =>
    '(lhs, s) ← parse_factor fuel s;
    parse_term_loop fuel lhs s
  end
with parse_expr_loop (fuel : nat) (lhs : Z) (s : State) : run (Z * State) :=
  match fuel with
  | O => Unfinished
  | S fuel =>
    if check TOK_PLUS s || check TOK_MINUS s then
      let '(op, s) := advance s in
      '(rhs, s) ← parse_term fuel s;
      if decide (type op = TOK_PLUS) then
        parse_expr_loop fuel (int_add lhs rhs) s
      else parse_expr_loop fuel (int_sub lhs rhs) s
    else Done (lhs, s)
  end
with parse_expr (fuel : nat) (s : State) : run (Z * State) :=
  match fuel with
  | O => Unfinished
  | S fuel =>
    '(lhs, s) ← parse_term fuel s;
    parse_expr_loop fuel lhs s
  end.

Definition parse_declaration (fuel : nat) (s : State) : run State :=
  let s := (expect TOK_INT s).2 in
  let '(id, s) := expect TOK_IDENTIFIER s in
  let s := (expect TOK_ASSIGN s).2 in
  '(val, s) ← parse_expr fuel s;
  let s := (expect TOK_SEMICOLON s).2 in
  if had_error s then Done s
  else
    match sym_declare (text id) (line id) s with
    | (Some v, s) => Done (store_value v val s)
    | (None, s) => Done (set_had_error s)
    end.

Definition parse_print (fuel : nat) (s : State) : run State :=
  let s := (expect TOK_PRINT s).2 in
  let s := (expect TOK_LPAREN s).2 in
  '(val, s) ← parse_expr fuel s;
  let s := (expect TOK_RPAREN s).2 in
  let s := (expect TOK_SEMICOLON s).2 in
  if had_error s then Done s else Done (printf (pretty val) s).

Definition parse_stmt (fuel : nat) (s : State) : run State :=
  let t := current_token s in
  if decide (type t = TOK_INT) then parse_declaration fuel s
  else if decide (type t = TOK_PRINT) then parse_print fuel s
  else
    let s := report (located "Syntax" (line t) (col t)
                 ("expected 'int' or 'print' at start of statement but found "
                  +:+ found t)) s in
    Done (if decide (type t = TOK_EOF) then s else (advance s).2).

(** The statement loop of [parse_program] followed by [expect(TOK_EOF)]. *)
Fixpoint parse_program_loop (fuel : nat) (s : State) : run State :=
  match fuel with
  | O => Unfinished
  | S fuel =>
    if check TOK_EOF s then Done (expect TOK_EOF s).2
    else s ← parse_stmt fuel s; parse_program_loop fuel s
  end.

End parser.

(** [main] resets the globals before parsing. *)
Definition initial_state : State := mkState 0 false [] [] [].

(** Fuel that always suffices for a token array of this size
    (see [parse_program_total]). *)
Definition program_fuel (tokens : list Token) : nat := 4 * length tokens + 4.

Definition parse_program (tokens : list Token) : run State :=
  parse_program_loop tokens (program_fuel tokens) initial_state.

(** ** Driver *)

(** What a run leaves behind: exit status and the two streams. *)
Record Outcome := mkOutcome {
  exit_status : Z;
  out_lines : list string;
  err_lines : list string
}.

(** [main]: [argv] holds the program name and its arguments, [fs] maps a
    path to the content of the file that [read_file] can open there. *)
Definition main (argv : list string) (fs : string → option string)
    : run Outcome :=
  match argv with
  | [] | [_] =>
      Done (mkOutcome 1 []
        ["Usage: " +:+ default "" (head argv) +:+ " <source_file>"])
  | _ :: path :: _ =>
      match fs path with
      | None =>
          Done (mkOutcome 1 [] ["Error: cannot open file '" +:+ path +:+ "'"])
      | Some buf =>
          match tokenise (c_str buf) with
          | LexOverrun => Undefined
          | LexFail msg => Done (mkOutcome 1 [] [msg])
          | LexOk toks =>
              s ← parse_program toks;
              if had_error s then
                Done (mkOutcome 1 (stdout s)
                  (stderr s ++
                     [""; "Parsing/execution failed due to errors above."]))
              else Done (mkOutcome 0 (stdout s) (stderr s))
          end
      end
  end.

End Parser.


(** ** The minimal variant, [simple_parser.c] *)

Module SimpleParser.

Inductive tok_kind :=
  | T_INT | T_PRINT | T_ID | T_NUM
  | T_ASSIGN | T_PLUS | T_MINUS | T_STAR | T_SLASH
  | T_LPAREN | T_RPAREN | T_SEMI | T_EOF | T_ERR.

Global Instance tok_kind_eq_dec : EqDecision tok_kind.
Proof. solve_decision. Defined.

(** [tok_text] and each row of [var_names] hold 256 bytes: a string of at
    most 255 characters and its NUL. *)
Definition TEXT_SIZE : nat := 256.
Definition MAX_VARS : nat := 100.

(** The globals: read pointer, current token with its text and number, the
    variable arrays (their first [var_count] entries), and the streams.
    The arrays [tok_text], [var_names] and [var_vals] are written without
    bounds tests: a store behind their end is [Undefined] (see [next] and
    [var_set]).  Every text that [next] returns fits [tok_text], hence also
    the local [name] arrays it is copied to with [strcpy].  The depth of
    the C stack, which bounds the nesting of parentheses, is not
    modelled. *)
Record State := mkState {
  src : string;
  tok : tok_kind;
  tok_text : string;
  tok_num : Z;
  vars : list (string * Z);
  stdout : list string;
  stderr : list string
}.

(** A computation either returns to its caller or leaves through
    [exit(code)]. *)
Inductive result (A : Type) :=
  | Ret (a : A) (s : State)
  | Exit (code : Z) (s : State).
Global Arguments Ret {A} a s.
Global Arguments Exit {A} code s.

Definition bind {A B} (m : run (result A))
    (k : A → State → run (result B)) : run (result B) :=
  match m with
  | Unfinished => Unfinished
  | Undefined => Undefined
  | Done (Exit code s) => Done (Exit code s)
  | Done (Ret a s) => k a s
  end.

Definition set_src (x : string) (s : State) : State :=
  mkState x (tok s) (tok_text s) (tok_num s) (vars s) (stdout s) (stderr s).
Definition set_tok (k : tok_kind) (s : State) : State :=
  mkState (src s) k (tok_text s) (tok_num s) (vars s) (stdout s) (stderr s).
Definition set_tok_text (x : string) (s : State) : State :=
  mkState (src s) (tok s) x (tok_num s) (vars s) (stdout s) (stderr s).
Definition set_tok_num (n : Z) (s : State) : State :=
  mkState (src s) (tok s) (tok_text s) n (vars s) (stdout s) (stderr s).
Definition set_vars (vs : list (string * Z)) (s : State) : State :=
  mkState (src s) (tok s) (tok_text s) (tok_num s) vs (stdout s) (stderr s).
Definition printf (ln : string) (s : State) : State :=
  mkState (src s) (tok s) (tok_text s) (tok_num s) (vars s)
    (stdout s ++ [ln]) (stderr s).

(** [fprintf(stderr, ...); exit(1);] *)
Definition die {A} (msg : string) (s : State) : run (result A) :=
  Done (Exit 1
    (mkState (src s) (tok s) (tok_text s) (tok_num s) (vars s)
       (stdout s) (stderr s ++ [msg]))).

Definition var_get (nm : string) (s : State) : run (result Z) :=
  match list_find (λ v, v.1 = nm) (vars s) with
  | Some (_, v) => Done (Ret v.2 s)
  | None => die ("Error: undefined variable '" +:+ nm +:+ "'") s
  end.

Definition var_set (nm : string) (val : Z) (s : State) : run (result ()) :=
  match list_find (λ v, v.1 = nm) (vars s) with
  | Some _ => die ("Error: variable '" +:+ nm +:+ "' already declared") s
  | None =>
      (* [var_names[var_count]] is written without a test of [var_count] *)
      if decide (MAX_VARS ≤ length (vars s))%nat then Undefined
      else Done (Ret () (set_vars (vars s ++ [(nm, val)]) s))
  end.

(** The loop of [next] that skips blanks and comments. *)
Fixpoint skip_blanks (fuel : nat) (x : string) : string :=
  match fuel with
  | O => x
  | S fuel =>
    match x with
    | EmptyString => x
    | String c rest =>
        if isspace c then skip_blanks fuel rest
        else if Parser.starts_comment x then
          skip_blanks fuel (span (λ d, negb (is_char d newline)) x).2
        else x
    end
  end.

Definition single_char_kind (c : ascii) : option tok_kind :=
  if is_char c "=" then Some T_ASSIGN
  else if is_char c "+" then Some T_PLUS
  else if is_char c "-" then Some T_MINUS
  else if is_char c "*" then Some T_STAR
  else if is_char c "/" then Some T_SLASH
  else if is_char c "(" then Some T_LPAREN
  else if is_char c ")" then Some T_RPAREN
  else if is_char c ";" then Some T_SEMI
  else None.

(** Lexer: read the next token into [tok], [tok_text], [tok_num].  The
    loops that copy a word or a number into [tok_text] do not test the
    index: with 256 characters or more they write behind the array. *)
Definition next (s : State) : run (result ()) :=
  let x := skip_blanks (String.length (src s)) (src s) in
  match x with
  | EmptyString => Done (Ret () (set_tok T_EOF (set_src x s)))
  | String c rest =>
      if ident_start c then
        let '(lexeme, rest') := span ident_char x in
        let k := if decide (lexeme = "int") then T_INT
                 else if decide (lexeme = "print") then T_PRINT
                 else T_ID in
        if decide (TEXT_SIZE ≤ String.length lexeme)%nat then Undefined
        else Done (Ret () (set_tok k (set_tok_text lexeme (set_src rest' s))))
      else if isdigit c then
        let '(lexeme, rest') := span isdigit x in
        if decide (TEXT_SIZE ≤ String.length lexeme)%nat then Undefined
        else Done (Ret () (set_tok T_NUM (set_tok_num (atoi lexeme)
                             (set_tok_text lexeme (set_src rest' s)))))
      else
        match single_char_kind c with
        | Some k => Done (Ret () (set_tok k (set_src rest s)))
        | None =>
            die ("Error: unexpected character '" +:+ String c "'")
              (set_src rest s)
        end
  end.

Definition expect (expected : tok_kind) (s : State) : run (result ()) :=
  if decide (tok s = expected) then next s
  else die ("Error: unexpected token '" +:+ tok_text s +:+ "'") s.

Definition is_tok (k : tok_kind) (s : State) : bool := bool_decide (tok s = k).

Fixpoint parse_factor (fuel : nat) (s : State) : run (result Z) :=
  match fuel with
  | O => Unfinished
  | S fuel =>
    if is_tok T_NUM s then
      let val := tok_num s in
      bind (next s) (λ _ s, Done (Ret val s))
    else if is_tok T_ID s then
      let nm := tok_text s in
      bind (next s) (λ _ s, var_get nm s)
    else if is_tok T_LPAREN s then
      bind (next s) (λ _ s,
      bind (parse_expr fuel s) (λ val s,
      bind (expect T_RPAREN s) (λ _ s, Done (Ret val s))))
    else die "Error: expected expression" s
  end
with parse_term_loop (fuel : nat) (lhs : Z) (s : State) : run (result Z) :=
  match fuel with
  | O => Unfinished
  | S fuel =>
    if is_tok T_STAR s || is_tok T_SLASH s then
      let op := tok s in
      bind (next s) (λ _ s,
      bind (parse_factor fuel s) (λ rhs s,
        if decide (op = T_STAR) then parse_term_loop fuel (int_mul lhs rhs) s
        else if decide (rhs = 0) then die "Error: division by zero" s
        else
          quotient ← int_div lhs rhs;
          parse_term_loop fuel quotient s))
    else Done (Ret lhs s)
  end
with parse_term (fuel : nat) (s : State) : run (result Z) :=
  match fuel with
  | O => Unfinished
  | S fuel =>
    bind (parse_factor fuel s) (λ lhs s, parse_term_loop fuel lhs s)
  end
with parse_expr_loop (fuel : nat) (lhs : Z) (s : State) : run (result Z) :=
  match fuel with
  | O => Unfinished
  | S fuel =>
    if is_tok T_PLUS s || is_tok T_MINUS s then
      let op := tok s in
      bind (next s) (λ _ s,
      bind (parse_term fuel s) (λ rhs s,
        if decide (op = T_PLUS) then parse_expr_loop fuel (int_add lhs rhs) s
        else parse_expr_loop fuel (int_sub lhs rhs) s))
    else Done (Ret lhs s)
  end
with parse_expr (fuel : nat) (s : State) : run (result Z) :=
  match fuel with
  | O => Unfinished
  | S fuel =>
    bind (parse_term fuel s) (λ lhs s, parse_expr_loop fuel lhs s)
  end.

Definition parse_stmt (fuel : nat) (s : State) : run (result ()) :=
  if is_tok T_INT s then
    bind (next s) (λ _ s,
      if is_tok T_ID s then
        let nm := tok_text s in
        bind (next s) (λ _ s,
        bind (expect T_ASSIGN s) (λ _ s,
        bind (parse_expr fuel s) (λ val s,
        bind (expect T_SEMI s) (λ _ s,
        var_set nm val s))))
      else die "Error: expected identifier" s)
  else if is_tok T_PRINT s then
    bind (next s) (λ _ s,
    bind (expect T_LPAREN s) (λ _ s,
    bind (parse_expr fuel s) (λ val s,
    bind (expect T_RPAREN s) (λ _ s,
    bind (expect T_SEMI s) (λ _ s,
    Done (Ret () (printf (pretty val) s)))))))
  else die "Error: expected 'int' or 'print'" s.

Fixpoint parse_program (fuel : nat) (s : State) : run (result ()) :=
  match fuel with
  | O => Unfinished
  | S fuel =>
    if is_tok T_EOF s then Done (Ret () s)
    else bind (parse_stmt fuel s) (λ _ s, parse_program fuel s)
  end.

Definition initial_state (buf : string) : State :=
  mkState buf T_INT "" 0 [] [] [].

Definition program_fuel (buf : string) : nat := 4 * String.length buf + 8.

(** [main]; [program_fuel] always suffices. *)
Definition main (argv : list string) (fs : string → option string)
    : run Parser.Outcome :=
  match argv with
  | [] | [_] =>
      Done (Parser.mkOutcome 1 []
        ["Usage: " +:+ default "" (head argv) +:+ " <source_file>"])
  | _ :: path :: _ =>
      match fs path with
      | None =>
          Done (Parser.mkOutcome 1 [] ["Error: cannot open '" +:+ path +:+ "'"])
      | Some buf =>
          let buf := c_str buf in
          r ← bind (next (initial_state buf))
                 (λ _ s, parse_program (program_fuel buf) s);
          match r with
          | Ret _ s => Done (Parser.mkOutcome 0 (stdout s) (stderr s))
          | Exit code s => Done (Parser.mkOutcome code (stdout s) (stderr s))
          end
      end
  end.

End SimpleParser.


(** * The language as the specification describes it

    Abstract syntax, the grammar as a relation between token sequences and
    syntax trees, and evaluation over a finite map from names to values.
    Nothing here is taken from the code of the parsers; it is what their
    results are compared with. *)

Module Reference.
Import Parser.

Inductive binop := Add | Sub | Mul | Div.

Inductive expr :=
  | Num (n : Z)
  | Var (x : string)
  | Bin (op : binop) (e1 e2 : expr).

Inductive stmt :=
  | Declaration (x : string) (e : expr)
  | PrintStmt (e : expr).

(** The grammar in its usual left-recursive form, which is what makes
    [+ - * /] left-associative and lets [* /] bind tighter than [+ -]:
<<
    Expr   -> Expr ("+" | "-") Term | Term
    Term   -> Term ("*" | "/") Factor | Factor
    Factor -> IntegerLiteral | Identifier | "(" Expr ")"
>> *)
Inductive Factor : list Token → expr → Prop :=
  | Factor_integer t :
      type t = TOK_INTEGER → Factor [t] (Num (int_value t))
  | Factor_identifier t :
      type t = TOK_IDENTIFIER → Factor [t] (Var (text t))
  | Factor_paren l ts r e :
      type l = TOK_LPAREN → Expr ts e → type r = TOK_RPAREN →
      Factor (l :: ts ++ [r]) e
with Term : list Token → expr → Prop :=
  | Term_factor ts e : Factor ts e → Term ts e
  | Term_mul ts1 op ts2 e1 e2 :
      Term ts1 e1 → type op = TOK_STAR → Factor ts2 e2 →
      Term (ts1 ++ op :: ts2) (Bin Mul e1 e2)
  | Term_div ts1 op ts2 e1 e2 :
      Term ts1 e1 → type op = TOK_SLASH → Factor ts2 e2 →
      Term (ts1 ++ op :: ts2) (Bin Div e1 e2)
with Expr : list Token → expr → Prop :=
  | Expr_term ts e : Term ts e → Expr ts e
  | Expr_add ts1 op ts2 e1 e2 :
      Expr ts1 e1 → type op = TOK_PLUS → Term ts2 e2 →
      Expr (ts1 ++ op :: ts2) (Bin Add e1 e2)
  | Expr_sub ts1 op ts2 e1 e2 :
      Expr ts1 e1 → type op = TOK_MINUS → Term ts2 e2 →
      Expr (ts1 ++ op :: ts2) (Bin Sub e1 e2).

Scheme Factor_mut := Minimality for Factor Sort Prop
  with Term_mut := Minimality for Term Sort Prop
  with Expr_mut := Minimality for Expr Sort Prop.
Combined Scheme grammar_mutind from Factor_mut, Term_mut, Expr_mut.

(** <<
    Declaration -> "int" Identifier "=" Expr ";"
    PrintStmt   -> "print" "(" Expr ")" ";"
>> *)
Inductive Stmt : list Token → stmt → Prop :=
  | Stmt_declaration kw id eq ts e semi :
      type kw = TOK_INT → type id = TOK_IDENTIFIER → type eq = TOK_ASSIGN →
      Expr ts e → type semi = TOK_SEMICOLON →
      Stmt (kw :: id :: eq :: ts ++ [semi]) (Declaration (text id) e)
  | Stmt_print kw l ts e r semi :
      type kw = TOK_PRINT → type l = TOK_LPAREN → Expr ts e →
      type r = TOK_RPAREN → type semi = TOK_SEMICOLON →
      Stmt (kw :: l :: ts ++ [r; semi]) (PrintStmt e).

(** [Program -> Stmt*], the EOF token left aside. *)
Inductive Program : list Token → list stmt → Prop :=
  | Program_nil : Program [] []
  | Program_cons ts1 st ts2 p :
      Stmt ts1 st → Program ts2 p → Program (ts1 ++ ts2) (st :: p).

(** Evaluation in [int] arithmetic; [None] for an undeclared variable, for
    a division by zero, and for the one quotient that is not an [int],
    [INT_MIN / -1], which has no value in native arithmetic. *)
Definition apply_binop (op : binop) (a b : Z) : option Z :=
  match op with
  | Add => Some (int_add a b)
  | Sub => Some (int_sub a b)
  | Mul => Some (int_mul a b)
  | Div =>
      if decide (b = 0 ∨ (a = INT_MIN ∧ b = -1)) then None
      else Some (a `quot` b)
  end.

Fixpoint eval (env : gmap string Z) (e : expr) : option Z :=
  match e with
  | Num n => Some n
  | Var x => env !! x
  | Bin op e1 e2 => a ← eval env e1; b ← eval env e2; apply_binop op a b
  end.

(** What a program does, in order. *)
Inductive event :=
  | Declared (x : string) (v : Z)
  | Printed (v : Z).

(** Execution; [None] when an expression has no value or a name is
    declared twice. *)
Fixpoint exec (env : gmap string Z) (p : list stmt) : option (list event) :=
  match p with
  | [] => Some []
  | Declaration x e :: p =>
      v ← eval env e;
      match env !! x with
      | Some _ => None
      | None => evs ← exec (<[x:=v]> env) p; Some (Declared x v :: evs)
      end
  | PrintStmt e :: p =>
      v ← eval env e; evs ← exec env p; Some (Printed v :: evs)
  end.

(** The lines a run prints. *)
Fixpoint printed (evs : list event) : list string :=
  match evs with
  | [] => []
  | Printed v :: evs => pretty v :: printed evs
  | Declared _ _ :: evs => printed evs
  end.

(** The variables a run declares, as entries of the symbol table. *)
Fixpoint declared (evs : list event) : list variable :=
  match evs with
  | [] => []
  | Declared x v :: evs => mkVariable x v 1 :: declared evs
  | Printed _ :: evs => declared evs
  end.

(** The environment after a run. *)
Definition env_after (env : gmap string Z) (evs : list event)
    : gmap string Z :=
  foldl (λ env ev, match ev with
                   | Declared x v => <[x:=v]> env
                   | Printed _ => env
                   end) env evs.

End Reference.

(** * Facts about [run] *)

Lemma bind_Done {A B} (f : A → run B) (m : run A) b :
  m ≫= f = Done b ↔ ∃ a, m = Done a ∧ f a = Done b.
Proof.
  destruct m as [a| |]; simpl; split; try done.
  - by exists a.
  - by intros (? & [= <-] & ?).
  - by intros (? & ? & _).
  - by intros (? & ? & _).
Qed.

Lemma fmap_Done {A B} (f : A → B) (m : run A) b :
  f <$> m = Done b ↔ ∃ a, m = Done a ∧ b = f a.
Proof.
  destruct m as [a| |]; simpl; split; try done.
  - intros [= <-]. by exists a.
  - by intros (? & [= <-] & ->).
  - by intros (? & ? & _).
  - by intros (? & ? & _).
Qed.

Lemma bind_finishes {A B} (f : A → run B) (m : run A) :
  finishes m → (∀ a, m = Done a → finishes (f a)) → finishes (m ≫= f).
Proof. unfold finishes. destruct m as [a| |]; simpl; eauto. Qed.

Lemma bind_stable {A B} (m m' : run A) (k k' : A → run B) :
  finishes (m ≫= k) → (finishes m → m' = m) →
  (∀ a, m = Done a → finishes (k a) → k' a = k a) →
  m' ≫= k' = m ≫= k.
Proof.
  unfold finishes. intros Hfin Hm Hk. destruct m as [a| |]; simpl in *.
  - rewrite Hm by done. simpl. by apply Hk.
  - by rewrite Hm.
  - done.
Qed.

Lemma finishes_cases {A} (m : run A) :
  finishes m ↔ m = Undefined ∨ ∃ a, m = Done a.
Proof.
  unfold finishes. destruct m as [a| |]; split; try done; eauto.
  by intros [|[]].
Qed.

(** * Properties of [parser.c] *)

Module ParserSpec.
Import Parser.

(** ** Vocabulary *)

(** A token array whose last entry is an EOF token. *)
Definition eof_terminated (tokens : list Token) : Prop :=
  ∃ body eof, tokens = body ++ [eof] ∧ type eof = TOK_EOF.

(** The cursor points into the token array. *)
Definition in_bounds (tokens : list Token) (s : State) : Prop :=
  (pos s < length tokens)%nat.

(** What the parser complains about, always one token: the token found
    where another one, an expression or a statement was expected, the
    identifier that is not declared, the [/] whose divisor is zero.  Each
    complaint has its category and its message. *)
Inductive complaint (t : Token) : string → string → Prop :=
  | complaint_expected ty :
      type t ≠ ty →
      complaint t "Syntax"
        ("expected " +:+ token_type_name ty +:+ " but found " +:+ found t)
  | complaint_no_expression :
      type t ∉ [TOK_INTEGER; TOK_IDENTIFIER; TOK_LPAREN] →
      complaint t "Syntax" ("expected expression but found " +:+ found t)
  | complaint_no_statement :
      type t ∉ [TOK_INT; TOK_PRINT] →
      complaint t "Syntax"
        ("expected 'int' or 'print' at start of statement but found "
         +:+ found t)
  | complaint_undeclared :
      type t = TOK_IDENTIFIER →
      complaint t "Semantic" ("undeclared variable '" +:+ text t +:+ "'")
  | complaint_division :
      type t = TOK_SLASH → complaint t "Runtime" "division by zero".

(** Solve [x ∉ [a; b; ...]] from the hypotheses [x ≠ a], [x ≠ b], ... *)
Ltac not_listed :=
  rewrite !not_elem_of_cons; split_and!;
  first [done | congruence | apply not_elem_of_nil].

Lemma complaint_category t category what :
  complaint t category what → category ∈ ["Syntax"; "Semantic"; "Runtime"].
Proof. destruct 1; by repeat constructor. Qed.

(** Every operation of the parser on its state, from the two cursor
    primitives up to the statement loop. *)
Inductive operation :=
  | op_advance
  | op_expect (ty : TokenType)
  | op_parse_factor (fuel : nat)
  | op_parse_term_loop (fuel : nat) (lhs : Z)
  | op_parse_term (fuel : nat)
  | op_parse_expr_loop (fuel : nat) (lhs : Z)
  | op_parse_expr (fuel : nat)
  | op_parse_declaration (fuel : nat)
  | op_parse_print (fuel : nat)
  | op_parse_stmt (fuel : nat)
  | op_parse_program (fuel : nat).

(** The state an operation leaves, when it returns. *)
Definition run_operation (tokens : list Token) (op : operation) (s : State)
    : run State :=
  match op with
  | op_advance => Done (advance tokens s).2
  | op_expect ty => Done (expect tokens ty s).2
  | op_parse_factor fuel => snd <$> parse_factor tokens fuel s
  | op_parse_term_loop fuel lhs => snd <$> parse_term_loop tokens fuel lhs s
  | op_parse_term fuel => snd <$> parse_term tokens fuel s
  | op_parse_expr_loop fuel lhs => snd <$> parse_expr_loop tokens fuel lhs s
  | op_parse_expr fuel => snd <$> parse_expr tokens fuel s
  | op_parse_declaration fuel => parse_declaration tokens fuel s
  | op_parse_print fuel => parse_print tokens fuel s
  | op_parse_stmt fuel => parse_stmt tokens fuel s
  | op_parse_program fuel => parse_program_loop tokens fuel s
  end.

(** ** One-step equations and elementary facts *)


Section steps.

Context (tokens : list Token).

Lemma parse_factor_S fuel s :
  parse_factor tokens (S fuel) s =
  let t := current_token tokens s in
  match type t with
  | TOK_INTEGER => Done (int_value t, (advance tokens s).2)
  | TOK_IDENTIFIER =>
      let s := (advance tokens s).2 in
      match sym_lookup (sym_table s) (text t) with
      | None =>
          Done (0, report (located "Semantic" (line t) (col t)
                             ("undeclared variable '" +:+ text t +:+ "'")) s)
      | Some i => Done (default 0 (value <$> sym_table s !! i), s)
      end
  | TOK_LPAREN =>
      let s := (advance tokens s).2 in
      '(val, s) ← parse_expr tokens fuel s;
      Done (val, (expect tokens TOK_RPAREN s).2)
  | _ =>
      let s := report (located "Syntax" (line t) (col t)
                         ("expected expression but found " +:+ found t)) s in
      Done (0, if decide (type t = TOK_EOF) then s else (advance tokens s).2)
  end.
Proof. done. Qed.

(** The same equation with the dispatch on the token type as a chain of
    tests, which keeps the error branch in terms of the token. *)
Lemma parse_factor_cases fuel s :
  parse_factor tokens (S fuel) s =
  let t := current_token tokens s in
  if decide (type t = TOK_INTEGER) then
    Done (int_value t, (advance tokens s).2)
  else if decide (type t = TOK_IDENTIFIER) then
    match sym_lookup (sym_table (advance tokens s).2) (text t) with
    | None =>
        Done (0, report (located "Semantic" (line t) (col t)
                           ("undeclared variable '" +:+ text t +:+ "'"))
                   (advance tokens s).2)
    | Some i =>
        Done (default 0 (value <$> sym_table (advance tokens s).2 !! i),
              (advance tokens s).2)
    end
  else if decide (type t = TOK_LPAREN) then
    '(val, s) ← parse_expr tokens fuel (advance tokens s).2;
    Done (val, (expect tokens TOK_RPAREN s).2)
  else
    Done (0, if decide (type t = TOK_EOF)
             then report (located "Syntax" (line t) (col t)
                            ("expected expression but found " +:+ found t)) s
             else (advance tokens
                     (report (located "Syntax" (line t) (col t)
                        ("expected expression but found " +:+ found t)) s)).2).
Proof.
  rewrite parse_factor_S. cbv zeta.
  destruct (decide (_ = TOK_INTEGER)) as [->|?]; [done|].
  destruct (decide (_ = TOK_IDENTIFIER)) as [->|?]; [done|].
  destruct (decide (_ = TOK_LPAREN)) as [->|?]; [done|].
  by destruct (type (current_token tokens s)).
Qed.

Lemma parse_term_loop_S fuel lhs s :
  parse_term_loop tokens (S fuel) lhs s =
  if check tokens TOK_STAR s || check tokens TOK_SLASH s then
    let '(op, s) := advance tokens s in
    '(rhs, s) ← parse_factor tokens fuel s;
    if decide (type op = TOK_STAR) then
      parse_term_loop tokens fuel (int_mul lhs rhs) s
    else if decide (rhs = 0) then
      parse_term_loop tokens fuel 0
        (report (located "Runtime" (line op) (col op) "division by zero") s)
    else
      quotient ← int_div lhs rhs;
      parse_term_loop tokens fuel quotient s
  else Done (lhs, s).
Proof. done. Qed.

Lemma parse_term_S fuel s :
  parse_term tokens (S fuel) s =
  '(lhs, s) ← parse_factor tokens fuel s; parse_term_loop tokens fuel lhs s.
Proof. done. Qed.

Lemma parse_expr_loop_S fuel lhs s :
  parse_expr_loop tokens (S fuel) lhs s =
  if check tokens TOK_PLUS s || check tokens TOK_MINUS s then
    let '(op, s) := advance tokens s in
    '(rhs, s) ← parse_term tokens fuel s;
    if decide (type op = TOK_PLUS) then
      parse_expr_loop tokens fuel (int_add lhs rhs) s
    else parse_expr_loop tokens fuel (int_sub lhs rhs) s
  else Done (lhs, s).
Proof. done. Qed.

Lemma parse_expr_S fuel s :
  parse_expr tokens (S fuel) s =
  '(lhs, s) ← parse_term tokens fuel s; parse_expr_loop tokens fuel lhs s.
Proof. done. Qed.

Lemma parse_program_loop_S fuel s :
  parse_program_loop tokens (S fuel) s =
  if check tokens TOK_EOF s then Done (expect tokens TOK_EOF s).2
  else s ← parse_stmt tokens fuel s; parse_program_loop tokens fuel s.
Proof. done. Qed.

Lemma advance_fst s : (advance tokens s).1 = current_token tokens s.
Proof. done. Qed.

Lemma advance_eta s :
  advance tokens s = (current_token tokens s, (advance tokens s).2).
Proof. done. Qed.

Lemma pos_report msg s : pos (report msg s) = pos s.
Proof. done. Qed.
Lemma had_error_report msg s : had_error (report msg s) = true.
Proof. done. Qed.
Lemma sym_table_report msg s : sym_table (report msg s) = sym_table s.
Proof. done. Qed.
Lemma stdout_report msg s : stdout (report msg s) = stdout s.
Proof. done. Qed.
Lemma stderr_report msg s : stderr (report msg s) = stderr s ++ [msg].
Proof. done. Qed.

Lemma advance_pos_le s : (pos s ≤ pos (advance tokens s).2)%nat.
Proof. unfold advance; simpl. case_decide; simpl; lia. Qed.

Lemma advance_not_eof s :
  type (current_token tokens s) ≠ TOK_EOF →
  (advance tokens s).2 = set_pos (S (pos s)) s.
Proof. intros. unfold advance; simpl. by case_decide. Qed.

Lemma advance_eof s :
  type (current_token tokens s) = TOK_EOF → (advance tokens s).2 = s.
Proof. intros. unfold advance; simpl. by case_decide. Qed.

Lemma expect_match ty s :
  type (current_token tokens s) = ty →
  expect tokens ty s = advance tokens s.
Proof. intros. unfold expect. by case_decide. Qed.

Lemma expect_cases ty s :
  expect tokens ty s = advance tokens s
  ∨ ∃ msg, complaint (token_at tokens (pos s)) "Syntax" msg
           ∧ (expect tokens ty s).2
             = report (located "Syntax" (line (token_at tokens (pos s)))
                         (col (token_at tokens (pos s))) msg) s.
Proof.
  unfold expect. case_decide; [by left|]. right. eexists.
  split; [by apply (complaint_expected _ ty)|done].
Qed.

End steps.

(** Invert [m ≫= k = Done r] on a pair-valued [m]. *)
Ltac bind_inv H :=
  let E := fresh "E" in
  apply bind_Done in H as ([? ?] & E & H); cbv beta iota in H.

(** Invert [int_div a b ≫= k = Done r]: the quotient exists. *)
Ltac div_inv H :=
  let q := fresh "q" in
  let Eq := fresh "Eq" in
  apply bind_Done in H as (q & Eq & H); try rewrite Eq; cbn [mbind run_bind].

(** ** More fuel never changes a result *)

Section fuel.

Context (tokens : list Token).

(** A call that ends with some fuel ends in the same way with more. *)
Lemma expression_fuel_stable fuel :
  ∀ fuel', (fuel ≤ fuel')%nat →
  (∀ s, finishes (parse_factor tokens fuel s) →
        parse_factor tokens fuel' s = parse_factor tokens fuel s)
  ∧ (∀ lhs s, finishes (parse_term_loop tokens fuel lhs s) →
        parse_term_loop tokens fuel' lhs s = parse_term_loop tokens fuel lhs s)
  ∧ (∀ s, finishes (parse_term tokens fuel s) →
        parse_term tokens fuel' s = parse_term tokens fuel s)
  ∧ (∀ lhs s, finishes (parse_expr_loop tokens fuel lhs s) →
        parse_expr_loop tokens fuel' lhs s = parse_expr_loop tokens fuel lhs s)
  ∧ (∀ s, finishes (parse_expr tokens fuel s) →
        parse_expr tokens fuel' s = parse_expr tokens fuel s).
Proof.
  induction fuel as [|fuel IH]; [by repeat split|].
  intros [|fuel'] Hle; [lia|].
  destruct (IH fuel' ltac:(lia)) as (IHf & IHtl & IHt & IHel & IHe).
  split_and!.
  - intros s H. rewrite parse_factor_S in H. rewrite !parse_factor_S. cbv zeta in *.
    destruct (type (current_token tokens s)); try done.
    apply bind_stable; [done | apply IHe | done].
  - intros lhs s H. rewrite parse_term_loop_S in H. rewrite !parse_term_loop_S.
    destruct (_ || _); [|done].
    rewrite advance_eta in H |- *. cbv beta iota in *.
    apply bind_stable; [done | apply IHf|]. intros [rhs s1] _ Hk.
    repeat case_decide; try by apply IHtl.
    apply bind_stable; [done | done|]. intros q _ Hq. by apply IHtl.
  - intros s H. rewrite parse_term_S in H. rewrite !parse_term_S.
    apply bind_stable; [done | apply IHf|]. intros [lhs s1] _ Hk.
    by apply IHtl.
  - intros lhs s H. rewrite parse_expr_loop_S in H. rewrite !parse_expr_loop_S.
    destruct (_ || _); [|done].
    rewrite advance_eta in H |- *. cbv beta iota in *.
    apply bind_stable; [done | apply IHt|]. intros [rhs s1] _ Hk.
    case_decide; by apply IHel.
  - intros s H. rewrite parse_expr_S in H. rewrite !parse_expr_S.
    apply bind_stable; [done | apply IHt|]. intros [lhs s1] _ Hk.
    by apply IHel.
Qed.

Lemma expression_fuel_mono fuel :
  ∀ fuel', (fuel ≤ fuel')%nat →
  (∀ s r, parse_factor tokens fuel s = Done r →
          parse_factor tokens fuel' s = Done r)
  ∧ (∀ lhs s r, parse_term_loop tokens fuel lhs s = Done r →
                parse_term_loop tokens fuel' lhs s = Done r)
  ∧ (∀ s r, parse_term tokens fuel s = Done r →
            parse_term tokens fuel' s = Done r)
  ∧ (∀ lhs s r, parse_expr_loop tokens fuel lhs s = Done r →
                parse_expr_loop tokens fuel' lhs s = Done r)
  ∧ (∀ s r, parse_expr tokens fuel s = Done r →
            parse_expr tokens fuel' s = Done r).
Proof.
  intros fuel' Hle.
  destruct (expression_fuel_stable fuel fuel' Hle) as (Hf & Htl & Ht & Hel & He).
  split_and!; intros.
  - rewrite Hf; [done | by rewrite H].
  - rewrite Htl; [done | by rewrite H].
  - rewrite Ht; [done | by rewrite H].
  - rewrite Hel; [done | by rewrite H].
  - rewrite He; [done | by rewrite H].
Qed.

Lemma parse_expr_fuel_mono fuel fuel' s r :
  (fuel ≤ fuel')%nat →
  parse_expr tokens fuel s = Done r → parse_expr tokens fuel' s = Done r.
Proof. intros Hle. by apply (expression_fuel_mono fuel fuel' Hle). Qed.

Lemma parse_stmt_fuel_stable fuel fuel' s :
  (fuel ≤ fuel')%nat → finishes (parse_stmt tokens fuel s) →
  parse_stmt tokens fuel' s = parse_stmt tokens fuel s.
Proof.
  intros Hle. unfold parse_stmt, parse_declaration, parse_print.
  destruct (expression_fuel_stable fuel fuel' Hle) as (_ & _ & _ & _ & He).
  intros H. repeat case_decide; try done.
  - destruct (expect tokens TOK_IDENTIFIER _) as [id s2].
    apply bind_stable; [done | apply He | done].
  - apply bind_stable; [done | apply He | done].
Qed.

Lemma parse_stmt_fuel_mono fuel fuel' s r :
  (fuel ≤ fuel')%nat →
  parse_stmt tokens fuel s = Done r → parse_stmt tokens fuel' s = Done r.
Proof.
  intros Hle H. rewrite (parse_stmt_fuel_stable fuel fuel'); [done..|].
  by rewrite H.
Qed.

Lemma parse_program_loop_fuel_stable fuel fuel' s :
  (fuel ≤ fuel')%nat → finishes (parse_program_loop tokens fuel s) →
  parse_program_loop tokens fuel' s = parse_program_loop tokens fuel s.
Proof.
  revert fuel' s. induction fuel as [|fuel IH]; [done|].
  intros [|fuel'] s Hle H; [lia|].
  rewrite parse_program_loop_S in H. rewrite !parse_program_loop_S. destruct (check _ _ _); [done|].
  apply bind_stable; [done | apply parse_stmt_fuel_stable; lia|].
  intros s1 _ Hk. apply IH; [lia | done].
Qed.

Lemma parse_program_loop_fuel_mono fuel fuel' s r :
  (fuel ≤ fuel')%nat →
  parse_program_loop tokens fuel s = Done r →
  parse_program_loop tokens fuel' s = Done r.
Proof.
  intros Hle H. rewrite (parse_program_loop_fuel_stable fuel fuel'); [done..|].
  by rewrite H.
Qed.

End fuel.

(** ** The tokeniser: what it returns *)

Lemma strncpy_length s n : (String.length (strncpy s n) ≤ n)%nat.
Proof.
  unfold strncpy. revert n. induction s as [|c s IH]; intros [|n]; simpl;
    try lia. specialize (IH n). lia.
Qed.

Lemma strncpy_short s n : (String.length s ≤ n)%nat → strncpy s n = s.
Proof.
  unfold strncpy. revert n. induction s as [|c s IH]; intros [|n] ?;
    simpl in *; try done; try lia. f_equal. apply IH. lia.
Qed.

Lemma span_length p s :
  (String.length (span p s).2 ≤ String.length s)%nat.
Proof.
  induction s as [|c s IH]; simpl; [done|].
  destruct (p c); simpl; [|lia]. destruct (span p s); simpl in *. lia.
Qed.

Lemma span_length_lt p c s :
  p c = true →
  (String.length (span p (String c s)).2 < String.length (String c s))%nat.
Proof.
  intros Hc. simpl. rewrite Hc. pose proof (span_length p s).
  destruct (span p s); simpl in *. lia.
Qed.

Lemma span_append p s : (span p s).1 +:+ (span p s).2 = s.
Proof.
  induction s as [|c s IH]; simpl; [done|].
  destruct (p c); [|done]. destruct (span p s) as [a b]; simpl in *.
  change (String c (a +:+ b) = String c s). by rewrite IH.
Qed.

Lemma span_digits a c rest :
  digits_only a → isdigit c = false →
  span isdigit (a +:+ String c rest) = (a, String c rest).
Proof.
  intros Ha Hc. induction a as [|d a IH].
  - simpl. by rewrite Hc.
  - destruct Ha as [Hd Ha].
    change (span isdigit (String d (a +:+ String c rest))
            = (String d a, String c rest)).
    simpl. by rewrite Hd, IH.
Qed.

(** A digit is no blank, starts no comment and no identifier. *)
Lemma digit_class d :
  isdigit d = true →
  is_char d " " = false ∧ is_char d tab = false
  ∧ is_char d carriage_return = false ∧ is_char d newline = false
  ∧ is_char d "/" = false ∧ ident_start d = false ∧ isspace d = false.
Proof. by destruct d as [[] [] [] [] [] [] [] []]. Qed.

Lemma ident_start_not_digit c : ident_start c = true → isdigit c = false.
Proof. by destruct c as [[] [] [] [] [] [] [] []]. Qed.

Lemma starts_comment_head c rest :
  starts_comment (String c rest) = true → c = "/"%char.
Proof.
  simpl. destruct rest; [done|]. unfold is_char.
  intros [? _]%andb_prop. by case_bool_decide.
Qed.

Lemma ident_start_char c : ident_start c = true → ident_char c = true.
Proof.
  unfold ident_start, ident_char, isalnum.
  by intros [->| ->]%orb_prop; rewrite ?orb_true_r.
Qed.

(** What [tokenise] stores before the final EOF token. *)
Definition good_token (t : Token) : Prop :=
  type t ≠ TOK_EOF ∧ (1 ≤ line t)%nat ∧ (1 ≤ col t)%nat
  ∧ (String.length (text t) ≤ 255)%nat.

Lemma keyword_type_not_eof x : keyword_type x ≠ TOK_EOF.
Proof. unfold keyword_type. by repeat case_decide. Qed.

Lemma single_char_type_not_eof c ty :
  single_char_type c = Some ty → ty ≠ TOK_EOF.
Proof. unfold single_char_type. repeat case_match; naive_solver. Qed.

Lemma push_token_cases toks tok k r :
  push_token toks tok k = Some r →
  r = LexFail too_many_tokens ∨ k (toks ++ [tok]) = Some r.
Proof. unfold push_token. case_decide; naive_solver. Qed.

Lemma push_token_mono toks tok (k k' : list Token → option lex_result) r :
  (∀ toks', k toks' = Some r → k' toks' = Some r) →
  push_token toks tok k = Some r → push_token toks tok k' = Some r.
Proof. unfold push_token. case_decide; auto. Qed.

Lemma push_token_total toks tok k :
  is_Some (k (toks ++ [tok])) → is_Some (push_token toks tok k).
Proof. unfold push_token. by case_decide. Qed.

(** The end of the source, as an equation. *)
Lemma tokenise_loop_nil fuel ln cl toks :
  tokenise_loop (S fuel) "" ln cl toks =
  if decide (MAX_TOKENS ≤ length toks)%nat then Some LexOverrun
  else Some (LexOk (toks ++ [mkToken TOK_EOF "EOF" 0 ln cl])).
Proof. done. Qed.

(** One round of the loop, as an equation. *)
Lemma tokenise_loop_S fuel c rest ln cl toks :
  tokenise_loop (S fuel) (String c rest) ln cl toks =
  let src := String c rest in
  if is_char c " " || is_char c tab || is_char c carriage_return then
    tokenise_loop fuel rest ln (S cl) toks
  else if is_char c newline then
    tokenise_loop fuel rest (S ln) 1%nat toks
  else if starts_comment src then
    tokenise_loop fuel
      (span (λ d, negb (is_char d newline)) src).2 ln cl toks
  else if ident_start c then
    let txt := strncpy (span ident_char src).1 255 in
    push_token toks (mkToken (keyword_type txt) txt 0 ln cl)
      (tokenise_loop fuel (span ident_char src).2 ln
         (cl + String.length (span ident_char src).1)%nat)
  else if isdigit c then
    if ident_start (peek (span isdigit src).2) then
      Some (LexFail (lexical_error ln cl
        ("invalid token '" +:+ String (peek (span isdigit src).2)
           "' after integer literal")))
    else
      let txt := strncpy (span isdigit src).1 255 in
      push_token toks (mkToken TOK_INTEGER txt (atoi txt) ln cl)
        (tokenise_loop fuel (span isdigit src).2 ln
           (cl + String.length (span isdigit src).1)%nat)
  else
    match single_char_type c with
    | Some ty =>
        push_token toks (mkToken ty (String c "") 0 ln cl)
          (tokenise_loop fuel rest ln (S cl))
    | None =>
        Some (LexFail (lexical_error ln cl
          ("unexpected character '" +:+ String c "'")))
    end.
Proof.
  cbv zeta. change (tokenise_loop (S fuel) (String c rest) ln cl toks) with
    (let src := String c rest in
     if is_char c " " || is_char c tab || is_char c carriage_return then
       tokenise_loop fuel rest ln (S cl) toks
     else if is_char c newline then
       tokenise_loop fuel rest (S ln) 1%nat toks
     else if starts_comment src then
       tokenise_loop fuel
         (span (λ d, negb (is_char d newline)) src).2 ln cl toks
     else if ident_start c then
       let '(lexeme, rest') := span ident_char src in
       let txt := strncpy lexeme 255 in
       push_token toks (mkToken (keyword_type txt) txt 0 ln cl)
         (tokenise_loop fuel rest' ln (cl + String.length lexeme)%nat)
     else if isdigit c then
       let '(lexeme, rest') := span isdigit src in
       if ident_start (peek rest') then
         Some (LexFail (lexical_error ln cl
           ("invalid token '" +:+ String (peek rest')
              "' after integer literal")))
       else
         let txt := strncpy lexeme 255 in
         push_token toks (mkToken TOK_INTEGER txt (atoi txt) ln cl)
           (tokenise_loop fuel rest' ln (cl + String.length lexeme)%nat)
     else
       match single_char_type c with
       | Some ty =>
           push_token toks (mkToken ty (String c "") 0 ln cl)
             (tokenise_loop fuel rest ln (S cl))
       | None =>
           Some (LexFail (lexical_error ln cl
             ("unexpected character '" +:+ String c "'")))
       end).
  cbv zeta.
  destruct (span ident_char (String c rest)), (span isdigit (String c rest)).
  done.
Qed.

(** The loop ends within any fuel above the length of what is left. *)
Lemma tokenise_loop_total fuel src ln cl toks :
  (String.length src < fuel)%nat →
  is_Some (tokenise_loop fuel src ln cl toks).
Proof.
  revert src ln cl toks. induction fuel as [|fuel IH]; [lia|].
  intros [|c rest] ln cl toks Hlen.
  { rewrite tokenise_loop_nil. case_decide; by eexists. }
  rewrite tokenise_loop_S. cbv zeta.
  repeat case_match; try by eexists.
  all: try apply push_token_total.
  all: apply IH; simpl in *; try lia.
  - pose proof (starts_comment_head c rest ltac:(done)) as ->.
    pose proof (span_length_lt (λ d, negb (is_char d newline)) "/" rest
                  eq_refl). simpl in *. lia.
  - pose proof (span_length_lt ident_char c rest
                  ltac:(by apply ident_start_char)). simpl in *. lia.
  - pose proof (span_length_lt isdigit c rest ltac:(done)). simpl in *. lia.
Qed.

Lemma tokenise_loop_fuel_mono fuel fuel' src ln cl toks r :
  (fuel ≤ fuel')%nat →
  tokenise_loop fuel src ln cl toks = Some r →
  tokenise_loop fuel' src ln cl toks = Some r.
Proof.
  revert fuel' src ln cl toks. induction fuel as [|fuel IH]; [done|].
  intros [|fuel'] [|c rest] ln cl toks Hle H; [lia | lia | |].
  { by rewrite tokenise_loop_nil in H |- *. }
  rewrite tokenise_loop_S in H |- *. cbv zeta in *.
  repeat case_match; try done;
    try (eapply push_token_mono; [|done]; intros);
    (apply IH; [lia | done]).
Qed.

(** The loop of [tokenise] on [src0] arrives, after some rounds, at its
    head with [src] left to read, at line [ln] and column [cl], and with
    [toks] stored. *)
Definition loop_head (src0 src : string) (ln cl : nat) (toks : list Token)
    : Prop :=
  ∃ n, ∀ fuel,
    tokenise_loop (n + fuel) src0 1 1 [] = tokenise_loop fuel src ln cl toks.

Lemma loop_head_result src0 src ln cl toks r :
  loop_head src0 src ln cl toks →
  tokenise_loop 1 src ln cl toks = Some r → tokenise src0 = r.
Proof.
  intros [n Hn] Hr. unfold tokenise.
  destruct (tokenise_loop_total (S (String.length src0)) src0 1 1 [])
    as [r' Hr']; [lia|].
  rewrite Hr'. f_equal.
  apply (tokenise_loop_fuel_mono _ (n + (1 + S (String.length src0)))) in Hr';
    [|lia].
  rewrite Hn in Hr'.
  apply (tokenise_loop_fuel_mono _ (1 + S (String.length src0))) in Hr;
    [|lia].
  congruence.
Qed.

(** A token array as [tokenise] leaves it: good tokens, then one EOF. *)
Definition tokenised (toks : list Token) : Prop :=
  ∃ body eof, toks = body ++ [eof] ∧ Forall good_token body
    ∧ type eof = TOK_EOF ∧ (1 ≤ line eof)%nat ∧ (1 ≤ col eof)%nat.

(** The only lines the tokeniser writes to standard error. *)
Definition lexical_diagnostic (msg : string) : Prop :=
  ∃ ln cl what, msg = lexical_error ln cl what ∧ (1 ≤ ln)%nat ∧ (1 ≤ cl)%nat.

Definition lex_result_ok (r : lex_result) : Prop :=
  match r with
  | LexOk toks => tokenised toks ∧ (length toks ≤ MAX_TOKENS)%nat
  | LexFail msg => lexical_diagnostic msg ∨ msg = too_many_tokens
  | LexOverrun => True
  end.

Lemma tokenise_loop_inv fuel src ln cl toks r :
  Forall good_token toks → (1 ≤ ln)%nat → (1 ≤ cl)%nat →
  tokenise_loop fuel src ln cl toks = Some r → lex_result_ok r.
Proof.
  revert src ln cl toks. induction fuel as [|fuel IH]; [done|].
  intros [|c rest] ln cl toks Htoks Hln Hcl H.
  { rewrite tokenise_loop_nil in H. case_decide; simplify_eq; [done|].
    split; [by exists toks, (mkToken TOK_EOF "EOF" 0 ln cl)|].
    rewrite length_app. simpl. lia. }
  rewrite tokenise_loop_S in H. cbv zeta in H.
  repeat case_match; simplify_eq;
    try (apply push_token_cases in H as [->|H]; [by right|]);
    try (by left; eexists _, _, _);
    try (eapply IH; [| | |done]; try done; try lia).
  - apply Forall_app. split; [done|]. apply Forall_singleton.
    split_and!; simpl; try done.
    + apply keyword_type_not_eof.
    + apply strncpy_length.
  - apply Forall_app. split; [done|]. apply Forall_singleton.
    split_and!; simpl; try done. apply strncpy_length.
  - apply Forall_app. split; [done|]. apply Forall_singleton.
    split_and!; simpl; try done; try lia.
    by eapply single_char_type_not_eof.
Qed.

Lemma tokenise_spec src : lex_result_ok (tokenise src).
Proof.
  unfold tokenise.
  destruct (tokenise_loop_total (S (String.length src)) src 1 1 [])
    as [r Hr]; [lia|].
  rewrite Hr. eapply tokenise_loop_inv; [| | |done]; [done|lia|lia].
Qed.

Lemma tokenise_LexOk src toks : tokenise src = LexOk toks → tokenised toks.
Proof.
  intros H. pose proof (tokenise_spec src) as Hs. rewrite H in Hs. apply Hs.
Qed.

(** The array that [tokenise] returns fits into [tokens[MAX_TOKENS]]. *)
Lemma tokenise_capacity src toks :
  tokenise src = LexOk toks → (length toks ≤ MAX_TOKENS)%nat.
Proof.
  intros H. pose proof (tokenise_spec src) as Hs. rewrite H in Hs. apply Hs.
Qed.

(** ** The offending token

    When the parser, in state [s], complains about the token at index [p]
    of the array, that token is: the token under the cursor, which is not
    the one expected, starts no expression, or starts no statement; or the
    identifier just read, which is not in the symbol table; or a [/] read
    before, whose right operand, the factor read from behind it up to the
    cursor, is 0. *)
Inductive offence (tokens : list Token) (s : State) (p : nat)
    : string → string → Prop :=
  | offence_expected ty :
      p = pos s → type (token_at tokens p) ≠ ty →
      offence tokens s p "Syntax"
        ("expected " +:+ token_type_name ty +:+ " but found "
         +:+ found (token_at tokens p))
  | offence_no_expression :
      p = pos s →
      type (token_at tokens p) ∉ [TOK_INTEGER; TOK_IDENTIFIER; TOK_LPAREN] →
      offence tokens s p "Syntax"
        ("expected expression but found " +:+ found (token_at tokens p))
  | offence_no_statement :
      p = pos s → type (token_at tokens p) ∉ [TOK_INT; TOK_PRINT] →
      offence tokens s p "Syntax"
        ("expected 'int' or 'print' at start of statement but found "
         +:+ found (token_at tokens p))
  | offence_undeclared :
      pos s = S p → type (token_at tokens p) = TOK_IDENTIFIER →
      sym_lookup (sym_table s) (text (token_at tokens p)) = None →
      offence tokens s p "Semantic"
        ("undeclared variable '" +:+ text (token_at tokens p) +:+ "'")
  | offence_division fuel s1 :
      (p < pos s)%nat → type (token_at tokens p) = TOK_SLASH →
      pos s1 = S p → parse_factor tokens fuel s1 = Done (0, s) →
      offence tokens s p "Runtime" "division by zero".

Lemma offence_complaint tokens s p category msg :
  offence tokens s p category msg →
  complaint (token_at tokens p) category msg.
Proof. destruct 1; by constructor. Qed.

Lemma offence_behind tokens s p category msg :
  offence tokens s p category msg → (p ≤ pos s)%nat.
Proof. destruct 1; lia. Qed.

(** ** A proof principle for everything the parser does to its state

    Whatever relation between the state before and the state after is
    reflexive, transitive, and holds for consuming a token, for reporting
    an offending token, with the line and column of that token, and for the
    two gated semantic actions, the declaration being that of an
    identifier read before, holds for every parsing procedure.  The cursor
    never moves backwards and the error flag is never cleared. *)

Section trace.

Context (tokens : list Token).
Context (R : State → State → Prop).

Hypothesis R_refl : ∀ s, R s s.
Hypothesis R_trans : ∀ s1 s2 s3,
  (pos s1 ≤ pos s2)%nat → R s1 s2 → R s2 s3 → R s1 s3.
Hypothesis R_advance : ∀ s,
  type (current_token tokens s) ≠ TOK_EOF → R s (set_pos (S (pos s)) s).
Hypothesis R_report : ∀ s p category msg,
  offence tokens s p category msg →
  R s (report (located category (line (token_at tokens p))
                 (col (token_at tokens p)) msg) s).

Definition eff (s s' : State) : Prop :=
  R s s' ∧ (pos s ≤ pos s')%nat ∧ (had_error s = true → had_error s' = true).

Lemma eff_refl s : eff s s.
Proof. split_and!; [apply R_refl | lia | done]. Qed.

Lemma eff_trans s1 s2 s3 : eff s1 s2 → eff s2 s3 → eff s1 s3.
Proof.
  intros (? & ? & ?) (? & ? & ?).
  split_and!; [by eapply R_trans | lia | auto].
Qed.

Lemma eff_advance s : eff s (advance tokens s).2.
Proof.
  destruct (decide (type (current_token tokens s) = TOK_EOF)).
  - rewrite advance_eof by done. apply eff_refl.
  - rewrite advance_not_eof by done.
    split_and!; [by apply R_advance | simpl; lia | done].
Qed.

Lemma eff_report s p category msg :
  offence tokens s p category msg →
  eff s (report (located category (line (token_at tokens p))
                   (col (token_at tokens p)) msg) s).
Proof.
  intros. split_and!; [by apply R_report | rewrite pos_report; lia | done].
Qed.

Lemma eff_expect ty s : eff s (expect tokens ty s).2.
Proof.
  unfold expect. case_decide; [apply eff_advance|].
  by apply (eff_report s (pos s)), offence_expected.
Qed.

Lemma expression_effects fuel :
  (∀ s v s', parse_factor tokens fuel s = Done (v, s') → eff s s')
  ∧ (∀ lhs s v s', parse_term_loop tokens fuel lhs s = Done (v, s') → eff s s')
  ∧ (∀ s v s', parse_term tokens fuel s = Done (v, s') → eff s s')
  ∧ (∀ lhs s v s', parse_expr_loop tokens fuel lhs s = Done (v, s') → eff s s')
  ∧ (∀ s v s', parse_expr tokens fuel s = Done (v, s') → eff s s').
Proof.
  induction fuel as [|fuel (IHf & IHtl & IHt & IHel & IHe)];
    [by repeat split|].
  split_and!.
  - intros s v s' H. rewrite parse_factor_cases in H. cbv zeta in H.
    repeat case_decide.
    + simplify_eq. apply eff_advance.
    + (* identifier *)
      destruct (sym_lookup _ _) eqn:Hlook; simplify_eq; [apply eff_advance|].
      eapply eff_trans; [apply eff_advance|].
      apply (eff_report _ (pos s)), offence_undeclared; [|done..].
      rewrite advance_not_eof by congruence. done.
    + (* parenthesised expression *)
      bind_inv H. simplify_eq.
      eapply eff_trans; [apply eff_advance|].
      eapply eff_trans; [by eapply IHe|]. apply eff_expect.
    + simplify_eq.
      apply (eff_report _ (pos s)), offence_no_expression; [done|].
      not_listed.
    + simplify_eq. eapply eff_trans; [|apply eff_advance].
      apply (eff_report _ (pos s)), offence_no_expression; [done|].
      not_listed.
  - intros lhs s v s' H. rewrite parse_term_loop_S in H.
    destruct (check _ TOK_STAR s || check _ TOK_SLASH s) eqn:Hop; simplify_eq;
      [|apply eff_refl].
    rewrite advance_eta in H. cbv beta iota in H. bind_inv H.
    pose proof (IHf _ _ _ E) as Hrhs.
    assert (eff s s0) as Hs1 by (eapply eff_trans; [apply eff_advance|done]).
    assert (type (current_token tokens s) ≠ TOK_STAR →
            type (current_token tokens s) = TOK_SLASH) as Hslash.
    { intros ?. unfold check in Hop.
      apply orb_prop in Hop as [Hop|Hop]; by apply bool_decide_eq_true in Hop. }
    repeat case_decide.
    + eapply eff_trans; [done|]. by eapply IHtl.
    + eapply eff_trans; [done|].
      eapply eff_trans; [|by eapply IHtl].
      assert (pos (advance tokens s).2 = S (pos s)) as Hnext
        by (rewrite advance_not_eof by (rewrite Hslash; done); done).
      subst z.
      apply (eff_report _ (pos s)),
        (offence_division _ _ _ fuel (advance tokens s).2);
        [|by apply Hslash|done..].
      destruct Hrhs as (_ & Hle & _). lia.
    + div_inv H. eapply eff_trans; [done|]. by eapply IHtl.
  - intros s v s' H. rewrite parse_term_S in H. bind_inv H.
    eapply eff_trans; [by eapply IHf | by eapply IHtl].
  - intros lhs s v s' H. rewrite parse_expr_loop_S in H.
    destruct (check _ TOK_PLUS s || check _ TOK_MINUS s); simplify_eq;
      [|apply eff_refl].
    rewrite advance_eta in H. cbv beta iota in H. bind_inv H.
    apply IHt in E.
    eapply eff_trans; [apply eff_advance|].
    eapply eff_trans; [done|].
    case_decide; by eapply IHel.
  - intros s v s' H. rewrite parse_expr_S in H. bind_inv H.
    eapply eff_trans; [by eapply IHt | by eapply IHel].
Qed.

Hypothesis R_print : ∀ s (val : Z),
  had_error s = false → R s (printf (pretty val) s).
Hypothesis R_declare : ∀ s p (val : Z),
  had_error s = false →
  (p < pos s)%nat → type (token_at tokens p) = TOK_IDENTIFIER →
  R s (match sym_declare (text (token_at tokens p))
               (line (token_at tokens p)) s with
       | (Some v, s1) => store_value v val s1
       | (None, s1) => set_had_error s1
       end).

Lemma had_error_declare s nm ln val :
  had_error s = true →
  had_error (match sym_declare nm ln s with
             | (Some v, s1) => store_value v val s1
             | (None, s1) => set_had_error s1
             end) = true.
Proof. unfold sym_declare. by repeat case_match; simplify_eq. Qed.

Lemma pos_declare s nm ln val :
  pos (match sym_declare nm ln s with
       | (Some v, s1) => store_value v val s1
       | (None, s1) => set_had_error s1
       end) = pos s.
Proof. unfold sym_declare. by repeat case_match; simplify_eq. Qed.

Lemma parse_declaration_effects fuel s s' :
  parse_declaration tokens fuel s = Done s' → eff s s'.
Proof.
  unfold parse_declaration. intros H.
  set (s1 := (expect tokens TOK_INT s).2) in *.
  destruct (expect tokens TOK_IDENTIFIER s1) as [id s2] eqn:Hid.
  bind_inv H. apply expression_effects in E.
  assert (eff s2 s0) as Hs20.
  { eapply eff_trans; [apply eff_expect | done]. }
  assert (eff s s0) as Hs0.
  { eapply eff_trans; [apply (eff_expect TOK_INT)|].
    eapply eff_trans; [apply (eff_expect TOK_IDENTIFIER)|].
    fold s1. by rewrite Hid. }
  pose proof (eff_expect TOK_SEMICOLON s0) as Hs5.
  eapply eff_trans; [done|].
  eapply eff_trans; [done|].
  destruct (had_error _) eqn:Herr; simplify_eq; [apply eff_refl|].
  (* the flag is clear: the name was an identifier *)
  assert (id = token_at tokens (pos s1) ∧ pos s2 = S (pos s1)
          ∧ type (token_at tokens (pos s1)) = TOK_IDENTIFIER)
    as (-> & Hnext & Hty).
  { destruct (eff_trans _ _ _ Hs20 Hs5) as (_ & _ & Hflag).
    unfold expect in Hid.
    destruct (decide (type (current_token tokens s1) = TOK_IDENTIFIER))
      as [Hty|Hty].
    - rewrite advance_eta in Hid. injection Hid as <- <-.
      rewrite decide_False by congruence. done.
    - injection Hid as <- <-. rewrite Hflag in Herr by done. done. }
  assert (pos s1 < pos (expect tokens TOK_SEMICOLON s0).2)%nat as Hp.
  { destruct (eff_trans _ _ _ Hs20 Hs5) as (_ & Hle & _). lia. }
  pose proof (R_declare _ _ z Herr Hp Hty) as HR.
  pose proof (pos_declare (expect tokens TOK_SEMICOLON s0).2
                (text (token_at tokens (pos s1)))
                (line (token_at tokens (pos s1))) z) as Hq.
  destruct (sym_declare _ _ _) as [[v|] s3]; simplify_eq;
    (split_and!; [done | lia | congruence]).
Qed.

Lemma parse_print_effects fuel s s' :
  parse_print tokens fuel s = Done s' → eff s s'.
Proof.
  unfold parse_print. intros H. bind_inv H. apply expression_effects in E.
  eapply eff_trans; [apply eff_expect|].
  eapply eff_trans; [apply eff_expect|].
  eapply eff_trans; [done|].
  eapply eff_trans; [apply eff_expect|].
  eapply eff_trans; [apply eff_expect|].
  destruct (had_error _) eqn:Herr; simplify_eq; [apply eff_refl|].
  split_and!; [by apply R_print | simpl; lia | done].
Qed.

Lemma parse_stmt_effects fuel s s' :
  parse_stmt tokens fuel s = Done s' → eff s s'.
Proof.
  unfold parse_stmt. intros H.
  destruct (decide (_ = TOK_INT)); [by eapply parse_declaration_effects|].
  destruct (decide (_ = TOK_PRINT)); [by eapply parse_print_effects|].
  assert (eff s (report (located "Syntax" (line (current_token tokens s))
            (col (current_token tokens s))
            ("expected 'int' or 'print' at start of statement but found "
             +:+ found (current_token tokens s))) s))
    by (apply (eff_report _ (pos s)), offence_no_statement; [done|];
        not_listed).
  destruct (decide (_ = TOK_EOF)); simplify_eq; [done|].
  eapply eff_trans; [done | apply eff_advance].
Qed.

Lemma parse_program_loop_effects fuel s s' :
  parse_program_loop tokens fuel s = Done s' → eff s s'.
Proof.
  revert s. induction fuel as [|fuel IH]; [done|]. intros s H.
  rewrite parse_program_loop_S in H.
  destruct (check _ _ _); simplify_eq; [apply eff_expect|].
  apply bind_Done in H as (s1 & Hs1 & H).
  eapply eff_trans; [by eapply parse_stmt_effects | by apply IH].
Qed.

Lemma operation_trace op s s' :
  run_operation tokens op s = Done s' → eff s s'.
Proof.
  destruct op; simpl; intros H; simplify_eq;
    try (apply fmap_Done in H as ([v s1] & H & ->); simpl;
         destruct (expression_effects fuel) as (?&?&?&?&?); by eauto).
  - apply eff_advance.
  - apply eff_expect.
  - by eapply parse_declaration_effects.
  - by eapply parse_print_effects.
  - by eapply parse_stmt_effects.
  - by eapply parse_program_loop_effects.
Qed.

End trace.

(** The principle for relations that do not look at what is reported and
    declared: a complaint about a token that is not ahead of the cursor,
    the declaration of any name. *)
Lemma operation_effects tokens (R : State → State → Prop) :
  (∀ s, R s s) →
  (∀ s1 s2 s3, (pos s1 ≤ pos s2)%nat → R s1 s2 → R s2 s3 → R s1 s3) →
  (∀ s, type (current_token tokens s) ≠ TOK_EOF →
        R s (set_pos (S (pos s)) s)) →
  (∀ s p category msg,
     (p ≤ pos s)%nat → complaint (token_at tokens p) category msg →
     R s (report (located category (line (token_at tokens p))
                    (col (token_at tokens p)) msg) s)) →
  (∀ s (val : Z), had_error s = false → R s (printf (pretty val) s)) →
  (∀ s nm ln (val : Z),
     had_error s = false →
     R s (match sym_declare nm ln s with
          | (Some v, s1) => store_value v val s1
          | (None, s1) => set_had_error s1
          end)) →
  ∀ op s s',
    run_operation tokens op s = Done s' → R s s' ∧ (pos s ≤ pos s')%nat.
Proof.
  intros R_refl R_trans R_advance R_report R_print R_declare op s s' H.
  destruct (operation_trace tokens R) with (op := op) (s := s) (s' := s')
    as (HR & Hpos & _); try done.
  - intros s0 p category msg Hoff. apply R_report.
    + by eapply offence_behind.
    + by eapply offence_complaint.
  - intros s0 p val Hflag _ _. by apply R_declare.
Qed.

(** ** The cursor stays inside the token array *)

Section cursor.

Context (tokens : list Token).
Hypothesis Heof : eof_terminated tokens.

Lemma in_bounds_lookup s :
  in_bounds tokens s → tokens !! pos s = Some (current_token tokens s).
Proof.
  intros Hs. unfold current_token, token_at.
  by destruct (lookup_lt_is_Some_2 tokens (pos s) Hs) as [t ->].
Qed.

Lemma in_bounds_next s :
  in_bounds tokens s → type (current_token tokens s) ≠ TOK_EOF →
  (S (pos s) < length tokens)%nat.
Proof.
  destruct Heof as (body & eof & -> & Heof'). unfold in_bounds.
  rewrite length_app. simpl. intros Hs Hty.
  destruct (decide (pos s = length body)) as [Hp|?]; [|lia].
  exfalso. apply Hty. unfold current_token, token_at.
  by rewrite Hp, list_lookup_middle.
Qed.

Definition keeps_bounds (s s' : State) : Prop :=
  in_bounds tokens s → in_bounds tokens s'.

Lemma cursor_effects op s s' :
  run_operation tokens op s = Done s' →
  in_bounds tokens s → in_bounds tokens s' ∧ (pos s ≤ pos s')%nat.
Proof.
  intros H Hs.
  destruct (operation_effects tokens keeps_bounds) with (op := op)
    (s := s) (s' := s') as [HR ?]; unfold keeps_bounds in *; try done.
  - auto.
  - intros. by apply in_bounds_next.
  - intros ????? Hin. unfold in_bounds. by rewrite pos_declare.
  - by split; [apply HR|].
Qed.

Lemma parse_factor_cursor fuel s v s' :
  parse_factor tokens fuel s = Done (v, s') → in_bounds tokens s →
  in_bounds tokens s' ∧ (pos s ≤ pos s')%nat.
Proof.
  intros H. apply (cursor_effects (op_parse_factor fuel)). simpl. by rewrite H.
Qed.

Lemma parse_term_cursor fuel s v s' :
  parse_term tokens fuel s = Done (v, s') → in_bounds tokens s →
  in_bounds tokens s' ∧ (pos s ≤ pos s')%nat.
Proof.
  intros H. apply (cursor_effects (op_parse_term fuel)). simpl. by rewrite H.
Qed.

Lemma parse_expr_cursor fuel s v s' :
  parse_expr tokens fuel s = Done (v, s') → in_bounds tokens s →
  in_bounds tokens s' ∧ (pos s ≤ pos s')%nat.
Proof.
  intros H. apply (cursor_effects (op_parse_expr fuel)). simpl. by rewrite H.
Qed.

(** ** Termination: fuel linear in the tokens left is always enough *)

Lemma check_op_not_eof ty1 ty2 s :
  check tokens ty1 s || check tokens ty2 s = true →
  ty1 ≠ TOK_EOF → ty2 ≠ TOK_EOF →
  type (current_token tokens s) ≠ TOK_EOF.
Proof.
  unfold check. intros [H|H]%orb_prop ??; apply bool_decide_eq_true in H;
    congruence.
Qed.

Lemma expression_total n s :
  in_bounds tokens s → (length tokens - pos s ≤ n)%nat →
  (∀ fuel, (4 * n + 1 ≤ fuel)%nat → finishes (parse_factor tokens fuel s))
  ∧ (∀ fuel lhs, (4 * n + 1 ≤ fuel)%nat →
       finishes (parse_term_loop tokens fuel lhs s))
  ∧ (∀ fuel, (4 * n + 2 ≤ fuel)%nat → finishes (parse_term tokens fuel s))
  ∧ (∀ fuel lhs, (4 * n + 2 ≤ fuel)%nat →
       finishes (parse_expr_loop tokens fuel lhs s))
  ∧ (∀ fuel, (4 * n + 3 ≤ fuel)%nat → finishes (parse_expr tokens fuel s)).
Proof.
  revert s. induction n as [|m IH].
  { intros s Hs ?. unfold in_bounds in Hs. lia. }
  assert (∀ s, in_bounds tokens s → (length tokens - pos s ≤ S m)%nat →
    ∀ fuel, (4 * S m + 1 ≤ fuel)%nat →
    finishes (parse_factor tokens fuel s)) as Hf.
  { intros s Hs Hr [|fuel] Hfuel; [lia|].
    rewrite parse_factor_cases. cbv zeta. repeat case_decide; try done.
    - by destruct (sym_lookup _ _).
    - rewrite advance_not_eof by congruence.
      pose proof (in_bounds_next s Hs ltac:(congruence)).
      destruct (IH (set_pos (S (pos s)) s)) as (_ & _ & _ & _ & He);
        [done | simpl; lia|].
      apply bind_finishes; [apply He; lia|]. by intros [v s1] _. }
  assert (∀ s, in_bounds tokens s → (length tokens - pos s ≤ S m)%nat →
    ∀ fuel lhs, (4 * S m + 1 ≤ fuel)%nat →
    finishes (parse_term_loop tokens fuel lhs s)) as Htl.
  { intros s Hs Hr [|fuel] lhs Hfuel; [lia|].
    rewrite parse_term_loop_S.
    destruct (_ || _) eqn:Hop; [|done].
    apply check_op_not_eof in Hop; [|done..].
    rewrite advance_eta, advance_not_eof by done. cbv beta iota.
    pose proof (in_bounds_next s Hs Hop) as Hs1.
    destruct (IH (set_pos (S (pos s)) s)) as (Hf1 & _); [done | simpl; lia|].
    apply bind_finishes; [apply Hf1; lia|]. intros [rhs s2] E.
    apply parse_factor_cursor in E as [Hs2 Hle]; [|done]. simpl in Hle.
    destruct (IH s2) as (_ & Htl2 & _); [done | lia|].
    destruct (IH (report (located "Runtime"
                (line (current_token tokens s))
                (col (current_token tokens s)) "division by zero") s2))
      as (_ & Htl3 & _); [done | simpl; lia|].
    repeat case_decide; try (first [apply Htl2 | apply Htl3]; lia).
    apply bind_finishes; [unfold int_div; by case_decide|].
    intros q _. apply Htl2. lia. }
  assert (∀ s, in_bounds tokens s → (length tokens - pos s ≤ S m)%nat →
    ∀ fuel, (4 * S m + 2 ≤ fuel)%nat →
    finishes (parse_term tokens fuel s)) as Ht.
  { intros s Hs Hr [|fuel] Hfuel; [lia|]. rewrite parse_term_S.
    apply bind_finishes; [apply Hf; [done | done | lia]|]. intros [lhs s1] E.
    apply parse_factor_cursor in E as [Hs1 Hle]; [|done].
    apply Htl; [done | lia | lia]. }
  assert (∀ s, in_bounds tokens s → (length tokens - pos s ≤ S m)%nat →
    ∀ fuel lhs, (4 * S m + 2 ≤ fuel)%nat →
    finishes (parse_expr_loop tokens fuel lhs s)) as Hel.
  { intros s Hs Hr [|fuel] lhs Hfuel; [lia|].
    rewrite parse_expr_loop_S.
    destruct (_ || _) eqn:Hop; [|done].
    apply check_op_not_eof in Hop; [|done..].
    rewrite advance_eta, advance_not_eof by done. cbv beta iota.
    pose proof (in_bounds_next s Hs Hop) as Hs1.
    destruct (IH (set_pos (S (pos s)) s)) as (_ & _ & Ht1 & _);
      [done | simpl; lia|].
    apply bind_finishes; [apply Ht1; lia|]. intros [rhs s2] E.
    apply parse_term_cursor in E as [Hs2 Hle]; [|done]. simpl in Hle.
    destruct (IH s2) as (_ & _ & _ & Hel2 & _); [done | lia|].
    case_decide; apply Hel2; lia. }
  intros s Hs Hr. split_and!; auto.
  intros [|fuel] Hfuel; [lia|]. rewrite parse_expr_S.
  apply bind_finishes; [apply Ht; [done | done | lia]|]. intros [lhs s1] E.
  apply parse_term_cursor in E as [Hs1 Hle]; [|done].
  apply Hel; [done | lia | lia].
Qed.

Lemma parse_expr_total fuel s :
  in_bounds tokens s → (4 * (length tokens - pos s) + 3 ≤ fuel)%nat →
  finishes (parse_expr tokens fuel s).
Proof.
  intros Hs Hfuel.
  by apply (expression_total (length tokens - pos s) s Hs (le_n _)).
Qed.

(** A statement started on a token other than EOF consumes it. *)
Lemma parse_stmt_progress fuel s s' :
  in_bounds tokens s → type (current_token tokens s) ≠ TOK_EOF →
  parse_stmt tokens fuel s = Done s' →
  in_bounds tokens s' ∧ (pos s < pos s')%nat.
Proof.
  intros Hs Hty H.
  split; [by apply (cursor_effects (op_parse_stmt fuel) s s')|].
  revert H. unfold parse_stmt, parse_declaration, parse_print.
  assert (in_bounds tokens (set_pos (S (pos s)) s)) as Hs1
    by by apply in_bounds_next.
  repeat case_decide; try done.
  - rewrite (expect_match _ TOK_INT) by done. rewrite advance_not_eof by done.
    destruct (expect tokens TOK_IDENTIFIER _) as [id s2] eqn:Hid.
    intros Hrun. bind_inv Hrun.
    pose proof (cursor_effects (op_expect TOK_IDENTIFIER) _ s2
                  ltac:(simpl; by rewrite Hid) Hs1) as [Hs2 Hle2].
    pose proof (cursor_effects (op_expect TOK_ASSIGN) s2 _ eq_refl Hs2)
      as [Hs3 Hle3].
    apply parse_expr_cursor in E as [Hs4 Hle4]; [|done].
    pose proof (cursor_effects (op_expect TOK_SEMICOLON) s0 _ eq_refl Hs4)
      as [Hs5 Hle5].
    pose proof (pos_declare (expect tokens TOK_SEMICOLON s0).2
                  (text id) (line id) z) as Hp.
    simpl in *. destruct (had_error _); simplify_eq; [lia|].
    destruct (sym_declare _ _ _) as [[v|] s6]; simplify_eq; lia.
  - rewrite (expect_match _ TOK_PRINT) by done. rewrite advance_not_eof by done.
    intros Hrun. bind_inv Hrun.
    pose proof (cursor_effects (op_expect TOK_LPAREN) _ _ eq_refl Hs1)
      as [Hs2 Hle2].
    apply parse_expr_cursor in E as [Hs3 Hle3]; [|done].
    pose proof (cursor_effects (op_expect TOK_RPAREN) s0 _ eq_refl Hs3)
      as [Hs4 Hle4].
    pose proof (cursor_effects (op_expect TOK_SEMICOLON) _ _ eq_refl Hs4)
      as [Hs5 Hle5].
    simpl in *. destruct (had_error _); simplify_eq; simpl; lia.
  - intros. simplify_eq. rewrite advance_not_eof by done. simpl. lia.
Qed.

Lemma parse_stmt_total fuel s :
  in_bounds tokens s → (4 * (length tokens - pos s) + 3 ≤ fuel)%nat →
  finishes (parse_stmt tokens fuel s).
Proof.
  intros Hs Hfuel. unfold parse_stmt, parse_declaration, parse_print.
  repeat case_decide; try done.
  - destruct (expect tokens TOK_IDENTIFIER _) as [id s2] eqn:Hid.
    pose proof (cursor_effects (op_expect TOK_INT) s _ eq_refl Hs)
      as [Hs1 Hle1].
    pose proof (cursor_effects (op_expect TOK_IDENTIFIER) _ s2
                  ltac:(simpl; by rewrite Hid) Hs1) as [Hs2 Hle2].
    pose proof (cursor_effects (op_expect TOK_ASSIGN) s2 _ eq_refl Hs2)
      as [Hs3 Hle3].
    apply bind_finishes; [apply parse_expr_total; [done | simpl in *; lia]|].
    intros [v s4] _. destruct (had_error _); [done|].
    by destruct (sym_declare _ _ _) as [[?|] ?].
  - pose proof (cursor_effects (op_expect TOK_PRINT) s _ eq_refl Hs)
      as [Hs1 Hle1].
    pose proof (cursor_effects (op_expect TOK_LPAREN) _ _ eq_refl Hs1)
      as [Hs2 Hle2].
    apply bind_finishes; [apply parse_expr_total; [done | simpl in *; lia]|].
    intros [v s4] _. by destruct (had_error _).
Qed.

(** The statement loop ends: on the EOF token, unless it runs into
    undefined behaviour on its way. *)
Lemma parse_program_loop_total fuel s :
  in_bounds tokens s → (4 * (length tokens - pos s) + 4 ≤ fuel)%nat →
  parse_program_loop tokens fuel s = Undefined
  ∨ ∃ s', parse_program_loop tokens fuel s = Done s'
          ∧ type (current_token tokens s') = TOK_EOF.
Proof.
  revert s. induction fuel as [|fuel IH]; intros s Hs Hfuel; [lia|].
  rewrite parse_program_loop_S. destruct (check _ _ _) eqn:Hc.
  - apply bool_decide_eq_true in Hc. right. eexists. split; [done|].
    by rewrite expect_match, advance_eof.
  - apply bool_decide_eq_false in Hc.
    pose proof (parse_stmt_total fuel s Hs ltac:(lia)) as Hfin.
    apply finishes_cases in Hfin as [E|[s1 E]]; rewrite E; [by left|].
    simpl. apply parse_stmt_progress in E as [Hs1 Hlt]; [|done..].
    apply IH; [done|]. unfold in_bounds in *. lia.
Qed.

End cursor.

Lemma tokenised_eof_terminated toks : tokenised toks → eof_terminated toks.
Proof. intros (body & eof & -> & _ & ? & _). by exists body, eof. Qed.

Lemma initial_in_bounds tokens :
  eof_terminated tokens → in_bounds tokens initial_state.
Proof.
  intros (body & eof & -> & _). unfold in_bounds.
  rewrite length_app. simpl. lia.
Qed.

Lemma parse_program_total tokens :
  eof_terminated tokens →
  parse_program tokens = Undefined
  ∨ ∃ s', parse_program tokens = Done s'
          ∧ type (current_token tokens s') = TOK_EOF.
Proof.
  intros Heof. apply parse_program_loop_total;
    [done | by apply initial_in_bounds | unfold program_fuel; simpl; lia].
Qed.

Lemma parse_program_finishes tokens :
  eof_terminated tokens → finishes (parse_program tokens).
Proof.
  intros Heof. apply finishes_cases.
  destruct (parse_program_total tokens Heof) as [?|(st & ? & _)]; eauto.
Qed.

(** ** What an error leaves untouched *)

Section suppression.

Context (tokens : list Token).

(** Expressions and [expect] never print and never declare; the flag, once
    set, stays set. *)
Definition frame (s s' : State) : Prop :=
  stdout s' = stdout s ∧ sym_table s' = sym_table s
  ∧ (had_error s = true → had_error s' = true).

Lemma frame_refl s : frame s s.
Proof. done. Qed.

Lemma frame_trans s1 s2 s3 : frame s1 s2 → frame s2 s3 → frame s1 s3.
Proof. unfold frame. intros (-> & -> & ?) (-> & -> & ?). auto. Qed.

Lemma expect_frame ty s : frame s (expect tokens ty s).2.
Proof.
  by eapply proj1, (eff_expect tokens frame).
Qed.

Lemma parse_expr_frame fuel s v s' :
  parse_expr tokens fuel s = Done (v, s') → frame s s'.
Proof.
  intros H.
  pose proof (expression_effects tokens frame frame_refl
                (λ a b c _, frame_trans a b c)
                ltac:(done) ltac:(done) fuel) as (_ & _ & _ & _ & He).
  by eapply He.
Qed.

(** Once the flag is set, an operation changes neither stream nor table. *)
Definition muted (s s' : State) : Prop :=
  had_error s = true →
  had_error s' = true ∧ stdout s' = stdout s ∧ sym_table s' = sym_table s.

Lemma operation_muted op s s' :
  run_operation tokens op s = Done s' → muted s s'.
Proof.
  intros H.
  destruct (operation_effects tokens muted) with (op := op) (s := s) (s' := s')
    as [HR _]; unfold muted in *; try done.
  - intros s1 s2 s3 _ H12 H23 H1.
    destruct (H12 H1) as (H2 & ? & ?). destruct (H23 H2) as (? & ? & ?).
    split_and!; congruence.
  - intros ?? Hf Ht. congruence.
  - intros ???? Hf Ht. congruence.
Qed.


End suppression.

(** ** The flag is set exactly when a diagnostic was written *)

Definition flag_tracks_stderr (s : State) : Prop :=
  had_error s = true ↔ stderr s ≠ [].

Lemma snoc_not_nil {A} (l : list A) x : l ++ [x] ≠ [].
Proof. by destruct l. Qed.

Lemma operation_flag tokens op s s' :
  run_operation tokens op s = Done s' →
  flag_tracks_stderr s → flag_tracks_stderr s'.
Proof.
  intros H.
  destruct (operation_effects tokens
              (λ s s', flag_tracks_stderr s → flag_tracks_stderr s'))
    with (op := op) (s := s) (s' := s') as [HR _];
    unfold flag_tracks_stderr in *; try done.
  - auto.
  - intros. rewrite had_error_report, stderr_report.
    split; [intros _; apply snoc_not_nil | done].
  - intros s1 nm ln val Hf Hinv. unfold sym_declare.
    repeat case_match; simplify_eq; simpl; try done;
      (split; [intros _; apply snoc_not_nil | done]).
Qed.

(** Standard error only grows. *)
Lemma operation_stderr_grows tokens op s s' :
  run_operation tokens op s = Done s' →
  ∃ more, stderr s' = stderr s ++ more.
Proof.
  intros H.
  destruct (operation_effects tokens
              (λ s s', ∃ more, stderr s' = stderr s ++ more))
    with (op := op) (s := s) (s' := s') as [HR _]; try done.
  - intros s0. exists []. by rewrite app_nil_r.
  - intros s1 s2 s3 _ [m1 H1] [m2 H2]. exists (m1 ++ m2).
    by rewrite H2, H1, app_assoc.
  - intros. exists []. by rewrite app_nil_r.
  - intros. eexists. apply stderr_report.
  - intros. exists []. by rewrite app_nil_r.
  - intros s0 nm ln val _. unfold sym_declare.
    repeat case_match; simplify_eq; simpl; try (by eexists).
    exists []. by rewrite app_nil_r.
Qed.

Lemma parse_program_flag tokens st :
  parse_program tokens = Done st → flag_tracks_stderr st.
Proof.
  intros H.
  apply (operation_flag tokens (op_parse_program (program_fuel tokens))
           initial_state st H).
  by split.
Qed.

(** ** Streams and table only grow *)

Lemma alter_last {A} (f : A → A) (l : list A) x :
  alter f (length l) (l ++ [x]) = l ++ [f x].
Proof.
  replace (length l) with (length l + 0)%nat by lia.
  by rewrite alter_app_r.
Qed.

(** From [s] to [s'] lines were added to the streams and entries to the
    table, nothing else was changed there, and the flag was raised exactly
    if a line was added to standard error. *)
Definition appends (s s' : State) : Prop :=
  ∃ out err tbl,
    stdout s' = stdout s ++ out ∧ stderr s' = stderr s ++ err
    ∧ sym_table s' = sym_table s ++ tbl
    ∧ had_error s' = had_error s || bool_decide (err ≠ [])
    ∧ Forall (λ v, Parser.declared v = 1) tbl.

Lemma appends_refl s : appends s s.
Proof.
  exists [], [], []. rewrite !app_nil_r.
  rewrite bool_decide_eq_false_2 by (by intros []).
  by rewrite orb_false_r.
Qed.

Lemma appends_trans s1 s2 s3 : appends s1 s2 → appends s2 s3 → appends s1 s3.
Proof.
  intros (o1 & e1 & t1 & Ho1 & He1 & Ht1 & Hf1 & Hd1)
         (o2 & e2 & t2 & Ho2 & He2 & Ht2 & Hf2 & Hd2).
  exists (o1 ++ o2), (e1 ++ e2), (t1 ++ t2).
  rewrite Ho2, He2, Ht2, Ho1, He1, Ht1, !app_assoc.
  split_and!; try done; [|by apply Forall_app].
  rewrite Hf2, Hf1, <-orb_assoc. f_equal.
  destruct e1 as [|x e1], e2 as [|y e2]; simpl;
    repeat first [rewrite bool_decide_eq_false_2 by (by intros [])
                 |rewrite bool_decide_eq_true_2 by done]; done.
Qed.

Lemma appends_report msg s : appends s (report msg s).
Proof.
  exists [], [msg], []. rewrite !app_nil_r.
  rewrite bool_decide_eq_true_2 by done. by rewrite orb_true_r.
Qed.

Lemma operation_appends tokens op s s' :
  run_operation tokens op s = Done s' → appends s s'.
Proof.
  intros H.
  destruct (operation_effects tokens appends) with (op := op) (s := s)
    (s' := s') as [HR _]; try done.
  - apply appends_refl.
  - intros s1 s2 s3 _. apply appends_trans.
  - intros s0 _. exists [], [], []. rewrite !app_nil_r.
    rewrite bool_decide_eq_false_2 by (by intros []).
    by rewrite orb_false_r.
  - intros. apply appends_report.
  - intros s0 val _. exists [pretty val], [], []. rewrite !app_nil_r.
    rewrite bool_decide_eq_false_2 by (by intros []).
    by rewrite orb_false_r.
  - intros s0 nm ln val _. unfold sym_declare.
    destruct (sym_lookup _ _); [apply appends_report|].
    case_decide; [apply appends_report|].
    exists [], [], [mkVariable (strncpy nm 255) val 1].
    unfold store_value. simpl. rewrite alter_last, !app_nil_r.
    rewrite orb_false_r. split_and!; try done. by repeat constructor.
Qed.

(** ** Sample inputs *)

(** The token array of a source text that has no lexical error. *)
Definition tokens_of (src : string) : list Token :=
  match tokenise src with LexOk toks => toks | _ => [] end.

Definition sample_tokens : list Token :=
  Eval vm_compute in
    tokens_of "int a = 2 + 3 * 4; print(a); print((a - 2) / 0); print(a);".

(** The state in which parsing [sample_tokens] ends. *)
Definition sample_final : State :=
  Eval vm_compute in returned initial_state (parse_program sample_tokens).

Lemma eof_terminated_last toks t :
  last toks = Some t → type t = TOK_EOF → eof_terminated toks.
Proof.
  intros Hlast Ht. apply last_Some in Hlast as [body ->]. by exists body, t.
Qed.

(** ** Termination of [parse_program] *)

(** C9: on a token array that ends with EOF, [parse_program] terminates:
    it returns with the cursor on EOF, unless a division on its way is
    undefined ([INT_MIN / -1], on which the process is killed); the fuel
    given by [program_fuel] is enough and so is any fuel linear in the
    tokens left; a statement started on a token other than EOF moves the
    cursor forward; the two recovery paths (unexpected statement start,
    unexpected factor start) skip exactly the offending token; and at EOF
    the loop stops with [expect(TOK_EOF)] matching, which leaves the state
    as it is. *)
Theorem parse_program_terminates (tokens : list Token) :
  eof_terminated tokens →
  (parse_program tokens = Undefined
   ∨ ∃ s', parse_program tokens = Done s'
           ∧ type (current_token tokens s') = TOK_EOF)
  ∧ (∀ fuel s, in_bounds tokens s →
       (4 * (length tokens - pos s) + 4 ≤ fuel)%nat →
       parse_program_loop tokens fuel s = Undefined
       ∨ ∃ s', parse_program_loop tokens fuel s = Done s'
               ∧ type (current_token tokens s') = TOK_EOF)
  ∧ (∀ fuel s s', in_bounds tokens s →
       type (current_token tokens s) ≠ TOK_EOF →
       parse_stmt tokens fuel s = Done s' → (pos s < pos s')%nat)
  ∧ (∀ fuel s,
       type (current_token tokens s) ∉ [TOK_INT; TOK_PRINT; TOK_EOF] →
       ∃ s', parse_stmt tokens fuel s = Done s' ∧ pos s' = S (pos s))
  ∧ (∀ fuel s,
       type (current_token tokens s)
         ∉ [TOK_INTEGER; TOK_IDENTIFIER; TOK_LPAREN; TOK_EOF] →
       ∃ s', parse_factor tokens (S fuel) s = Done (0, s')
             ∧ pos s' = S (pos s))
  ∧ (∀ fuel s, type (current_token tokens s) = TOK_EOF →
       parse_program_loop tokens (S fuel) s = Done s).
Proof.
  intros Heof. split_and!.
  - by apply parse_program_total.
  - intros. by apply parse_program_loop_total.
  - intros fuel s s' Hs Hty H. by eapply parse_stmt_progress.
  - intros fuel s Hty. unfold parse_stmt.
    rewrite !not_elem_of_cons in Hty. destruct Hty as (? & ? & ? & _).
    repeat case_decide; try done. eexists. split; [done|].
    by rewrite advance_not_eof.
  - intros fuel s Hty. rewrite parse_factor_cases. cbv zeta.
    rewrite !not_elem_of_cons in Hty. destruct Hty as (? & ? & ? & ? & _).
    repeat case_decide; try done. eexists. split; [done|].
    by rewrite advance_not_eof.
  - intros fuel s Hty. rewrite parse_program_loop_S. unfold check.
    rewrite bool_decide_eq_true_2 by done.
    by rewrite expect_match, advance_eof.
Qed.

Lemma parse_program_terminates_witness :
  parse_program sample_tokens = Undefined
  ∨ ∃ s', parse_program sample_tokens = Done s'
          ∧ type (current_token sample_tokens s') = TOK_EOF.
Proof.
  refine (proj1 (parse_program_terminates sample_tokens _)).
  eapply eof_terminated_last; [vm_compute; reflexivity | reflexivity].
Defined.

(** ** The cursor and the final EOF token *)

(** C10: every parser operation started with the cursor inside a token
    array that ends with EOF leaves it inside, never behind where it was;
    [current_token] then reads an entry of the array, and on an EOF token
    [advance] leaves the state, cursor included, as it is. *)
Theorem cursor_never_passes_eof (tokens : list Token) op s s' :
  eof_terminated tokens → in_bounds tokens s →
  run_operation tokens op s = Done s' →
  (pos s ≤ pos s' < length tokens)%nat
  ∧ tokens !! pos s' = Some (current_token tokens s')
  ∧ (type (current_token tokens s') = TOK_EOF →
     (advance tokens s').2 = s').
Proof.
  intros Heof Hs H.
  destruct (cursor_effects tokens Heof op s s' H Hs) as [Hs' Hle].
  split_and!; [done | apply Hs' | by apply in_bounds_lookup|].
  apply advance_eof.
Qed.

Lemma cursor_never_passes_eof_witness :
  (pos initial_state ≤ pos sample_final < length sample_tokens)%nat
  ∧ sample_tokens !! pos sample_final
    = Some (current_token sample_tokens sample_final)
  ∧ (type (current_token sample_tokens sample_final) = TOK_EOF →
     (advance sample_tokens sample_final).2 = sample_final).
Proof.
  refine (cursor_never_passes_eof sample_tokens
            (op_parse_program (program_fuel sample_tokens))
            initial_state sample_final _ _ _).
  - eapply eof_terminated_last; [vm_compute; reflexivity | reflexivity].
  - unfold in_bounds. vm_compute. lia.
  - vm_compute. reflexivity.
Defined.

(** ** The sticky flag silences execution *)



(** ** Exit status *)

(** C3: every run of [main] ends.  It returns 0 exactly when an argument
    is given, the file can be read, tokenisation succeeds and parsing
    returns without having written a diagnostic; it returns 1 when the
    argument is missing, the file is not opened, tokenisation fails, or
    some diagnostic was written during parsing.  The only runs in which
    [main] does not return are those with undefined behaviour: the EOF
    token stored behind the full token array, or a division of [INT_MIN]
    by [-1] during parsing; the process then has no status of its own (it
    is killed by a signal). *)
Theorem exit_status_spec (argv : list string) (fs : string → option string) :
  finishes (main argv fs)
  ∧ ((∃ o, main argv fs = Done o ∧ exit_status o = 0) ↔
     ∃ prog path rest buf toks st,
       argv = prog :: path :: rest ∧ fs path = Some buf
       ∧ tokenise (c_str buf) = LexOk toks
       ∧ parse_program toks = Done st ∧ stderr st = [])
  ∧ (∀ o, main argv fs = Done o → exit_status o ≠ 0 → exit_status o = 1)
  ∧ ((length argv < 2)%nat → ∃ o, main argv fs = Done o ∧ exit_status o = 1)
  ∧ (∀ prog path rest, argv = prog :: path :: rest →
       (fs path = None → ∃ o, main argv fs = Done o ∧ exit_status o = 1)
       ∧ (∀ buf msg, fs path = Some buf →
            tokenise (c_str buf) = LexFail msg →
            ∃ o, main argv fs = Done o ∧ exit_status o = 1)
       ∧ (∀ buf toks st, fs path = Some buf →
            tokenise (c_str buf) = LexOk toks →
            parse_program toks = Done st → stderr st ≠ [] →
            ∃ o, main argv fs = Done o ∧ exit_status o = 1)
       ∧ (∀ buf toks, fs path = Some buf →
            tokenise (c_str buf) = LexOk toks →
            finishes (parse_program toks)))
  ∧ (main argv fs = Undefined ↔
     ∃ prog path rest buf,
       argv = prog :: path :: rest ∧ fs path = Some buf
       ∧ (tokenise (c_str buf) = LexOverrun
          ∨ ∃ toks, tokenise (c_str buf) = LexOk toks
                    ∧ parse_program toks = Undefined)).
Proof.
  assert (∀ toks st, parse_program toks = Done st →
            (had_error st = false ↔ stderr st = [])) as Hflag.
  { intros toks st H. destruct (parse_program_flag toks st H) as [H1 H2].
    destruct (had_error st), (stderr st); naive_solver. }
  assert (∀ buf toks, tokenise (c_str buf) = LexOk toks →
            finishes (parse_program toks)) as Hfin.
  { intros buf toks Htok. apply finishes_cases.
    destruct (parse_program_total toks) as [?|(st & ? & _)];
      [by eapply tokenised_eof_terminated, tokenise_LexOk | by left|].
    right. by exists st. }
  split_and!.
  - unfold main. repeat case_match; try done.
    apply bind_finishes; [by eapply Hfin|]. intros st _.
    by destruct (had_error st).
  - split.
    + intros (o & H & Ho). unfold main in H.
      repeat case_match; simplify_eq/=.
      apply bind_Done in H as (st & Hp & H).
      destruct (had_error st) eqn:Hf; simplify_eq/=.
      eexists _, _, _, _, _, _. split_and!; try done. by eapply Hflag.
    + intros (prog & path & rest & buf & toks & st & -> & Hfs & Htok & Hp & He).
      eexists. unfold main. rewrite Hfs, Htok, Hp. simpl.
      by rewrite (proj2 (Hflag _ _ Hp) He).
  - intros o H. unfold main in H. repeat case_match; simplify_eq/=; try done.
    apply bind_Done in H as (st & Hp & H).
    by destruct (had_error st); simplify_eq/=.
  - unfold main. destruct argv as [|? [|? ?]]; simpl; [by eexists.. | lia].
  - intros prog path rest ->. split_and!.
    + intros Hfs. unfold main. rewrite Hfs. by eexists.
    + intros buf msg Hfs Htok. unfold main. rewrite Hfs, Htok. by eexists.
    + intros buf toks st Hfs Htok Hp He. unfold main.
      rewrite Hfs, Htok, Hp. simpl.
      destruct (had_error st) eqn:Hf; [by eexists|].
      by apply (Hflag _ _ Hp) in Hf.
    + intros buf toks _. apply Hfin.
  - split.
    + unfold main. intros H. repeat case_match; simplify_eq/=.
      * eexists _, _, _, _. split_and!; try done. right. eexists. split; [done|].
        destruct (parse_program _) as [st| |]; simpl in H; [|done..].
        by destruct (had_error st).
      * eexists _, _, _, _. split_and!; try done. by left.
    + intros (prog & path & rest & buf & -> & Hfs & [Htok|(toks & Htok & Hp)]);
        unfold main; by rewrite Hfs, Htok, ?Hp.
Qed.

Lemma exit_status_spec_witness :
  ∃ o, main ["parser"; "prog.txt"] (λ _, Some "print(1 + 2 * 3 - 4 / 2);")
       = Done o ∧ exit_status o = 0.
Proof.
  refine (proj2 (proj1 (proj2 (exit_status_spec ["parser"; "prog.txt"]
                          (λ _, Some "print(1 + 2 * 3 - 4 / 2);")))) _).
  exists "parser", "prog.txt", [], "print(1 + 2 * 3 - 4 / 2);",
    (tokens_of "print(1 + 2 * 3 - 4 / 2);"),
    (mkState 13 false [] ["5"] []).
  split_and!; [reflexivity | reflexivity | vm_compute; reflexivity
              | vm_compute; reflexivity | reflexivity].
Defined.

(** ** The form of the diagnostics *)

(** The form the specification gives for every diagnostic:
    [<Category> Error [line L, col C]: <message>] with 1-based L and C. *)
Definition diagnostic_form (msg : string) : Prop :=
  ∃ (category : string) (L C : nat) (message : string),
    category ∈ ["Lexical"; "Syntax"; "Semantic"; "Runtime"]
    ∧ (1 ≤ L)%nat ∧ (1 ≤ C)%nat
    ∧ msg = category +:+ " Error [line " +:+ pretty L +:+ ", col "
            +:+ pretty C +:+ "]: " +:+ message.


Lemma pretty_N_char_digit x : isdigit (pretty_N_char x) = true.
Proof. unfold pretty_N_char. by repeat case_match. Qed.

Lemma pretty_N_go_digits x s : digits_only s → digits_only (pretty_N_go x s).
Proof.
  revert s. induction (N.lt_wf_0 x) as [x _ IH]; intros s Hs.
  destruct (decide (x = 0)%N) as [->|]; [by rewrite pretty_N_go_0|].
  rewrite pretty_N_go_step by lia. apply IH.
  - apply N.div_lt; lia.
  - split; [apply pretty_N_char_digit | done].
Qed.

Lemma pretty_nat_digits (n : nat) : digits_only (pretty n).
Proof.
  unfold pretty, pretty_nat, pretty, pretty_N.
  case_decide; [done|]. by apply pretty_N_go_digits.
Qed.

Lemma append_cons c s t : String c s +:+ t = String c (s +:+ t).
Proof. done. Qed.

(** After its digits a line number is followed by what the format says. *)
Lemma digits_then d c rest d0 c' rest' :
  digits_only d → isdigit c = false →
  isdigit d0 = true → isdigit c' = false →
  d +:+ String c rest = String d0 (String c' rest') → c = c'.
Proof.
  intros Hd Hc Hd0 Hc' H. destruct d as [|d1 [|d2 d]].
  - change (String c rest = String d0 (String c' rest')) in H.
    injection H as -> _. congruence.
  - rewrite !append_cons in H. by injection H.
  - rewrite !append_cons in H. injection H; intros; subst.
    destruct Hd as (_ & Hd2 & _). congruence.
Qed.



End ParserSpec.

(** * Properties of [simple_parser.c] *)

Module SimpleParserSpec.
Import SimpleParser.

(** The state in which a computation returns or exits. *)
Definition final_state {A} (r : result A) : State :=
  match r with Ret _ s => s | Exit _ s => s end.

(** How the minimal variant treats every error: returning computations
    write nothing to standard error; a computation that writes there
    writes one line [Error: <message>] and leaves through [exit(1)]. *)
Definition quiet_or_dead (s : State) {A} (r : result A) : Prop :=
  match r with
  | Ret _ s' => stderr s' = stderr s
  | Exit code s' =>
      code = 1 ∧ ∃ msg, stderr s' = stderr s ++ ["Error: " +:+ msg]
  end.

Lemma die_quiet {A} msg s (r : result A) :
  die ("Error: " +:+ msg) s = Done r → quiet_or_dead s r.
Proof. unfold die. intros. simplify_eq. split; [done|]. by exists msg. Qed.

Lemma bind_quiet_or_dead {A B} (m : run (result A))
    (k : A → State → run (result B)) s r :
  bind m k = Done r →
  (∀ r1, m = Done r1 → quiet_or_dead s r1) →
  (∀ a s1 r2, k a s1 = Done r2 → quiet_or_dead s1 r2) →
  quiet_or_dead s r.
Proof.
  unfold bind. intros H Hm Hk. destruct m as [[a s1|code s1]| |]; [| |done..].
  - specialize (Hm _ eq_refl). specialize (Hk _ _ _ H). simpl in Hm.
    destruct r; simpl in *; [congruence|]. by rewrite <-Hm.
  - simplify_eq. apply (Hm (Exit code s1) eq_refl).
Qed.

Lemma next_quiet s r : next s = Done r → quiet_or_dead s r.
Proof.
  unfold next. intros H.
  destruct (skip_blanks _ _) as [|c rest]; simplify_eq; [done|].
  destruct (span ident_char _), (span isdigit _).
  repeat case_match; simplify_eq; try done.
  exact (die_quiet ("unexpected character '" +:+ String c "'")
           (set_src rest s) r H).
Qed.

Lemma expect_quiet k s r : expect k s = Done r → quiet_or_dead s r.
Proof.
  unfold expect. case_decide; [apply next_quiet|].
  apply (die_quiet ("unexpected token '" +:+ tok_text s +:+ "'")).
Qed.

Lemma var_get_quiet nm s r : var_get nm s = Done r → quiet_or_dead s r.
Proof.
  unfold var_get. intros H. repeat case_match; simplify_eq; [done|].
  by apply (die_quiet ("undefined variable '" +:+ nm +:+ "'")).
Qed.

Lemma var_set_quiet nm v s r : var_set nm v s = Done r → quiet_or_dead s r.
Proof.
  unfold var_set. intros H. repeat case_match; simplify_eq; [|done].
  by apply (die_quiet ("variable '" +:+ nm +:+ "' already declared")).
Qed.

Lemma simple_parse_factor_S fuel s :
  parse_factor (S fuel) s =
  if is_tok T_NUM s then
    bind (next s) (λ _ s', Done (Ret (tok_num s) s'))
  else if is_tok T_ID s then
    bind (next s) (λ _ s', var_get (tok_text s) s')
  else if is_tok T_LPAREN s then
    bind (next s) (λ _ s,
    bind (parse_expr fuel s) (λ val s,
    bind (expect T_RPAREN s) (λ _ s, Done (Ret val s))))
  else die "Error: expected expression" s.
Proof. done. Qed.

Lemma simple_parse_term_loop_S fuel lhs s :
  parse_term_loop (S fuel) lhs s =
  if is_tok T_STAR s || is_tok T_SLASH s then
    bind (next s) (λ _ s',
    bind (parse_factor fuel s') (λ rhs s',
      if decide (tok s = T_STAR) then
        parse_term_loop fuel (int_mul lhs rhs) s'
      else if decide (rhs = 0) then die "Error: division by zero" s'
      else
        quotient ← int_div lhs rhs;
        parse_term_loop fuel quotient s'))
  else Done (Ret lhs s).
Proof. done. Qed.

Lemma simple_parse_term_S fuel s :
  parse_term (S fuel) s =
  bind (parse_factor fuel s) (λ lhs s, parse_term_loop fuel lhs s).
Proof. done. Qed.

Lemma simple_parse_expr_loop_S fuel lhs s :
  parse_expr_loop (S fuel) lhs s =
  if is_tok T_PLUS s || is_tok T_MINUS s then
    bind (next s) (λ _ s',
    bind (parse_term fuel s') (λ rhs s',
      if decide (tok s = T_PLUS) then
        parse_expr_loop fuel (int_add lhs rhs) s'
      else parse_expr_loop fuel (int_sub lhs rhs) s'))
  else Done (Ret lhs s).
Proof. done. Qed.

Lemma simple_parse_expr_S fuel s :
  parse_expr (S fuel) s =
  bind (parse_term fuel s) (λ lhs s, parse_expr_loop fuel lhs s).
Proof. done. Qed.

Lemma simple_parse_program_S fuel s :
  parse_program (S fuel) s =
  if is_tok T_EOF s then Done (Ret () s)
  else bind (parse_stmt fuel s) (λ _ s, parse_program fuel s).
Proof. done. Qed.

(** Peel one [bind] off the newest hypothesis [bind m k = Done r]. *)
Ltac bind_step lem :=
  match goal with
  | H : _ = Done _ |- _ =>
      cbv beta in H; eapply bind_quiet_or_dead;
      [exact H | solve [lem]
      |clear H; let K := fresh "K" in intros ??? K; cbv beta in K]
  end.

Ltac ret_step :=
  match goal with
  | H : _ = Done _ |- _ => cbv beta in H; by simplify_eq
  end.

Lemma expression_quiet fuel :
  (∀ s r, parse_factor fuel s = Done r → quiet_or_dead s r)
  ∧ (∀ lhs s r, parse_term_loop fuel lhs s = Done r → quiet_or_dead s r)
  ∧ (∀ s r, parse_term fuel s = Done r → quiet_or_dead s r)
  ∧ (∀ lhs s r, parse_expr_loop fuel lhs s = Done r → quiet_or_dead s r)
  ∧ (∀ s r, parse_expr fuel s = Done r → quiet_or_dead s r).
Proof.
  induction fuel as [|fuel (IHf & IHtl & IHt & IHel & IHe)];
    [by repeat split|].
  split_and!.
  - intros s r H. rewrite simple_parse_factor_S in H. repeat case_match.
    + bind_step ltac:(apply next_quiet). ret_step.
    + bind_step ltac:(apply next_quiet). by eapply var_get_quiet.
    + bind_step ltac:(apply next_quiet). bind_step ltac:(apply IHe).
      bind_step ltac:(apply expect_quiet). ret_step.
    + by apply (die_quiet "expected expression").
  - intros lhs s r H. rewrite simple_parse_term_loop_S in H.
    destruct (_ || _); [|by simplify_eq].
    bind_step ltac:(apply next_quiet). bind_step ltac:(apply IHf).
    repeat case_decide; [by eapply IHtl | |].
    + by apply (die_quiet "division by zero").
    + match goal with
      | K : _ ≫= _ = Done _ |- _ => apply bind_Done in K as (q & _ & K)
      end.
      by eapply IHtl.
  - intros s r H. rewrite simple_parse_term_S in H.
    bind_step ltac:(apply IHf). by eapply IHtl.
  - intros lhs s r H. rewrite simple_parse_expr_loop_S in H.
    destruct (_ || _); [|by simplify_eq].
    bind_step ltac:(apply next_quiet). bind_step ltac:(apply IHt).
    case_decide; by eapply IHel.
  - intros s r H. rewrite simple_parse_expr_S in H.
    bind_step ltac:(apply IHt). by eapply IHel.
Qed.

Lemma parse_stmt_quiet fuel s r :
  parse_stmt fuel s = Done r → quiet_or_dead s r.
Proof.
  destruct (expression_quiet fuel) as (_ & _ & _ & _ & He).
  unfold parse_stmt. intros H. repeat case_match.
  - bind_step ltac:(apply next_quiet). case_match.
    + bind_step ltac:(apply next_quiet). bind_step ltac:(apply expect_quiet).
      bind_step ltac:(apply He). bind_step ltac:(apply expect_quiet).
      by eapply var_set_quiet.
    + by apply (die_quiet "expected identifier").
  - bind_step ltac:(apply next_quiet). bind_step ltac:(apply expect_quiet).
    bind_step ltac:(apply He). bind_step ltac:(apply expect_quiet).
    bind_step ltac:(apply expect_quiet). ret_step.
  - by apply (die_quiet "expected 'int' or 'print'").
Qed.

Lemma parse_program_quiet fuel s r :
  parse_program fuel s = Done r → quiet_or_dead s r.
Proof.
  revert s r. induction fuel as [|fuel IH]; [done|]. intros s r H.
  rewrite simple_parse_program_S in H. case_match; [by simplify_eq|].
  bind_step ltac:(apply parse_stmt_quiet). by eapply IH.
Qed.

End SimpleParserSpec.

(** * The two interpreters side by side *)

Module Interpreters.
Import Parser ParserSpec.

(** ** Diagnostics *)

Lemma lexical_diagnostic_form msg : lexical_diagnostic msg → diagnostic_form msg.
Proof.
  intros (ln & cl & what & -> & ? & ?). exists "Lexical", ln, cl, what.
  split_and!; [by repeat constructor | done | done | done].
Qed.


Lemma error_line_not_diagnostic_form what :
  ¬ diagnostic_form ("Error: " +:+ what).
Proof.
  intros (category & L & C & message & Hcat & _ & _ & H).
  repeat (apply elem_of_cons in Hcat as [->|Hcat]);
    [| | | | by apply elem_of_nil in Hcat];
    rewrite !append_cons in H; discriminate.
Qed.

(** ** Division by zero *)

(** States of the sample run: before the [/] of [(a - 2) / 0], and after
    its right operand. *)
Definition at_slash : State :=
  mkState 21%nat false [mkVariable "a" 14 1] ["14"] [].
Definition after_zero : State :=
  mkState 23%nat false [mkVariable "a" 14 1] ["14"] [].

(** C4, as amended: in [parser.c], when the right operand of a [/]
    evaluates to 0, [parse_term] writes
    [Runtime Error [line L, col C]: division by zero] with the position of
    the [/] token, sets the error flag, takes 0 as the value of the
    division and goes on with the loop; the loop and the whole run end:
    they return, unless a later division is undefined ([INT_MIN / -1]).
    In [simple_parser.c] the same division writes
    [Error: division by zero] and leaves the process with status 1. *)
Theorem division_by_zero :
  (∀ tokens fuel lhs s s1,
     type (current_token tokens s) = TOK_SLASH →
     parse_factor tokens fuel (advance tokens s).2 = Done (0, s1) →
     ∃ s2,
       parse_term_loop tokens (S fuel) lhs s
       = parse_term_loop tokens fuel 0 s2
       ∧ stderr s2
         = stderr s1 ++ [located "Runtime" (line (current_token tokens s))
                           (col (current_token tokens s)) "division by zero"]
       ∧ had_error s2 = true ∧ pos s2 = pos s1
       ∧ stdout s2 = stdout s1 ∧ sym_table s2 = sym_table s1
       ∧ (eof_terminated tokens → in_bounds tokens s →
          (∀ fuel', (4 * (length tokens - pos s2) + 1 ≤ fuel')%nat →
             finishes (parse_term_loop tokens fuel' 0 s2))
          ∧ finishes (parse_program tokens)))
  ∧ (∀ fuel lhs s s1 s2,
       SimpleParser.tok s = SimpleParser.T_SLASH →
       SimpleParser.next s = Done (SimpleParser.Ret () s1) →
       SimpleParser.parse_factor fuel s1 = Done (SimpleParser.Ret 0 s2) →
       ∃ s3,
         SimpleParser.parse_term_loop (S fuel) lhs s
         = Done (SimpleParser.Exit 1 s3)
         ∧ SimpleParser.stderr s3
           = SimpleParser.stderr s2 ++ ["Error: division by zero"]
         ∧ SimpleParser.stdout s3 = SimpleParser.stdout s2).
Proof.
  split.
  - intros tokens fuel lhs s s1 Hop Hf.
    exists (report (located "Runtime" (line (current_token tokens s))
                      (col (current_token tokens s)) "division by zero") s1).
    split_and!; try done.
    + rewrite parse_term_loop_S. unfold check.
      rewrite (bool_decide_eq_true_2 (_ = TOK_SLASH)) by done.
      rewrite orb_true_r, advance_eta. cbv beta iota. rewrite Hf. simpl.
      rewrite Hop. by repeat case_decide.
    + intros Heof Hs. split; [|by apply parse_program_finishes].
      intros fuel' Hfuel.
      pose proof (cursor_effects tokens Heof op_advance s _ eq_refl Hs)
        as [Hs0 _].
      apply (parse_factor_cursor tokens Heof) in Hf as [Hs1 _]; [|done].
      set (s2 := report _ s1) in *.
      destruct (expression_total tokens Heof (length tokens - pos s2) s2)
        as (_ & Htl & _); [done | done|].
      by apply Htl.
  - intros fuel lhs s s1 s2 Hop Hnext Hf.
    eexists. rewrite SimpleParserSpec.simple_parse_term_loop_S.
    unfold SimpleParser.is_tok.
    rewrite (bool_decide_eq_true_2 (_ = SimpleParser.T_SLASH)) by done.
    rewrite orb_true_r, Hnext. simpl. rewrite Hf. simpl. rewrite Hop.
    by repeat case_decide.
Qed.

Lemma division_by_zero_witness :
  ∃ s2,
    parse_term_loop sample_tokens 6%nat 12 at_slash
    = parse_term_loop sample_tokens 5%nat 0 s2
    ∧ stderr s2 = ["Runtime Error [line 1, col 44]: division by zero"]
    ∧ had_error s2 = true ∧ pos s2 = 23%nat.
Proof.
  destruct (proj1 division_by_zero sample_tokens 5%nat 12 at_slash after_zero
              eq_refl eq_refl) as (s2 & H1 & H2 & H3 & H4 & _).
  exists s2. split_and!; [exact H1 | exact H2 | exact H3 | exact H4].
Defined.

(** C4 as stated fails in [simple_parser.c]: no position is reported and
    the run stops, so that the error of the second statement is never
    reached. *)
Lemma simple_parser_division_by_zero_exits :
  SimpleParser.main ["simple_parser"; "prog.txt"]
    (λ _, Some "print(1 / 0); print(b);")
  = Done (mkOutcome 1 [] ["Error: division by zero"])
  ∧ ¬ diagnostic_form "Error: division by zero"
  ∧ main ["parser"; "prog.txt"] (λ _, Some "print(1 / 0); print(b);")
    = Done (mkOutcome 1 []
        ["Runtime Error [line 1, col 9]: division by zero";
         "Semantic Error [line 1, col 21]: undeclared variable 'b'";
         ""; "Parsing/execution failed due to errors above."]).
Proof.
  split_and!; [vm_compute; reflexivity | | vm_compute; reflexivity].
  apply (error_line_not_diagnostic_form "division by zero").
Qed.

(** ** Undeclared variables *)

(** The sample run before the [a] of its last statement, had this [a]
    not been declared. *)
Definition at_undeclared : State := mkState 27%nat false [] [] [].

(** C5, as amended: in [parser.c] an identifier factor whose name is not
    in the symbol table makes [parse_factor] write
    [Semantic Error [line L, col C]: undeclared variable '<name>'] with the
    position of the identifier, set the error flag and return 0 with the
    identifier consumed; parsing goes on and the run ends: it returns,
    unless a later division is undefined ([INT_MIN / -1]).  In
    [simple_parser.c] such an identifier writes
    [Error: undefined variable '<name>'] and leaves the process with
    status 1. *)
Theorem undeclared_variable :
  (∀ tokens fuel s,
     type (current_token tokens s) = TOK_IDENTIFIER →
     sym_lookup (sym_table s) (text (current_token tokens s)) = None →
     ∃ s',
       parse_factor tokens (S fuel) s = Done (0, s')
       ∧ stderr s'
         = stderr s ++ [located "Semantic" (line (current_token tokens s))
                          (col (current_token tokens s))
                          ("undeclared variable '"
                           +:+ text (current_token tokens s) +:+ "'")]
       ∧ had_error s' = true ∧ pos s' = S (pos s)
       ∧ stdout s' = stdout s ∧ sym_table s' = sym_table s
       ∧ (eof_terminated tokens → finishes (parse_program tokens)))
  ∧ (∀ fuel s s1,
       SimpleParser.tok s = SimpleParser.T_ID →
       SimpleParser.next s = Done (SimpleParser.Ret () s1) →
       Forall (λ v, v.1 ≠ SimpleParser.tok_text s) (SimpleParser.vars s1) →
       ∃ s2,
         SimpleParser.parse_factor (S fuel) s
         = Done (SimpleParser.Exit 1 s2)
         ∧ SimpleParser.stderr s2
           = SimpleParser.stderr s1
             ++ ["Error: undefined variable '"
                 +:+ SimpleParser.tok_text s +:+ "'"]
         ∧ SimpleParser.stdout s2 = SimpleParser.stdout s1).
Proof.
  split.
  - intros tokens fuel s Hty Hlook. eexists.
    rewrite parse_factor_cases. cbv zeta.
    rewrite decide_False by congruence. rewrite decide_True by done.
    rewrite advance_not_eof by congruence. simpl. rewrite Hlook.
    split_and!; try done.
    intros Heof. by apply parse_program_finishes.
  - intros fuel s s1 Hty Hnext Hvars. eexists.
    rewrite SimpleParserSpec.simple_parse_factor_S. unfold SimpleParser.is_tok.
    rewrite bool_decide_eq_false_2 by congruence.
    rewrite bool_decide_eq_true_2 by done.
    rewrite Hnext. simpl. unfold SimpleParser.var_get.
    assert (list_find (λ v : string * Z, v.1 = SimpleParser.tok_text s)
              (SimpleParser.vars s1) = None) as ->
      by by apply list_find_None.
    done.
Qed.

Lemma undeclared_variable_witness :
  ∃ s',
    parse_factor sample_tokens 1%nat at_undeclared = Done (0, s')
    ∧ stderr s' = ["Semantic Error [line 1, col 56]: undeclared variable 'a'"]
    ∧ had_error s' = true ∧ pos s' = 28%nat.
Proof.
  destruct (proj1 undeclared_variable sample_tokens 0%nat at_undeclared
              eq_refl eq_refl) as (s' & H1 & H2 & H3 & H4 & _).
  exists s'. split_and!; [exact H1 | exact H2 | exact H3 | exact H4].
Defined.

(** C5 as stated fails in [simple_parser.c]: no position is reported and
    the run stops at once. *)
Lemma simple_parser_undeclared_variable_exits :
  SimpleParser.main ["simple_parser"; "prog.txt"]
    (λ _, Some "print(b); print(1 / 0);")
  = Done (mkOutcome 1 [] ["Error: undefined variable 'b'"])
  ∧ ¬ diagnostic_form "Error: undefined variable 'b'"
  ∧ main ["parser"; "prog.txt"] (λ _, Some "print(b); print(1 / 0);")
    = Done (mkOutcome 1 []
        ["Semantic Error [line 1, col 7]: undeclared variable 'b'";
         "Runtime Error [line 1, col 19]: division by zero";
         ""; "Parsing/execution failed due to errors above."]).
Proof.
  split_and!; [vm_compute; reflexivity | | vm_compute; reflexivity].
  apply (error_line_not_diagnostic_form "undefined variable 'b'").
Qed.

(** ** An integer literal followed by a letter *)

Lemma tokenise_loop_at_literal fuel digits c rest ln cl toks :
  digits ≠ "" → digits_only digits → ident_start c = true →
  tokenise_loop (S fuel) (digits +:+ String c rest) ln cl toks
  = Some (LexFail (lexical_error ln cl
            ("invalid token '" +:+ String c "' after integer literal"))).
Proof.
  intros Hne Hd Hc. destruct digits as [|d digits]; [done|].
  destruct Hd as [Hd0 Hd].
  change (String d digits +:+ String c rest)
    with (String d (digits +:+ String c rest)).
  rewrite tokenise_loop_S. cbv zeta.
  destruct (digit_class d Hd0) as (-> & -> & -> & -> & Hslash & -> & _).
  assert (starts_comment (String d (digits +:+ String c rest)) = false) as ->.
  { simpl. destruct (digits +:+ String c rest); [done|]. by rewrite Hslash. }
  rewrite Hd0.
  change (String d (digits +:+ String c rest))
    with (String d digits +:+ String c rest).
  rewrite (span_digits (String d digits) c rest);
    [|done | by apply ident_start_not_digit].
  simpl. by rewrite Hc.
Qed.

Lemma word_start_class c :
  ident_start c = true →
  isspace c = false ∧ is_char c "/" = false ∧ isdigit c = false.
Proof. by destruct c as [[] [] [] [] [] [] [] []]. Qed.

(** C7, as amended: in [parser.c], when the loop of [tokenise] arrives at
    digits directly followed by a letter or an underscore, it writes a
    lexical error with the position of the literal and fails; [tokenise]
    returns no token array, [main] parses and executes nothing, writes
    nothing to standard output and returns 1.  In [simple_parser.c] there
    is no such check: [next] takes the digits (fewer than 256) as a number
    token whose value is [atoi] of the digits, and the following call of
    [next] takes the word that starts with the letter (fewer than 256
    characters) as an identifier or keyword token; both calls return,
    neither writes to standard output or standard error, and what was
    printed before stays printed. *)
Theorem literal_followed_by_letter :
  (∀ src0 digits c rest ln cl toks,
     loop_head src0 (digits +:+ String c rest) ln cl toks →
     digits ≠ "" → digits_only digits → ident_start c = true →
     ∃ msg,
       msg = lexical_error ln cl
               ("invalid token '" +:+ String c "' after integer literal")
       ∧ tokenise src0 = LexFail msg
       ∧ diagnostic_form msg
       ∧ ∀ prog path more fs buf,
           fs path = Some buf → c_str buf = src0 →
           main (prog :: path :: more) fs = Done (mkOutcome 1 [] [msg]))
  ∧ (∀ s digits c rest,
       SimpleParser.src s = digits +:+ String c rest →
       digits ≠ "" → digits_only digits → ident_start c = true →
       (String.length digits < SimpleParser.TEXT_SIZE)%nat →
       (String.length (span ident_char (String c rest)).1
        < SimpleParser.TEXT_SIZE)%nat →
       ∃ s1 s2,
         SimpleParser.next s = Done (SimpleParser.Ret () s1)
         ∧ s1 = SimpleParser.mkState (String c rest) SimpleParser.T_NUM digits
                  (atoi digits) (SimpleParser.vars s) (SimpleParser.stdout s)
                  (SimpleParser.stderr s)
         ∧ SimpleParser.next s1 = Done (SimpleParser.Ret () s2)
         ∧ SimpleParser.tok s2
             ∈ [SimpleParser.T_ID; SimpleParser.T_INT; SimpleParser.T_PRINT]
         ∧ SimpleParser.tok_text s2 = (span ident_char (String c rest)).1
         ∧ SimpleParser.src s2 = (span ident_char (String c rest)).2
         ∧ SimpleParser.vars s2 = SimpleParser.vars s
         ∧ SimpleParser.stdout s2 = SimpleParser.stdout s
         ∧ SimpleParser.stderr s2 = SimpleParser.stderr s).
Proof.
  split.
  - intros src0 digits c rest ln cl toks Hhead Hne Hd Hc. eexists.
    split; [done|].
    pose proof (loop_head_result _ _ _ _ _ _ Hhead
                  (tokenise_loop_at_literal 0 digits c rest ln cl toks
                     Hne Hd Hc)) as Htok.
    split_and!; [done | |].
    + pose proof (tokenise_spec src0) as Hs. rewrite Htok in Hs.
      destruct Hs as [Hs|Hs]; [by apply lexical_diagnostic_form|].
      by vm_compute in Hs.
    + intros prog path more fs buf Hfs Hbuf. unfold main.
      by rewrite Hfs, Hbuf, Htok.
  - intros s digits c rest Hsrc Hne Hd Hc Hlen Hword.
    destruct (span ident_char (String c rest)) as [word rest'] eqn:Hspan.
    eexists _, _. split; [|split; [reflexivity|]].
    { unfold SimpleParser.next.
      rewrite Hsrc. destruct digits as [|d digits]; [done|].
      destruct Hd as [Hd0 Hd].
      destruct (digit_class d Hd0) as (_ & _ & _ & _ & Hslash & Hid & Hsp).
      change (String d digits +:+ String c rest)
        with (String d (digits +:+ String c rest)).
      assert (SimpleParser.skip_blanks
                (String.length (String d (digits +:+ String c rest)))
                (String d (digits +:+ String c rest))
              = String d (digits +:+ String c rest)) as ->.
      { simpl. rewrite Hsp.
        destruct (digits +:+ String c rest); [done|]. by rewrite Hslash. }
      rewrite Hid, Hd0.
      change (String d (digits +:+ String c rest))
        with (String d digits +:+ String c rest).
      rewrite (span_digits (String d digits) c rest);
        [|done | by apply ident_start_not_digit].
      by rewrite decide_False by lia. }
    unfold SimpleParser.next. cbn [SimpleParser.src].
    destruct (word_start_class c Hc) as (Hsp & Hslash & _).
    assert (SimpleParser.skip_blanks (String.length (String c rest))
              (String c rest) = String c rest) as ->.
    { simpl. rewrite Hsp. destruct rest; [done|]. by rewrite Hslash. }
    rewrite Hc, Hspan.
    cbn [fst snd] in *. rewrite decide_False by lia.
    split; [reflexivity|]. split; [|done].
    cbn [SimpleParser.tok SimpleParser.set_tok].
    repeat case_decide; by repeat constructor.
Qed.

Lemma literal_followed_by_letter_witness :
  ∃ msg,
    msg = "Lexical Error [line 1, col 15]: invalid token 'a' after integer literal"
    ∧ tokenise "print(1); x = 12abc;" = LexFail msg
    ∧ main ["parser"; "prog.txt"] (λ _, Some "print(1); x = 12abc;")
      = Done (mkOutcome 1 [] [msg]).
Proof.
  destruct (proj1 literal_followed_by_letter "print(1); x = 12abc;"
              "12" "a"%char "bc;" 1%nat 15%nat
              (removelast (tokens_of "print(1); x = "))) as (msg & Hm & Ht & _ & Hmain).
  - exists 10%nat. intros fuel. reflexivity.
  - discriminate.
  - vm_compute. auto.
  - reflexivity.
  - exists msg. split_and!; [by rewrite Hm | exact Ht|].
    by apply (Hmain "parser" "prog.txt" [] _ "print(1); x = 12abc;").
Defined.

(** C7 as stated fails in [simple_parser.c]: [12abc] is read as the number
    12 and the identifier [abc] without any lexical error.  In
    [print(1); print(12abc);] the statement before it has run and printed,
    and the complaint is about an unexpected token; [12abc] alone gets the
    complaint that a statement must start with [int] or [print]. *)
Lemma simple_parser_accepts_literal_then_letter :
  SimpleParser.main ["simple_parser"; "prog.txt"]
    (λ _, Some "print(1); print(12abc);")
  = Done (mkOutcome 1 ["1"] ["Error: unexpected token 'abc'"])
  ∧ main ["parser"; "prog.txt"] (λ _, Some "print(1); print(12abc);")
    = Done (mkOutcome 1 []
        ["Lexical Error [line 1, col 17]: invalid token 'a' after integer literal"])
  ∧ SimpleParser.main ["simple_parser"; "prog.txt"] (λ _, Some "12abc")
    = Done (mkOutcome 1 [] ["Error: expected 'int' or 'print'"]).
Proof. split_and!; vm_compute; reflexivity. Qed.

End Interpreters.

(** * [parser.c] against the reference language *)

Module Correctness.
Import Parser ParserSpec Reference.

(** [f] ends as [r], returning or undefined, when given enough fuel. *)
Definition eventually {A} (f : nat → run A) (r : run A) : Prop :=
  finishes r ∧ ∃ fuel, f fuel = r.

(** The value the code reads for a name: [sym_lookup], then the slot. *)
Definition lookup_value (tbl : list variable) (x : string) : option Z :=
  i ← sym_lookup tbl x; value <$> tbl !! i.

(** The symbol table holds the bindings of the environment. *)
Definition agrees (tbl : list variable) (env : gmap string Z) : Prop :=
  ∀ x, lookup_value tbl x = env !! x.

Section composition.

Context (tokens : list Token).

Lemma eventually_factor fuel s r :
  parse_factor tokens fuel s = Done r →
  eventually (λ f, parse_factor tokens f s) (Done r).
Proof. split; [done|]. by exists fuel. Qed.

Lemma parse_term_intro s v s1 r :
  eventually (λ f, parse_factor tokens f s) (Done (v, s1)) →
  eventually (λ f, parse_term_loop tokens f v s1) r →
  eventually (λ f, parse_term tokens f s) r.
Proof.
  intros [_ [f1 H1]] [Hr [f2 <-]]. split; [done|].
  exists (S (f1 `max` f2)). rewrite parse_term_S.
  destruct (expression_fuel_stable tokens f1 (f1 `max` f2) ltac:(lia))
    as (Hf & _).
  destruct (expression_fuel_stable tokens f2 (f1 `max` f2) ltac:(lia))
    as (_ & Htl & _).
  rewrite Hf, H1 by by rewrite H1. simpl. by apply Htl.
Qed.

Lemma parse_expr_intro s v s1 r :
  eventually (λ f, parse_term tokens f s) (Done (v, s1)) →
  eventually (λ f, parse_expr_loop tokens f v s1) r →
  eventually (λ f, parse_expr tokens f s) r.
Proof.
  intros [_ [f1 H1]] [Hr [f2 <-]]. split; [done|].
  exists (S (f1 `max` f2)). rewrite parse_expr_S.
  destruct (expression_fuel_stable tokens f1 (f1 `max` f2) ltac:(lia))
    as (_ & _ & Ht & _).
  destruct (expression_fuel_stable tokens f2 (f1 `max` f2) ltac:(lia))
    as (_ & _ & _ & Hel & _).
  rewrite Ht, H1 by by rewrite H1. simpl. by apply Hel.
Qed.

Lemma parse_term_loop_stop lhs s :
  type (current_token tokens s) ∉ [TOK_STAR; TOK_SLASH] →
  eventually (λ f, parse_term_loop tokens f lhs s) (Done (lhs, s)).
Proof.
  intros Hty. split; [done|]. exists 1%nat.
  rewrite parse_term_loop_S. unfold check.
  rewrite !not_elem_of_cons in Hty. destruct Hty as (? & ? & _).
  by rewrite !bool_decide_eq_false_2.
Qed.

Lemma parse_expr_loop_stop lhs s :
  type (current_token tokens s) ∉ [TOK_PLUS; TOK_MINUS] →
  eventually (λ f, parse_expr_loop tokens f lhs s) (Done (lhs, s)).
Proof.
  intros Hty. split; [done|]. exists 1%nat.
  rewrite parse_expr_loop_S. unfold check.
  rewrite !not_elem_of_cons in Hty. destruct Hty as (? & ? & _).
  by rewrite !bool_decide_eq_false_2.
Qed.

(** One round of the loop of [parse_term] on an operator whose right
    operand is not a zero divisor and whose result is an [int]. *)
Lemma parse_term_loop_round op lhs rhs v s s1 r :
  type (current_token tokens s) = match op with Mul => TOK_STAR
                                  | _ => TOK_SLASH end →
  op = Mul ∨ op = Div →
  eventually (λ f, parse_factor tokens f (set_pos (S (pos s)) s))
    (Done (rhs, s1)) →
  apply_binop op lhs rhs = Some v →
  eventually (λ f, parse_term_loop tokens f v s1) r →
  eventually (λ f, parse_term_loop tokens f lhs s) r.
Proof.
  intros Hty Hop [_ [f1 H1]] Hv [Hr [f2 <-]]. split; [done|].
  exists (S (f1 `max` f2)).
  rewrite parse_term_loop_S. unfold check.
  destruct (expression_fuel_stable tokens f1 (f1 `max` f2) ltac:(lia))
    as (Hf & _).
  destruct (expression_fuel_stable tokens f2 (f1 `max` f2) ltac:(lia))
    as (_ & Htl & _).
  rewrite advance_eta, advance_not_eof
    by (rewrite Hty; by destruct Hop as [-> | ->]).
  cbv beta iota. rewrite Hf, H1 by by rewrite H1. simpl. rewrite Hty.
  destruct Hop as [-> | ->]; simpl in *.
  - simplify_eq. by apply Htl.
  - case_decide as Hdiv; simplify_eq. rewrite decide_False by tauto.
    unfold int_div. rewrite decide_False by done. simpl.
    by apply Htl.
Qed.

Lemma parse_expr_loop_round op lhs rhs v s s1 r :
  type (current_token tokens s) = match op with Add => TOK_PLUS
                                  | _ => TOK_MINUS end →
  op = Add ∨ op = Sub →
  eventually (λ f, parse_term tokens f (set_pos (S (pos s)) s))
    (Done (rhs, s1)) →
  apply_binop op lhs rhs = Some v →
  eventually (λ f, parse_expr_loop tokens f v s1) r →
  eventually (λ f, parse_expr_loop tokens f lhs s) r.
Proof.
  intros Hty Hop [_ [f1 H1]] Hv [Hr [f2 <-]]. split; [done|].
  exists (S (f1 `max` f2)).
  rewrite parse_expr_loop_S. unfold check.
  destruct (expression_fuel_stable tokens f1 (f1 `max` f2) ltac:(lia))
    as (_ & _ & Ht & _).
  destruct (expression_fuel_stable tokens f2 (f1 `max` f2) ltac:(lia))
    as (_ & _ & _ & Hel & _).
  rewrite advance_eta, advance_not_eof
    by (rewrite Hty; by destruct Hop as [-> | ->]).
  cbv beta iota. rewrite Ht, H1 by by rewrite H1. simpl. rewrite Hty.
  destruct Hop as [-> | ->]; simpl in *; simplify_eq;
    by apply Hel.
Qed.

Lemma parse_factor_paren s v s1 :
  type (current_token tokens s) = TOK_LPAREN →
  eventually (λ f, parse_expr tokens f (set_pos (S (pos s)) s))
    (Done (v, s1)) →
  type (current_token tokens s1) = TOK_RPAREN →
  eventually (λ f, parse_factor tokens f s)
    (Done (v, set_pos (S (pos s1)) s1)).
Proof.
  intros Hty [_ [f1 H1]] Hr. split; [done|].
  exists (S f1). rewrite parse_factor_cases. cbv zeta.
  rewrite !decide_False by congruence. rewrite decide_True by done.
  rewrite advance_not_eof by congruence. rewrite H1. simpl.
  rewrite expect_match by done. by rewrite advance_not_eof by congruence.
Qed.

(** Reading the token array from the cursor on. *)
Lemma token_at_drop p t rest :
  drop p tokens = t :: rest → token_at tokens p = t.
Proof.
  intros H. unfold token_at.
  pose proof (lookup_drop tokens p 0) as Hl. rewrite H in Hl. simpl in Hl.
  rewrite Nat.add_0_r in Hl. by rewrite <-Hl.
Qed.

Lemma drop_split p (ts post : list Token) :
  drop p tokens = ts ++ post → drop (p + length ts) tokens = post.
Proof. intros H. by rewrite <-drop_drop, H, drop_app_length. Qed.

End composition.

(** ** Expressions: the parser computes the value of the syntax tree *)

Section expressions.

Context (tokens : list Token) (env : gmap string Z).

Lemma set_pos_set_pos n m s : set_pos n (set_pos m s) = set_pos n s.
Proof. done. Qed.

Lemma current_token_drop s t rest :
  drop (pos s) tokens = t :: rest → current_token tokens s = t.
Proof. apply token_at_drop. Qed.

Lemma agrees_lookup tbl x v :
  agrees tbl env → env !! x = Some v →
  ∃ i, sym_lookup tbl x = Some i ∧ value <$> tbl !! i = Some v.
Proof.
  intros Hag Hx. specialize (Hag x). rewrite Hx in Hag.
  unfold lookup_value in Hag. destruct (sym_lookup tbl x) as [i|]; [|done].
  by exists i.
Qed.

(** What the three procedures do on the tokens of a factor, a term and an
    expression whose evaluation succeeds.  For terms and expressions the
    statement is about what follows: the procedure behaves as its loop
    entered after these tokens with their value. *)
Definition factor_parsed (ts : list Token) (e : expr) : Prop :=
  ∀ post s v,
    drop (pos s) tokens = ts ++ post → agrees (sym_table s) env →
    eval env e = Some v →
    eventually (λ f, parse_factor tokens f s)
      (Done (v, set_pos (pos s + length ts) s)).

Definition term_parsed (ts : list Token) (e : expr) : Prop :=
  ∀ post s v r,
    drop (pos s) tokens = ts ++ post → agrees (sym_table s) env →
    eval env e = Some v →
    eventually (λ f, parse_term_loop tokens f v
                       (set_pos (pos s + length ts) s)) r →
    eventually (λ f, parse_term tokens f s) r.

Definition expr_parsed (ts : list Token) (e : expr) : Prop :=
  ∀ post s v r,
    drop (pos s) tokens = ts ++ post → agrees (sym_table s) env →
    eval env e = Some v →
    type (token_at tokens (pos s + length ts)) ∉ [TOK_STAR; TOK_SLASH] →
    eventually (λ f, parse_expr_loop tokens f v
                       (set_pos (pos s + length ts) s)) r →
    eventually (λ f, parse_expr tokens f s) r.

Lemma eval_bin op e1 e2 v :
  eval env (Bin op e1 e2) = Some v →
  ∃ a b, eval env e1 = Some a ∧ eval env e2 = Some b
         ∧ apply_binop op a b = Some v.
Proof.
  simpl. intros H. apply bind_Some in H as (a & Ha & H).
  apply bind_Some in H as (b & Hb & H). by exists a, b.
Qed.

Lemma grammar_parsed :
  (∀ ts e, Factor ts e → factor_parsed ts e)
  ∧ (∀ ts e, Term ts e → term_parsed ts e)
  ∧ (∀ ts e, Expr ts e → expr_parsed ts e).
Proof.
  apply grammar_mutind.
  - (* integer literal *)
    intros t Hty post s v Hdrop Hag Hv. simpl in Hv. simplify_eq.
    split; [done|]. exists 1%nat. rewrite parse_factor_cases. cbv zeta.
    rewrite (current_token_drop s t post Hdrop).
    rewrite decide_True by done.
    rewrite advance_not_eof
      by (rewrite (current_token_drop s t post Hdrop); congruence).
    simpl. by rewrite Nat.add_1_r.
  - (* identifier *)
    intros t Hty post s v Hdrop Hag Hv. simpl in Hv.
    destruct (agrees_lookup _ _ _ Hag Hv) as (i & Hi & Hval).
    split; [done|]. exists 1%nat. rewrite parse_factor_cases. cbv zeta.
    rewrite (current_token_drop s t post Hdrop).
    rewrite decide_False by congruence. rewrite decide_True by done.
    rewrite advance_not_eof
      by (rewrite (current_token_drop s t post Hdrop); congruence).
    simpl. rewrite Hi, Hval. simpl. by rewrite Nat.add_1_r.
  - (* parenthesised expression *)
    intros l ts r e Hl _ IH Hr post s v Hdrop Hag Hv.
    pose proof (drop_split tokens (pos s) [l] (ts ++ [r] ++ post)) as Hd1.
    simpl in Hd1. rewrite <-app_comm_cons, <-app_assoc in Hdrop.
    specialize (Hd1 Hdrop).
    pose proof (drop_split tokens _ ts ([r] ++ post) Hd1) as Hd2.
    set (s1 := set_pos (pos s + 1) s).
    set (s2 := set_pos (pos s + 1 + length ts) s).
    assert (current_token tokens s2 = r) as Hcur
      by by apply (current_token_drop s2 r post).
    assert (eventually (λ f, parse_expr tokens f s1) (Done (v, s2))) as He.
    { apply (IH ([r] ++ post) s1 v); try done.
      - change (type (current_token tokens s2) ∉ [TOK_STAR; TOK_SLASH]).
        rewrite Hcur, Hr. rewrite !not_elem_of_cons. split_and!; try done.
        apply not_elem_of_nil.
      - apply parse_expr_loop_stop.
        change (type (current_token tokens s2) ∉ [TOK_PLUS; TOK_MINUS]).
        rewrite Hcur, Hr. rewrite !not_elem_of_cons. split_and!; try done.
        apply not_elem_of_nil. }
    replace (set_pos (pos s + length (l :: ts ++ [r])) s)
      with (set_pos (S (pos s2)) s2)
      by (unfold s2; rewrite set_pos_set_pos; f_equal; simpl;
          rewrite length_app; simpl; lia).
    apply parse_factor_paren.
    + by rewrite (current_token_drop s l _ Hdrop).
    + by rewrite <-Nat.add_1_r.
    + by rewrite Hcur.
  - (* a factor is a term *)
    intros ts e _ IH post s v r Hdrop Hag Hv Hloop.
    eapply parse_term_intro; [by eapply IH | done].
  - (* multiplication *)
    intros ts1 op ts2 e1 e2 _ IH1 Hop _ IH2 post s v r Hdrop Hag Hv Hloop.
    apply eval_bin in Hv as (a & b & Ha & Hb & Hv).
    rewrite <-app_assoc in Hdrop.
    pose proof (drop_split tokens _ ts1 _ Hdrop) as Hd1.
    pose proof (drop_split tokens _ [op] (ts2 ++ post) Hd1) as Hd2.
    set (s1 := set_pos (pos s + length ts1) s).
    apply (IH1 (op :: ts2 ++ post) s a r); try done. fold s1.
    apply (parse_term_loop_round tokens Mul a b v s1
             (set_pos (pos s + length (ts1 ++ op :: ts2)) s));
      [by rewrite (current_token_drop s1 op _ Hd1) | by left | | done | done].
    replace (set_pos (pos s + length (ts1 ++ op :: ts2)) s)
      with (set_pos (pos (set_pos (S (pos s1)) s1) + length ts2)
              (set_pos (S (pos s1)) s1))
      by (unfold s1; rewrite !set_pos_set_pos; f_equal; simpl;
          rewrite length_app; simpl; lia).
    apply (IH2 post); try done. simpl.
    by replace (S (pos s + length ts1))
      with (pos s + length ts1 + length [op])%nat by (simpl; lia).
  - (* division *)
    intros ts1 op ts2 e1 e2 _ IH1 Hop _ IH2 post s v r Hdrop Hag Hv Hloop.
    apply eval_bin in Hv as (a & b & Ha & Hb & Hv).
    rewrite <-app_assoc in Hdrop.
    pose proof (drop_split tokens _ ts1 _ Hdrop) as Hd1.
    pose proof (drop_split tokens _ [op] (ts2 ++ post) Hd1) as Hd2.
    set (s1 := set_pos (pos s + length ts1) s).
    apply (IH1 (op :: ts2 ++ post) s a r); try done. fold s1.
    apply (parse_term_loop_round tokens Div a b v s1
             (set_pos (pos s + length (ts1 ++ op :: ts2)) s));
      [by rewrite (current_token_drop s1 op _ Hd1) | by right | | done | done].
    replace (set_pos (pos s + length (ts1 ++ op :: ts2)) s)
      with (set_pos (pos (set_pos (S (pos s1)) s1) + length ts2)
              (set_pos (S (pos s1)) s1))
      by (unfold s1; rewrite !set_pos_set_pos; f_equal; simpl;
          rewrite length_app; simpl; lia).
    apply (IH2 post); try done. simpl.
    by replace (S (pos s + length ts1))
      with (pos s + length ts1 + length [op])%nat by (simpl; lia).
  - (* a term is an expression *)
    intros ts e _ IH post s v r Hdrop Hag Hv Hnext Hloop.
    eapply parse_expr_intro; [|done].
    apply (IH post s v); try done. by apply parse_term_loop_stop.
  - (* addition *)
    intros ts1 op ts2 e1 e2 _ IH1 Hop _ IH2 post s v r Hdrop Hag Hv Hnext
      Hloop.
    apply eval_bin in Hv as (a & b & Ha & Hb & Hv).
    rewrite <-app_assoc in Hdrop.
    pose proof (drop_split tokens _ ts1 _ Hdrop) as Hd1.
    pose proof (drop_split tokens _ [op] (ts2 ++ post) Hd1) as Hd2.
    set (s1 := set_pos (pos s + length ts1) s).
    set (s3 := set_pos (pos s + length (ts1 ++ op :: ts2)) s) in *.
    assert (type (token_at tokens (pos s + length ts1))
              ∉ [TOK_STAR; TOK_SLASH]) as Hmid.
    { rewrite (token_at_drop tokens _ op _ Hd1), Hop.
      rewrite !not_elem_of_cons. split_and!; try done. apply not_elem_of_nil. }
    apply (IH1 (op :: ts2 ++ post) s a r); try done. fold s1.
    apply (parse_expr_loop_round tokens Add a b v s1 s3);
      [by rewrite (current_token_drop s1 op _ Hd1) | by left | | done | done].
    apply (IH2 post (set_pos (S (pos s1)) s1) b); try done.
    + simpl. by replace (S (pos s + length ts1))
        with (pos s + length ts1 + length [op])%nat by (simpl; lia).
    + replace (set_pos _ (set_pos (S (pos s1)) s1)) with s3
        by (unfold s1, s3; rewrite !set_pos_set_pos; f_equal; simpl;
            rewrite length_app; simpl; lia).
      apply parse_term_loop_stop.
      change (type (token_at tokens (pos s3)) ∉ [TOK_STAR; TOK_SLASH]). done.
  - (* subtraction *)
    intros ts1 op ts2 e1 e2 _ IH1 Hop _ IH2 post s v r Hdrop Hag Hv Hnext
      Hloop.
    apply eval_bin in Hv as (a & b & Ha & Hb & Hv).
    rewrite <-app_assoc in Hdrop.
    pose proof (drop_split tokens _ ts1 _ Hdrop) as Hd1.
    pose proof (drop_split tokens _ [op] (ts2 ++ post) Hd1) as Hd2.
    set (s1 := set_pos (pos s + length ts1) s).
    set (s3 := set_pos (pos s + length (ts1 ++ op :: ts2)) s) in *.
    assert (type (token_at tokens (pos s + length ts1))
              ∉ [TOK_STAR; TOK_SLASH]) as Hmid.
    { rewrite (token_at_drop tokens _ op _ Hd1), Hop.
      rewrite !not_elem_of_cons. split_and!; try done. apply not_elem_of_nil. }
    apply (IH1 (op :: ts2 ++ post) s a r); try done. fold s1.
    apply (parse_expr_loop_round tokens Sub a b v s1 s3);
      [by rewrite (current_token_drop s1 op _ Hd1) | by right | | done | done].
    apply (IH2 post (set_pos (S (pos s1)) s1) b); try done.
    + simpl. by replace (S (pos s + length ts1))
        with (pos s + length ts1 + length [op])%nat by (simpl; lia).
    + replace (set_pos _ (set_pos (S (pos s1)) s1)) with s3
        by (unfold s1, s3; rewrite !set_pos_set_pos; f_equal; simpl;
            rewrite length_app; simpl; lia).
      apply parse_term_loop_stop.
      change (type (token_at tokens (pos s3)) ∉ [TOK_STAR; TOK_SLASH]). done.
Qed.

End expressions.

(** ** Symbol table and environment *)

Lemma lookup_value_None tbl x :
  lookup_value tbl x = None → sym_lookup tbl x = None.
Proof.
  unfold lookup_value, sym_lookup.
  destruct (list_find _ tbl) as [[i w]|] eqn:Hfind; [|done].
  apply list_find_Some in Hfind as (Hi & _). simpl. by rewrite Hi.
Qed.

Lemma agrees_declare tbl env x v :
  agrees tbl env → env !! x = None →
  agrees (tbl ++ [mkVariable x v 1]) (<[x:=v]> env).
Proof.
  intros Hag Hx y. specialize (Hag y). unfold lookup_value, sym_lookup in *.
  destruct (decide (x = y)) as [<-|Hne].
  - rewrite lookup_insert_eq. rewrite Hx in Hag.
    destruct (list_find _ tbl) as [[i w]|] eqn:Hfind.
    { apply list_find_Some in Hfind as (Hi & _). simpl in Hag.
      by rewrite Hi in Hag. }
    rewrite list_find_app_r by done. simpl. rewrite decide_True by done.
    simpl. by rewrite list_lookup_middle.
  - rewrite lookup_insert_ne by done.
    destruct (list_find _ tbl) as [[i w]|] eqn:Hfind.
    + rewrite (list_find_app_l _ _ _ _ _ Hfind). simpl in *.
      apply list_find_Some in Hfind as (Hi & _).
      by rewrite lookup_app_l by by eapply lookup_lt_Some.
    + rewrite list_find_app_r by done. simpl.
      by rewrite decide_False by done.
Qed.

Lemma agrees_empty : agrees [] ∅.
Proof. intros x. by rewrite lookup_empty. Qed.

(** ** Statements and programs *)

(** Reduce [Done x ≫= k] without unfolding anything else. *)
Ltac reduce_bind :=
  change (Done ?x ≫= ?k) with (k x); cbv beta iota zeta.

Section programs.

Context (tokens : list Token).

Lemma set_pos_pos s : set_pos (pos s) s = s.
Proof. by destruct s. Qed.

Lemma expect_at s n t rest ty :
  drop n tokens = t :: rest → type t = ty → ty ≠ TOK_EOF →
  expect tokens ty (set_pos n s) = (t, set_pos (S n) s).
Proof.
  intros Hdrop Hty Hne.
  assert (current_token tokens (set_pos n s) = t) as Hcur
    by by apply (current_token_drop tokens (set_pos n s) t rest).
  rewrite expect_match by by rewrite Hcur.
  rewrite advance_eta, advance_not_eof by (rewrite Hcur; congruence).
  by rewrite Hcur.
Qed.

Lemma expr_at env ts e post s n v :
  Expr ts e → drop n tokens = ts ++ post → agrees (sym_table s) env →
  eval env e = Some v →
  type (token_at tokens (n + length ts))
    ∉ [TOK_STAR; TOK_SLASH; TOK_PLUS; TOK_MINUS] →
  eventually (λ f, parse_expr tokens f (set_pos n s))
    (Done (v, set_pos (n + length ts) s)).
Proof.
  intros He Hdrop Hag Hv Hnext.
  rewrite !not_elem_of_cons in Hnext. destruct Hnext as (? & ? & ? & ? & _).
  destruct (grammar_parsed tokens env) as (_ & _ & Hexpr).
  apply (Hexpr ts e He post (set_pos n s) v); try done.
  - rewrite !not_elem_of_cons. split_and!; try done. apply not_elem_of_nil.
  - apply parse_expr_loop_stop.
    change (type (token_at tokens (n + length ts)) ∉ [TOK_PLUS; TOK_MINUS]).
    rewrite !not_elem_of_cons. split_and!; try done. apply not_elem_of_nil.
Qed.

(** A declaration, reached without error, of a fresh name whose
    initialiser has a value: the table gets one more entry. *)
Lemma declaration_parsed env kw id eq ts e semi post s v :
  type kw = TOK_INT → type id = TOK_IDENTIFIER → type eq = TOK_ASSIGN →
  Expr ts e → type semi = TOK_SEMICOLON →
  drop (pos s) tokens = (kw :: id :: eq :: ts ++ [semi]) ++ post →
  had_error s = false → agrees (sym_table s) env →
  eval env e = Some v → env !! text id = None →
  (length (sym_table s) < MAX_VARS)%nat →
  (String.length (text id) ≤ 255)%nat →
  eventually (λ f, parse_stmt tokens f s)
    (Done (set_sym_table (sym_table s ++ [mkVariable (text id) v 1])
             (set_pos (pos s + length (kw :: id :: eq :: ts ++ [semi])) s))).
Proof.
  intros Hkw Hid Heq He Hsemi Hdrop Hflag Hag Hv Hfresh Hroom Hshort.
  simpl in Hdrop. rewrite <-app_assoc in Hdrop. simpl in Hdrop.
  set (n := pos s) in *.
  pose proof (drop_split tokens n [kw] _ Hdrop) as Hd1.
  pose proof (drop_split tokens _ [id] _ Hd1) as Hd2.
  pose proof (drop_split tokens _ [eq] _ Hd2) as Hd3.
  pose proof (drop_split tokens _ ts _ Hd3) as Hd4.
  simpl in Hd1, Hd2, Hd3, Hd4.
  replace (n + 1 + 1 + 1)%nat with (S (S (S n))) in * by lia.
  replace (n + 1 + 1)%nat with (S (S n)) in * by lia.
  replace (n + 1)%nat with (S n) in * by lia.
  destruct (expr_at env ts e (semi :: post) s (S (S (S n))) v)
    as [_ [f Hf]]; try done.
  { rewrite (token_at_drop tokens _ semi post Hd4), Hsemi.
    rewrite !not_elem_of_cons. split_and!; try done. apply not_elem_of_nil. }
  split; [done|]. exists f. unfold parse_stmt.
  rewrite (current_token_drop tokens s kw _ Hdrop).
  rewrite decide_True by done. unfold parse_declaration.
  rewrite <-(set_pos_pos s) at 1. fold n.
  rewrite (expect_at s n kw _ TOK_INT Hdrop) by done. cbv beta iota zeta.
  change ((kw, set_pos (S n) s).2) with (set_pos (S n) s).
  rewrite (expect_at s (S n) id _ TOK_IDENTIFIER Hd1) by done.
  cbv beta iota zeta.
  rewrite (expect_at s (S (S n)) eq _ TOK_ASSIGN Hd2) by done.
  change ((eq, set_pos (S (S (S n))) s).2) with (set_pos (S (S (S n))) s).
  rewrite Hf. reduce_bind.
  rewrite (expect_at s _ semi _ TOK_SEMICOLON Hd4) by done.
  change ((semi, ?x).2) with x. cbv beta iota zeta.
  change (had_error (set_pos ?k s)) with (had_error s).
  rewrite Hflag. unfold sym_declare. simpl.
  rewrite (lookup_value_None (sym_table s) (text id))
    by by rewrite (Hag (text id)).
  rewrite decide_False by lia. unfold store_value. simpl.
  rewrite strncpy_short by done.
  replace (length (sym_table s)) with (length (sym_table s) + 0)%nat at 1
    by lia.
  rewrite alter_app_r. simpl. f_equal.
  unfold set_sym_table, set_pos. simpl. f_equal.
  rewrite length_app. simpl. lia.
Qed.

(** A print statement, reached without error, of an expression that has a
    value: one more line on standard output. *)
Lemma print_parsed env kw l ts e r semi post s v :
  type kw = TOK_PRINT → type l = TOK_LPAREN → Expr ts e →
  type r = TOK_RPAREN → type semi = TOK_SEMICOLON →
  drop (pos s) tokens = (kw :: l :: ts ++ [r; semi]) ++ post →
  had_error s = false → agrees (sym_table s) env →
  eval env e = Some v →
  eventually (λ f, parse_stmt tokens f s)
    (Done (printf (pretty v)
             (set_pos (pos s + length (kw :: l :: ts ++ [r; semi])) s))).
Proof.
  intros Hkw Hl He Hr Hsemi Hdrop Hflag Hag Hv.
  simpl in Hdrop. rewrite <-app_assoc in Hdrop. simpl in Hdrop.
  set (n := pos s) in *.
  pose proof (drop_split tokens n [kw] _ Hdrop) as Hd1.
  pose proof (drop_split tokens _ [l] _ Hd1) as Hd2.
  pose proof (drop_split tokens _ ts _ Hd2) as Hd3.
  pose proof (drop_split tokens _ [r] _ Hd3) as Hd4.
  simpl in Hd1, Hd2, Hd3, Hd4.
  replace (n + 1 + 1)%nat with (S (S n)) in * by lia.
  replace (n + 1)%nat with (S n) in * by lia.
  replace (S (S n) + length ts + 1)%nat with (S (S (S n) + length ts)) in *
    by lia.
  destruct (expr_at env ts e (r :: semi :: post) s (S (S n)) v)
    as [_ [f Hf]]; try done.
  { rewrite (token_at_drop tokens _ r _ Hd3), Hr.
    rewrite !not_elem_of_cons. split_and!; try done. apply not_elem_of_nil. }
  split; [done|]. exists f. unfold parse_stmt.
  rewrite (current_token_drop tokens s kw _ Hdrop).
  rewrite decide_False by congruence. rewrite decide_True by done.
  unfold parse_print.
  rewrite <-(set_pos_pos s) at 1. fold n.
  rewrite (expect_at s n kw _ TOK_PRINT Hdrop) by done.
  change ((kw, set_pos (S n) s).2) with (set_pos (S n) s).
  rewrite (expect_at s (S n) l _ TOK_LPAREN Hd1) by done.
  change ((l, set_pos (S (S n)) s).2) with (set_pos (S (S n)) s).
  rewrite Hf. reduce_bind.
  rewrite (expect_at s _ r _ TOK_RPAREN Hd3) by done.
  change ((r, ?x).2) with x.
  rewrite (expect_at s _ semi _ TOK_SEMICOLON Hd4) by done.
  change ((semi, ?x).2) with x. cbv beta iota zeta.
  change (had_error (set_pos ?k s)) with (had_error s).
  rewrite Hflag. f_equal.
  unfold printf, set_pos. simpl. f_equal.
  rewrite length_app. simpl. lia.
Qed.

Lemma parse_program_loop_intro s s' r :
  type (current_token tokens s) ≠ TOK_EOF →
  eventually (λ f, parse_stmt tokens f s) (Done s') →
  eventually (λ f, parse_program_loop tokens f s') r →
  eventually (λ f, parse_program_loop tokens f s) r.
Proof.
  intros Hty [_ [f1 H1]] [Hr [f2 <-]]. split; [done|].
  exists (S (f1 `max` f2)).
  rewrite parse_program_loop_S. unfold check.
  rewrite bool_decide_eq_false_2 by done.
  rewrite (parse_stmt_fuel_mono tokens f1 (f1 `max` f2) s s') by (done || lia).
  simpl.
  by rewrite (parse_program_loop_fuel_stable tokens f2) by (lia || done).
Qed.

(** The state in which a program that runs without error leaves the
    parser: cursor on EOF, flag clear, one table entry per declaration and
    one output line per print, in order, nothing on standard error. *)
Definition state_after (s : State) (n : nat) (evs : list event) : State :=
  mkState n false (sym_table s ++ declared evs) (stdout s ++ printed evs)
    (stderr s).

Lemma state_after_nil s : had_error s = false → state_after s (pos s) [] = s.
Proof.
  destruct s. unfold state_after. simpl. intros ->. by rewrite !app_nil_r.
Qed.

(** The statements of a program that runs without error, followed by
    whatever [post] holds: the statement loop behaves as if entered after
    them, in the state they leave. *)
Lemma statements_parsed ts p :
  Program ts p →
  ∀ s env evs post r,
    drop (pos s) tokens = ts ++ post →
    had_error s = false → agrees (sym_table s) env →
    exec env p = Some evs →
    (length (sym_table s) + length (declared evs) ≤ MAX_VARS)%nat →
    Forall (λ t, (String.length (text t) ≤ 255)%nat) ts →
    eventually (λ f, parse_program_loop tokens f
                       (state_after s (pos s + length ts) evs)) r →
    eventually (λ f, parse_program_loop tokens f s) r.
Proof.
  induction 1 as [|ts1 st ts2 p Hst Hp IH];
    intros s env evs post r Hdrop Hflag Hag Hexec Hroom Hshort Hrest.
  - simpl in Hexec. simplify_eq. simpl in Hrest.
    by rewrite Nat.add_0_r, state_after_nil in Hrest.
  - rewrite <-app_assoc in Hdrop. apply Forall_app in Hshort as [Hs1 Hs2].
    pose proof (drop_split tokens _ ts1 _ Hdrop) as Hd2.
    destruct Hst as [kw id eq ts e semi Hkw Hid Heq He Hsemi
                    |kw l ts e r0 semi Hkw Hl He Hr Hsemi].
    + (* declaration *)
      simpl in Hexec. apply bind_Some in Hexec as (v & Hv & Hexec).
      destruct (env !! text id) eqn:Hfresh; [done|].
      apply bind_Some in Hexec as (evs' & Hexec & ?). simplify_eq.
      simpl in Hroom.
      set (ts1 := kw :: id :: eq :: ts ++ [semi]) in *.
      set (s' := set_sym_table (sym_table s ++ [mkVariable (text id) v 1])
                   (set_pos (pos s + length ts1) s)).
      eapply (parse_program_loop_intro s s').
      * rewrite (current_token_drop tokens s kw _ Hdrop). congruence.
      * eapply declaration_parsed; try done;
          [revert Hroom; generalize MAX_VARS; clear; intros; lia|].
        apply Forall_cons in Hs1 as [_ Hs1].
        by apply Forall_cons in Hs1 as [? _].
      * eapply (IH s' (<[text id:=v]> env) evs' post); try done.
        -- by apply agrees_declare.
        -- unfold s'. simpl. rewrite length_app. simpl.
           revert Hroom. generalize MAX_VARS. clear. intros. lia.
        -- replace (state_after s' (pos s' + length ts2) evs')
             with (state_after s (pos s + length (ts1 ++ ts2))
                     (Declared (text id) v :: evs')); [done|].
           unfold state_after, s'. simpl. f_equal.
           ++ rewrite !length_app. simpl. clear. lia.
           ++ by rewrite <-app_assoc.
    + (* print *)
      simpl in Hexec. apply bind_Some in Hexec as (v & Hv & Hexec).
      apply bind_Some in Hexec as (evs' & Hexec & ?). simplify_eq.
      simpl in Hroom.
      set (ts1 := kw :: l :: ts ++ [r0; semi]) in *.
      set (s' := printf (pretty v) (set_pos (pos s + length ts1) s)).
      eapply (parse_program_loop_intro s s').
      * rewrite (current_token_drop tokens s kw _ Hdrop). congruence.
      * by eapply print_parsed.
      * eapply (IH s' env evs' post); try done.
        replace (state_after s' (pos s' + length ts2) evs')
          with (state_after s (pos s + length (ts1 ++ ts2))
                  (Printed v :: evs')); [done|].
        unfold state_after, s'. simpl. f_equal.
        -- rewrite !length_app. simpl. clear. lia.
        -- by rewrite <-app_assoc.
Qed.

Lemma parse_program_loop_at_eof s eof rest :
  drop (pos s) tokens = eof :: rest → type eof = TOK_EOF →
  eventually (λ f, parse_program_loop tokens f s) (Done s).
Proof.
  intros Hdrop Heof. split; [done|]. exists 1%nat.
  rewrite parse_program_loop_S. unfold check.
  rewrite (current_token_drop tokens s eof rest Hdrop).
  rewrite bool_decide_eq_true_2 by done.
  rewrite expect_match
    by by rewrite (current_token_drop tokens s eof rest Hdrop).
  by rewrite advance_eof
    by by rewrite (current_token_drop tokens s eof rest Hdrop).
Qed.

Lemma program_parsed ts p s env evs eof :
  Program ts p →
  drop (pos s) tokens = ts ++ [eof] → type eof = TOK_EOF →
  had_error s = false → agrees (sym_table s) env →
  exec env p = Some evs →
  (length (sym_table s) + length (declared evs) ≤ MAX_VARS)%nat →
  Forall (λ t, (String.length (text t) ≤ 255)%nat) ts →
  eventually (λ f, parse_program_loop tokens f s)
    (Done (state_after s (pos s + length ts) evs)).
Proof.
  intros Hp Hdrop Heof Hflag Hag Hexec Hroom Hshort.
  eapply statements_parsed; try done.
  apply (parse_program_loop_at_eof _ eof []); [|done].
  by apply drop_split.
Qed.

End programs.

Lemma eventually_parse_program toks r :
  eof_terminated toks →
  eventually (λ f, parse_program_loop toks f initial_state) r →
  parse_program toks = r.
Proof.
  intros Heof [Hr [f <-]].
  pose proof (parse_program_finishes toks Heof) as Hfin.
  unfold parse_program in *.
  rewrite <-(parse_program_loop_fuel_stable toks _
               (f `max` program_fuel toks)) by (lia || done).
  by rewrite (parse_program_loop_fuel_stable toks f) by (lia || done).
Qed.

(** The run of the statement loop from [s], with the fuel of [parse_program],
    as what the loop eventually does. *)
Lemma eventually_loop toks s :
  eof_terminated toks → in_bounds toks s →
  eventually (λ f, parse_program_loop toks f s)
    (parse_program_loop toks (program_fuel toks) s).
Proof.
  intros Heof Hs. split; [|by eexists]. apply finishes_cases.
  destruct (parse_program_loop_total toks Heof (program_fuel toks) s)
    as [?|(st & ? & _)]; [done | unfold program_fuel; lia | by left|].
  right. by exists st.
Qed.


Lemma exec_agrees p :
  ∀ tbl env evs,
    agrees tbl env → exec env p = Some evs →
    agrees (tbl ++ declared evs) (env_after env evs).
Proof.
  induction p as [|[x e|e] p IH]; intros tbl env evs Hag Hexec;
    simpl in Hexec.
  - simplify_eq. simpl. by rewrite app_nil_r.
  - apply bind_Some in Hexec as (v & Hv & Hexec).
    destruct (env !! x) eqn:Hfresh; [done|].
    apply bind_Some in Hexec as (evs' & Hexec & ?). simplify_eq. simpl.
    change (mkVariable x v 1 :: declared evs')
      with ([mkVariable x v 1] ++ declared evs').
    rewrite app_assoc. apply IH; [|done]. by apply agrees_declare.
  - apply bind_Some in Hexec as (v & Hv & Hexec).
    apply bind_Some in Hexec as (evs' & Hexec & ?). simplify_eq. simpl.
    by apply IH.
Qed.

(** Every valid program whose reference run succeeds is parsed without
    error, and leaves exactly what the reference run says. *)
Lemma valid_program_runs toks body eof p evs :
  toks = body ++ [eof] → type eof = TOK_EOF →
  Program body p → exec ∅ p = Some evs →
  (length (declared evs) ≤ MAX_VARS)%nat →
  Forall (λ t, (String.length (text t) ≤ 255)%nat) body →
  parse_program toks = Done (state_after initial_state (length body) evs).
Proof.
  intros -> Heof Hp Hexec Hroom Hshort.
  apply eventually_parse_program; [by eexists _, _|].
  by apply (program_parsed (body ++ [eof]) body p initial_state ∅ evs eof).
Qed.

(** A declaration, reached without error, of a name that is in the table
    already and whose initialiser has a value: one line on standard
    error, the flag set, the table as it was. *)
Lemma redeclaration_parsed tokens env kw id eq ts e semi post s v :
  type kw = TOK_INT → type id = TOK_IDENTIFIER → type eq = TOK_ASSIGN →
  Expr ts e → type semi = TOK_SEMICOLON →
  drop (pos s) tokens = (kw :: id :: eq :: ts ++ [semi]) ++ post →
  had_error s = false → agrees (sym_table s) env →
  eval env e = Some v → is_Some (sym_lookup (sym_table s) (text id)) →
  eventually (λ f, parse_stmt tokens f s)
    (Done (report (already_declared (text id) (line id))
             (set_pos (pos s + length (kw :: id :: eq :: ts ++ [semi])) s))).
Proof.
  intros Hkw Hid Heq He Hsemi Hdrop Hflag Hag Hv [i Hi].
  simpl in Hdrop. rewrite <-app_assoc in Hdrop. simpl in Hdrop.
  set (n := pos s) in *.
  pose proof (drop_split tokens n [kw] _ Hdrop) as Hd1.
  pose proof (drop_split tokens _ [id] _ Hd1) as Hd2.
  pose proof (drop_split tokens _ [eq] _ Hd2) as Hd3.
  pose proof (drop_split tokens _ ts _ Hd3) as Hd4.
  simpl in Hd1, Hd2, Hd3, Hd4.
  replace (n + 1 + 1 + 1)%nat with (S (S (S n))) in * by lia.
  replace (n + 1 + 1)%nat with (S (S n)) in * by lia.
  replace (n + 1)%nat with (S n) in * by lia.
  destruct (expr_at tokens env ts e (semi :: post) s (S (S (S n))) v)
    as [_ [f Hf]]; try done.
  { rewrite (token_at_drop tokens _ semi post Hd4), Hsemi.
    rewrite !not_elem_of_cons. split_and!; try done. apply not_elem_of_nil. }
  split; [done|]. exists f. unfold parse_stmt.
  rewrite (current_token_drop tokens s kw _ Hdrop).
  rewrite decide_True by done. unfold parse_declaration.
  rewrite <-(set_pos_pos s) at 1. fold n.
  rewrite (expect_at tokens s n kw _ TOK_INT Hdrop) by done.
  cbv beta iota zeta.
  change ((kw, set_pos (S n) s).2) with (set_pos (S n) s).
  rewrite (expect_at tokens s (S n) id _ TOK_IDENTIFIER Hd1) by done.
  cbv beta iota zeta.
  rewrite (expect_at tokens s (S (S n)) eq _ TOK_ASSIGN Hd2) by done.
  change ((eq, set_pos (S (S (S n))) s).2) with (set_pos (S (S (S n))) s).
  rewrite Hf. reduce_bind.
  rewrite (expect_at tokens s _ semi _ TOK_SEMICOLON Hd4) by done.
  change ((semi, ?x).2) with x. cbv beta iota zeta.
  change (had_error (set_pos ?k s)) with (had_error s).
  rewrite Hflag. unfold sym_declare. simpl. rewrite Hi. f_equal.
  unfold report, set_had_error, fprintf_stderr, set_pos. simpl. f_equal.
  rewrite length_app. simpl. lia.
Qed.

(** ** Redeclaration *)

(** Two texts that start with a number and differ in what follows it. *)
Lemma digits_apart d1 d2 c1 c2 r1 r2 :
  digits_only d1 → digits_only d2 → isdigit c1 = false → isdigit c2 = false →
  d1 +:+ String c1 r1 = d2 +:+ String c2 r2 → c1 = c2.
Proof.
  revert d2. induction d1 as [|x d1 IH]; intros [|y d2] H1 H2 Hc1 Hc2 H;
    simpl in *.
  - by injection H.
  - injection H as -> _. destruct H2. congruence.
  - injection H as -> _. destruct H1. congruence.
  - injection H as _ H. destruct H1, H2. by eapply IH.
Qed.

(** No complaint about a token reads like a redeclaration diagnostic. *)
Lemma located_not_already_declared t category what nm ln :
  complaint t category what →
  located category (line t) (col t) what ≠ already_declared nm ln.
Proof.
  intros Hc%complaint_category H. unfold located, already_declared in H.
  repeat (apply elem_of_cons in Hc as [->|Hc]);
    [| | | by apply elem_of_nil in Hc];
    rewrite !append_cons in H; try discriminate.
  injection H as H.
  by apply digits_apart in H; [| apply pretty_nat_digits.. | |].
Qed.

Lemma too_many_variables_not_already_declared nm ln :
  too_many_variables ≠ already_declared nm ln.
Proof. intros H. vm_compute in H. discriminate. Qed.

(** A redeclaration diagnostic is written only with the error flag clear,
    hence as the first diagnostic of what a run writes. *)
Definition redeclared_first (s s' : State) : Prop :=
  ∃ err, stderr s' = stderr s ++ err
    ∧ had_error s' = had_error s || bool_decide (err ≠ [])
    ∧ ∀ nm ln, already_declared nm ln ∈ err →
        had_error s = false ∧ ∃ rest, err = already_declared nm ln :: rest.

Lemma redeclared_first_silent s s' :
  stderr s' = stderr s → had_error s' = had_error s → redeclared_first s s'.
Proof.
  intros He Hf. exists []. rewrite app_nil_r.
  rewrite bool_decide_eq_false_2 by (by intros []). rewrite orb_false_r.
  split_and!; [done..|]. by intros nm ln ?%elem_of_nil.
Qed.

Lemma redeclared_first_trans s1 s2 s3 :
  redeclared_first s1 s2 → redeclared_first s2 s3 → redeclared_first s1 s3.
Proof.
  intros (e1 & He1 & Hf1 & H1) (e2 & He2 & Hf2 & H2). exists (e1 ++ e2).
  rewrite He2, He1, Hf2, Hf1, app_assoc, <-orb_assoc. split_and!; [done| |].
  - f_equal. destruct e1 as [|x e1], e2 as [|y e2]; simpl;
      repeat first [rewrite bool_decide_eq_false_2 by (by intros [])
                   |rewrite bool_decide_eq_true_2 by done]; done.
  - intros nm ln [Hin|Hin]%elem_of_app.
    + destruct (H1 nm ln Hin) as (? & rest & ->). split; [done|].
      by exists (rest ++ e2).
    + destruct (H2 nm ln Hin) as (Hflag & rest & ->).
      rewrite Hf1 in Hflag. apply orb_false_iff in Hflag as [? Hnil].
      apply bool_decide_eq_false in Hnil.
      destruct e1; [|by destruct Hnil]. split; [done|]. by exists rest.
Qed.

Lemma operation_redeclared tokens op s s' :
  run_operation tokens op s = Done s' → redeclared_first s s'.
Proof.
  intros H.
  destruct (operation_effects tokens redeclared_first) with (op := op)
    (s := s) (s' := s') as [HR _]; try done.
  - intros s0. by apply redeclared_first_silent.
  - intros s1 s2 s3 _. apply redeclared_first_trans.
  - intros s0 _. by apply redeclared_first_silent.
  - intros s0 p category msg _ Hc. eexists. split; [apply stderr_report|].
    rewrite had_error_report, bool_decide_eq_true_2, orb_true_r by done.
    split; [done|]. intros nm ln Heq%list_elem_of_singleton.
    symmetry in Heq. by apply located_not_already_declared in Heq.
  - intros s0 val _. by apply redeclared_first_silent.
  - intros s0 nm ln val Hflag. unfold sym_declare.
    destruct (sym_lookup _ _);
      [|case_decide; [|by apply redeclared_first_silent]].
    + eexists [_]. split; [done|]. rewrite Hflag. split; [done|].
      intros nm' ln' ->%list_elem_of_singleton. split; [done|]. by exists [].
    + eexists [_]. split; [done|]. rewrite Hflag. split; [done|].
      intros nm' ln' Heq%list_elem_of_singleton. symmetry in Heq.
      by apply too_many_variables_not_already_declared in Heq.
Qed.

(** The tokens of [int a = 1;] on line 1 and of [int a = 2;] on line 2. *)
Definition first_declaration : list Token :=
  [mkToken TOK_INT "int" 0 1 1; mkToken TOK_IDENTIFIER "a" 0 1 5;
   mkToken TOK_ASSIGN "=" 0 1 7; mkToken TOK_INTEGER "1" 1 1 9;
   mkToken TOK_SEMICOLON ";" 0 1 10].

(** The state of the parser right after a redeclaration that follows
    statements which ran without error: the cursor behind the declaration,
    the flag set, the table and the output of the statements before, and
    the redeclaration diagnostic as the only line on standard error. *)
Definition after_redeclaration (n : nat) (evs : list event) (id : Token)
    : State :=
  mkState n true (declared evs) (printed evs)
    [already_declared (text id) (line id)].

(** C6, as amended: when the statements before a declaration run without
    error (the reference run of this prefix succeeds) and declare its name,
    and its initialiser has a value, the declaration writes
    [Semantic Error [line L]: variable '<name>' is already declared] with
    L the line of its own identifier token, whatever stands between the
    two declarations: the run goes on from the state in which this line is
    the only one on standard error, the flag is set, and the table and the
    output are those of the statements before; it ends, and if it returns,
    the diagnostic is the first line of standard error and the table and
    the output are still those.  A redeclaration diagnostic is written
    only with the error flag clear: in what any operation writes to
    standard error it can only be the first line, of an operation started
    with the flag clear; so after an earlier error, or an error inside the
    declaration, the redeclaration is not reported.  And no operation ever
    changes an entry of the symbol table: the original value stays. *)
Theorem redeclaration_is_reported :
  (∀ body1 kw id eq ts e semi rest eof p1 evs v,
     type eof = TOK_EOF →
     Program body1 p1 → exec ∅ p1 = Some evs →
     (length (declared evs) ≤ MAX_VARS)%nat →
     Forall (λ t, (String.length (text t) ≤ 255)%nat) body1 →
     type kw = TOK_INT → type id = TOK_IDENTIFIER → type eq = TOK_ASSIGN →
     Expr ts e → type semi = TOK_SEMICOLON →
     text id ∈ name <$> declared evs →
     eval (env_after ∅ evs) e = Some v →
     let stmt := kw :: id :: eq :: ts ++ [semi] in
     let toks := body1 ++ stmt ++ rest ++ [eof] in
     let s2 := after_redeclaration (length body1 + length stmt) evs id in
     parse_program toks = parse_program_loop toks (program_fuel toks) s2
     ∧ finishes (parse_program toks)
     ∧ ∀ st, parse_program toks = Done st →
         ∃ more, stderr st = already_declared (text id) (line id) :: more
                 ∧ had_error st = true
                 ∧ sym_table st = declared evs ∧ stdout st = printed evs)
  ∧ (∀ tokens op s s',
       run_operation tokens op s = Done s' →
       ∃ err, stderr s' = stderr s ++ err
         ∧ ∀ nm ln, already_declared nm ln ∈ err →
             had_error s = false ∧ ∃ rest, err = already_declared nm ln :: rest)
  ∧ (∀ tokens op s s' i w,
       run_operation tokens op s = Done s' →
       sym_table s !! i = Some w → sym_table s' !! i = Some w).
Proof.
  split_and!.
  - intros body1 kw id eq ts e semi rest eof p1 evs v
      Heof Hp1 Hexec Hroom Hshort Hkw Hid Heq He Hsemi Hdecl Hv stmt toks s2.
    assert (eof_terminated toks) as Hterm.
    { exists (body1 ++ stmt ++ rest), eof. unfold toks.
      by rewrite <-!app_assoc. }
    set (s1 := state_after initial_state (length body1) evs).
    assert (s2 = report (already_declared (text id) (line id))
                   (set_pos (pos s1 + length stmt) s1)) as Hs2 by done.
    assert (agrees (sym_table s1) (env_after ∅ evs)) as Hag.
    { apply (exec_agrees p1 [] ∅ evs agrees_empty Hexec). }
    assert (drop (pos s1) toks = stmt ++ rest ++ [eof]) as Hdrop
      by apply drop_app_length.
    assert (eventually (λ f, parse_stmt toks f s1) (Done s2)) as Hstmt.
    { rewrite Hs2.
      apply (redeclaration_parsed toks (env_after ∅ evs) kw id eq ts e semi
               (rest ++ [eof]) s1 v); try done.
      apply list_elem_of_fmap in Hdecl as (w & Hname & Hw).
      destruct (list_find_elem_of (λ v, name v = text id) (declared evs) w)
        as [[i w'] Hfind]; [done | done|].
      exists i. unfold sym_lookup. change (sym_table s1) with (declared evs).
      by rewrite Hfind. }
    assert (in_bounds toks s2) as Hin.
    { unfold in_bounds, s2, toks, stmt. simpl.
      rewrite !length_app. simpl. rewrite !length_app. simpl. clear. lia. }
    assert (parse_program toks
            = parse_program_loop toks (program_fuel toks) s2) as Hrun.
    { apply eventually_parse_program; [done|].
      apply (statements_parsed toks body1 p1 Hp1 initial_state ∅ evs
               (stmt ++ rest ++ [eof])); try done.
      eapply (parse_program_loop_intro toks s1 s2);
        [|done | by apply eventually_loop].
      rewrite (current_token_drop toks s1 kw _ Hdrop). congruence. }
    split_and!; [done | by apply parse_program_finishes|].
    intros st Hst. rewrite Hrun in Hst.
    destruct (operation_muted toks (op_parse_program _) s2 st Hst eq_refl)
      as (Herr & Hout & Htbl).
    destruct (operation_stderr_grows toks (op_parse_program _) s2 st Hst)
      as [more Hmore].
    by exists more.
  - intros tokens op s s' H.
    destruct (operation_redeclared tokens op s s' H) as (err & ? & _ & ?).
    by exists err.
  - intros tokens op s s' i w H Hi.
    destruct (operation_appends tokens op s s' H)
      as (_ & _ & tbl & _ & _ & -> & _).
    by apply lookup_app_l_Some.
Qed.

Lemma redeclaration_is_reported_witness :
  let toks :=
    first_declaration
    ++ (mkToken TOK_INT "int" 0 2 1 :: mkToken TOK_IDENTIFIER "a" 0 2 5
        :: mkToken TOK_ASSIGN "=" 0 2 7
        :: [mkToken TOK_INTEGER "2" 2 2 9]
        ++ [mkToken TOK_SEMICOLON ";" 0 2 10])
    ++ [] ++ [mkToken TOK_EOF "EOF" 0 2 11] in
  parse_program toks
  = parse_program_loop toks (program_fuel toks)
      (mkState 10 true [mkVariable "a" 1 1] []
         ["Semantic Error [line 2]: variable 'a' is already declared"])
  ∧ finishes (parse_program toks)
  ∧ ∀ st, parse_program toks = Done st →
      ∃ more, stderr st = already_declared "a" 2 :: more
              ∧ had_error st = true
              ∧ sym_table st = [mkVariable "a" 1 1] ∧ stdout st = [].
Proof.
  refine (proj1 redeclaration_is_reported first_declaration
            (mkToken TOK_INT "int" 0 2 1) (mkToken TOK_IDENTIFIER "a" 0 2 5)
            (mkToken TOK_ASSIGN "=" 0 2 7) [mkToken TOK_INTEGER "2" 2 2 9]
            (Num 2) (mkToken TOK_SEMICOLON ";" 0 2 10) []
            (mkToken TOK_EOF "EOF" 0 2 11)
            [Declaration "a" (Num 1)] [Declared "a" 1] 2
            _ _ _ _ _ _ _ _ _ _ _ _); try reflexivity.
  - apply (Program_cons first_declaration (Declaration "a" (Num 1)) [] []);
      [|apply Program_nil].
    apply (Stmt_declaration (mkToken TOK_INT "int" 0 1 1)
             (mkToken TOK_IDENTIFIER "a" 0 1 5) (mkToken TOK_ASSIGN "=" 0 1 7)
             [mkToken TOK_INTEGER "1" 1 1 9] (Num 1)
             (mkToken TOK_SEMICOLON ";" 0 1 10)); try reflexivity.
    apply Expr_term, Term_factor.
    apply (Factor_integer (mkToken TOK_INTEGER "1" 1 1 9)). reflexivity.
  - simpl. unfold MAX_VARS. lia.
  - unfold first_declaration. repeat constructor; simpl; lia.
  - apply Expr_term, Term_factor.
    apply (Factor_integer (mkToken TOK_INTEGER "2" 2 2 9)). reflexivity.
  - simpl. constructor.
Defined.

(** C6 as stated fails: after an earlier error the redeclaration on line 3
    is not reported at all. *)
Lemma masked_redeclaration :
  main ["parser"; "prog.txt"]
    (λ _, Some ("int a = 1;" +:+ String newline "print(b);"
                +:+ String newline "int a = 2;"))
  = Done (mkOutcome 1 []
      ["Semantic Error [line 2, col 7]: undeclared variable 'b'"; "";
       "Parsing/execution failed due to errors above."])
  ∧ ∀ ln, already_declared "a" ln
          ∉ ["Semantic Error [line 2, col 7]: undeclared variable 'b'"; "";
             "Parsing/execution failed due to errors above."].
Proof.
  split; [vm_compute; reflexivity|]. intros ln Hin.
  unfold already_declared in Hin.
  repeat (apply elem_of_cons in Hin as [Hin|Hin]);
    [| | | by apply elem_of_nil in Hin];
    rewrite !append_cons in Hin; try discriminate.
  injection Hin as Hin.
  by apply digits_then in Hin; [| apply pretty_nat_digits | | |].
Qed.

(** ** The converse: what the parser accepts is a valid program *)

Section acceptance.

Context (tokens : list Token).
Hypothesis Heof : eof_terminated tokens.

(** From [s] to [s'] exactly the tokens [ts] were consumed, and nothing
    else has changed. *)
Definition consumed (s s' : State) (ts : list Token) : Prop :=
  drop (pos s) tokens = ts ++ drop (pos s') tokens
  ∧ s' = set_pos (pos s + length ts) s.

Lemma consumed_nil s : consumed s s [].
Proof. split; [done|]. by rewrite Nat.add_0_r, set_pos_pos. Qed.

Lemma consumed_app s s1 s2 ts1 ts2 :
  consumed s s1 ts1 → consumed s1 s2 ts2 → consumed s s2 (ts1 ++ ts2).
Proof.
  intros [Hd1 ->] [Hd2 ->]. split.
  - by rewrite Hd1, Hd2, app_assoc.
  - simpl. rewrite set_pos_set_pos, length_app. f_equal. lia.
Qed.

Lemma consumed_advance s :
  in_bounds tokens s → type (current_token tokens s) ≠ TOK_EOF →
  consumed s (advance tokens s).2 [current_token tokens s].
Proof.
  intros Hs Hty. rewrite advance_not_eof by done. split.
  - simpl. by apply drop_S, in_bounds_lookup.
  - simpl. by rewrite Nat.add_1_r.
Qed.

Lemma expression_frame fuel :
  (∀ s v s', parse_factor tokens fuel s = Done (v, s') → frame s s')
  ∧ (∀ lhs s v s', parse_term_loop tokens fuel lhs s = Done (v, s') →
       frame s s')
  ∧ (∀ s v s', parse_term tokens fuel s = Done (v, s') → frame s s')
  ∧ (∀ lhs s v s', parse_expr_loop tokens fuel lhs s = Done (v, s') →
       frame s s')
  ∧ (∀ s v s', parse_expr tokens fuel s = Done (v, s') → frame s s').
Proof.
  pose proof (expression_effects tokens frame frame_refl
                (λ a b c _, frame_trans a b c)
                ltac:(done) ltac:(done) fuel) as (Hf & Htl & Ht & Hel & He).
  split_and!; intros; [by eapply Hf | by eapply Htl | by eapply Ht
                      | by eapply Hel | by eapply He].
Qed.

Lemma frame_clear s s' :
  frame s s' → had_error s' = false → had_error s = false.
Proof. intros (_ & _ & H) Hf. destruct (had_error s); [|done]. by rewrite H in Hf. Qed.

(** An [expect] that leaves the flag clear has matched. *)
Lemma expect_clear ty s :
  had_error (expect tokens ty s).2 = false →
  type (current_token tokens s) = ty
  ∧ expect tokens ty s = advance tokens s.
Proof.
  unfold expect. by case_decide.
Qed.

Lemma had_error_advance s :
  had_error (advance tokens s).2 = had_error s.
Proof. unfold advance. simpl. by case_decide. Qed.

Lemma sym_table_advance s : sym_table (advance tokens s).2 = sym_table s.
Proof. unfold advance. simpl. by case_decide. Qed.

Lemma agrees_value tbl env x i :
  agrees tbl env → sym_lookup tbl x = Some i →
  env !! x = Some (default 0 (value <$> tbl !! i)).
Proof.
  intros Hag Hi. rewrite <-(Hag x). unfold lookup_value. rewrite Hi. simpl.
  unfold sym_lookup in Hi. apply fmap_Some in Hi as ([j w] & Hfind & ->).
  apply list_find_Some in Hfind as (Hw & _). simpl. by rewrite Hw.
Qed.

Lemma agrees_fresh tbl env x :
  agrees tbl env → sym_lookup tbl x = None → env !! x = None.
Proof.
  intros Hag Hx. rewrite <-(Hag x). unfold lookup_value. by rewrite Hx.
Qed.

Lemma check_two ty1 ty2 s :
  check tokens ty1 s || check tokens ty2 s = true →
  type (current_token tokens s) = ty1 ∨ type (current_token tokens s) = ty2.
Proof.
  unfold check. intros [H|H]%orb_prop; apply bool_decide_eq_true in H; auto.
Qed.

(** What a run of the expression procedures that ends with the flag clear
    has read: the tokens of a factor, a term, an expression, whose value
    it returns; the loops extend the term or expression read so far. *)
Lemma expression_accepted env fuel :
  (∀ s v s',
     parse_factor tokens fuel s = Done (v, s') → had_error s' = false →
     in_bounds tokens s → agrees (sym_table s) env →
     ∃ ts e, Factor ts e ∧ eval env e = Some v ∧ consumed s s' ts)
  ∧ (∀ lhs s v s',
       parse_term_loop tokens fuel lhs s = Done (v, s') →
       had_error s' = false → in_bounds tokens s →
       agrees (sym_table s) env →
       ∀ s0 ts0 e0, Term ts0 e0 → eval env e0 = Some lhs →
         consumed s0 s ts0 →
         ∃ ts e, Term ts e ∧ eval env e = Some v ∧ consumed s0 s' ts)
  ∧ (∀ s v s',
       parse_term tokens fuel s = Done (v, s') → had_error s' = false →
       in_bounds tokens s → agrees (sym_table s) env →
       ∃ ts e, Term ts e ∧ eval env e = Some v ∧ consumed s s' ts)
  ∧ (∀ lhs s v s',
       parse_expr_loop tokens fuel lhs s = Done (v, s') →
       had_error s' = false → in_bounds tokens s →
       agrees (sym_table s) env →
       ∀ s0 ts0 e0, Expr ts0 e0 → eval env e0 = Some lhs →
         consumed s0 s ts0 →
         ∃ ts e, Expr ts e ∧ eval env e = Some v ∧ consumed s0 s' ts)
  ∧ (∀ s v s',
       parse_expr tokens fuel s = Done (v, s') → had_error s' = false →
       in_bounds tokens s → agrees (sym_table s) env →
       ∃ ts e, Expr ts e ∧ eval env e = Some v ∧ consumed s s' ts).
Proof.
  induction fuel as [|fuel (IHf & IHtl & IHt & IHel & IHe)];
    [by repeat split|].
  destruct (expression_frame fuel) as (Ff & Ftl & Ft & Fel & Fe).
  split_and!.
  - (* factor *)
    intros s v s' H Hclear Hs Hag. rewrite parse_factor_cases in H.
    cbv zeta in H. set (t := current_token tokens s) in *.
    destruct (decide (type t = TOK_INTEGER)) as [Hty|?];
      [|destruct (decide (type t = TOK_IDENTIFIER)) as [Hty|?];
        [|destruct (decide (type t = TOK_LPAREN)) as [Hty|?]]].
    + simplify_eq. exists [t], (Num (int_value t)).
      split_and!; [by constructor | done|].
      apply consumed_advance; [done | fold t; congruence].
    + rewrite sym_table_advance in H.
      destruct (sym_lookup _ _) as [i|] eqn:Hi; simplify_eq.
      exists [t], (Var (text t)).
      split_and!; [by constructor | by apply agrees_value|].
      apply consumed_advance; [done | fold t; congruence].
    + bind_inv H. simplify_eq.
      pose proof (expect_clear _ _ Hclear) as [Hr Hexp].
      rewrite Hexp in Hclear |- *. rewrite had_error_advance in Hclear.
      pose proof (cursor_effects tokens Heof op_advance s _ eq_refl Hs)
        as [Hs1 _].
      pose proof (parse_expr_cursor tokens Heof _ _ _ _ E Hs1) as [Hs2 _].
      destruct (IHe _ _ _ E) as (ts & e & He & Hv & Hcons); try done.
      { by rewrite sym_table_advance. }
      exists (t :: ts ++ [current_token tokens s0]), e.
      split_and!; [by constructor | done|].
      change (t :: ts ++ [current_token tokens s0])
        with ([t] ++ ts ++ [current_token tokens s0]).
      eapply consumed_app;
        [apply consumed_advance; [done | fold t; congruence]|].
      eapply consumed_app; [done|].
      apply consumed_advance; [done | congruence].
    + exfalso. simplify_eq.
      destruct (decide (type t = TOK_EOF));
        [|rewrite had_error_advance in Hclear];
        by rewrite had_error_report in Hclear.
  - (* the loop of parse_term *)
    intros lhs s v s' H Hclear Hs Hag s0 ts0 e0 Ht0 Hv0 Hc0.
    rewrite parse_term_loop_S in H.
    destruct (_ || _) eqn:Hop; [|simplify_eq; by exists ts0, e0].
    pose proof (check_op_not_eof tokens _ _ _ Hop) as Hne.
    specialize (Hne ltac:(done) ltac:(done)).
    apply check_two in Hop.
    rewrite advance_eta in H. cbv beta iota in H. bind_inv H.
    set (op := current_token tokens s) in *.
    pose proof (cursor_effects tokens Heof op_advance s _ eq_refl Hs)
      as [Hs1 _].
    pose proof (parse_factor_cursor tokens Heof _ _ _ _ E Hs1) as [Hs2 _].
    assert (had_error s1 = false ∧ sym_table s1 = sym_table s) as [Hc1 Htbl].
    { repeat case_decide.
      - apply Ftl in H. split; [by eapply frame_clear|].
        apply Ff in E. destruct E as (_ & -> & _). apply sym_table_advance.
      - apply Ftl in H. apply frame_clear in H; [|done].
        by rewrite had_error_report in H.
      - div_inv H. apply Ftl in H. split; [by eapply frame_clear|].
        apply Ff in E. destruct E as (_ & -> & _). apply sym_table_advance. }
    destruct (IHf _ _ _ E) as (ts2 & e2 & He2 & Hv2 & Hc2); try done.
    { by rewrite sym_table_advance. }
    assert (consumed s0 s1 (ts0 ++ op :: ts2)) as Hc.
    { eapply consumed_app; [done|]. change (op :: ts2) with ([op] ++ ts2).
      eapply consumed_app; [by apply consumed_advance | done]. }
    repeat case_decide.
    + refine (IHtl _ _ _ _ H Hclear Hs2 _ s0 _ (Bin Mul e0 e2) _ _ Hc);
        [by rewrite Htbl | by apply Term_mul|].
      simpl. by rewrite Hv0, Hv2.
    + apply Ftl in H. apply frame_clear in H; [|done].
      by rewrite had_error_report in H.
    + div_inv H. unfold int_div in Eq.
      case_decide as Hdiv; [done|]. injection Eq as <-.
      refine (IHtl _ _ _ _ H Hclear Hs2 _ s0 _ (Bin Div e0 e2) _ _ Hc);
        [by rewrite Htbl | apply Term_div; [done | | done]; by destruct Hop|].
      simpl. rewrite Hv0, Hv2. simpl. by rewrite decide_False.
  - (* parse_term *)
    intros s v s' H Hclear Hs Hag. rewrite parse_term_S in H. bind_inv H.
    pose proof (parse_factor_cursor tokens Heof _ _ _ _ E Hs) as [Hs1 _].
    pose proof (Ff _ _ _ E) as (_ & Htbl & _).
    pose proof (frame_clear _ _ (Ftl _ _ _ _ H) Hclear) as Hc1.
    destruct (IHf _ _ _ E) as (ts1 & e1 & He1 & Hv1 & Hcons1); try done.
    refine (IHtl _ _ _ _ H Hclear Hs1 _ s _ e1 _ Hv1 Hcons1);
      [by rewrite Htbl | by apply Term_factor].
  - (* the loop of parse_expr *)
    intros lhs s v s' H Hclear Hs Hag s0 ts0 e0 Ht0 Hv0 Hc0.
    rewrite parse_expr_loop_S in H.
    destruct (_ || _) eqn:Hop; [|simplify_eq; by exists ts0, e0].
    pose proof (check_op_not_eof tokens _ _ _ Hop) as Hne.
    specialize (Hne ltac:(done) ltac:(done)).
    apply check_two in Hop.
    rewrite advance_eta in H. cbv beta iota in H. bind_inv H.
    set (op := current_token tokens s) in *.
    pose proof (cursor_effects tokens Heof op_advance s _ eq_refl Hs)
      as [Hs1 _].
    pose proof (parse_term_cursor tokens Heof _ _ _ _ E Hs1) as [Hs2 _].
    assert (had_error s1 = false ∧ sym_table s1 = sym_table s) as [Hc1 Htbl].
    { case_decide; apply Fel in H; (split; [by eapply frame_clear|]);
        apply Ft in E; destruct E as (_ & -> & _); apply sym_table_advance. }
    destruct (IHt _ _ _ E) as (ts2 & e2 & He2 & Hv2 & Hc2); try done.
    { by rewrite sym_table_advance. }
    assert (consumed s0 s1 (ts0 ++ op :: ts2)) as Hc.
    { eapply consumed_app; [done|]. change (op :: ts2) with ([op] ++ ts2).
      eapply consumed_app; [by apply consumed_advance | done]. }
    case_decide.
    + refine (IHel _ _ _ _ H Hclear Hs2 _ s0 _ (Bin Add e0 e2) _ _ Hc);
        [by rewrite Htbl | by apply Expr_add|].
      simpl. by rewrite Hv0, Hv2.
    + refine (IHel _ _ _ _ H Hclear Hs2 _ s0 _ (Bin Sub e0 e2) _ _ Hc);
        [by rewrite Htbl | apply Expr_sub; [done | | done]; by destruct Hop|].
      simpl. by rewrite Hv0, Hv2.
  - (* parse_expr *)
    intros s v s' H Hclear Hs Hag. rewrite parse_expr_S in H. bind_inv H.
    pose proof (parse_term_cursor tokens Heof _ _ _ _ E Hs) as [Hs1 _].
    pose proof (Ft _ _ _ E) as (_ & Htbl & _).
    pose proof (frame_clear _ _ (Fel _ _ _ _ H) Hclear) as Hc1.
    destruct (IHt _ _ _ E) as (ts1 & e1 & He1 & Hv1 & Hcons1); try done.
    refine (IHel _ _ _ _ H Hclear Hs1 _ s _ e1 _ Hv1 Hcons1);
      [by rewrite Htbl | by apply Expr_term].
Qed.

(** Names as [tokenise] stores them fit the buffer of a table entry. *)
Hypothesis Hshort :
  ∀ t, t ∈ tokens → type t = TOK_IDENTIFIER →
    (String.length (text t) ≤ 255)%nat.

(** An [expect] after which the flag is clear has matched its token, and
    was reached with the flag clear. *)
Lemma expect_accepted ty s :
  in_bounds tokens s → ty ≠ TOK_EOF →
  had_error (expect tokens ty s).2 = false →
  type (current_token tokens s) = ty ∧ had_error s = false
  ∧ (expect tokens ty s).1 = current_token tokens s
  ∧ consumed s (expect tokens ty s).2 [current_token tokens s]
  ∧ in_bounds tokens (expect tokens ty s).2.
Proof.
  intros Hs Hne Hc. destruct (expect_clear _ _ Hc) as [Hty Hexp].
  rewrite Hexp in Hc |- *. rewrite had_error_advance in Hc.
  split_and!; try done.
  - apply consumed_advance; [done | congruence].
  - by apply (cursor_effects tokens Heof op_advance s).
Qed.

Lemma declaration_accepted env fuel s s' :
  parse_declaration tokens fuel s = Done s' → had_error s' = false →
  in_bounds tokens s → agrees (sym_table s) env →
  ∃ ts st evs, Stmt ts st ∧ exec env [st] = Some evs
    ∧ drop (pos s) tokens = ts ++ drop (pos s') tokens
    ∧ s' = state_after s (pos s + length ts) evs ∧ had_error s = false.
Proof.
  intros H Hclear Hs Hag. unfold parse_declaration in H. cbv zeta in H.
  set (s1 := (expect tokens TOK_INT s).2) in *.
  destruct (expect tokens TOK_IDENTIFIER s1) as [id s2] eqn:E2.
  assert (id = (expect tokens TOK_IDENTIFIER s1).1) as Hid by by rewrite E2.
  assert (s2 = (expect tokens TOK_IDENTIFIER s1).2) as Hs2 by by rewrite E2.
  clear E2. subst s2.
  set (s2 := (expect tokens TOK_IDENTIFIER s1).2) in *.
  set (s3 := (expect tokens TOK_ASSIGN s2).2) in *.
  apply bind_Done in H as ([val s4] & E & H). cbv beta iota in H.
  set (s5 := (expect tokens TOK_SEMICOLON s4).2) in *.
  destruct (had_error s5) eqn:Hc5; [injection H as <-; congruence|].
  destruct (sym_declare _ _ _) as [[i|] s6] eqn:Hdecl; injection H as <-;
    [|done].
  unfold sym_declare in Hdecl.
  destruct (sym_lookup _ _) eqn:Hlook; [done|]. case_decide; [done|].
  injection Hdecl as <- <-. clear Hclear.
  assert (in_bounds tokens s1) as Hb1
    by apply (cursor_effects tokens Heof (op_expect TOK_INT) s _ eq_refl Hs).
  assert (in_bounds tokens s2) as Hb2
    by apply (cursor_effects tokens Heof (op_expect TOK_IDENTIFIER) s1 _
                eq_refl Hb1).
  assert (in_bounds tokens s3) as Hb3
    by apply (cursor_effects tokens Heof (op_expect TOK_ASSIGN) s2 _
                eq_refl Hb2).
  pose proof (parse_expr_cursor tokens Heof _ _ _ _ E Hb3) as [Hb4 _].
  assert (had_error s4 = false ∧ consumed s4 s5 [current_token tokens s4]
          ∧ type (current_token tokens s4) = TOK_SEMICOLON)
    as (Hc4 & C5 & T5).
  { by destruct (expect_accepted TOK_SEMICOLON s4 Hb4 ltac:(done) Hc5)
      as (? & ? & _ & ? & _). }
  pose proof (frame_clear _ _ (parse_expr_frame tokens _ _ _ _ E) Hc4) as Hc3.
  assert (had_error s2 = false ∧ consumed s2 s3 [current_token tokens s2]
          ∧ type (current_token tokens s2) = TOK_ASSIGN)
    as (Hc2 & C3 & T3).
  { by destruct (expect_accepted TOK_ASSIGN s2 Hb2 ltac:(done) Hc3)
      as (? & ? & _ & ? & _). }
  assert (had_error s1 = false ∧ consumed s1 s2 [current_token tokens s1]
          ∧ type (current_token tokens s1) = TOK_IDENTIFIER
          ∧ id = current_token tokens s1)
    as (Hc1 & C2 & T2 & ->).
  { destruct (expect_accepted TOK_IDENTIFIER s1 Hb1 ltac:(done) Hc2)
      as (? & ? & ? & ? & _). split_and!; try done. congruence. }
  assert (had_error s = false ∧ consumed s s1 [current_token tokens s]
          ∧ type (current_token tokens s) = TOK_INT)
    as (Hc0 & C1 & T1).
  { by destruct (expect_accepted TOK_INT s Hs ltac:(done) Hc1)
      as (? & ? & _ & ? & _). }
  clear Hid. set (id := current_token tokens s1) in *.
  assert (sym_table s3 = sym_table s) as Htbl3.
  { destruct C1 as [_ E1], C2 as [_ E2], C3 as [_ E3].
    by rewrite E3, E2, E1. }
  destruct (expression_accepted env fuel) as (_ & _ & _ & _ & Hexpr).
  destruct (Hexpr _ _ _ E Hc4 Hb3) as (ts & e & He & Hv & C4);
    [by rewrite Htbl3|].
  pose proof (consumed_app _ _ _ _ _ C1
                (consumed_app _ _ _ _ _ C2
                   (consumed_app _ _ _ _ _ C3
                      (consumed_app _ _ _ _ _ C4 C5)))) as [Hdrop Hfin].
  simpl in Hdrop, Hfin.
  assert (sym_table s5 = sym_table s) as Htbl5 by by rewrite Hfin.
  assert (env !! text id = None) as Hfresh.
  { apply (agrees_fresh (sym_table s)); [done | by rewrite <-Htbl5]. }
  exists (current_token tokens s :: id :: current_token tokens s2
            :: ts ++ [current_token tokens s4]),
    (Declaration (text id) e), [Declared (text id) val].
  split_and!; [by constructor | | done | | done].
  - simpl. rewrite Hv. simpl. by rewrite Hfresh.
  - unfold store_value. rewrite Hfin. destruct s as [p0 f0 tbl out err].
    simpl in *. subst f0. unfold state_after, set_sym_table. simpl.
    rewrite app_nil_r. f_equal.
    rewrite strncpy_short.
    + replace (length tbl) with (length tbl + 0)%nat at 1 by lia.
      by rewrite alter_app_r.
    + apply Hshort; [|done]. apply list_elem_of_lookup. exists (pos s1).
      by apply in_bounds_lookup.
Qed.

Lemma print_accepted env fuel s s' :
  parse_print tokens fuel s = Done s' → had_error s' = false →
  in_bounds tokens s → agrees (sym_table s) env →
  ∃ ts st evs, Stmt ts st ∧ exec env [st] = Some evs
    ∧ drop (pos s) tokens = ts ++ drop (pos s') tokens
    ∧ s' = state_after s (pos s + length ts) evs ∧ had_error s = false.
Proof.
  intros H Hclear Hs Hag. unfold parse_print in H. cbv zeta in H.
  set (s1 := (expect tokens TOK_PRINT s).2) in *.
  set (s2 := (expect tokens TOK_LPAREN s1).2) in *.
  apply bind_Done in H as ([val s3] & E & H). cbv beta iota in H.
  set (s4 := (expect tokens TOK_RPAREN s3).2) in *.
  set (s5 := (expect tokens TOK_SEMICOLON s4).2) in *.
  destruct (had_error s5) eqn:Hc5; injection H as <-; [congruence|].
  clear Hclear.
  assert (in_bounds tokens s1) as Hb1
    by apply (cursor_effects tokens Heof (op_expect TOK_PRINT) s _ eq_refl Hs).
  assert (in_bounds tokens s2) as Hb2
    by apply (cursor_effects tokens Heof (op_expect TOK_LPAREN) s1 _
                eq_refl Hb1).
  pose proof (parse_expr_cursor tokens Heof _ _ _ _ E Hb2) as [Hb3 _].
  assert (in_bounds tokens s4) as Hb4
    by apply (cursor_effects tokens Heof (op_expect TOK_RPAREN) s3 _
                eq_refl Hb3).
  assert (had_error s4 = false ∧ consumed s4 s5 [current_token tokens s4]
          ∧ type (current_token tokens s4) = TOK_SEMICOLON)
    as (Hc4 & C5 & T5).
  { by destruct (expect_accepted TOK_SEMICOLON s4 Hb4 ltac:(done) Hc5)
      as (? & ? & _ & ? & _). }
  assert (had_error s3 = false ∧ consumed s3 s4 [current_token tokens s3]
          ∧ type (current_token tokens s3) = TOK_RPAREN)
    as (Hc3 & C4 & T4).
  { by destruct (expect_accepted TOK_RPAREN s3 Hb3 ltac:(done) Hc4)
      as (? & ? & _ & ? & _). }
  pose proof (frame_clear _ _ (parse_expr_frame tokens _ _ _ _ E) Hc3) as Hc2.
  assert (had_error s1 = false ∧ consumed s1 s2 [current_token tokens s1]
          ∧ type (current_token tokens s1) = TOK_LPAREN)
    as (Hc1 & C2 & T2).
  { by destruct (expect_accepted TOK_LPAREN s1 Hb1 ltac:(done) Hc2)
      as (? & ? & _ & ? & _). }
  assert (had_error s = false ∧ consumed s s1 [current_token tokens s]
          ∧ type (current_token tokens s) = TOK_PRINT)
    as (Hc0 & C1 & T1).
  { by destruct (expect_accepted TOK_PRINT s Hs ltac:(done) Hc1)
      as (? & ? & _ & ? & _). }
  assert (sym_table s2 = sym_table s) as Htbl2.
  { destruct C1 as [_ E1], C2 as [_ E2]. by rewrite E2, E1. }
  destruct (expression_accepted env fuel) as (_ & _ & _ & _ & Hexpr).
  destruct (Hexpr _ _ _ E Hc3 Hb2) as (ts & e & He & Hv & C3);
    [by rewrite Htbl2|].
  pose proof (consumed_app _ _ _ _ _ C1
                (consumed_app _ _ _ _ _ C2
                   (consumed_app _ _ _ _ _ C3
                      (consumed_app _ _ _ _ _ C4 C5)))) as [Hdrop Hfin].
  simpl in Hdrop, Hfin.
  exists (current_token tokens s :: current_token tokens s1
            :: ts ++ [current_token tokens s3; current_token tokens s4]),
    (PrintStmt e), [Printed val].
  split_and!; [by constructor | | done | | done].
  - simpl. by rewrite Hv.
  - rewrite Hfin. destruct s as [p0 f0 tbl out err].
    simpl in *. subst f0. unfold state_after, printf. simpl.
    by rewrite app_nil_r.
Qed.

Lemma stmt_accepted env fuel s s' :
  parse_stmt tokens fuel s = Done s' → had_error s' = false →
  in_bounds tokens s → agrees (sym_table s) env →
  ∃ ts st evs, Stmt ts st ∧ exec env [st] = Some evs
    ∧ drop (pos s) tokens = ts ++ drop (pos s') tokens
    ∧ s' = state_after s (pos s + length ts) evs ∧ had_error s = false.
Proof.
  intros H Hclear Hs Hag. unfold parse_stmt in H. cbv zeta in H.
  destruct (decide (type (current_token tokens s) = TOK_INT));
    [by eapply declaration_accepted|].
  destruct (decide (type (current_token tokens s) = TOK_PRINT));
    [by eapply print_accepted|].
  exfalso. apply (inj Done) in H. subst s'.
  destruct (decide (type (current_token tokens s) = TOK_EOF));
    [|rewrite had_error_advance in Hclear];
    by rewrite had_error_report in Hclear.
Qed.

Lemma exec_cons env st p evs1 evs2 :
  exec env [st] = Some evs1 → exec (env_after env evs1) p = Some evs2 →
  exec env (st :: p) = Some (evs1 ++ evs2).
Proof.
  destruct st as [x e|e]; simpl; intros H1 H2;
    apply bind_Some in H1 as (v & Hv & H1); rewrite Hv; simpl.
  - destruct (env !! x); [done|]. injection H1 as <-. simpl in *.
    by rewrite H2.
  - injection H1 as <-. simpl in *. by rewrite H2.
Qed.

Lemma declared_app evs1 evs2 :
  declared (evs1 ++ evs2) = declared evs1 ++ declared evs2.
Proof. induction evs1 as [|[]]; simpl; congruence. Qed.

Lemma printed_app evs1 evs2 :
  printed (evs1 ++ evs2) = printed evs1 ++ printed evs2.
Proof. induction evs1 as [|[]]; simpl; congruence. Qed.

Lemma state_after_state_after s n1 evs1 n2 evs2 :
  state_after (state_after s n1 evs1) n2 evs2
  = state_after s n2 (evs1 ++ evs2).
Proof.
  unfold state_after. simpl.
  by rewrite declared_app, printed_app, !app_assoc.
Qed.

(** A run of the statement loop that ends with the flag clear has read
    the statements of a program, up to EOF, and left what the execution
    of that program leaves. *)
Lemma program_accepted fuel :
  ∀ env s s',
    parse_program_loop tokens fuel s = Done s' → had_error s' = false →
    in_bounds tokens s → agrees (sym_table s) env →
    ∃ ts p evs, Program ts p ∧ exec env p = Some evs
      ∧ drop (pos s) tokens = ts ++ drop (pos s') tokens
      ∧ type (current_token tokens s') = TOK_EOF
      ∧ s' = state_after s (pos s + length ts) evs ∧ had_error s = false.
Proof.
  induction fuel as [|fuel IH]; [done|]. intros env s s' H Hclear Hs Hag.
  rewrite parse_program_loop_S in H.
  destruct (check tokens TOK_EOF s) eqn:Hchk.
  - unfold check in Hchk. apply bool_decide_eq_true in Hchk.
    rewrite expect_match, advance_eof in H by done. injection H as <-.
    exists [], [], []. split_and!; try done; [constructor|].
    by rewrite Nat.add_0_r, state_after_nil.
  - apply bind_Done in H as (s1 & E & H).
    pose proof (cursor_effects tokens Heof (op_parse_stmt fuel) s s1 E Hs)
      as [Hs1 _].
    assert (had_error s1 = false) as Hc1.
    { destruct (had_error s1) eqn:Hf; [|done].
      destruct (operation_muted tokens (op_parse_program fuel) s1 s' H Hf)
        as [? _]. congruence. }
    destruct (stmt_accepted env fuel s s1 E Hc1 Hs Hag)
      as (ts1 & st & evs1 & Hst & Hex1 & Hd1 & Hfin1 & Hc0).
    destruct (IH (env_after env evs1) s1 s' H Hclear Hs1)
      as (ts2 & p & evs2 & Hp & Hex2 & Hd2 & Heof' & Hfin2 & _).
    { rewrite Hfin1. simpl. by apply (exec_agrees [st]). }
    exists (ts1 ++ ts2), (st :: p), (evs1 ++ evs2).
    split_and!; try done.
    + by constructor.
    + by apply exec_cons.
    + by rewrite Hd1, Hd2, app_assoc.
    + rewrite Hfin2, Hfin1. rewrite state_after_state_after. simpl.
      f_equal. rewrite length_app. clear. lia.
Qed.

End acceptance.

(** Every run on a token array of [tokenise] that ends with the flag
    clear is the run of a valid program whose reference run succeeds, and
    leaves what the reference run says. *)
Lemma accepted_program_runs toks st :
  tokenised toks → parse_program toks = Done st → had_error st = false →
  ∃ body eof p evs,
    toks = body ++ [eof] ∧ type eof = TOK_EOF
    ∧ Program body p ∧ exec ∅ p = Some evs
    ∧ st = state_after initial_state (length body) evs.
Proof.
  intros Htok H Hclear. pose proof (tokenised_eof_terminated _ Htok) as Heof.
  destruct Htok as (body & eof & -> & Hgood & Hty & _).
  assert (∀ t, t ∈ body ++ [eof] → type t = TOK_IDENTIFIER →
            (String.length (text t) ≤ 255)%nat) as Hshort.
  { intros t [Ht| ->%list_elem_of_singleton]%elem_of_app Hid; [|congruence].
    rewrite Forall_forall in Hgood. by destruct (Hgood t Ht) as (_ & _ & _ & ?). }
  pose proof (initial_in_bounds _ Heof) as Hs0.
  destruct (program_accepted _ Heof Hshort _ ∅ initial_state st H Hclear Hs0
              agrees_empty)
    as (ts & p & evs & Hp & Hex & Hd & Hcur & Hfin & _).
  pose proof (cursor_effects _ Heof (op_parse_program _) _ _ H Hs0)
    as [Hs _].
  pose proof (in_bounds_lookup _ _ Hs) as Hlook.
  assert (pos st = length body) as Hpos.
  { unfold in_bounds in Hs. rewrite length_app in Hs. simpl in Hs.
    destruct (decide (pos st < length body)%nat) as [Hlt|]; [|lia].
    rewrite lookup_app_l in Hlook by done.
    rewrite Forall_forall in Hgood.
    destruct (Hgood (current_token (body ++ [eof]) st)) as [Hne _];
      [by eapply list_elem_of_lookup_2 | done]. }
  simpl in Hd. rewrite Hpos, drop_app_length in Hd.
  apply app_inj_tail in Hd as [-> _].
  exists ts, eof, p, evs. split_and!; try done.
Qed.


(** ** The printed values *)

(** The example of the documentation, its tokens, and how the grammar
    reads its expression: [*] and [/] below [+] and [-], operators of one
    level grouped to the left. *)
Definition arith_source : string := "print(1 + 2 * 3 - 4 / 2);".

Definition arith_tokens : list Token :=
  Eval vm_compute in tokens_of arith_source.

Definition arith_body : list Token :=
  Eval vm_compute in removelast arith_tokens.

Definition arith_final : State :=
  Eval vm_compute in returned initial_state (parse_program arith_tokens).

Definition arith_expr : expr :=
  Bin Sub (Bin Add (Num 1) (Bin Mul (Num 2) (Num 3)))
          (Bin Div (Num 4) (Num 2)).

Lemma arith_program : Program arith_body [PrintStmt arith_expr].
Proof.
  unfold arith_body.
  match goal with
  | |- Program [?kw; ?l; ?n1; ?plus; ?n2; ?star; ?n3; ?minus; ?n4; ?slash;
                ?n5; ?r; ?semi] _ =>
      refine (Program_cons [kw; l; n1; plus; n2; star; n3; minus; n4; slash;
                            n5; r; semi] _ [] [] _ Program_nil);
      refine (Stmt_print kw l [n1; plus; n2; star; n3; minus; n4; slash; n5]
                _ r semi eq_refl eq_refl _ eq_refl eq_refl);
      refine (Expr_sub [n1; plus; n2; star; n3] minus [n4; slash; n5]
                _ _ _ eq_refl _);
      [refine (Expr_add [n1] plus [n2; star; n3] _ _ _ eq_refl _);
       [exact (Expr_term _ _ (Term_factor _ _ (Factor_integer n1 eq_refl)))
       |exact (Term_mul [n2] star [n3] _ _
                 (Term_factor _ _ (Factor_integer n2 eq_refl)) eq_refl
                 (Factor_integer n3 eq_refl))]
      |exact (Term_div [n4] slash [n5] _ _
                (Term_factor _ _ (Factor_integer n4 eq_refl)) eq_refl
                (Factor_integer n5 eq_refl))]
  end.
Qed.

(** A division whose quotient is not an [int]: [INT_MIN / -1]. *)
Definition overflow_source : string :=
  "print((0 - 2147483647 - 1) / (0 - 1));".

Definition overflow_expr : expr :=
  Bin Div (Bin Sub (Bin Sub (Num 0) (Num 2147483647)) (Num 1))
          (Bin Sub (Num 0) (Num 1)).

(** C1: a run of [parser.c] on a program that tokenises and that ends with
    the error flag clear (no syntax, semantic or runtime error) has read a
    program of the grammar, in which [*] and [/] bind tighter than [+] and
    [-] and every operator groups to the left; the reference execution of
    that program succeeds, the lines on standard output are the decimal
    values of its print statements in source order, the symbol table holds
    one entry per declaration, in order, with the value of its
    initialiser, and nothing is on standard error.  Conversely every
    reading of the tokens as a program of the grammar whose reference
    execution succeeds, with at most [MAX_VARS] declarations, is what the
    run outputs and stores, with the flag clear.  In particular
    [print(1 + 2 * 3 - 4 / 2);] is read as [(1 + (2 * 3)) - (4 / 2)],
    prints the one line [5], and [main] returns 0.  A program that divides
    [INT_MIN] by [-1] has no reference value, and its run does not return:
    it is undefined. *)
Theorem evaluation_is_correct :
  (∀ src toks st,
     tokenise src = LexOk toks → parse_program toks = Done st →
     had_error st = false →
     ∃ body eof p evs,
       toks = body ++ [eof] ∧ type eof = TOK_EOF
       ∧ Program body p ∧ exec ∅ p = Some evs
       ∧ stdout st = printed evs ∧ sym_table st = declared evs
       ∧ stderr st = [] ∧ pos st = length body)
  ∧ (∀ src body eof p evs,
       tokenise src = LexOk (body ++ [eof]) →
       Program body p → exec ∅ p = Some evs →
       (length (declared evs) ≤ MAX_VARS)%nat →
       ∃ st, parse_program (body ++ [eof]) = Done st
             ∧ had_error st = false
             ∧ stdout st = printed evs ∧ sym_table st = declared evs
             ∧ stderr st = [])
  ∧ (tokenise arith_source = LexOk arith_tokens
     ∧ arith_tokens = arith_body ++ [token_at arith_tokens 13]
     ∧ Program arith_body [PrintStmt arith_expr]
     ∧ exec ∅ [PrintStmt arith_expr] = Some [Printed 5]
     ∧ main ["parser"; "prog.txt"] (λ _, Some arith_source)
       = Done (mkOutcome 0 ["5"] []))
  ∧ (exec ∅ [PrintStmt overflow_expr] = None
     ∧ main ["parser"; "prog.txt"] (λ _, Some overflow_source) = Undefined).
Proof.
  split_and!.
  - intros src toks st Htok H Hclear.
    destruct (accepted_program_runs toks st (tokenise_LexOk _ _ Htok) H Hclear)
      as (body & eof & p & evs & -> & Heof & Hp & Hex & ->).
    by exists body, eof, p, evs.
  - intros src body eof p evs Htok Hp Hex Hroom.
    destruct (tokenise_LexOk _ _ Htok)
      as (body' & eof' & Heq & Hgood & Heof & _).
    apply app_inj_tail in Heq as [<- <-].
    exists (state_after initial_state (length body) evs). split; [|done].
    apply (valid_program_runs _ body eof p evs); try done.
    eapply Forall_impl; [done|]. by intros t (_ & _ & _ & ?).
  - vm_compute; reflexivity.
  - vm_compute; reflexivity.
  - apply arith_program.
  - vm_compute; reflexivity.
  - vm_compute; reflexivity.
  - vm_compute; reflexivity.
  - vm_compute; reflexivity.
Qed.

Lemma evaluation_is_correct_witness :
  ∃ body eof p evs,
    arith_tokens = body ++ [eof] ∧ type eof = TOK_EOF
    ∧ Program body p ∧ exec ∅ p = Some evs
    ∧ stdout arith_final = printed evs ∧ sym_table arith_final = declared evs
    ∧ stderr arith_final = [] ∧ pos arith_final = length body.
Proof.
  refine (proj1 evaluation_is_correct arith_source arith_tokens arith_final
            _ _ _); vm_compute; reflexivity.
Defined.

End Correctness.


(** * More about the tokeniser of [parser.c] *)

From stdpp Require Import sorting.
Local Open Scope string_scope.
Local Open Scope Z_scope.
Local Open Scope list_scope.

Module Lexing.
Import Parser ParserSpec.

(** ** The loop without fuel *)

(** The result of the loop of [tokenise] entered with [src] left to read,
    at line [ln] and column [cl], with [toks] stored. *)
Definition tokenise_from (src : string) (ln cl : nat) (toks : list Token)
    : lex_result :=
  default (LexFail "") (tokenise_loop (S (String.length src)) src ln cl toks).

(** [push_token] for a continuation that returns. *)
Definition push (toks : list Token) (tok : Token)
    (k : list Token → lex_result) : lex_result :=
  if decide (MAX_TOKENS ≤ length toks)%nat then LexFail too_many_tokens
  else k (toks ++ [tok]).

Lemma tokenise_from_fuel fuel src ln cl toks :
  (String.length src < fuel)%nat →
  tokenise_loop fuel src ln cl toks = Some (tokenise_from src ln cl toks).
Proof.
  intros Hlen. unfold tokenise_from.
  destruct (tokenise_loop_total (S (String.length src)) src ln cl toks)
    as [r Hr]; [lia|].
  rewrite Hr. simpl. eapply tokenise_loop_fuel_mono; [|done]. lia.
Qed.

Lemma tokenise_tokenise_from src : tokenise src = tokenise_from src 1 1 [].
Proof.
  unfold tokenise. by rewrite (tokenise_from_fuel _ src 1 1 []) by lia.
Qed.

Lemma tokenise_from_nil ln cl toks :
  tokenise_from "" ln cl toks =
  if decide (MAX_TOKENS ≤ length toks)%nat then LexOverrun
  else LexOk (toks ++ [mkToken TOK_EOF "EOF" 0 ln cl]).
Proof.
  unfold tokenise_from. rewrite tokenise_loop_nil. by case_decide.
Qed.

Lemma tokenise_from_nil_room ln cl toks :
  (length toks < MAX_TOKENS)%nat →
  tokenise_from "" ln cl toks = LexOk (toks ++ [mkToken TOK_EOF "EOF" 0 ln cl]).
Proof.
  intros Hroom. rewrite tokenise_from_nil.
  by rewrite decide_False by by apply Nat.nle_gt.
Qed.

Lemma span_snd_length_lt p c s :
  p c = true →
  (String.length (span p (String c s)).2 < S (String.length s))%nat.
Proof. intros Hc. by apply (span_length_lt p c s). Qed.

(** One round of the loop. *)
Lemma tokenise_from_S c rest ln cl toks :
  tokenise_from (String c rest) ln cl toks =
  let src := String c rest in
  if is_char c " " || is_char c tab || is_char c carriage_return then
    tokenise_from rest ln (S cl) toks
  else if is_char c newline then
    tokenise_from rest (S ln) 1%nat toks
  else if starts_comment src then
    tokenise_from (span (λ d, negb (is_char d newline)) src).2 ln cl toks
  else if ident_start c then
    let txt := strncpy (span ident_char src).1 255 in
    push toks (mkToken (keyword_type txt) txt 0 ln cl)
      (tokenise_from (span ident_char src).2 ln
         (cl + String.length (span ident_char src).1)%nat)
  else if isdigit c then
    if ident_start (peek (span isdigit src).2) then
      LexFail (lexical_error ln cl
        ("invalid token '" +:+ String (peek (span isdigit src).2)
           "' after integer literal"))
    else
      let txt := strncpy (span isdigit src).1 255 in
      push toks (mkToken TOK_INTEGER txt (atoi txt) ln cl)
        (tokenise_from (span isdigit src).2 ln
           (cl + String.length (span isdigit src).1)%nat)
  else
    match single_char_type c with
    | Some ty =>
        push toks (mkToken ty (String c "") 0 ln cl)
          (tokenise_from rest ln (S cl))
    | None =>
        LexFail (lexical_error ln cl
          ("unexpected character '" +:+ String c "'"))
    end.
Proof.
  unfold tokenise_from at 1. rewrite tokenise_loop_S. cbv zeta.
  unfold push_token, push.
  destruct (_ || _) eqn:Hblank;
    [by rewrite tokenise_from_fuel by (simpl; lia)|].
  destruct (is_char c newline) eqn:Hnl;
    [by rewrite tokenise_from_fuel by (simpl; lia)|].
  destruct (starts_comment _) eqn:Hcomment.
  { rewrite tokenise_from_fuel; [done|].
    pose proof (starts_comment_head c rest Hcomment) as ->.
    by apply span_snd_length_lt. }
  destruct (ident_start c) eqn:Hid.
  { case_decide; [done|]. rewrite tokenise_from_fuel; [done|].
    by apply span_snd_length_lt, ident_start_char. }
  destruct (isdigit c) eqn:Hdigit.
  { destruct (ident_start (peek _)); [done|]. case_decide; [done|].
    rewrite tokenise_from_fuel; [done|]. by apply span_snd_length_lt. }
  destruct (single_char_type c); [|done].
  case_decide; [done|]. by rewrite tokenise_from_fuel by (simpl; lia).
Qed.

(** ** What the token array holds *)

Fixpoint string_all (p : ascii → bool) (s : string) : Prop :=
  match s with
  | EmptyString => True
  | String c rest => p c = true ∧ string_all p rest
  end.

(** The type of a token, its text and its value fit together. *)
Definition lexeme_ok (t : Token) : Prop :=
  match type t with
  | TOK_INT => text t = "int" ∧ int_value t = 0
  | TOK_PRINT => text t = "print" ∧ int_value t = 0
  | TOK_IDENTIFIER =>
      ident_start (peek (text t)) = true ∧ string_all ident_char (text t)
      ∧ text t ≠ "int" ∧ text t ≠ "print" ∧ int_value t = 0
  | TOK_INTEGER =>
      text t ≠ "" ∧ string_all isdigit (text t)
      ∧ int_value t = atoi (text t)
  | TOK_EOF | TOK_UNKNOWN => False
  | ty =>
      ∃ c, text t = String c "" ∧ single_char_type c = Some ty
           ∧ int_value t = 0
  end.

(** [t] ends, on its line, at or before column [cl] of line [ln]. *)
Definition ends_before (ln cl : nat) (t : Token) : Prop :=
  (line t < ln)%nat
  ∨ (line t = ln ∧ (col t + String.length (text t) ≤ cl)%nat).

(** [t1] ends before [t2] starts. *)
Definition precedes (t1 t2 : Token) : Prop :=
  ends_before (line t2) (col t2) t1.

(** The array while the loop is at line [ln], column [cl]. *)
Definition lexed (ln cl : nat) (toks : list Token) : Prop :=
  Forall lexeme_ok toks ∧ (length toks ≤ MAX_TOKENS)%nat
  ∧ StronglySorted precedes toks ∧ Forall (ends_before ln cl) toks.

Lemma string_all_span p s : string_all p (span p s).1.
Proof.
  induction s as [|c s IH]; simpl; [done|].
  destruct (p c) eqn:Hc; [|done]. by destruct (span p s).
Qed.

Lemma string_all_strncpy p s n : string_all p s → string_all p (strncpy s n).
Proof.
  unfold strncpy. revert n.
  induction s as [|c s IH]; intros [|n]; simpl; try done.
  intros [? ?]. split; [done|]. by apply IH.
Qed.

Lemma strncpy_length_le s n :
  (String.length (strncpy s n) ≤ String.length s)%nat.
Proof.
  unfold strncpy. revert n.
  induction s as [|c s IH]; intros [|n]; simpl; try lia.
  specialize (IH n). lia.
Qed.

Lemma span_head p c s :
  p c = true → ∃ a, (span p (String c s)).1 = String c a.
Proof. intros Hc. simpl. rewrite Hc. destruct (span p s). by eexists. Qed.

Lemma strncpy_head c a n : strncpy (String c a) (S n) = String c (strncpy a n).
Proof. done. Qed.

Lemma word_lexeme_ok c rest ln cl :
  ident_start c = true →
  lexeme_ok (mkToken
    (keyword_type (strncpy (span ident_char (String c rest)).1 255))
    (strncpy (span ident_char (String c rest)).1 255) 0 ln cl).
Proof.
  intros Hc.
  pose proof (string_all_strncpy _ _ 255
                (string_all_span ident_char (String c rest))) as Hall.
  destruct (span_head ident_char c rest (ident_start_char c Hc)) as [a Ha].
  rewrite Ha in *. change 255%nat with (S 254) in *.
  rewrite strncpy_head in *.
  unfold lexeme_ok, keyword_type. simpl. by repeat case_decide.
Qed.

Lemma number_lexeme_ok c rest ln cl :
  isdigit c = true →
  lexeme_ok (mkToken TOK_INTEGER
    (strncpy (span isdigit (String c rest)).1 255)
    (atoi (strncpy (span isdigit (String c rest)).1 255)) ln cl).
Proof.
  intros Hc.
  pose proof (string_all_strncpy _ _ 255
                (string_all_span isdigit (String c rest))) as Hall.
  destruct (span_head isdigit c rest Hc) as [a Ha].
  rewrite Ha in *. change 255%nat with (S 254) in *.
  rewrite strncpy_head in *. by unfold lexeme_ok.
Qed.

Lemma single_lexeme_ok c ty ln cl :
  single_char_type c = Some ty →
  lexeme_ok (mkToken ty (String c "") 0 ln cl).
Proof.
  intros Hty. unfold lexeme_ok. simpl.
  destruct ty; try (by exists c); exfalso;
    unfold single_char_type in Hty; by repeat case_match.
Qed.

Lemma ends_before_mono ln cl ln' cl' t :
  ends_before ln cl t →
  (ln < ln')%nat ∨ (ln = ln' ∧ (cl ≤ cl')%nat) →
  ends_before ln' cl' t.
Proof. unfold ends_before. lia. Qed.

Lemma lexed_mono ln cl ln' cl' toks :
  lexed ln cl toks →
  (ln < ln')%nat ∨ (ln = ln' ∧ (cl ≤ cl')%nat) →
  lexed ln' cl' toks.
Proof.
  intros (? & ? & ? & Hends) Hle. split_and!; try done.
  eapply Forall_impl; [done|]. intros t Ht. by eapply ends_before_mono.
Qed.

Lemma lexed_push ln cl n toks tok :
  lexed ln cl toks → (length toks < MAX_TOKENS)%nat → lexeme_ok tok →
  line tok = ln → col tok = cl → (String.length (text tok) ≤ n)%nat →
  lexed ln (cl + n) (toks ++ [tok]).
Proof.
  intros (Hok & _ & Hsorted & Hends) Hroom Htok Hln Hcl Hlen. split_and!.
  - apply Forall_app. by split; [|apply Forall_singleton].
  - rewrite length_app. simpl. revert Hroom. generalize MAX_TOKENS.
    clear. intros. lia.
  - apply StronglySorted_app. split_and!; [|done | by repeat constructor].
    intros t1 t2 Ht1 ->%list_elem_of_singleton. unfold precedes.
    rewrite Hln, Hcl. rewrite Forall_forall in Hends. by apply Hends.
  - apply Forall_app. split.
    + eapply Forall_impl; [done|]. intros t Ht.
      eapply ends_before_mono; [done|]. right. split; [done|lia].
    + apply Forall_singleton. right. split; [done|]. lia.
Qed.

Lemma push_LexOk toks tok k out :
  push toks tok k = LexOk out →
  (length toks < MAX_TOKENS)%nat ∧ k (toks ++ [tok]) = LexOk out.
Proof.
  unfold push. case_decide as Hfull; [done|]. intros H. split; [|done].
  by apply Nat.nle_gt.
Qed.

(** The invariant of the loop, at its end. *)
Lemma tokenise_from_lexed n :
  ∀ src ln cl toks out,
    (String.length src < n)%nat → lexed ln cl toks →
    tokenise_from src ln cl toks = LexOk out →
    ∃ body ln' cl',
      out = body ++ [mkToken TOK_EOF "EOF" 0 ln' cl'] ∧ lexed ln' cl' body
      ∧ (length body < MAX_TOKENS)%nat.
Proof.
  induction n as [|n IH]; [lia|].
  intros [|c rest] ln cl toks out Hlen Hinv H.
  { rewrite tokenise_from_nil in H. case_decide as Hfull; [done|].
    injection H as <-. eexists _, _, _. split_and!; [done..|].
    by apply Nat.nle_gt. }
  rewrite tokenise_from_S in H. cbv zeta in H. simpl in Hlen.
  destruct (_ || _) eqn:Hblank.
  { eapply (IH rest); [lia| |done]. eapply lexed_mono; [done|]. lia. }
  destruct (is_char c newline) eqn:Hnl.
  { eapply (IH rest); [lia| |done]. eapply lexed_mono; [done|]. lia. }
  destruct (starts_comment _) eqn:Hcomment.
  { eapply IH; [|done|done].
    pose proof (starts_comment_head c rest Hcomment) as ->.
    pose proof (span_snd_length_lt (λ d, negb (is_char d newline)) "/" rest
                  eq_refl). lia. }
  destruct (ident_start c) eqn:Hid.
  { apply push_LexOk in H as [Hroom H].
    eapply IH; [| |done].
    - pose proof (span_snd_length_lt ident_char c rest
                    (ident_start_char c Hid)). lia.
    - apply lexed_push; try done; [by apply word_lexeme_ok|].
      apply strncpy_length_le. }
  destruct (isdigit c) eqn:Hdigit.
  { destruct (ident_start (peek _)); [done|].
    apply push_LexOk in H as [Hroom H].
    eapply IH; [| |done].
    - pose proof (span_snd_length_lt isdigit c rest Hdigit). lia.
    - apply lexed_push; try done; [by apply number_lexeme_ok|].
      apply strncpy_length_le. }
  destruct (single_char_type c) as [ty|] eqn:Hty; [|done].
  apply push_LexOk in H as [Hroom H].
  eapply (IH rest); [lia| |done].
  rewrite <-Nat.add_1_r. apply lexed_push; try done.
  by apply single_lexeme_ok.
Qed.

Lemma lexed_nil : lexed 1 1 [].
Proof.
  split_and!; [done | simpl; apply Nat.le_0_l | constructor | done].
Qed.

Lemma lexeme_nonempty t : lexeme_ok t → text t ≠ "".
Proof.
  unfold lexeme_ok. intros H Hempty. rewrite Hempty in H.
  destruct (type t); try done; try by destruct H.
  all: by destruct H as (c & ? & _).
Qed.

Lemma string_length_pos s : s ≠ "" → (1 ≤ String.length s)%nat.
Proof. destruct s; [done|]. simpl. lia. Qed.

Lemma tokenise_lexed src toks :
  tokenise src = LexOk toks →
  ∃ body ln cl,
    toks = body ++ [mkToken TOK_EOF "EOF" 0 ln cl] ∧ lexed ln cl body
    ∧ (length body < MAX_TOKENS)%nat.
Proof.
  rewrite tokenise_tokenise_from. intros H.
  by apply (tokenise_from_lexed (S (String.length src)) src 1 1 [] toks
              ltac:(lia) lexed_nil).
Qed.

Lemma sorted_lookup {A} (R : A → A → Prop) l i j x y :
  StronglySorted R l → (i < j)%nat →
  l !! i = Some x → l !! j = Some y → R x y.
Proof.
  intros Hl. revert i j. induction Hl as [|a l Hl IH Ha]; intros i j Hij Hi Hj.
  { by rewrite lookup_nil in Hi. }
  destruct j as [|j]; [lia|]. simpl in Hj.
  destruct i as [|i]; simpl in Hi.
  - injection Hi as ->. rewrite Forall_forall in Ha. apply Ha.
    by eapply list_elem_of_lookup_2.
  - apply (IH i j); [lia | done | done].
Qed.

(** X1: the array [tokenise] fills.  It ends with the one EOF token, whose
    text is [EOF]; before it stand fewer than [MAX_TOKENS] tokens, so that
    the EOF token is inside the array as well, none of
    them of type EOF or UNKNOWN, each with a text of 1 to 255 characters
    that fits its type: [int] and [print] for the keywords, a word that is
    neither for an identifier, digits for an integer, whose value is
    [atoi] of them, and the one character for an operator or a
    delimiter; lines and columns count from 1. *)
Theorem tokenise_tokens_well_formed src toks :
  tokenise src = LexOk toks →
  ∃ body ln cl,
    toks = body ++ [mkToken TOK_EOF "EOF" 0 ln cl]
    ∧ (1 ≤ ln)%nat ∧ (1 ≤ cl)%nat
    ∧ (length body < MAX_TOKENS)%nat
    ∧ Forall (λ t, lexeme_ok t
                   ∧ (1 ≤ String.length (text t) ≤ 255)%nat
                   ∧ (1 ≤ line t)%nat ∧ (1 ≤ col t)%nat) body.
Proof.
  intros H.
  destruct (tokenise_lexed src toks H)
    as (body & ln & cl & -> & (Hok & _ & _ & _) & Hlen).
  destruct (tokenise_LexOk _ _ H)
    as (body' & eof & Heq & Hgood & _ & Hln & Hcl).
  apply app_inj_tail in Heq as [<- <-].
  exists body, ln, cl. split_and!; try done.
  rewrite Forall_forall in Hok, Hgood. apply Forall_forall. intros t Ht.
  destruct (Hgood t Ht) as (_ & ? & ? & ?).
  split_and!; try done; [by apply Hok|].
  by apply string_length_pos, lexeme_nonempty, Hok.
Qed.

Lemma tokenise_tokens_well_formed_witness :
  ∃ body ln cl,
    sample_tokens = body ++ [mkToken TOK_EOF "EOF" 0 ln cl]
    ∧ (1 ≤ ln)%nat ∧ (1 ≤ cl)%nat
    ∧ (length body < MAX_TOKENS)%nat
    ∧ Forall (λ t, lexeme_ok t
                   ∧ (1 ≤ String.length (text t) ≤ 255)%nat
                   ∧ (1 ≤ line t)%nat ∧ (1 ≤ col t)%nat) body.
Proof.
  refine (tokenise_tokens_well_formed
            "int a = 2 + 3 * 4; print(a); print((a - 2) / 0); print(a);"
            sample_tokens _).
  vm_compute. reflexivity.
Defined.

(** X2: the tokens stand in the array in source order and do not overlap:
    of two entries the earlier one is on an earlier line, or on the same
    line and ends (its column plus the length of its text) at or before
    the column of the later one.  The final EOF token is included. *)
Theorem tokens_in_source_order src toks i j t1 t2 :
  tokenise src = LexOk toks → (i < j)%nat →
  toks !! i = Some t1 → toks !! j = Some t2 →
  (line t1 < line t2)%nat
  ∨ (line t1 = line t2 ∧ (col t1 + String.length (text t1) ≤ col t2)%nat).
Proof.
  intros H Hij Hi Hj.
  destruct (tokenise_lexed src toks H)
    as (body & ln & cl & -> & (_ & _ & Hsorted & Hends) & _).
  apply (sorted_lookup precedes
           (body ++ [mkToken TOK_EOF "EOF" 0 ln cl]) i j t1 t2);
    try done.
  apply StronglySorted_app. split_and!; [|done | by repeat constructor].
  intros x y Hx ->%list_elem_of_singleton. unfold precedes. simpl.
  rewrite Forall_forall in Hends. by apply Hends.
Qed.

Lemma tokens_in_source_order_witness :
  (line (token_at sample_tokens 1) < line (token_at sample_tokens 9))%nat
  ∨ (line (token_at sample_tokens 1) = line (token_at sample_tokens 9)
     ∧ (col (token_at sample_tokens 1)
        + String.length (text (token_at sample_tokens 1))
        ≤ col (token_at sample_tokens 9))%nat).
Proof.
  refine (tokens_in_source_order
            "int a = 2 + 3 * 4; print(a); print((a - 2) / 0); print(a);"
            sample_tokens 1 9 _ _ _ _ _ _).
  - vm_compute. reflexivity.
  - lia.
  - reflexivity.
  - reflexivity.
Defined.

(** ** Sources without a token *)

(** Text that holds blanks and comments only; a comment runs to the end
    of its line or of the text. *)
Inductive layout : string → Prop :=
  | layout_end : layout ""
  | layout_blank c rest :
      is_char c " " || is_char c tab || is_char c carriage_return
      || is_char c newline = true →
      layout rest → layout (String c rest)
  | layout_comment body rest :
      string_all (λ d, negb (is_char d newline)) body →
      rest = "" ∨ (∃ r, rest = String newline r) →
      layout rest → layout ("//" +:+ body +:+ rest).

Lemma span_all_app p a b :
  string_all p a → b = "" ∨ (∃ c r, b = String c r ∧ p c = false) →
  span p (a +:+ b) = (a, b).
Proof.
  intros Ha Hb. induction a as [|d a IH].
  - destruct Hb as [->|(c & r & -> & Hc)]; simpl; [done|]. by rewrite Hc.
  - destruct Ha as [Hd Ha]. rewrite append_cons. simpl.
    by rewrite Hd, IH.
Qed.

Lemma room_nil : (length (@nil Token) < MAX_TOKENS)%nat.
Proof. unfold MAX_TOKENS. simpl. lia. Qed.

Lemma tokenise_from_layout src :
  layout src →
  ∀ ln cl toks, (length toks < MAX_TOKENS)%nat → ∃ ln' cl',
    (ln ≤ ln')%nat
    ∧ tokenise_from src ln cl toks
      = LexOk (toks ++ [mkToken TOK_EOF "EOF" 0 ln' cl']).
Proof.
  induction 1 as [|c rest Hc _ IH|body rest Hbody Hrest _ IH];
    intros ln cl toks Hroom.
  - exists ln, cl. by rewrite tokenise_from_nil_room.
  - rewrite tokenise_from_S. cbv zeta.
    destruct (is_char c " " || is_char c tab || is_char c carriage_return)
      eqn:Hblank.
    + destruct (IH ln (S cl) toks Hroom) as (ln' & cl' & ? & ->).
      by exists ln', cl'.
    + simpl in Hc. rewrite Hc.
      destruct (IH (S ln) 1%nat toks Hroom) as (ln' & cl' & ? & ->).
      exists ln', cl'. split; [lia | done].
  - change ("//" +:+ body +:+ rest)
      with (String "/" (String "/" (body +:+ rest))).
    rewrite tokenise_from_S. cbv zeta.
    change (is_char "/" " " || is_char "/" tab || is_char "/" carriage_return)
      with false.
    change (is_char "/" newline) with false.
    change (starts_comment (String "/" (String "/" (body +:+ rest))))
      with true.
    cbv iota.
    change (String "/" (String "/" (body +:+ rest)))
      with (("//" +:+ body) +:+ rest).
    rewrite (span_all_app _ ("//" +:+ body) rest).
    + by apply IH.
    + by repeat split.
    + destruct Hrest as [->|[r ->]]; [by left|]. right. by exists newline, r.
Qed.

Lemma parse_program_empty eof :
  type eof = TOK_EOF → parse_program [eof] = Done initial_state.
Proof.
  intros Heof. unfold parse_program, program_fuel. simpl length.
  change (4 * 1 + 4)%nat with (S 7). rewrite parse_program_loop_S.
  unfold check. rewrite bool_decide_eq_true_2 by done.
  by rewrite expect_match, advance_eof.
Qed.

(** X3: a source that holds nothing but blanks (space, tab, carriage
    return, newline) and [//] comments, the empty source included, is
    the empty program: [tokenise] stores the EOF token alone, and [main]
    writes nothing and returns 0. *)
Theorem blank_source_is_empty_program src :
  layout src →
  (∃ ln cl, tokenise src = LexOk [mkToken TOK_EOF "EOF" 0 ln cl])
  ∧ ∀ prog path more fs buf,
      fs path = Some buf → c_str buf = src →
      main (prog :: path :: more) fs = Done (mkOutcome 0 [] []).
Proof.
  intros Hsrc.
  destruct (tokenise_from_layout src Hsrc 1%nat 1%nat [] room_nil)
    as (ln & cl & _ & Htok).
  rewrite <-tokenise_tokenise_from in Htok. simpl in Htok.
  split; [by exists ln, cl|].
  intros prog path more fs buf Hfs Hbuf. unfold main.
  by rewrite Hfs, Hbuf, Htok, parse_program_empty.
Qed.

Lemma blank_source_is_empty_program_witness :
  main ["parser"; "prog.txt"]
    (λ _, Some (" //c" +:+ String newline (String tab "")))
  = Done (mkOutcome 0 [] []).
Proof.
  refine (proj2 (blank_source_is_empty_program
                   (" //c" +:+ String newline (String tab "")) _)
            "parser" "prog.txt" [] _ _ eq_refl _).
  - apply layout_blank; [reflexivity|].
    apply (layout_comment "c" (String newline (String tab ""))).
    + simpl. split; [reflexivity | exact I].
    + right. by eexists.
    + apply layout_blank; [reflexivity|].
      apply layout_blank; [reflexivity|]. apply layout_end.
  - vm_compute. reflexivity.
Defined.

(** ** Reading back what [print] writes *)

Lemma wrap_small z : -2 ^ 31 ≤ z < 2 ^ 31 → wrap z = z.
Proof. intros Hz. unfold wrap. rewrite Z.mod_small; lia. Qed.

Lemma digit_value_pretty_N_char d :
  (d < 10)%N → digit_value (pretty_N_char d) = Z.of_N d.
Proof.
  intros Hd.
  assert (d = 0 ∨ d = 1 ∨ d = 2 ∨ d = 3 ∨ d = 4 ∨ d = 5 ∨ d = 6
          ∨ d = 7 ∨ d = 8 ∨ d = 9)%N as Hcases by lia.
  by repeat (destruct Hcases as [->|Hcases]); [..|subst].
Qed.

(** [atoi] reads the digits [pretty] writes, most significant first. *)
Lemma atoi_go_pretty_N_go x :
  ∀ s, ∃ k, 0 ≤ k ∧ ∀ acc,
    atoi_go acc (pretty_N_go x s) = atoi_go (acc * 10 ^ k + Z.of_N x) s.
Proof.
  induction (N.lt_wf_0 x) as [x _ IH]. intros s.
  destruct (decide (x = 0)%N) as [->|Hx].
  { exists 0. split; [done|]. intros acc. rewrite pretty_N_go_0. f_equal. lia. }
  rewrite pretty_N_go_step by lia.
  destruct (IH (x `div` 10)%N ltac:(apply N.div_lt; lia)
              (String (pretty_N_char (x `mod` 10)) s)) as (k & Hk & Heq).
  exists (k + 1). split; [lia|]. intros acc. rewrite Heq. simpl.
  rewrite pretty_N_char_digit.
  rewrite digit_value_pretty_N_char by (apply N.mod_lt; lia).
  f_equal. rewrite Z.pow_add_r, Z.pow_1_r by lia.
  pose proof (N.div_mod x 10 ltac:(lia)) as Hdm.
  apply (f_equal Z.of_N) in Hdm. rewrite N2Z.inj_add, N2Z.inj_mul in Hdm.
  change (Z.of_N 10) with 10 in Hdm. lia.
Qed.

Lemma pretty_N_go_length k :
  ∀ x s, (x < 10 ^ N.of_nat k)%N →
    (String.length (pretty_N_go x s) ≤ k + String.length s)%nat.
Proof.
  induction k as [|k IH]; intros x s Hx.
  { assert (x = 0)%N as -> by (simpl in Hx; lia).
    rewrite pretty_N_go_0. simpl. lia. }
  destruct (decide (x = 0)%N) as [->|Hne].
  { rewrite pretty_N_go_0. lia. }
  rewrite pretty_N_go_step by lia.
  etrans; [apply IH|simpl; lia].
  apply N.Div0.div_lt_upper_bound.
  rewrite Nat2N.inj_succ, N.pow_succ_r' in Hx. lia.
Qed.

Lemma pretty_Z_N n : 0 ≤ n → pretty n = pretty (Z.to_N n).
Proof. intros Hn. by destruct n. Qed.

Lemma pretty_N_go_not_empty y : ∀ c s, pretty_N_go y (String c s) ≠ "".
Proof.
  induction (N.lt_wf_0 y) as [y _ IH]. intros c s.
  destruct (decide (y = 0)%N) as [->|]; [by rewrite pretty_N_go_0|].
  rewrite pretty_N_go_step by lia. apply IH. apply N.div_lt; lia.
Qed.

Lemma pretty_N_not_empty (x : N) : pretty x ≠ "".
Proof.
  unfold pretty, pretty_N. case_decide; [done|].
  rewrite pretty_N_go_step by lia. apply pretty_N_go_not_empty.
Qed.

(** What [print] writes for a value that is not negative: digits, few
    enough for a token, that [atoi] reads back as the value. *)
Lemma printed_literal n :
  0 ≤ n < 2 ^ 31 →
  digits_only (pretty n) ∧ pretty n ≠ ""
  ∧ (String.length (pretty n) ≤ 255)%nat ∧ atoi (pretty n) = n.
Proof.
  intros Hn. rewrite pretty_Z_N by lia.
  set (x := Z.to_N n).
  assert (Z.of_N x = n) as Hx by (unfold x; lia).
  split_and!.
  - unfold pretty, pretty_N. case_decide; [done|].
    by apply pretty_N_go_digits.
  - apply pretty_N_not_empty.
  - unfold pretty, pretty_N. case_decide; [simpl; lia|].
    etrans; [apply (pretty_N_go_length 10)|simpl; lia].
    change (10 ^ N.of_nat 10)%N with 10000000000%N. lia.
  - unfold atoi, strtol, pretty, pretty_N. case_decide as H0.
    + rewrite H0 in Hx. by rewrite <-Hx.
    + destruct (atoi_go_pretty_N_go x "") as (k & _ & ->). simpl.
      rewrite Hx, Z.min_l by (unfold LONG_MAX; lia).
      by apply wrap_small; lia.
Qed.

(** ** One token at a time *)

Lemma push_room toks tok k :
  (length toks < MAX_TOKENS)%nat → push toks tok k = k (toks ++ [tok]).
Proof.
  intros Hroom. unfold push. case_decide as Hfull; [|done].
  by apply Nat.lt_nge in Hroom.
Qed.

Lemma starts_comment_false c rest :
  is_char c "/" = false → starts_comment (String c rest) = false.
Proof. intros Hc. destruct rest; simpl; [done|]. by rewrite Hc. Qed.

Lemma span_peek p a b :
  string_all p a → p (peek b) = false → span p (a +:+ b) = (a, b).
Proof.
  intros Ha Hb. apply span_all_app; [done|].
  destruct b as [|c r]; [by left|]. right. by exists c, r.
Qed.

(** A character that starts a word is no blank and starts no comment. *)
Lemma ident_start_class c :
  ident_start c = true →
  is_char c " " = false ∧ is_char c tab = false
  ∧ is_char c carriage_return = false ∧ is_char c newline = false
  ∧ is_char c "/" = false.
Proof. by destruct c as [[] [] [] [] [] [] [] []]. Qed.

(** An operator or delimiter is no blank, no letter and no digit. *)
Lemma single_char_class c ty :
  single_char_type c = Some ty →
  is_char c " " = false ∧ is_char c tab = false
  ∧ is_char c carriage_return = false ∧ is_char c newline = false
  ∧ ident_start c = false ∧ isdigit c = false.
Proof. by destruct c as [[] [] [] [] [] [] [] []]. Qed.

Lemma tokenise_from_word c w rest ln cl toks :
  ident_start c = true → string_all ident_char w →
  ident_char (peek rest) = false →
  tokenise_from (String c w +:+ rest) ln cl toks
  = push toks
      (mkToken (keyword_type (strncpy (String c w) 255))
         (strncpy (String c w) 255) 0 ln cl)
      (tokenise_from rest ln (cl + String.length (String c w))%nat).
Proof.
  intros Hc Hw Hrest. rewrite append_cons, tokenise_from_S. cbv zeta.
  destruct (ident_start_class c Hc) as (-> & -> & -> & -> & Hslash).
  rewrite (starts_comment_false _ _ Hslash), Hc. simpl orb. cbv iota.
  change (String c (w +:+ rest)) with (String c w +:+ rest).
  rewrite (span_peek ident_char (String c w) rest); [done| |done].
  split; [by apply ident_start_char | done].
Qed.

Lemma string_all_digits d : digits_only d → string_all isdigit d.
Proof. induction d; simpl; [done|]. intros [? ?]. auto. Qed.

Lemma tokenise_from_number c d rest ln cl toks :
  isdigit c = true → digits_only d →
  isdigit (peek rest) = false → ident_start (peek rest) = false →
  tokenise_from (String c d +:+ rest) ln cl toks
  = push toks
      (mkToken TOK_INTEGER (strncpy (String c d) 255)
         (atoi (strncpy (String c d) 255)) ln cl)
      (tokenise_from rest ln (cl + String.length (String c d))%nat).
Proof.
  intros Hc Hd Hrest Hletter. rewrite append_cons, tokenise_from_S. cbv zeta.
  destruct (digit_class c Hc) as (-> & -> & -> & -> & Hslash & -> & _).
  rewrite (starts_comment_false _ _ Hslash), Hc. simpl orb. cbv iota.
  change (String c (d +:+ rest)) with (String c d +:+ rest).
  rewrite (span_peek isdigit (String c d) rest);
    [|split; [done | by apply string_all_digits]|done].
  simpl fst. simpl snd. by rewrite Hletter.
Qed.

Lemma tokenise_from_single c ty rest ln cl toks :
  single_char_type c = Some ty → starts_comment (String c rest) = false →
  tokenise_from (String c rest) ln cl toks
  = push toks (mkToken ty (String c "") 0 ln cl)
      (tokenise_from rest ln (S cl)).
Proof.
  intros Hty Hcomment. rewrite tokenise_from_S. cbv zeta.
  destruct (single_char_class c ty Hty) as (-> & -> & -> & -> & -> & ->).
  by rewrite Hcomment, Hty.
Qed.

Lemma keyword_type_spec x :
  (keyword_type x = TOK_INT ↔ x = "int")
  ∧ (keyword_type x = TOK_PRINT ↔ x = "print")
  ∧ (keyword_type x = TOK_IDENTIFIER ↔ x ≠ "int" ∧ x ≠ "print").
Proof.
  unfold keyword_type.
  destruct (decide (x = "int")) as [->|?];
    [|destruct (decide (x = "print")) as [->|?]];
    split_and!; split; first [discriminate | intros [? ?]; done | done].
Qed.

Lemma append_empty_r x : x +:+ "" = x.
Proof. induction x as [|a x IH]; [done|]. by rewrite append_cons, IH. Qed.

(** X4: at a letter or an underscore the loop of [tokenise] takes the
    whole run of letters, digits and underscores as one word, whatever
    follows it.  The text of the token is the first 255 characters of the
    word; the token is the keyword [int] or [print] exactly when that text
    is this word, and an identifier otherwise; the column moves on by the
    length of the whole word, and a full array ends the run with
    [too many tokens].  So a word of at most 255 characters alone in the
    source gives its token and EOF. *)
Theorem word_is_one_token c w rest ln cl toks :
  ident_start c = true → string_all ident_char w →
  ident_char (peek rest) = false →
  let word := String c w in
  let txt := strncpy word 255 in
  tokenise_from (word +:+ rest) ln cl toks
  = (if decide (MAX_TOKENS ≤ length toks)%nat then LexFail too_many_tokens
     else tokenise_from rest ln (cl + String.length word)%nat
            (toks ++ [mkToken (keyword_type txt) txt 0 ln cl]))
  ∧ (keyword_type txt = TOK_INT ↔ txt = "int")
  ∧ (keyword_type txt = TOK_PRINT ↔ txt = "print")
  ∧ (keyword_type txt = TOK_IDENTIFIER ↔ txt ≠ "int" ∧ txt ≠ "print")
  ∧ ((String.length word ≤ 255)%nat →
     tokenise word
     = LexOk [mkToken (keyword_type word) word 0 1 1;
              mkToken TOK_EOF "EOF" 0 1 (1 + String.length word)]).
Proof.
  intros Hc Hw Hrest. cbv zeta.
  destruct (keyword_type_spec (strncpy (String c w) 255))
    as (Hint & Hprint & Hident).
  split; [|split; [exact Hint|split; [exact Hprint|split; [exact Hident|]]]].
  - rewrite (tokenise_from_word c w rest ln cl toks Hc Hw Hrest).
    unfold push. reflexivity.
  - intros Hlen. rewrite tokenise_tokenise_from.
    rewrite <-(append_empty_r (String c w)) at 1.
    rewrite (tokenise_from_word c w "" 1 1 []) by done.
    rewrite push_room by (apply Nat.ltb_lt; vm_compute; reflexivity).
    rewrite tokenise_from_nil_room
      by (apply Nat.ltb_lt; vm_compute; reflexivity).
    rewrite (strncpy_short (String c w) 255) by done. reflexivity.
Qed.

Lemma word_is_one_token_witness :
  tokenise "printf"
  = LexOk [mkToken TOK_IDENTIFIER "printf" 0 1 1; mkToken TOK_EOF "EOF" 0 1 7].
Proof.
  refine (proj2 (proj2 (proj2 (proj2
            (word_is_one_token "p" "rintf" "" 1 1 [] _ _ _)))) _).
  - reflexivity.
  - simpl. repeat split.
  - reflexivity.
  - simpl. lia.
Defined.

(** ** A literal, read and printed *)

Import Reference Correctness.

Lemma tokenise_print_literal c d :
  isdigit c = true → digits_only d → (String.length (String c d) ≤ 255)%nat →
  tokenise ("print(" +:+ String c d +:+ ");")
  = LexOk
      ([mkToken TOK_PRINT "print" 0 1 1; mkToken TOK_LPAREN "(" 0 1 6;
        mkToken TOK_INTEGER (String c d) (atoi (String c d)) 1 7;
        mkToken TOK_RPAREN ")" 0 1 (7 + String.length (String c d));
        mkToken TOK_SEMICOLON ";" 0 1 (S (7 + String.length (String c d)))]
       ++ [mkToken TOK_EOF "EOF" 0 1
             (S (S (7 + String.length (String c d))))]).
Proof.
  intros Hc Hd Hlen. rewrite tokenise_tokenise_from.
  change ("print(" +:+ String c d +:+ ");")
    with (String "p" "rint" +:+ String "(" (String c d +:+ ");")).
  rewrite (tokenise_from_word "p" "rint") by (simpl; by repeat split).
  rewrite push_room by (apply Nat.ltb_lt; vm_compute; reflexivity).
  rewrite (tokenise_from_single "(" TOK_LPAREN) by done.
  rewrite push_room by (apply Nat.ltb_lt; vm_compute; reflexivity).
  rewrite (tokenise_from_number c d) by done.
  rewrite push_room by (apply Nat.ltb_lt; vm_compute; reflexivity).
  rewrite (tokenise_from_single ")" TOK_RPAREN) by done.
  rewrite push_room by (apply Nat.ltb_lt; vm_compute; reflexivity).
  rewrite (tokenise_from_single ";" TOK_SEMICOLON) by done.
  rewrite push_room by (apply Nat.ltb_lt; vm_compute; reflexivity).
  rewrite tokenise_from_nil_room
    by (apply Nat.ltb_lt; vm_compute; reflexivity).
  rewrite (strncpy_short (String c d)) by done.
  reflexivity.
Qed.

(** X5: what [print] writes can be read back.  For a value from 0 to
    [INT_MAX] the decimal text that [print] writes is an integer literal
    whose token has that value, and the program that prints this literal
    writes the same text again and returns 0. *)
Theorem printed_value_reads_back n :
  0 ≤ n < 2 ^ 31 →
  atoi (pretty n) = n
  ∧ ∀ prog path more fs buf,
      fs path = Some buf → c_str buf = "print(" +:+ pretty n +:+ ");" →
      main (prog :: path :: more) fs = Done (mkOutcome 0 [pretty n] []).
Proof.
  intros Hn. destruct (printed_literal n Hn) as (Hd & Hne & Hlen & Hatoi).
  split; [done|]. intros prog path more fs buf Hfs Hbuf.
  destruct (pretty n) as [|c d] eqn:Hp; [done|]. destruct Hd as [Hc Hd].
  unfold main. rewrite Hfs, Hbuf, (tokenise_print_literal c d Hc Hd Hlen).
  match goal with
  | |- context [parse_program (?b ++ [?e])] =>
      rewrite (valid_program_runs (b ++ [e]) b e [PrintStmt (Num n)]
                 [Printed n] eq_refl eq_refl)
  end.
  - simpl. by rewrite Hp.
  - rewrite <-Hatoi.
    match goal with
    | |- Program [?kw; ?l; ?num; ?r; ?semi] _ =>
        refine (Program_cons [kw; l; num; r; semi] _ [] [] _ Program_nil);
        refine (Stmt_print kw l [num] _ r semi eq_refl eq_refl _
                  eq_refl eq_refl);
        exact (Expr_term _ _ (Term_factor _ _ (Factor_integer num eq_refl)))
    end.
  - done.
  - apply Nat.le_0_l.
  - repeat (constructor; [first [exact Hlen | simpl; lia]|]). constructor.
Qed.

Lemma printed_value_reads_back_witness :
  atoi (pretty 2147483647) = 2147483647
  ∧ ∀ prog path more fs buf,
      fs path = Some buf →
      c_str buf = "print(" +:+ pretty 2147483647 +:+ ");" →
      main (prog :: path :: more) fs
      = Done (mkOutcome 0 [pretty 2147483647] []).
Proof. apply (printed_value_reads_back 2147483647). lia. Defined.

End Lexing.


(** * More about the symbol table and the runs of [parser.c] *)

Module Runs.
Import Parser ParserSpec Reference Correctness.

(** ** The symbol table *)

Lemma sym_lookup_None tbl nm :
  sym_lookup tbl nm = None ↔ Forall (λ v, name v ≠ nm) tbl.
Proof.
  unfold sym_lookup. rewrite fmap_None. apply list_find_None.
Qed.

Lemma sym_lookup_Some tbl nm i :
  sym_lookup tbl nm = Some i →
  ∃ v, tbl !! i = Some v ∧ name v = nm
       ∧ ∀ j w, tbl !! j = Some w → (j < i)%nat → name w ≠ nm.
Proof.
  unfold sym_lookup. intros ([j v] & Hfind & ->)%fmap_Some.
  apply list_find_Some in Hfind as (? & ? & ?). by exists v.
Qed.

Lemma sym_lookup_app_new tbl v :
  sym_lookup tbl (name v) = None →
  sym_lookup (tbl ++ [v]) (name v) = Some (length tbl).
Proof.
  intros Hnone. unfold sym_lookup in *. apply fmap_None in Hnone.
  rewrite list_find_app_r by done. simpl.
  rewrite decide_True by done. simpl. f_equal; lia.
Qed.

Lemma sym_lookup_app_other tbl v nm :
  name v ≠ nm → sym_lookup (tbl ++ [v]) nm = sym_lookup tbl nm.
Proof.
  intros Hne. unfold sym_lookup.
  destruct (list_find _ tbl) as [[i w]|] eqn:Hfind.
  - by rewrite (list_find_app_l _ _ _ _ _ Hfind).
  - rewrite list_find_app_r by done. simpl. by rewrite decide_False.
Qed.

(** X6: a declaration that succeeds can be looked up.  When [sym_declare]
    accepts a name of at most 255 characters and the caller stores a value
    through the slot it returns, the slot is the next free one, the table
    has one entry more, [sym_lookup] of the name finds this slot and the
    value read there is the value stored; the lookup of every other name,
    and the value read for it, are as before; nothing is written and the
    flag and the cursor stay as they are. *)
Theorem declare_then_lookup nm ln s i s1 val :
  sym_declare nm ln s = (Some i, s1) → (String.length nm ≤ 255)%nat →
  let s2 := store_value i val s1 in
  i = length (sym_table s)
  ∧ sym_table s2 = sym_table s ++ [mkVariable nm val 1]
  ∧ sym_lookup (sym_table s2) nm = Some i
  ∧ lookup_value (sym_table s2) nm = Some val
  ∧ (∀ other, other ≠ nm →
       sym_lookup (sym_table s2) other = sym_lookup (sym_table s) other
       ∧ lookup_value (sym_table s2) other
         = lookup_value (sym_table s) other)
  ∧ stdout s2 = stdout s ∧ stderr s2 = stderr s
  ∧ had_error s2 = had_error s ∧ pos s2 = pos s.
Proof.
  intros Hdecl Hshort. cbv zeta. unfold sym_declare in Hdecl.
  destruct (sym_lookup (sym_table s) nm) eqn:Hfresh; [done|].
  case_decide as Hroom; [done|]. injection Hdecl as <- <-.
  rewrite strncpy_short by done.
  assert (sym_table (store_value (length (sym_table s)) val
            (set_sym_table (sym_table s ++ [mkVariable nm 0 1]) s))
          = sym_table s ++ [mkVariable nm val 1]) as Htbl.
  { unfold store_value. simpl. by rewrite alter_last. }
  rewrite Htbl. split_and!; try done.
  - by apply (sym_lookup_app_new _ (mkVariable nm val 1)).
  - unfold lookup_value.
    rewrite (sym_lookup_app_new _ (mkVariable nm val 1)) by done. simpl.
    by rewrite list_lookup_middle.
  - intros other Hother.
    assert (sym_lookup (sym_table s ++ [mkVariable nm val 1]) other
            = sym_lookup (sym_table s) other) as Hl
      by by apply sym_lookup_app_other.
    split; [done|]. unfold lookup_value. rewrite Hl.
    destruct (sym_lookup (sym_table s) other) as [j|] eqn:Hj; [|done].
    simpl. apply sym_lookup_Some in Hj as (w & Hw & _).
    by rewrite lookup_app_l by by eapply lookup_lt_Some.
Qed.

(** A state with one variable declared and its value printed. *)
Definition one_declared : State :=
  mkState 9%nat false [mkVariable "a" 14 1] ["14"] [].

Lemma declare_then_lookup_witness :
  let s2 := store_value 1 7
              (set_sym_table [mkVariable "a" 14 1; mkVariable "b" 0 1]
                 one_declared) in
  1%nat = length (sym_table one_declared)
  ∧ sym_table s2 = sym_table one_declared ++ [mkVariable "b" 7 1]
  ∧ sym_lookup (sym_table s2) "b" = Some 1%nat
  ∧ lookup_value (sym_table s2) "b" = Some 7
  ∧ (∀ other, other ≠ "b" →
       sym_lookup (sym_table s2) other
       = sym_lookup (sym_table one_declared) other
       ∧ lookup_value (sym_table s2) other
         = lookup_value (sym_table one_declared) other)
  ∧ stdout s2 = stdout one_declared ∧ stderr s2 = stderr one_declared
  ∧ had_error s2 = had_error one_declared ∧ pos s2 = pos one_declared.
Proof.
  refine (declare_then_lookup "b" 3 one_declared 1
            (set_sym_table [mkVariable "a" 14 1; mkVariable "b" 0 1]
               one_declared) 7 _ _).
  - reflexivity.
  - simpl. lia.
Defined.

(** X7: when [sym_declare] refuses.  It returns NULL exactly when the
    name is in the table already or the table is full; the table, standard
    output, the flag (which its caller sets) and the cursor are then as
    before, and one line is written to standard error: the redeclaration
    diagnostic when the name is in the table, even if the table is full as
    well, and the capacity message otherwise. *)
Theorem declare_refused nm ln s :
  let r := sym_declare nm ln s in
  (r.1 = None ↔
     (∃ v, v ∈ sym_table s ∧ name v = nm)
     ∨ (MAX_VARS ≤ length (sym_table s))%nat)
  ∧ (r.1 = None →
     sym_table r.2 = sym_table s ∧ stdout r.2 = stdout s
     ∧ had_error r.2 = had_error s ∧ pos r.2 = pos s)
  ∧ ((∃ v, v ∈ sym_table s ∧ name v = nm) →
     r.1 = None ∧ stderr r.2 = stderr s ++ [already_declared nm ln])
  ∧ (Forall (λ v, name v ≠ nm) (sym_table s) →
     (MAX_VARS ≤ length (sym_table s))%nat →
     r.1 = None ∧ stderr r.2 = stderr s ++ [too_many_variables]).
Proof.
  cbv zeta. unfold sym_declare.
  destruct (sym_lookup (sym_table s) nm) as [i|] eqn:Hlook.
  - apply sym_lookup_Some in Hlook as (v & Hv & Hname & _).
    assert (∃ v, v ∈ sym_table s ∧ name v = nm) as Hin.
    { exists v. split; [by eapply list_elem_of_lookup_2 | done]. }
    split_and!; try done.
    + split; [by left | done].
    + intros Hall _. rewrite Forall_forall in Hall.
      destruct Hin as (w & Hw & Hnm). by destruct (Hall w Hw).
  - apply sym_lookup_None in Hlook.
    assert (¬ ∃ v, v ∈ sym_table s ∧ name v = nm) as Hnot.
    { intros (v & Hv & Hnm). rewrite Forall_forall in Hlook.
      by destruct (Hlook v Hv). }
    case_decide as Hfull; simpl.
    + split_and!; try done. split; [by right | done].
    + split_and!; try done. split; [done|]. by intros [?|?].
Qed.

Lemma declare_refused_witness :
  (sym_declare "a" 3 one_declared).1 = None
  ∧ stderr (sym_declare "a" 3 one_declared).2
    = stderr one_declared ++ [already_declared "a" 3].
Proof.
  refine (proj1 (proj2 (proj2 (declare_refused "a" 3 one_declared))) _).
  exists (mkVariable "a" 14 1). split; [constructor | reflexivity].
Defined.

(** ** What a parser operation adds *)

(** X8: the two streams are append-only and the flag follows standard
    error.  Every parser operation leaves the lines that were on standard
    output and on standard error where they were and adds lines after
    them; afterwards the flag is set exactly if it was set before or the
    operation added a line to standard error; and an operation that adds
    a line to standard output was started with the flag clear. *)
Theorem streams_only_grow tokens op s s' :
  run_operation tokens op s = Done s' →
  ∃ out err,
    stdout s' = stdout s ++ out ∧ stderr s' = stderr s ++ err
    ∧ (had_error s' = true ↔ had_error s = true ∨ err ≠ [])
    ∧ (out ≠ [] → had_error s = false).
Proof.
  intros H.
  destruct (operation_appends tokens op s s' H)
    as (out & err & tbl & Hout & Herr & _ & Hflag & _).
  exists out, err. split_and!; try done.
  - rewrite Hflag, orb_true_iff, bool_decide_eq_true. done.
  - intros Hne. destruct (had_error s) eqn:Hs; [|done].
    destruct (operation_muted tokens op s s' H Hs) as (_ & Hsame & _).
    rewrite Hsame in Hout. rewrite <-(app_nil_r (stdout s)) in Hout at 1.
    by apply app_inv_head in Hout.
Qed.

Lemma streams_only_grow_witness :
  ∃ out err,
    stdout sample_final = stdout initial_state ++ out
    ∧ stderr sample_final = stderr initial_state ++ err
    ∧ (had_error sample_final = true
       ↔ had_error initial_state = true ∨ err ≠ [])
    ∧ (out ≠ [] → had_error initial_state = false).
Proof.
  refine (streams_only_grow sample_tokens
            (op_parse_program (program_fuel sample_tokens))
            initial_state sample_final _).
  vm_compute. reflexivity.
Defined.

Lemma sym_lookup_app_l tbl more nm i :
  sym_lookup tbl nm = Some i → sym_lookup (tbl ++ more) nm = Some i.
Proof.
  unfold sym_lookup. intros ([j v] & Hfind & ->)%fmap_Some.
  by rewrite (list_find_app_l _ _ _ _ _ Hfind).
Qed.

(** X9: a variable keeps its slot and its value.  Every parser operation
    leaves the entries of the symbol table as they were and adds entries,
    marked declared, after them: no entry is removed, renamed or given
    another value, and a name that [sym_lookup] finds is found afterwards
    in the same slot, with the same value. *)
Theorem variables_keep_their_values tokens op s s' :
  run_operation tokens op s = Done s' →
  (∃ tbl, sym_table s' = sym_table s ++ tbl
          ∧ Forall (λ v, Parser.declared v = 1) tbl)
  ∧ (∀ i v, sym_table s !! i = Some v → sym_table s' !! i = Some v)
  ∧ (∀ nm i, sym_lookup (sym_table s) nm = Some i →
       sym_lookup (sym_table s') nm = Some i
       ∧ lookup_value (sym_table s') nm = lookup_value (sym_table s) nm).
Proof.
  intros H.
  destruct (operation_appends tokens op s s' H)
    as (_ & _ & tbl & _ & _ & Htbl & _ & Hdecl).
  rewrite Htbl. split_and!.
  - by exists tbl.
  - intros i v Hi. by apply lookup_app_l_Some.
  - intros nm i Hi.
    pose proof (sym_lookup_app_l _ tbl _ _ Hi) as Hi'.
    split; [done|]. unfold lookup_value. rewrite Hi, Hi'. simpl.
    apply sym_lookup_Some in Hi as (v & Hv & _).
    by rewrite lookup_app_l by by eapply lookup_lt_Some.
Qed.

Lemma variables_keep_their_values_witness :
  (∃ tbl, sym_table sample_final = sym_table initial_state ++ tbl
          ∧ Forall (λ v, Parser.declared v = 1) tbl)
  ∧ (∀ i v, sym_table initial_state !! i = Some v →
       sym_table sample_final !! i = Some v)
  ∧ (∀ nm i, sym_lookup (sym_table initial_state) nm = Some i →
       sym_lookup (sym_table sample_final) nm = Some i
       ∧ lookup_value (sym_table sample_final) nm
         = lookup_value (sym_table initial_state) nm).
Proof.
  refine (variables_keep_their_values sample_tokens
            (op_parse_program (program_fuel sample_tokens))
            initial_state sample_final _).
  vm_compute. reflexivity.
Defined.

(** ** Expressions *)

(** The five procedures that parse and evaluate expressions. *)
Definition expression_operation (op : operation) : Prop :=
  match op with
  | op_parse_factor _ | op_parse_term_loop _ _ | op_parse_term _
  | op_parse_expr_loop _ _ | op_parse_expr _ => True
  | _ => False
  end.

Lemma state_eq s s' :
  pos s' = pos s → had_error s' = had_error s →
  sym_table s' = sym_table s → stdout s' = stdout s →
  stderr s' = stderr s → s' = s.
Proof. destruct s, s'. simpl. by intros -> -> -> -> ->. Qed.

(** X10: evaluating an expression has no effect but on the cursor and, in
    case of an error, on standard error and the flag.  [parse_factor],
    [parse_term], [parse_expr] and their loops never write to standard
    output and never change the symbol table; and when they return with
    the flag clear, it was clear before and the state differs from the
    one before in the cursor only. *)
Theorem expressions_only_read tokens op s s' :
  expression_operation op → run_operation tokens op s = Done s' →
  stdout s' = stdout s ∧ sym_table s' = sym_table s
  ∧ (had_error s' = false → had_error s = false ∧ s' = set_pos (pos s') s).
Proof.
  intros Hop H.
  assert (frame s s') as (Hout & Htbl & Hflag).
  { destruct (expression_frame tokens
                match op with
                | op_parse_factor f | op_parse_term_loop f _
                | op_parse_term f | op_parse_expr_loop f _
                | op_parse_expr f => f
                | _ => 0%nat
                end) as (Hf & Htl & Ht & Hel & He).
    destruct op; try done; simpl in H;
      apply fmap_Done in H as ([v s1] & H & ->); simpl; eauto. }
  split_and!; try done. intros Hclear.
  destruct (operation_appends tokens op s s' H)
    as (out & err & tbl & _ & Herr & _ & Hf & _).
  rewrite Hclear in Hf. symmetry in Hf.
  apply orb_false_iff in Hf as [Hs Herr'].
  apply bool_decide_eq_false in Herr'.
  assert (err = []) as -> by (destruct err; [done | by destruct Herr']).
  rewrite app_nil_r in Herr. split; [done|].
  apply state_eq; simpl; congruence.
Qed.

Lemma expressions_only_read_witness :
  stdout (set_pos 8 one_declared) = stdout (set_pos 3 one_declared)
  ∧ sym_table (set_pos 8 one_declared) = sym_table (set_pos 3 one_declared)
  ∧ (had_error (set_pos 8 one_declared) = false →
     had_error (set_pos 3 one_declared) = false
     ∧ set_pos 8 one_declared
       = set_pos (pos (set_pos 8 one_declared)) (set_pos 3 one_declared)).
Proof.
  refine (expressions_only_read sample_tokens (op_parse_expr 10)
            (set_pos 3 one_declared) (set_pos 8 one_declared) _ _).
  - exact I.
  - vm_compute. reflexivity.
Defined.

(** ** The table between statements *)

(** No name twice, no more entries than the array has slots, every entry
    marked declared, every name short enough for its buffer. *)
Definition table_ok (tbl : list variable) : Prop :=
  NoDup (name <$> tbl) ∧ (length tbl ≤ MAX_VARS)%nat
  ∧ Forall (λ v, Parser.declared v = 1
                 ∧ (String.length (name v) ≤ 255)%nat) tbl.

Lemma table_ok_declare tbl nm val :
  table_ok tbl → sym_lookup tbl nm = None →
  ¬ (MAX_VARS ≤ length tbl)%nat → (String.length nm ≤ 255)%nat →
  table_ok (tbl ++ [mkVariable nm val 1]).
Proof.
  intros (Hnd & Hlen & Hall) Hfresh Hroom Hnm. split_and!.
  - rewrite fmap_app. simpl. apply NoDup_app.
    split_and!; [done | | apply NoDup_singleton].
    intros x Hx ->%list_elem_of_singleton.
    apply sym_lookup_None in Hfresh.
    apply list_elem_of_fmap in Hx as (v & Hname & Hv).
    rewrite Forall_forall in Hfresh. by destruct (Hfresh v Hv).
  - rewrite length_app. simpl. revert Hroom. generalize MAX_VARS.
    clear. intros. lia.
  - apply Forall_app. split; [done|]. apply Forall_singleton. by split.
Qed.

Section table.

Context (tokens : list Token).
Hypothesis Heof : eof_terminated tokens.
Hypothesis Hshort :
  ∀ t, t ∈ tokens → type t = TOK_IDENTIFIER →
    (String.length (text t) ≤ 255)%nat.

Lemma declaration_table fuel s s' :
  parse_declaration tokens fuel s = Done s' → in_bounds tokens s →
  table_ok (sym_table s) → table_ok (sym_table s').
Proof.
  intros H Hs Hok. unfold parse_declaration in H. cbv zeta in H.
  set (s1 := (expect tokens TOK_INT s).2) in *.
  destruct (expect tokens TOK_IDENTIFIER s1) as [id s2] eqn:E2.
  assert (id = (expect tokens TOK_IDENTIFIER s1).1) as Hid by by rewrite E2.
  assert (s2 = (expect tokens TOK_IDENTIFIER s1).2) as Hs2 by by rewrite E2.
  clear E2. subst s2.
  set (s2 := (expect tokens TOK_IDENTIFIER s1).2) in *.
  set (s3 := (expect tokens TOK_ASSIGN s2).2) in *.
  apply bind_Done in H as ([val s4] & E & H). cbv beta iota in H.
  set (s5 := (expect tokens TOK_SEMICOLON s4).2) in *.
  assert (frame s s5) as (_ & Htbl & _).
  { eapply frame_trans; [apply (expect_frame tokens TOK_INT)|].
    eapply frame_trans; [apply (expect_frame tokens TOK_IDENTIFIER)|].
    eapply frame_trans; [apply (expect_frame tokens TOK_ASSIGN)|].
    eapply frame_trans; [by eapply parse_expr_frame|].
    apply expect_frame. }
  destruct (had_error s5) eqn:Hc5; [injection H as <-; by rewrite Htbl|].
  unfold sym_declare in H. rewrite Htbl in H.
  destruct (sym_lookup (sym_table s) (text id)) eqn:Hlook;
    [injection H as <-; simpl; by rewrite Htbl|].
  case_decide as Hfull; [injection H as <-; simpl; by rewrite Htbl|].
  injection H as <-. unfold store_value. simpl. rewrite alter_last.
  assert (in_bounds tokens s1) as Hb1
    by apply (cursor_effects tokens Heof (op_expect TOK_INT) s _ eq_refl Hs).
  assert (in_bounds tokens s2) as Hb2
    by apply (cursor_effects tokens Heof (op_expect TOK_IDENTIFIER) s1 _
                eq_refl Hb1).
  assert (in_bounds tokens s3) as Hb3
    by apply (cursor_effects tokens Heof (op_expect TOK_ASSIGN) s2 _
                eq_refl Hb2).
  pose proof (parse_expr_cursor tokens Heof _ _ _ _ E Hb3) as [Hb4 _].
  assert (had_error s4 = false) as Hc4
    by by destruct (expect_accepted tokens Heof TOK_SEMICOLON s4 Hb4
                      ltac:(done) Hc5) as (_ & ? & _).
  pose proof (frame_clear _ _ (parse_expr_frame tokens _ _ _ _ E) Hc4) as Hc3.
  assert (had_error s2 = false) as Hc2
    by by destruct (expect_accepted tokens Heof TOK_ASSIGN s2 Hb2
                      ltac:(done) Hc3) as (_ & ? & _).
  destruct (expect_accepted tokens Heof TOK_IDENTIFIER s1 Hb1
              ltac:(done) Hc2) as (Hty & _ & Hcur & _).
  rewrite <-Hid in Hcur.
  assert ((String.length (text id) ≤ 255)%nat) as Hlen.
  { apply Hshort; [|by rewrite Hcur]. rewrite Hcur.
    apply list_elem_of_lookup. exists (pos s1). by apply in_bounds_lookup. }
  rewrite strncpy_short by done. by apply table_ok_declare.
Qed.

Lemma print_table fuel s s' :
  parse_print tokens fuel s = Done s' → sym_table s' = sym_table s.
Proof.
  intros H. unfold parse_print in H. cbv zeta in H.
  apply bind_Done in H as ([val s3] & E & H). cbv beta iota in H.
  set (s5 := (expect tokens TOK_SEMICOLON _).2) in *.
  assert (frame s s5) as (_ & Htbl & _).
  { eapply frame_trans; [apply (expect_frame tokens TOK_PRINT)|].
    eapply frame_trans; [apply (expect_frame tokens TOK_LPAREN)|].
    eapply frame_trans; [by eapply parse_expr_frame|].
    eapply frame_trans; apply expect_frame. }
  by destruct (had_error s5); injection H as <-.
Qed.

Lemma stmt_table fuel s s' :
  parse_stmt tokens fuel s = Done s' → in_bounds tokens s →
  table_ok (sym_table s) → table_ok (sym_table s').
Proof.
  intros H Hs Hok. unfold parse_stmt in H. cbv zeta in H.
  destruct (decide (type (current_token tokens s) = TOK_INT));
    [by eapply declaration_table|].
  destruct (decide (type (current_token tokens s) = TOK_PRINT));
    [by rewrite (print_table _ _ _ H)|].
  apply (inj Done) in H. subst s'.
  destruct (decide (type (current_token tokens s) = TOK_EOF));
    [done | by rewrite sym_table_advance].
Qed.

Lemma program_table fuel :
  ∀ s s', parse_program_loop tokens fuel s = Done s' →
    in_bounds tokens s → table_ok (sym_table s) → table_ok (sym_table s').
Proof.
  induction fuel as [|fuel IH]; [done|]. intros s s' H Hs Hok.
  rewrite parse_program_loop_S in H. destruct (check tokens TOK_EOF s).
  - injection H as <-.
    destruct (expect_frame tokens TOK_EOF s) as (_ & -> & _). done.
  - apply bind_Done in H as (s1 & E & H).
    apply (IH s1 s' H).
    + by apply (cursor_effects tokens Heof (op_parse_stmt fuel) s s1 E).
    + by eapply stmt_table.
Qed.

End table.

(** X11: the symbol table between statements.  In a run on what
    [tokenise] returns no name is ever stored twice, the table never
    holds more than [MAX_VARS] entries, and every entry is marked
    declared and has a name of at most 255 characters: each statement
    keeps this, and so it holds when [parse_program] returns, with or
    without errors. *)
Theorem symbol_table_stays_well_formed src toks :
  tokenise src = LexOk toks →
  (∀ fuel s s', parse_stmt toks fuel s = Done s' → in_bounds toks s →
     table_ok (sym_table s) → table_ok (sym_table s'))
  ∧ (∀ st, parse_program toks = Done st →
       NoDup (name <$> sym_table st)
       ∧ (length (sym_table st) ≤ MAX_VARS)%nat
       ∧ Forall (λ v, Parser.declared v = 1
                      ∧ (String.length (name v) ≤ 255)%nat) (sym_table st)).
Proof.
  intros Htok. pose proof (tokenise_LexOk _ _ Htok) as Htoks.
  pose proof (tokenised_eof_terminated _ Htoks) as Heof.
  assert (∀ t, t ∈ toks → type t = TOK_IDENTIFIER →
            (String.length (text t) ≤ 255)%nat) as Hshort.
  { destruct Htoks as (body & eof & -> & Hgood & Hty & _).
    intros t [Ht| ->%list_elem_of_singleton]%elem_of_app Hid; [|congruence].
    rewrite Forall_forall in Hgood.
    by destruct (Hgood t Ht) as (_ & _ & _ & ?). }
  split.
  - intros fuel s s'. by apply stmt_table.
  - intros st H.
    apply (program_table toks Heof Hshort _ initial_state st H).
    + by apply initial_in_bounds.
    + split_and!; [constructor | apply Nat.le_0_l | constructor].
Qed.

Lemma symbol_table_stays_well_formed_witness :
  NoDup (name <$> sym_table sample_final)
  ∧ (length (sym_table sample_final) ≤ MAX_VARS)%nat
  ∧ Forall (λ v, Parser.declared v = 1
                 ∧ (String.length (name v) ≤ 255)%nat)
      (sym_table sample_final).
Proof.
  refine (proj2 (symbol_table_stays_well_formed
                   "int a = 2 + 3 * 4; print(a); print((a - 2) / 0); print(a);"
                   sample_tokens _) sample_final _).
  - vm_compute. reflexivity.
  - vm_compute. reflexivity.
Defined.

(** ** What is executed before an error *)

(** X12: statements that are valid and run without error are executed
    whatever follows them.  When the tokens start with a program of the
    grammar whose reference execution succeeds, the run goes on from the
    state that this program leaves: its lines on standard output, its
    declarations in the symbol table, the cursor behind it and the flag
    clear.  The run ends, and when it returns, those lines are the first
    lines on standard output and those declarations the first entries of
    the symbol table, also when a later part of the source is in
    error. *)
Theorem valid_prefix_is_executed body rest eof p evs :
  type eof = TOK_EOF → Program body p → exec ∅ p = Some evs →
  (length (Reference.declared evs) ≤ MAX_VARS)%nat →
  Forall (λ t, (String.length (text t) ≤ 255)%nat) body →
  let toks := body ++ rest ++ [eof] in
  parse_program toks
  = parse_program_loop toks (program_fuel toks)
      (mkState (length body) false (Reference.declared evs) (printed evs) [])
  ∧ finishes (parse_program toks)
  ∧ ∀ st, parse_program toks = Done st →
      ∃ out tbl, stdout st = printed evs ++ out
                 ∧ sym_table st = Reference.declared evs ++ tbl.
Proof.
  intros Heof Hp Hexec Hroom Hshort toks.
  assert (eof_terminated toks) as Hterm.
  { exists (body ++ rest), eof. unfold toks. by rewrite <-!app_assoc. }
  set (s1 := mkState (length body) false (Reference.declared evs)
               (printed evs) []).
  assert (in_bounds toks s1) as Hin.
  { unfold in_bounds, s1, toks. simpl. rewrite !length_app. simpl.
    clear. lia. }
  assert (parse_program toks = parse_program_loop toks (program_fuel toks) s1)
    as Hrun.
  { apply eventually_parse_program; [done|].
    apply (statements_parsed toks body p Hp initial_state ∅ evs
             (rest ++ [eof])); try done; try apply agrees_empty.
    by apply eventually_loop. }
  split_and!; [done | by apply parse_program_finishes|].
  intros st Hst. rewrite Hrun in Hst.
  destruct (operation_appends toks (op_parse_program _) s1 st Hst)
    as (out & _ & tbl & Hout & _ & Htbl & _).
  by exists out, tbl.
Qed.

Lemma valid_prefix_is_executed_witness :
  let toks := arith_body ++ [mkToken TOK_SEMICOLON ";" 0 1 26]
              ++ [mkToken TOK_EOF "EOF" 0 1 27] in
  parse_program toks
  = parse_program_loop toks (program_fuel toks) (mkState 13 false [] ["5"] [])
  ∧ finishes (parse_program toks)
  ∧ ∀ st, parse_program toks = Done st →
      ∃ out tbl, stdout st = printed [Printed 5] ++ out
                 ∧ sym_table st = Reference.declared [Printed 5] ++ tbl.
Proof.
  refine (valid_prefix_is_executed arith_body
            [mkToken TOK_SEMICOLON ";" 0 1 26]
            (mkToken TOK_EOF "EOF" 0 1 27)
            [PrintStmt arith_expr] [Printed 5] _ _ _ _ _).
  - reflexivity.
  - apply arith_program.
  - reflexivity.
  - simpl. apply Nat.le_0_l.
  - unfold arith_body. repeat (constructor; [simpl; lia|]). constructor.
Defined.

End Runs.


(** * More about [simple_parser.c] *)

Module SimpleRuns.
Import SimpleParser SimpleParserSpec.

(** ** A proof principle for what the minimal variant does to its state

    Whatever relation between the state before and the state in which a
    computation returns or exits is reflexive, transitive, and holds for
    reading a token, for leaving with a message, for declaring and for
    printing, holds for every parsing procedure. *)

Definition die_state (msg : string) (s : State) : State :=
  mkState (src s) (tok s) (tok_text s) (tok_num s) (vars s) (stdout s)
    (stderr s ++ [msg]).

Section effects.

Context (R : State → State → Prop).
Hypothesis R_refl : ∀ s, R s s.
Hypothesis R_trans : ∀ s1 s2 s3, R s1 s2 → R s2 s3 → R s1 s3.
Hypothesis R_next : ∀ s r, next s = Done r → R s (final_state r).
Hypothesis R_die : ∀ msg s, R s (die_state msg s).
Hypothesis R_var_set : ∀ nm v s,
  list_find (λ x, x.1 = nm) (vars s) = None →
  R s (set_vars (vars s ++ [(nm, v)]) s).
Hypothesis R_printf : ∀ ln s, R s (printf ln s).

Definition eff {A} (s : State) (r : result A) : Prop := R s (final_state r).

Lemma eff_bind {A B} (m : run (result A))
    (k : A → State → run (result B)) s r :
  bind m k = Done r →
  (∀ r1, m = Done r1 → eff s r1) →
  (∀ a s1 r2, k a s1 = Done r2 → eff s1 r2) →
  eff s r.
Proof.
  unfold bind, eff. intros H Hm Hk.
  destruct m as [[a s1|code s1]| |]; [| |done..].
  - eapply R_trans; [apply (Hm _ eq_refl) | by eapply Hk].
  - simplify_eq. apply (Hm _ eq_refl).
Qed.

Lemma eff_die {A} msg s (r : result A) : die msg s = Done r → eff s r.
Proof. unfold die. intros. simplify_eq. apply R_die. Qed.

Lemma eff_next s r : next s = Done r → eff s r.
Proof. apply R_next. Qed.

Lemma simple_eff_expect k s r : expect k s = Done r → eff s r.
Proof. unfold expect. case_decide; [apply eff_next | apply eff_die]. Qed.

Lemma eff_var_get nm s r : var_get nm s = Done r → eff s r.
Proof.
  unfold var_get. intros H. repeat case_match; simplify_eq;
    [apply R_refl | by eapply eff_die].
Qed.

Lemma eff_var_set nm v s r : var_set nm v s = Done r → eff s r.
Proof.
  unfold var_set. intros H.
  destruct (list_find _ _) eqn:Hfind; [by eapply eff_die|].
  case_decide; simplify_eq. by apply R_var_set.
Qed.

Ltac eff_step lem :=
  match goal with
  | H : _ = Done _ |- _ =>
      cbv beta in H; eapply eff_bind;
      [exact H | solve [lem]
      |clear H; let K := fresh "K" in intros ??? K; cbv beta in K]
  end.

Ltac eff_ret :=
  match goal with
  | H : _ = Done _ |- _ => cbv beta in H; simplify_eq; apply R_refl
  end.

Lemma expression_eff fuel :
  (∀ s r, parse_factor fuel s = Done r → eff s r)
  ∧ (∀ lhs s r, parse_term_loop fuel lhs s = Done r → eff s r)
  ∧ (∀ s r, parse_term fuel s = Done r → eff s r)
  ∧ (∀ lhs s r, parse_expr_loop fuel lhs s = Done r → eff s r)
  ∧ (∀ s r, parse_expr fuel s = Done r → eff s r).
Proof.
  induction fuel as [|fuel (IHf & IHtl & IHt & IHel & IHe)];
    [by repeat split|].
  split_and!.
  - intros s r H. rewrite simple_parse_factor_S in H. repeat case_match.
    + eff_step ltac:(apply eff_next). eff_ret.
    + eff_step ltac:(apply eff_next). by eapply eff_var_get.
    + eff_step ltac:(apply eff_next). eff_step ltac:(apply IHe).
      eff_step ltac:(apply simple_eff_expect). eff_ret.
    + by eapply eff_die.
  - intros lhs s r H. rewrite simple_parse_term_loop_S in H.
    destruct (_ || _); [|eff_ret].
    eff_step ltac:(apply eff_next). eff_step ltac:(apply IHf).
    repeat case_decide; [by eapply IHtl | by eapply eff_die|].
    match goal with
    | K : _ ≫= _ = Done _ |- _ => apply bind_Done in K as (q & _ & K)
    end.
    by eapply IHtl.
  - intros s r H. rewrite simple_parse_term_S in H.
    eff_step ltac:(apply IHf). by eapply IHtl.
  - intros lhs s r H. rewrite simple_parse_expr_loop_S in H.
    destruct (_ || _); [|eff_ret].
    eff_step ltac:(apply eff_next). eff_step ltac:(apply IHt).
    case_decide; by eapply IHel.
  - intros s r H. rewrite simple_parse_expr_S in H.
    eff_step ltac:(apply IHt). by eapply IHel.
Qed.

Lemma parse_expr_eff fuel s r : parse_expr fuel s = Done r → eff s r.
Proof. apply expression_eff. Qed.

Lemma parse_stmt_eff fuel s r : parse_stmt fuel s = Done r → eff s r.
Proof.
  unfold parse_stmt. intros H. repeat case_match.
  - eff_step ltac:(apply eff_next). case_match.
    + eff_step ltac:(apply eff_next). eff_step ltac:(apply simple_eff_expect).
      eff_step ltac:(apply parse_expr_eff).
      eff_step ltac:(apply simple_eff_expect).
      by eapply eff_var_set.
    + by eapply eff_die.
  - eff_step ltac:(apply eff_next). eff_step ltac:(apply simple_eff_expect).
    eff_step ltac:(apply parse_expr_eff).
    eff_step ltac:(apply simple_eff_expect).
    eff_step ltac:(apply simple_eff_expect).
    cbv beta in K. simplify_eq. apply R_printf.
  - by eapply eff_die.
Qed.

Lemma parse_program_eff fuel s r : parse_program fuel s = Done r → eff s r.
Proof.
  revert s r. induction fuel as [|fuel IH]; [done|]. intros s r H.
  rewrite simple_parse_program_S in H. case_match; [eff_ret|].
  eff_step ltac:(apply parse_stmt_eff). by eapply IH.
Qed.

End effects.

(** ** Termination *)

(** What is left to read: the current token, unless it is the end of the
    input, and the text behind the read pointer. *)
Definition weight (s : State) : nat :=
  (if decide (tok s = T_EOF) then 0 else 1) + String.length (src s).


Lemma weight_not_eof s :
  tok s ≠ T_EOF → weight s = (1 + String.length (src s))%nat.
Proof. intros. unfold weight. by rewrite decide_False. Qed.

Lemma skip_blanks_length fuel x :
  (String.length (skip_blanks fuel x) ≤ String.length x)%nat.
Proof.
  revert x. induction fuel as [|fuel IH]; intros x; simpl; [done|].
  destruct x as [|c rest]; [done|].
  destruct (isspace c); [specialize (IH rest); simpl; lia|].
  destruct (Parser.starts_comment _); [|done].
  etrans; [apply IH | apply ParserSpec.span_length].
Qed.

Lemma next_total s : finishes (next s).
Proof.
  unfold next. destruct (skip_blanks _ _) as [|c rest]; [done|].
  destruct (span ident_char _), (span isdigit _).
  by repeat case_match.
Qed.

Lemma next_src s r :
  next s = Done r →
  (String.length (src (final_state r)) ≤ String.length (src s))%nat
  ∧ (tok (final_state r) ≠ T_EOF → ∀ a s1, r = Ret a s1 →
     (String.length (src s1) < String.length (src s))%nat).
Proof.
  unfold next.
  pose proof (skip_blanks_length (String.length (src s)) (src s)) as Hx.
  destruct (skip_blanks _ _) as [|c rest].
  { intros H. simplify_eq. simpl. split; [lia | done]. }
  simpl in Hx.
  destruct (ident_start c) eqn:Hid.
  { pose proof (ParserSpec.span_length_lt ident_char c rest
                  (ParserSpec.ident_start_char c Hid)) as Hlt.
    destruct (span ident_char (String c rest)) as [lexeme rest'].
    simpl in Hlt. intros H.
    destruct (decide (TEXT_SIZE ≤ _)%nat); [done|]. simplify_eq. simpl.
    split; [lia|]. intros _ ? ? ?. simplify_eq. simpl. lia. }
  destruct (isdigit c) eqn:Hdigit.
  { pose proof (ParserSpec.span_length_lt isdigit c rest Hdigit) as Hlt.
    destruct (span ident_char (String c rest)).
    destruct (span isdigit (String c rest)) as [lexeme rest'].
    simpl in Hlt. intros H.
    destruct (decide (TEXT_SIZE ≤ _)%nat); [done|]. simplify_eq. simpl.
    split; [lia|]. intros _ ? ? ?. simplify_eq. simpl. lia. }
  destruct (span ident_char (String c rest)), (span isdigit (String c rest)).
  unfold die.
  destruct (single_char_kind c); intros H; simplify_eq; simpl;
    (split; [lia|]); intros _ ? ? ?; simplify_eq; simpl; lia.
Qed.


(** Reading a token never gives back text, and uses some up unless the
    input is at its end. *)
Lemma next_weight s a s1 :
  next s = Done (Ret a s1) → (weight s1 ≤ String.length (src s))%nat.
Proof.
  intros H. destruct (next_src s _ H) as [Hle Hlt]. simpl in *.
  unfold weight. case_decide as Heof.
  - simpl. lia.
  - specialize (Hlt Heof a s1 eq_refl). lia.
Qed.

Definition lighter (s s' : State) : Prop := (weight s' ≤ weight s)%nat.

Lemma lighter_next s r : next s = Done r → lighter s (final_state r).
Proof.
  intros H. unfold lighter. destruct r as [a s1|code s1]; simpl.
  - pose proof (next_weight s a s1 H). unfold weight at 2. lia.
  - revert H. unfold next. destruct (skip_blanks _ _) as [|c rest] eqn:Hx;
      [done|].
    pose proof (skip_blanks_length (String.length (src s)) (src s)) as Hlen.
    rewrite Hx in Hlen. simpl in Hlen.
    destruct (span ident_char _), (span isdigit _).
    repeat case_match; try done. unfold die. intros Hd. simplify_eq.
    unfold weight. simpl. case_decide; lia.
Qed.

Lemma lighter_refl s : lighter s s.
Proof. unfold lighter. lia. Qed.

Lemma lighter_trans s1 s2 s3 : lighter s1 s2 → lighter s2 s3 → lighter s1 s3.
Proof. unfold lighter. lia. Qed.

Lemma lighter_die msg s : lighter s (die_state msg s).
Proof. unfold lighter, weight. simpl. lia. Qed.

Lemma lighter_var_set nm v s :
  list_find (λ x, x.1 = nm) (vars s) = None →
  lighter s (set_vars (vars s ++ [(nm, v)]) s).
Proof. intros _. unfold lighter, weight. simpl. lia. Qed.

Lemma lighter_printf ln s : lighter s (printf ln s).
Proof. unfold lighter, weight. simpl. lia. Qed.

Lemma expression_lighter fuel :
  (∀ s r, parse_factor fuel s = Done r → lighter s (final_state r))
  ∧ (∀ lhs s r, parse_term_loop fuel lhs s = Done r →
       lighter s (final_state r))
  ∧ (∀ s r, parse_term fuel s = Done r → lighter s (final_state r))
  ∧ (∀ lhs s r, parse_expr_loop fuel lhs s = Done r →
       lighter s (final_state r))
  ∧ (∀ s r, parse_expr fuel s = Done r → lighter s (final_state r)).
Proof.
  exact (expression_eff lighter lighter_refl lighter_trans lighter_next
           lighter_die fuel).
Qed.

Lemma expect_lighter k s r :
  expect k s = Done r → lighter s (final_state r).
Proof. exact (simple_eff_expect lighter lighter_next lighter_die k s r). Qed.


Lemma bind_total {A B} (m : run (result A))
    (k : A → State → run (result B)) :
  finishes m → (∀ a s, m = Done (Ret a s) → finishes (k a s)) →
  finishes (bind m k).
Proof.
  unfold finishes. destruct m as [[a s|code s]| |]; simpl; eauto.
Qed.

Lemma bind_Ret {A B} (m : run (result A))
    (k : A → State → run (result B)) b s' :
  bind m k = Done (Ret b s') →
  ∃ a s1, m = Done (Ret a s1) ∧ k a s1 = Done (Ret b s').
Proof.
  destruct m as [[a s1|code s1]| |]; simpl; [by eexists _, _ | done..].
Qed.

Lemma is_tok_true k s : is_tok k s = true → tok s = k.
Proof. apply bool_decide_eq_true. Qed.

Lemma next_le s a s1 :
  next s = Done (Ret a s1) → (weight s1 ≤ weight s)%nat.
Proof. intros H. apply (lighter_next s _ H). Qed.

Lemma next_lt s a s1 :
  tok s ≠ T_EOF → next s = Done (Ret a s1) → (weight s1 < weight s)%nat.
Proof.
  intros Hne H. rewrite (weight_not_eof s Hne).
  pose proof (next_weight s a s1 H). lia.
Qed.

Lemma expect_total k s : finishes (expect k s).
Proof. unfold expect. case_decide; [apply next_total | done]. Qed.

Lemma expect_le k s a s1 :
  expect k s = Done (Ret a s1) → (weight s1 ≤ weight s)%nat.
Proof. intros H. apply (expect_lighter k s _ H). Qed.

(** The expression procedures return, or exit, within fuel linear in what
    is left to read. *)
Lemma simple_expression_total n :
  ∀ s, (weight s ≤ n)%nat →
  (∀ fuel, (4 * n + 1 ≤ fuel)%nat → finishes (parse_factor fuel s))
  ∧ (∀ fuel lhs, (4 * n + 1 ≤ fuel)%nat →
       finishes (parse_term_loop fuel lhs s))
  ∧ (∀ fuel, (4 * n + 2 ≤ fuel)%nat → finishes (parse_term fuel s))
  ∧ (∀ fuel lhs, (4 * n + 2 ≤ fuel)%nat →
       finishes (parse_expr_loop fuel lhs s))
  ∧ (∀ fuel, (4 * n + 3 ≤ fuel)%nat → finishes (parse_expr fuel s)).
Proof.
  induction (lt_wf n) as [n _ IH].
  assert (∀ s, (weight s ≤ n)%nat → ∀ fuel, (4 * n + 1 ≤ fuel)%nat →
            finishes (parse_factor fuel s)) as Hf.
  { intros s Hw [|fuel] Hfuel; [lia|]. rewrite simple_parse_factor_S.
    destruct (is_tok T_NUM s).
    { apply bind_total; [apply next_total|]. intros. done. }
    destruct (is_tok T_ID s).
    { apply bind_total; [apply next_total|]. intros a s1 _.
      unfold var_get. by repeat case_match. }
    destruct (is_tok T_LPAREN s) eqn:Hlp; [|done].
    apply is_tok_true in Hlp.
    apply bind_total; [apply next_total|]. intros a s1 Hn.
    pose proof (next_lt s a s1 ltac:(congruence) Hn) as Hlt.
    destruct (IH (weight s1) ltac:(lia) s1 (le_n _)) as (_ & _ & _ & _ & He).
    apply bind_total; [apply He; lia|]. intros v s2 _.
    apply bind_total; [apply expect_total|]. intros. done. }
  assert (∀ s, (weight s ≤ n)%nat → ∀ fuel lhs, (4 * n + 1 ≤ fuel)%nat →
            finishes (parse_term_loop fuel lhs s)) as Htl.
  { intros s Hw [|fuel] lhs Hfuel; [lia|]. rewrite simple_parse_term_loop_S.
    destruct (_ || _) eqn:Hop; [|done].
    assert (tok s ≠ T_EOF) as Hne.
    { apply orb_prop in Hop as [Hop|Hop]; apply is_tok_true in Hop;
        congruence. }
    apply bind_total; [apply next_total|]. intros a s1 Hn.
    pose proof (next_lt s a s1 Hne Hn) as Hlt.
    destruct (IH (weight s1) ltac:(lia) s1 (le_n _)) as (Hf1 & _).
    apply bind_total; [apply Hf1; lia|]. intros rhs s2 Hf2.
    pose proof (proj1 (expression_lighter fuel) s1 _ Hf2) as Hl.
    unfold lighter in Hl. simpl in Hl.
    destruct (IH (weight s2) ltac:(lia) s2 (le_n _)) as (_ & Htl2 & _).
    repeat case_decide; [apply Htl2; lia | done|].
    apply bind_finishes; [unfold int_div; by case_decide|].
    intros q _. apply Htl2. lia. }
  assert (∀ s, (weight s ≤ n)%nat → ∀ fuel, (4 * n + 2 ≤ fuel)%nat →
            finishes (parse_term fuel s)) as Ht.
  { intros s Hw [|fuel] Hfuel; [lia|]. rewrite simple_parse_term_S.
    apply bind_total; [apply Hf; [done|lia]|]. intros lhs s1 Hf1.
    pose proof (proj1 (expression_lighter fuel) s _ Hf1) as Hl.
    unfold lighter in Hl. simpl in Hl. apply Htl; lia. }
  assert (∀ s, (weight s ≤ n)%nat → ∀ fuel lhs, (4 * n + 2 ≤ fuel)%nat →
            finishes (parse_expr_loop fuel lhs s)) as Hel.
  { intros s Hw [|fuel] lhs Hfuel; [lia|]. rewrite simple_parse_expr_loop_S.
    destruct (_ || _) eqn:Hop; [|done].
    assert (tok s ≠ T_EOF) as Hne.
    { apply orb_prop in Hop as [Hop|Hop]; apply is_tok_true in Hop;
        congruence. }
    apply bind_total; [apply next_total|]. intros a s1 Hn.
    pose proof (next_lt s a s1 Hne Hn) as Hlt.
    destruct (IH (weight s1) ltac:(lia) s1 (le_n _)) as (_ & _ & Ht1 & _).
    apply bind_total; [apply Ht1; lia|]. intros rhs s2 Ht2.
    destruct (expression_lighter fuel) as (_ & _ & Hlt2 & _).
    pose proof (Hlt2 s1 _ Ht2) as Hl. unfold lighter in Hl. simpl in Hl.
    destruct (IH (weight s2) ltac:(lia) s2 (le_n _))
      as (_ & _ & _ & Hel2 & _).
    case_decide; apply Hel2; lia. }
  intros s Hw. split_and!; auto.
  intros [|fuel] Hfuel; [lia|]. rewrite simple_parse_expr_S.
  apply bind_total; [apply Ht; [done|lia]|]. intros lhs s1 Ht1.
  destruct (expression_lighter fuel) as (_ & _ & Hlt1 & _).
  pose proof (Hlt1 s _ Ht1) as Hl. unfold lighter in Hl. simpl in Hl.
  apply Hel; lia.
Qed.

Lemma simple_parse_expr_total fuel s :
  (4 * weight s + 3 ≤ fuel)%nat → finishes (parse_expr fuel s).
Proof. intros. by apply (simple_expression_total (weight s) s (le_n _)). Qed.

Lemma var_set_total nm v s : finishes (var_set nm v s).
Proof. unfold var_set. by repeat case_match. Qed.

Lemma simple_parse_stmt_total fuel s :
  (4 * weight s + 3 ≤ fuel)%nat → finishes (parse_stmt fuel s).
Proof.
  intros Hfuel. unfold parse_stmt.
  destruct (is_tok T_INT s).
  { apply bind_total; [apply next_total|]. intros a s1 H1.
    apply next_le in H1. destruct (is_tok T_ID s1); [|done].
    apply bind_total; [apply next_total|]. intros a2 s2 H2.
    apply next_le in H2.
    apply bind_total; [apply expect_total|]. intros a3 s3 H3.
    apply expect_le in H3.
    apply bind_total; [apply simple_parse_expr_total; lia|]. intros val s4 _.
    apply bind_total; [apply expect_total|]. intros a5 s5 _.
    apply var_set_total. }
  destruct (is_tok T_PRINT s); [|done].
  apply bind_total; [apply next_total|]. intros a s1 H1.
  apply next_le in H1.
  apply bind_total; [apply expect_total|]. intros a2 s2 H2.
  apply expect_le in H2.
  apply bind_total; [apply simple_parse_expr_total; lia|]. intros val s3 _.
  apply bind_total; [apply expect_total|]. intros a4 s4 _.
  apply bind_total; [apply expect_total|]. intros. done.
Qed.

(** A statement that returns has used up its first token. *)
Lemma simple_parse_stmt_progress fuel s a s' :
  parse_stmt fuel s = Done (Ret a s') → (weight s' < weight s)%nat.
Proof.
  unfold parse_stmt. intros H.
  destruct (is_tok T_INT s) eqn:Hint.
  { apply is_tok_true in Hint.
    apply bind_Ret in H as (a1 & s1 & H1 & H).
    apply next_lt in H1; [|congruence].
    destruct (is_tok T_ID s1); [|done].
    apply bind_Ret in H as (a2 & s2 & H2 & H). apply next_le in H2.
    apply bind_Ret in H as (a3 & s3 & H3 & H). apply expect_le in H3.
    apply bind_Ret in H as (val & s4 & H4 & H).
    pose proof (proj2 (proj2 (proj2 (proj2 (expression_lighter fuel))))
                  s3 _ H4) as Hl4. unfold lighter in Hl4. simpl in Hl4.
    apply bind_Ret in H as (a5 & s5 & H5 & H). apply expect_le in H5.
    unfold var_set in H. destruct (list_find _ _); [done|].
    case_decide; [done|].
    injection H as _ <-. unfold weight in *. simpl. lia. }
  destruct (is_tok T_PRINT s) eqn:Hprint; [|done].
  apply is_tok_true in Hprint.
  apply bind_Ret in H as (a1 & s1 & H1 & H).
  apply next_lt in H1; [|congruence].
  apply bind_Ret in H as (a2 & s2 & H2 & H). apply expect_le in H2.
  apply bind_Ret in H as (val & s3 & H3 & H).
  pose proof (proj2 (proj2 (proj2 (proj2 (expression_lighter fuel))))
                s2 _ H3) as Hl3. unfold lighter in Hl3. simpl in Hl3.
  apply bind_Ret in H as (a4 & s4 & H4 & H). apply expect_le in H4.
  apply bind_Ret in H as (a5 & s5 & H5 & H). apply expect_le in H5.
  injection H as _ <-. unfold weight in *. simpl. lia.
Qed.

Lemma simple_parse_program_total fuel :
  ∀ s, (4 * weight s + 4 ≤ fuel)%nat → finishes (parse_program fuel s).
Proof.
  induction fuel as [|fuel IH]; intros s Hfuel; [lia|].
  rewrite simple_parse_program_S. destruct (is_tok T_EOF s); [done|].
  apply bind_total; [apply simple_parse_stmt_total; lia|]. intros a s1 H.
  apply simple_parse_stmt_progress in H. apply IH. lia.
Qed.

(** X14: [simple_parser.c] ends on every input.  Each call of [next] that
    reads a token uses up at least one character, every statement that
    returns has read a token, and so [main] ends for every command line
    and every file: the fuel of the model, linear in the length of the
    source, never runs out.  To end is to return, to exit, or to run into
    undefined behaviour (a store behind the end of [tok_text] or of the
    variable arrays, a division of [INT_MIN] by -1), on which the process
    is killed or goes on with corrupted memory.  The depth of the C
    stack, which bounds the nesting of parentheses, is not modelled. *)
Theorem simple_parser_terminates :
  (∀ argv fs, finishes (main argv fs))
  ∧ (∀ fuel s, (4 * weight s + 4 ≤ fuel)%nat →
       finishes (parse_program fuel s))
  ∧ (∀ fuel s a s', parse_stmt fuel s = Done (Ret a s') →
       (weight s' < weight s)%nat)
  ∧ (∀ s a s', next s = Done (Ret a s') →
       (String.length (src s') ≤ String.length (src s))%nat
       ∧ (tok s' ≠ T_EOF →
          (String.length (src s') < String.length (src s))%nat)).
Proof.
  split_and!; [|intros; by apply simple_parse_program_total
               |apply simple_parse_stmt_progress|].
  2:{ intros s a s' H. destruct (next_src s _ H) as [Hle Hlt].
      split; [done|]. intros Hne. by apply (Hlt Hne a s'). }
  intros argv fs. unfold main.
  destruct argv as [|prog [|path more]]; [done..|].
  destruct (fs path) as [buf|]; [|done].
  cbv zeta. set (src0 := c_str buf).
  pose proof (next_total (initial_state src0)) as Hfin.
  destruct (next (initial_state src0)) as [[a s1|code s1]| |] eqn:Hn;
    [| done..].
  pose proof (next_weight _ _ _ Hn) as Hw. simpl in Hw.
  pose proof (simple_parse_program_total (program_fuel src0) s1) as Hprog.
  simpl.
  destruct (parse_program (program_fuel src0) s1) as [[b s2|code s2]| |];
    [done.. |].
  exfalso. apply Hprog; [|done]. unfold program_fuel. lia.
Qed.

Lemma simple_parser_terminates_witness :
  (String.length (src (set_tok T_NUM (set_tok_num 12 (set_tok_text "12"
      (set_src "abc" (initial_state "  12abc"))))))
   ≤ String.length (src (initial_state "  12abc")))%nat
  ∧ (tok (set_tok T_NUM (set_tok_num 12 (set_tok_text "12"
       (set_src "abc" (initial_state "  12abc"))))) ≠ T_EOF →
     (String.length (src (set_tok T_NUM (set_tok_num 12 (set_tok_text "12"
        (set_src "abc" (initial_state "  12abc"))))))
      < String.length (src (initial_state "  12abc")))%nat).
Proof.
  refine (proj2 (proj2 (proj2 simple_parser_terminates))
            (initial_state "  12abc") () _ _).
  vm_compute. reflexivity.
Defined.

(** ** Exit status *)




(** ** Variables *)

Lemma var_get_Ret nm s v s' :
  var_get nm s = Done (Ret v s') ↔
  s' = s ∧ ∃ i x, list_find (λ x, x.1 = nm) (vars s) = Some (i, x) ∧ x.2 = v.
Proof.
  unfold var_get, die. destruct (list_find _ _) as [[i x]|]; split.
  - intros ?. simplify_eq. split; [done|]. by exists i, x.
  - intros (-> & j & y & ? & <-). by simplify_eq.
  - done.
  - by intros (_ & j & y & ? & _).
Qed.

(** X16: a variable of [simple_parser.c] that was set can be read.
    [var_set] on a name that is not in the table, while the arrays have
    room, adds it with its value at the end, and [var_get] of that name
    then returns the value, while every other name reads as before; on a
    name that is in the table already it writes
    [Error: variable '<name>' already declared] and exits with status 1,
    the table unchanged; and [var_get] of a name that is not in the table
    writes [Error: undefined variable '<name>'] and exits with status
    1. *)
Theorem variable_set_then_get nm val s :
  (Forall (λ x, x.1 ≠ nm) (vars s) → (length (vars s) < MAX_VARS)%nat →
   ∃ s', var_set nm val s = Done (Ret () s')
         ∧ vars s' = vars s ++ [(nm, val)]
         ∧ var_get nm s' = Done (Ret val s')
         ∧ (∀ other w, other ≠ nm →
              var_get other s' = Done (Ret w s')
              ↔ var_get other s = Done (Ret w s))
         ∧ var_get nm s
           = Done (Exit 1 (die_state ("Error: undefined variable '"
                                      +:+ nm +:+ "'") s)))
  ∧ ((∃ x, x ∈ vars s ∧ x.1 = nm) →
     var_set nm val s
     = Done (Exit 1 (die_state ("Error: variable '" +:+ nm
                                +:+ "' already declared") s))).
Proof.
  split.
  - intros Hall Hroom.
    assert (list_find (λ x, x.1 = nm) (vars s) = None) as Hfresh
      by by apply list_find_None.
    exists (set_vars (vars s ++ [(nm, val)]) s).
    assert (list_find (λ x, x.1 = nm) (vars s ++ [(nm, val)])
            = Some (length (vars s), (nm, val))) as Hnew.
    { rewrite list_find_app_r by done. simpl. rewrite decide_True by done.
      simpl. do 2 f_equal; lia. }
    split_and!.
    + unfold var_set. rewrite Hfresh.
      by rewrite decide_False by by apply Nat.nle_gt.
    + done.
    + apply var_get_Ret. split; [done|]. by eexists _, _.
    + intros other w Hother. rewrite !var_get_Ret. simpl.
      assert (list_find (λ x, x.1 = other) (vars s ++ [(nm, val)])
              = list_find (λ x, x.1 = other) (vars s)) as ->.
      { destruct (list_find (λ x, x.1 = other) (vars s)) as [[i x]|]
          eqn:Hfind.
        - by rewrite (list_find_app_l _ _ _ _ _ Hfind).
        - rewrite (list_find_app_r (λ x, x.1 = other) _ _ Hfind). simpl.
          by rewrite decide_False by (simpl; congruence). }
      split; intros [_ ?]; by split.
    + unfold var_get. by rewrite Hfresh.
  - intros (x & Hx & Hnm). unfold var_set.
    destruct (list_find _ _) as [[i y]|] eqn:Hfind; [done|].
    apply list_find_None in Hfind. rewrite Forall_forall in Hfind.
    by destruct (Hfind x Hx).
Qed.

Lemma variable_set_then_get_witness :
  ∃ s', var_set "b" 7 (set_vars [("a", 14)] (initial_state ""))
        = Done (Ret () s')
        ∧ vars s' = vars (set_vars [("a", 14)] (initial_state ""))
                    ++ [("b", 7)]
        ∧ var_get "b" s' = Done (Ret 7 s')
        ∧ (∀ other w, other ≠ "b" →
             var_get other s' = Done (Ret w s')
             ↔ var_get other (set_vars [("a", 14)] (initial_state ""))
               = Done (Ret w (set_vars [("a", 14)] (initial_state ""))))
        ∧ var_get "b" (set_vars [("a", 14)] (initial_state ""))
          = Done (Exit 1 (die_state ("Error: undefined variable '"
                                     +:+ "b" +:+ "'")
                            (set_vars [("a", 14)] (initial_state "")))).
Proof.
  refine (proj1 (variable_set_then_get "b" 7
                   (set_vars [("a", 14)] (initial_state ""))) _ _).
  - repeat constructor. simpl. discriminate.
  - apply Nat.ltb_lt. vm_compute. reflexivity.
Defined.

(** What a run adds: variables at the end of the table, lines at the end
    of standard output. *)
Definition grows (s s' : State) : Prop :=
  (∃ more, vars s' = vars s ++ more)
  ∧ (∃ out, stdout s' = stdout s ++ out)
  ∧ (NoDup (vars s).*1 → NoDup (vars s').*1).

Lemma grows_refl s : grows s s.
Proof. split_and!; [exists [] | exists [] |]; by rewrite ?app_nil_r. Qed.

Lemma grows_trans s1 s2 s3 : grows s1 s2 → grows s2 s3 → grows s1 s3.
Proof.
  intros ([m1 H1] & [o1 Ho1] & Hn1) ([m2 H2] & [o2 Ho2] & Hn2).
  split_and!; [exists (m1 ++ m2) | exists (o1 ++ o2) | auto].
  - by rewrite H2, H1, app_assoc.
  - by rewrite Ho2, Ho1, app_assoc.
Qed.

Lemma grows_same s s' :
  vars s' = vars s → stdout s' = stdout s → grows s s'.
Proof.
  intros Hv Ho. rewrite <-(app_nil_r (vars s)) in Hv.
  rewrite <-(app_nil_r (stdout s)) in Ho.
  split_and!; [by exists [] | by exists [] |].
  rewrite app_nil_r in Hv. by rewrite Hv.
Qed.

Lemma grows_next s r : next s = Done r → grows s (final_state r).
Proof.
  unfold next, die. intros H. apply grows_same;
    destruct (skip_blanks _ _); simplify_eq; try done;
    destruct (span ident_char _), (span isdigit _);
    repeat case_match; by simplify_eq.
Qed.

Lemma grows_var_set nm v s :
  list_find (λ x, x.1 = nm) (vars s) = None →
  grows s (set_vars (vars s ++ [(nm, v)]) s).
Proof.
  intros Hfresh. split_and!; [by eexists | exists []; by rewrite app_nil_r|].
  simpl. intros Hnd. rewrite fmap_app. apply NoDup_app.
  split_and!; [done | | apply NoDup_singleton].
  intros x Hx ->%list_elem_of_singleton.
  apply list_elem_of_fmap in Hx as (y & Hy & Hin).
  apply list_find_None in Hfresh. rewrite Forall_forall in Hfresh.
  by destruct (Hfresh y Hin).
Qed.

Lemma parse_program_grows fuel s r :
  parse_program fuel s = Done r → grows s (final_state r).
Proof.
  apply (parse_program_eff grows grows_refl grows_trans grows_next).
  - intros. by apply grows_same.
  - apply grows_var_set.
  - intros ln s0. split_and!; [exists []; by rewrite app_nil_r | by eexists|].
    done.
Qed.

(** X17: what a run of [simple_parser.c] keeps.  The statement loop, from
    any state and whether it returns or exits (it does one of the two
    unless it stores behind the end of an array or a division is
    undefined), leaves the variables that
    were in the table where they were, with their values, and adds
    variables after them; it leaves the lines on standard output and adds
    lines after them; and when no name was twice in the table before,
    none is afterwards, so that in the run of [main] no name is ever
    stored twice. *)
Theorem simple_run_keeps fuel s r :
  parse_program fuel s = Done r →
  (∃ more, vars (final_state r) = vars s ++ more)
  ∧ (∃ out, stdout (final_state r) = stdout s ++ out)
  ∧ (NoDup (vars s).*1 → NoDup (vars (final_state r)).*1)
  ∧ (∀ nm v, var_get nm s = Done (Ret v s) →
       var_get nm (final_state r) = Done (Ret v (final_state r))).
Proof.
  intros H. destruct (parse_program_grows fuel s r H) as (Hv & Ho & Hn).
  split_and!; try done.
  intros nm v Hget. destruct Hv as [more Hv].
  apply var_get_Ret in Hget as (_ & i & x & Hfind & Hx).
  apply var_get_Ret. split; [done|]. exists i, x. split; [|done].
  rewrite Hv. by apply list_find_app_l.
Qed.

(** A sample run: the state after the first [next], and the result of the
    statement loop. *)
Definition simple_start : State :=
  Eval vm_compute in
    final_state
      (returned (Ret () (initial_state ""))
         (next (initial_state "int a = 1; print(a);"))).

Definition simple_result : result () :=
  Eval vm_compute in
    returned (Ret () simple_start) (parse_program 100 simple_start).

Lemma simple_run_keeps_witness :
  (∃ more, vars (final_state simple_result) = vars simple_start ++ more)
  ∧ (∃ out, stdout (final_state simple_result) = stdout simple_start ++ out)
  ∧ (NoDup (vars simple_start).*1 → NoDup (vars (final_state simple_result)).*1)
  ∧ (∀ nm v,
       var_get nm simple_start = Done (Ret v simple_start) →
       var_get nm (final_state simple_result)
       = Done (Ret v (final_state simple_result))).
Proof.
  refine (simple_run_keeps 100 simple_start simple_result _).
  vm_compute. reflexivity.
Defined.

(** ** Blanks and comments *)

Lemma string_app_assoc a b c : (a +:+ b) +:+ c = a +:+ (b +:+ c).
Proof.
  induction a as [|x a IH]; [done|].
  rewrite !ParserSpec.append_cons. by rewrite IH.
Qed.

Lemma skip_blanks_S fuel c rest :
  skip_blanks (S fuel) (String c rest) =
  if isspace c then skip_blanks fuel rest
  else if Parser.starts_comment (String c rest) then
    skip_blanks fuel
      (span (λ d, negb (is_char d newline)) (String c rest)).2
  else String c rest.
Proof. done. Qed.

Lemma skip_blanks_result fuel :
  ∀ x, (String.length x ≤ fuel)%nat →
    (∃ skipped, x = skipped +:+ skip_blanks fuel x)
    ∧ (skip_blanks fuel x = ""
       ∨ (isspace (peek (skip_blanks fuel x)) = false
          ∧ Parser.starts_comment (skip_blanks fuel x) = false)).
Proof.
  induction fuel as [|fuel IH]; intros x Hlen.
  { destruct x; [|simpl in Hlen; lia]. split; [by exists ""|by left]. }
  destruct x as [|c rest]; [split; [by exists ""|by left]|].
  simpl in Hlen. rewrite skip_blanks_S.
  destruct (isspace c) eqn:Hspace.
  { destruct (IH rest ltac:(lia)) as ([skipped Hs] & Hy).
    split; [|done]. exists (String c skipped).
    by rewrite ParserSpec.append_cons, <-Hs. }
  destruct (Parser.starts_comment (String c rest)) eqn:Hcomment.
  { pose proof (ParserSpec.starts_comment_head c rest Hcomment) as ->.
    pose proof (ParserSpec.span_length_lt
                  (λ d, negb (is_char d newline)) "/" rest eq_refl) as Hlt.
    pose proof (ParserSpec.span_append
                  (λ d, negb (is_char d newline)) (String "/" rest)) as Happ.
    destruct (IH (span (λ d, negb (is_char d newline)) (String "/" rest)).2
                ltac:(simpl in *; lia)) as ([skipped Hs] & Hy).
    split; [|done].
    exists ((span (λ d, negb (is_char d newline)) (String "/" rest)).1
            +:+ skipped).
    by rewrite string_app_assoc, <-Hs, Happ. }
  split; [by exists ""|]. right. by split.
Qed.

(** X18: what [next] skips before a token.  The loop at the head of
    [next] returns a tail of the text it is given, and this tail is empty
    or starts with a character that is no white space and does not open a
    [//] comment; applied to its own result the loop skips nothing. *)
Theorem skip_blanks_stops_at_token x :
  let y := skip_blanks (String.length x) x in
  (∃ skipped, x = skipped +:+ y)
  ∧ (String.length y ≤ String.length x)%nat
  ∧ (y = ""
     ∨ (isspace (peek y) = false ∧ Parser.starts_comment y = false))
  ∧ skip_blanks (String.length y) y = y.
Proof.
  cbv zeta.
  destruct (skip_blanks_result (String.length x) x (le_n _)) as (Hs & Hy).
  split_and!; [done | apply skip_blanks_length | done|].
  destruct Hy as [->|[Hspace Hcomment]]; [done|].
  destruct (skip_blanks _ x) as [|c rest]; [done|].
  simpl String.length. rewrite skip_blanks_S.
  simpl in Hspace. by rewrite Hspace, Hcomment.
Qed.

End SimpleRuns.


(** * The two programs on the same source *)

Module Agreement.
Import Parser ParserSpec Reference Correctness Lexing.

(** ** The two scanners *)

(** The token kind of [simple_parser.c] for a token type of [parser.c]. *)
Definition kind (ty : TokenType) : SimpleParser.tok_kind :=
  match ty with
  | TOK_INT => SimpleParser.T_INT
  | TOK_PRINT => SimpleParser.T_PRINT
  | TOK_IDENTIFIER => SimpleParser.T_ID
  | TOK_INTEGER => SimpleParser.T_NUM
  | TOK_ASSIGN => SimpleParser.T_ASSIGN
  | TOK_PLUS => SimpleParser.T_PLUS
  | TOK_MINUS => SimpleParser.T_MINUS
  | TOK_STAR => SimpleParser.T_STAR
  | TOK_SLASH => SimpleParser.T_SLASH
  | TOK_LPAREN => SimpleParser.T_LPAREN
  | TOK_RPAREN => SimpleParser.T_RPAREN
  | TOK_SEMICOLON => SimpleParser.T_SEMI
  | TOK_EOF => SimpleParser.T_EOF
  | TOK_UNKNOWN => SimpleParser.T_ERR
  end.

Global Instance kind_inj : Inj (=) (=) kind.
Proof. by intros [] [] ?. Qed.

(** The text of the token was not cut by [strncpy]: it has fewer than 255
    characters, and fits the 256 bytes of [tok_text]. *)
Definition short (t : Token) : Prop := (String.length (text t) < 255)%nat.

(** [tokenise], entered somewhere with [x] left to read, stores [ts] and
    returns. *)
Definition lexes (x : string) (ts : list Token) : Prop :=
  Forall short ts
  ∧ ∃ ln cl acc, tokenise_from x ln cl acc = LexOk (acc ++ ts).

(** [simple_parser.c] stands before the tokens [ts]: its current token is
    the first of them and its read pointer is behind that one. *)
Definition reads (s : SimpleParser.State) (ts : list Token) : Prop :=
  ∃ t rest, ts = t :: rest
    ∧ SimpleParser.tok s = kind (type t)
    ∧ (type t = TOK_IDENTIFIER → SimpleParser.tok_text s = text t)
    ∧ (type t = TOK_INTEGER → SimpleParser.tok_num s = int_value t)
    ∧ (type t ≠ TOK_EOF → lexes (SimpleParser.src s) rest).

(** The variables and the streams are the same. *)
Definition frame (s s' : SimpleParser.State) : Prop :=
  SimpleParser.vars s' = SimpleParser.vars s
  ∧ SimpleParser.stdout s' = SimpleParser.stdout s
  ∧ SimpleParser.stderr s' = SimpleParser.stderr s.

(** The loop of [tokenise] keeps what is stored and stores at least the
    EOF token. *)
Lemma tokenise_from_extends n :
  ∀ x ln cl acc out,
    (String.length x < n)%nat → tokenise_from x ln cl acc = LexOk out →
    ∃ more, out = acc ++ more ∧ more ≠ [].
Proof.
  induction n as [|n IH]; [lia|].
  intros [|c rest] ln cl acc out Hlen H.
  { rewrite tokenise_from_nil in H. case_decide; [done|].
    injection H as <-. by eexists. }
  rewrite tokenise_from_S in H. cbv zeta in H. simpl in Hlen.
  assert (∀ tok y ln' cl',
            (String.length y < n)%nat →
            push acc tok (tokenise_from y ln' cl') = LexOk out →
            ∃ more, out = acc ++ more ∧ more ≠ []) as Hpush.
  { intros tok y ln' cl' Hy [_ Hk]%push_LexOk.
    destruct (IH _ _ _ _ _ Hy Hk) as (more & -> & _).
    exists (tok :: more). split; [|done]. by rewrite <-app_assoc. }
  destruct (_ || _); [apply (IH rest _ _ _ _ ltac:(lia) H)|].
  destruct (is_char c newline); [apply (IH rest _ _ _ _ ltac:(lia) H)|].
  destruct (starts_comment _) eqn:Hcomment.
  { refine (IH _ _ _ _ _ _ H).
    pose proof (starts_comment_head c rest Hcomment) as ->.
    pose proof (span_snd_length_lt (λ d, negb (is_char d newline)) "/" rest
                  eq_refl). lia. }
  destruct (ident_start c) eqn:Hid.
  { refine (Hpush _ _ _ _ _ H).
    pose proof (span_snd_length_lt ident_char c rest
                  (ident_start_char c Hid)). lia. }
  destruct (isdigit c) eqn:Hdigit.
  { destruct (ident_start (peek _)); [done|].
    refine (Hpush _ _ _ _ _ H).
    pose proof (span_snd_length_lt isdigit c rest Hdigit). lia. }
  destruct (single_char_type c); [|done].
  refine (Hpush _ _ _ _ _ H). lia.
Qed.

Lemma lexes_cons x ts : lexes x ts → ∃ t rest, ts = t :: rest.
Proof.
  intros (_ & ln & cl & acc & H).
  destruct (tokenise_from_extends _ x ln cl acc _ (Nat.lt_succ_diag_r _) H)
    as (more & Hmore & Hne).
  apply app_inv_head in Hmore as ->.
  destruct more as [|t rest]; [done|]. by eexists _, _.
Qed.

(** The classes of characters of the two scanners. *)
Lemma blank_isspace c :
  is_char c " " || is_char c tab || is_char c carriage_return
  || is_char c newline = true →
  isspace c = true.
Proof. by destruct c as [[] [] [] [] [] [] [] []]. Qed.

Lemma token_start_not_space c :
  ident_start c || isdigit c || is_char c "/"
  || bool_decide (is_Some (single_char_type c)) = true →
  isspace c = false.
Proof. by destruct c as [[] [] [] [] [] [] [] []]. Qed.

Lemma single_char_kind_type c :
  SimpleParser.single_char_kind c = kind <$> single_char_type c.
Proof.
  unfold SimpleParser.single_char_kind, single_char_type.
  by repeat (destruct (is_char c _); [done|]).
Qed.

(** What [next] skips, [tokenise] skips: the loop of [tokenise], entered
    behind the blanks and comments, returns the same array. *)
Lemma tokenise_from_skip fuel :
  ∀ x ln cl acc out,
    (String.length x ≤ fuel)%nat →
    tokenise_from x ln cl acc = LexOk out →
    ∃ ln' cl',
      tokenise_from (SimpleParser.skip_blanks fuel x) ln' cl' acc = LexOk out.
Proof.
  induction fuel as [|fuel IH]; intros x ln cl acc out Hlen H.
  { by exists ln, cl. }
  destruct x as [|c rest]; [by exists ln, cl|].
  simpl in Hlen. rewrite SimpleRuns.skip_blanks_S.
  pose proof H as H0. rewrite tokenise_from_S in H. cbv zeta in H.
  destruct (_ || _) eqn:Hblank.
  { rewrite blank_isspace by (by rewrite Hblank).
    apply (IH rest _ _ _ _ ltac:(lia) H). }
  destruct (is_char c newline) eqn:Hnl.
  { rewrite blank_isspace by (rewrite Hnl; apply orb_true_r).
    apply (IH rest _ _ _ _ ltac:(lia) H). }
  destruct (starts_comment _) eqn:Hcomment.
  { pose proof (starts_comment_head c rest Hcomment) as ->.
    change (isspace "/") with false. cbv iota.
    refine (IH _ _ _ _ _ _ H).
    pose proof (span_snd_length_lt (λ d, negb (is_char d newline)) "/" rest
                  eq_refl). lia. }
  rewrite token_start_not_space; [by exists ln, cl|].
  destruct (ident_start c); [done|]. destruct (isdigit c); [done|].
  destruct (single_char_type c); [|done].
  apply orb_true_r.
Qed.

Lemma strncpy_uncut s n :
  (String.length (strncpy s n) < n)%nat → strncpy s n = s.
Proof.
  unfold strncpy. revert n. induction s as [|c s IH]; intros [|n] Hn;
    simpl in *; try done; try lia. f_equal. apply IH. lia.
Qed.

Lemma lexes_push x ln cl acc tok t rest :
  Forall short (t :: rest) →
  tokenise_from x ln cl (acc ++ [tok]) = LexOk (acc ++ t :: rest) →
  t = tok ∧ short tok ∧ (type tok ≠ TOK_EOF → lexes x rest).
Proof.
  intros Hshort H.
  destruct (tokenise_from_extends _ x ln cl _ _ (Nat.lt_succ_diag_r _) H)
    as (more & Hmore & _).
  rewrite <-app_assoc in Hmore. apply app_inv_head in Hmore.
  injection Hmore as -> ->. apply Forall_cons in Hshort as [? ?].
  split_and!; [done..|]. intros _. split; [done|].
  exists ln, cl, (acc ++ [tok]). by rewrite <-app_assoc.
Qed.

(** One call of [next] reads the token that [tokenise] stores next. *)
Lemma next_reads s ts :
  lexes (SimpleParser.src s) ts →
  ∃ s', SimpleParser.next s = Done (SimpleParser.Ret () s')
        ∧ frame s s' ∧ reads s' ts.
Proof.
  intros (Hshort & ln & cl & acc & H).
  destruct (lexes_cons _ _ (conj Hshort (ex_intro _ ln (ex_intro _ cl
              (ex_intro _ acc H))))) as (t & rest & ->).
  destruct (tokenise_from_skip _ _ _ _ _ _ (le_n _) H) as (ln' & cl' & H').
  destruct (SimpleRuns.skip_blanks_result _ (SimpleParser.src s) (le_n _))
    as [_ Hy].
  unfold SimpleParser.next.
  destruct (SimpleParser.skip_blanks _ _) as [|c y].
  { rewrite tokenise_from_nil in H'. case_decide; [done|].
    injection H' as H'.
    apply app_inv_head in H'. injection H' as <- <-.
    eexists. split; [done|]. split; [done|].
    eexists _, _. by split_and!. }
  destruct Hy as [?|[Hspace Hcomment]]; [done|]. simpl in Hspace.
  rewrite tokenise_from_S in H'. cbv zeta in H'. rewrite Hcomment in H'.
  destruct (_ || _) eqn:Hblank.
  { rewrite blank_isspace in Hspace; [done|]. by rewrite Hblank. }
  destruct (is_char c newline) eqn:Hnl.
  { rewrite blank_isspace in Hspace; [done|]. rewrite Hnl. apply orb_true_r. }
  destruct (ident_start c) eqn:Hid.
  { destruct (span ident_char (String c y)) as [lexeme rest'].
    simpl in H'. apply push_LexOk in H' as [_ H'].
    apply lexes_push in H' as (-> & Hcut & Hrest); [|done].
    unfold short in Hcut. simpl in Hcut.
    pose proof (strncpy_uncut _ _ Hcut) as Huncut. rewrite Huncut in *.
    destruct (decide (SimpleParser.TEXT_SIZE ≤ _)%nat) as [Hbig|_];
      [unfold SimpleParser.TEXT_SIZE in Hbig; lia|].
    eexists. split; [done|]. split; [done|].
    eexists _, _. split; [done|]. simpl. split_and!.
    - unfold keyword_type. by repeat case_decide.
    - done.
    - unfold keyword_type. by repeat case_decide.
    - done. }
  destruct (isdigit c) eqn:Hdigit.
  { destruct (span isdigit (String c y)) as [lexeme rest'].
    simpl in H'. destruct (ident_start (peek rest')); [done|].
    apply push_LexOk in H' as [_ H'].
    apply lexes_push in H' as (-> & Hcut & Hrest); [|done].
    unfold short in Hcut. simpl in Hcut.
    pose proof (strncpy_uncut _ _ Hcut) as Huncut. rewrite Huncut in *.
    destruct (decide (SimpleParser.TEXT_SIZE ≤ _)%nat) as [Hbig|_];
      [unfold SimpleParser.TEXT_SIZE in Hbig; lia|].
    eexists. split; [done|]. split; [done|].
    eexists _, _. split; [done|]. simpl. by split_and!. }
  rewrite single_char_kind_type.
  destruct (single_char_type c) as [ty|] eqn:Hty; [|done].
  apply push_LexOk in H' as [_ H'].
  apply lexes_push in H' as (-> & Hcut & Hrest); [|done].
  eexists. split; [done|]. split; [done|].
  eexists _, _. split; [done|]. simpl.
  pose proof (single_lexeme_ok c ty ln' cl' Hty) as Hok.
  unfold lexeme_ok in Hok. simpl in Hok.
  destruct (single_char_class c ty Hty) as (_ & _ & _ & _ & Hletter & Hdigit').
  split_and!; [done | intros -> | intros -> | done].
  - destruct Hok as [Hs _]. simpl in Hs. congruence.
  - destruct Hok as (_ & [Hd _] & _). congruence.
Qed.

(** ** Reading token by token *)

Lemma bind_ret {A B} a s (k : A → SimpleParser.State →
                              run (SimpleParser.result B)) :
  SimpleParser.bind (Done (SimpleParser.Ret a s)) k = k a s.
Proof. done. Qed.

(** What is bound first has finished when the whole has. *)
Lemma bind_first {A B} (m : run (SimpleParser.result A))
    (k : A → SimpleParser.State → run (SimpleParser.result B)) x :
  SimpleParser.bind m k = x → finishes x → finishes m.
Proof. intros <- H ->. by apply H. Qed.

Lemma reads_cons s ts : reads s ts → ∃ t rest, ts = t :: rest.
Proof. intros (t & rest & -> & _). by eexists _, _. Qed.

Lemma reads_is_tok s t rest ty :
  reads s (t :: rest) →
  SimpleParser.is_tok (kind ty) s = bool_decide (type t = ty).
Proof.
  intros (? & ? & [= <- <-] & Htok & _). unfold SimpleParser.is_tok.
  rewrite Htok. apply bool_decide_ext. split; [apply (inj kind) | congruence].
Qed.

(** Rewrite a test of the current token in [H] by the type of the token
    that [Hr] says is read. *)
Ltac tok_is Hr ty H :=
  let E := fresh in
  pose proof (reads_is_tok _ _ _ ty Hr) as E; simpl kind in E;
  rewrite E in H; clear E.

Lemma reads_step s t rest :
  reads s (t :: rest) → type t ≠ TOK_EOF →
  ∃ s', SimpleParser.next s = Done (SimpleParser.Ret () s')
        ∧ frame s s' ∧ reads s' rest.
Proof.
  intros (? & ? & [= <- <-] & _ & _ & _ & Hlex) Hne.
  apply next_reads. by apply Hlex.
Qed.

(** ** The two parsers in step *)

Section lockstep.

Context (tokens : list Token).

(** The two programs are at the same place: no error so far, the same
    tokens left, the same variables, the same lines printed. *)
Definition matches (s : State) (q : SimpleParser.State) : Prop :=
  had_error s = false
  ∧ reads q (drop (pos s) tokens)
  ∧ SimpleParser.vars q = (λ v, (name v, value v)) <$> sym_table s
  ∧ SimpleParser.stdout q = stdout s.

(** How a procedure of [simple_parser.c] has ended, [r], against the
    state [s'] in which its counterpart in [parser.c] has returned [a]:
    either [parser.c] has reported an error and [simple_parser.c] has left
    with status 1, or none has and both returned the same.  The lines
    printed are the same in both cases. *)
Definition agree {A} (s' : State) (a : A) (r : SimpleParser.result A)
    : Prop :=
  if had_error s' then
    ∃ q', r = SimpleParser.Exit 1 q' ∧ SimpleParser.stdout q' = stdout s'
  else ∃ q', r = SimpleParser.Ret a q' ∧ matches s' q'.

Lemma agree_ret {A} s' (a : A) q' :
  matches s' q' → agree s' a (SimpleParser.Ret a q').
Proof. intros Hm. unfold agree. rewrite (proj1 Hm). by exists q'. Qed.

Lemma agree_exit {A} s' (a : A) q' :
  had_error s' = true → SimpleParser.stdout q' = stdout s' →
  agree s' a (SimpleParser.Exit 1 q').
Proof. intros Hflag Hout. unfold agree. rewrite Hflag. by exists q'. Qed.

Lemma agree_inv {A} s' (a : A) r :
  agree s' a r →
  (had_error s' = true
   ∧ ∃ q', r = SimpleParser.Exit 1 q' ∧ SimpleParser.stdout q' = stdout s')
  ∨ (∃ q', r = SimpleParser.Ret a q' ∧ matches s' q').
Proof. unfold agree. destruct (had_error s'); [by left | by right]. Qed.

(** The procedure of [simple_parser.c] has ended, as [x], and in
    agreement with its counterpart. *)
Definition lands {A} (s' : State) (a : A)
    (x : run (SimpleParser.result A)) : Prop :=
  ∃ r, x = Done r ∧ agree s' a r.

Lemma lands_ret {A} s' (a : A) q' :
  matches s' q' → lands s' a (Done (SimpleParser.Ret a q')).
Proof. intros Hm. eexists. split; [done|]. by apply agree_ret. Qed.

Lemma lands_exit {A} s' (a : A) q' :
  had_error s' = true → SimpleParser.stdout q' = stdout s' →
  lands s' a (Done (SimpleParser.Exit 1 q')).
Proof. intros ? ?. eexists. split; [done|]. by apply agree_exit. Qed.

Lemma lands_inv {A} s' (a : A) x :
  lands s' a x →
  (had_error s' = true
   ∧ ∃ q', x = Done (SimpleParser.Exit 1 q')
           ∧ SimpleParser.stdout q' = stdout s')
  ∨ (∃ q', x = Done (SimpleParser.Ret a q') ∧ matches s' q').
Proof.
  intros (r & -> & [(? & q' & -> & ?)|(q' & -> & ?)]%agree_inv).
  - left. split; [done|]. by exists q'.
  - right. by exists q'.
Qed.

(** After an error [parser.c] goes on, but prints no more. *)
Lemma lands_muted {A} op s s' (a : A) q :
  had_error s = true → SimpleParser.stdout q = stdout s →
  run_operation tokens op s = Done s' →
  lands s' a (Done (SimpleParser.Exit 1 q)).
Proof.
  intros Hflag Hout H.
  destruct (operation_muted tokens op s s' H Hflag) as (? & ? & _).
  apply lands_exit; [done | congruence].
Qed.

Lemma muted_term_loop {A} fuel lhs s v s' (a : A) q :
  parse_term_loop tokens fuel lhs s = Done (v, s') →
  had_error s = true → SimpleParser.stdout q = stdout s →
  lands s' a (Done (SimpleParser.Exit 1 q)).
Proof.
  intros H ? ?. apply (lands_muted (op_parse_term_loop fuel lhs) s);
    [done..|]. simpl. by rewrite H.
Qed.

Lemma muted_expr_loop {A} fuel lhs s v s' (a : A) q :
  parse_expr_loop tokens fuel lhs s = Done (v, s') →
  had_error s = true → SimpleParser.stdout q = stdout s →
  lands s' a (Done (SimpleParser.Exit 1 q)).
Proof.
  intros H ? ?. apply (lands_muted (op_parse_expr_loop fuel lhs) s);
    [done..|]. simpl. by rewrite H.
Qed.

Lemma lands_die {A} s' (a : A) msg q r :
  SimpleParser.die msg q = r →
  had_error s' = true → SimpleParser.stdout q = stdout s' → lands s' a r.
Proof.
  unfold SimpleParser.die. intros <- Hflag Hout. by apply lands_exit.
Qed.

Lemma matches_reads s q :
  matches s q →
  ∃ rest, reads q (current_token tokens s :: rest)
          ∧ drop (S (pos s)) tokens = rest.
Proof.
  intros (_ & Hr & _). destruct (reads_cons _ _ Hr) as (t & rest & Hd).
  rewrite Hd in Hr. exists rest.
  rewrite (current_token_drop tokens s t rest Hd). split; [done|].
  rewrite <-Nat.add_1_r. apply (drop_split tokens (pos s) [t] rest Hd).
Qed.

Lemma matches_next s q :
  matches s q → type (current_token tokens s) ≠ TOK_EOF →
  ∃ q', SimpleParser.next q = Done (SimpleParser.Ret () q')
        ∧ matches (advance tokens s).2 q'.
Proof.
  intros Hm Hne. destruct (matches_reads s q Hm) as (rest & Hr & Hd).
  destruct Hm as (Hflag & _ & Hvars & Hout).
  destruct (reads_step q _ rest Hr Hne) as (q' & Hn & (Hv & Ho & _) & Hr').
  exists q'. split; [done|]. rewrite advance_not_eof by done.
  split_and!; simpl; [done | by rewrite Hd | congruence..].
Qed.

Lemma matches_expect ty s q :
  matches s q → ty ≠ TOK_EOF →
  lands (expect tokens ty s).2 () (SimpleParser.expect (kind ty) q).
Proof.
  intros Hm Hne. destruct (matches_reads s q Hm) as (rest & Hr & Hd).
  pose proof Hr as (? & ? & [= <- <-] & Htok & _).
  unfold SimpleParser.expect, expect.
  destruct (decide (type (current_token tokens s) = ty)) as [Hty|Hty].
  - rewrite decide_True by congruence.
    destruct (matches_next s q Hm ltac:(congruence)) as (q' & Hn & Hm').
    rewrite Hn. by apply lands_ret.
  - rewrite decide_False
      by (rewrite Htok; by intros ?%(inj kind)).
    eapply lands_die; [done | done |]. simpl. apply Hm.
Qed.

Lemma var_get_table s q x :
  matches s q →
  SimpleParser.var_get x q =
  match sym_lookup (sym_table s) x with
  | Some i =>
      Done (SimpleParser.Ret (default 0 (value <$> sym_table s !! i)) q)
  | None =>
      SimpleParser.die ("Error: undefined variable '" +:+ x +:+ "'") q
  end.
Proof.
  intros (_ & _ & Hvars & _). unfold SimpleParser.var_get, sym_lookup.
  rewrite Hvars, list_find_fmap.
  destruct (list_find _ (sym_table s)) as [[i w]|] eqn:Hfind; simpl.
  - apply list_find_Some in Hfind as (Hi & _). by rewrite Hi.
  - done.
Qed.

Lemma check_type ty s :
  check tokens ty s = bool_decide (type (current_token tokens s) = ty).
Proof. done. Qed.

Lemma expression_lockstep fuel :
  (∀ s q v s' f x,
     matches s q → parse_factor tokens fuel s = Done (v, s') →
     SimpleParser.parse_factor f q = x → finishes x → lands s' v x)
  ∧ (∀ lhs s q v s' f x,
       matches s q → parse_term_loop tokens fuel lhs s = Done (v, s') →
       SimpleParser.parse_term_loop f lhs q = x → finishes x → lands s' v x)
  ∧ (∀ s q v s' f x,
       matches s q → parse_term tokens fuel s = Done (v, s') →
       SimpleParser.parse_term f q = x → finishes x → lands s' v x)
  ∧ (∀ lhs s q v s' f x,
       matches s q → parse_expr_loop tokens fuel lhs s = Done (v, s') →
       SimpleParser.parse_expr_loop f lhs q = x → finishes x → lands s' v x)
  ∧ (∀ s q v s' f x,
       matches s q → parse_expr tokens fuel s = Done (v, s') →
       SimpleParser.parse_expr f q = x → finishes x → lands s' v x).
Proof.
  induction fuel as [|fuel (IHf & IHtl & IHt & IHel & IHe)];
    [by repeat split|].
  split_and!.
  - (* parse_factor *)
    intros s q v s' [|f] x Hm H K Kf; [by subst|].
    rewrite parse_factor_cases in H. cbv zeta in H.
    rewrite SimpleParserSpec.simple_parse_factor_S in K.
    destruct (matches_reads s q Hm) as (rest & Hr & Hd).
    tok_is Hr TOK_INTEGER K. tok_is Hr TOK_IDENTIFIER K.
    tok_is Hr TOK_LPAREN K.
    pose proof Hr as (? & ? & [= <- <-] & Htok & Htext & Hnum & _).
    destruct (decide (type _ = TOK_INTEGER)) as [Hty|Hn1].
    { rewrite bool_decide_eq_true_2 in K by done.
      destruct (matches_next s q Hm ltac:(congruence)) as (q1 & Hn & Hm1).
      rewrite Hn, bind_ret, (Hnum Hty) in K. simplify_eq.
      by apply lands_ret. }
    rewrite (bool_decide_eq_false_2 _ Hn1) in K.
    destruct (decide (type _ = TOK_IDENTIFIER)) as [Hty|Hn2].
    { rewrite bool_decide_eq_true_2 in K by done.
      destruct (matches_next s q Hm ltac:(congruence)) as (q1 & Hn & Hm1).
      rewrite Hn, bind_ret, (Htext Hty) in K.
      rewrite (var_get_table _ q1 _ Hm1) in K.
      destruct (sym_lookup _ _) as [i|]; simplify_eq.
      - by apply lands_ret.
      - eapply lands_die; [done | done |]. simpl. apply Hm1. }
    rewrite (bool_decide_eq_false_2 _ Hn2) in K.
    destruct (decide (type _ = TOK_LPAREN)) as [Hty|Hn3].
    { rewrite bool_decide_eq_true_2 in K by done.
      destruct (matches_next s q Hm ltac:(congruence)) as (q1 & Hn & Hm1).
      rewrite Hn, bind_ret in K. bind_inv H.
      destruct (lands_inv _ _ _ (IHe _ _ _ _ _ _ Hm1 E eq_refl
                                   (bind_first _ _ _ K Kf)))
        as [(Hflag & q2 & Kr & Hout)|(q2 & Kr & Hm2)]; rewrite Kr in K; clear Kr.
      - simpl in K. simplify_eq.
        by apply (lands_muted (op_expect TOK_RPAREN) s0).
      - rewrite bind_ret in K. revert K Kf. simplify_eq. intros K Kf.
        destruct (lands_inv _ _ _ (matches_expect TOK_RPAREN _ _ Hm2
                                     ltac:(done)))
          as [(Hflag & q3 & Kr' & Hout)|(q3 & Kr' & Hm3)];
          simpl kind in Kr'; rewrite Kr' in K; simpl in K; simplify_eq.
        + by apply lands_exit.
        + by apply lands_ret. }
    rewrite (bool_decide_eq_false_2 _ Hn3) in K.
    eapply lands_die; [done | |].
    + simplify_eq. case_decide; [done|].
      unfold advance. simpl. by case_decide.
    + simplify_eq. destruct Hm as (_ & _ & _ & ->).
      case_decide; [done|]. unfold advance. simpl. by case_decide.
  - (* the loop of parse_term *)
    intros lhs s q v s' [|f] x Hm H K Kf; [by subst|].
    rewrite parse_term_loop_S in H.
    rewrite SimpleParserSpec.simple_parse_term_loop_S in K.
    destruct (matches_reads s q Hm) as (rest & Hr & Hd).
    tok_is Hr TOK_STAR K. tok_is Hr TOK_SLASH K.
    rewrite !check_type in H.
    pose proof Hr as (? & ? & [= <- <-] & Htok & _).
    destruct (_ || _) eqn:Hop; [|simplify_eq; by apply lands_ret].
    assert (type (current_token tokens s) = TOK_STAR
            ∨ type (current_token tokens s) = TOK_SLASH) as Hty.
    { apply orb_true_iff in Hop as [?%bool_decide_eq_true
                                    |?%bool_decide_eq_true]; auto. }
    destruct (matches_next s q Hm) as (q1 & Hn & Hm1);
      [by destruct Hty as [-> | ->]|].
    rewrite Hn, bind_ret in K.
    rewrite advance_eta in H. cbv beta iota in H. bind_inv H.
    destruct (lands_inv _ _ _ (IHf _ _ _ _ _ _ Hm1 E eq_refl
                                 (bind_first _ _ _ K Kf)))
      as [(Hflag & q2 & Kr & Hout)|(q2 & Kr & Hm2)]; rewrite Kr in K; clear Kr.
    { simpl in K. simplify_eq.
      destruct (decide (type _ = TOK_STAR));
        [by eapply muted_term_loop|].
      destruct (decide (z = 0)); [by eapply muted_term_loop|].
      div_inv H. by eapply muted_term_loop. }
    rewrite bind_ret in K.
    destruct (decide (type _ = TOK_STAR)) as [Hstar|Hstar].
    { rewrite decide_True in K by (by rewrite Htok, Hstar).
      by eapply IHtl. }
    rewrite decide_False in K
      by (rewrite Htok; by intros ?%(inj kind _ TOK_STAR)).
    destruct (decide (z = 0)) as [Hzero|Hzero].
    + unfold SimpleParser.die in K. subst x.
      eapply muted_term_loop; [done | done |]. simpl. apply Hm2.
    + div_inv H. rewrite Eq in K. cbn [mbind run_bind] in K.
      by eapply IHtl.
  - (* parse_term *)
    intros s q v s' [|f] x Hm H K Kf; [by subst|].
    rewrite parse_term_S in H.
    rewrite SimpleParserSpec.simple_parse_term_S in K. bind_inv H.
    destruct (lands_inv _ _ _ (IHf _ _ _ _ _ _ Hm E eq_refl
                                 (bind_first _ _ _ K Kf)))
      as [(Hflag & q2 & Kr & Hout)|(q2 & Kr & Hm2)]; rewrite Kr in K; clear Kr.
    + simpl in K. simplify_eq. by eapply muted_term_loop.
    + rewrite bind_ret in K. by eapply IHtl.
  - (* the loop of parse_expr *)
    intros lhs s q v s' [|f] x Hm H K Kf; [by subst|].
    rewrite parse_expr_loop_S in H.
    rewrite SimpleParserSpec.simple_parse_expr_loop_S in K.
    destruct (matches_reads s q Hm) as (rest & Hr & Hd).
    tok_is Hr TOK_PLUS K. tok_is Hr TOK_MINUS K.
    rewrite !check_type in H.
    pose proof Hr as (? & ? & [= <- <-] & Htok & _).
    destruct (_ || _) eqn:Hop; [|simplify_eq; by apply lands_ret].
    assert (type (current_token tokens s) = TOK_PLUS
            ∨ type (current_token tokens s) = TOK_MINUS) as Hty.
    { apply orb_true_iff in Hop as [?%bool_decide_eq_true
                                    |?%bool_decide_eq_true]; auto. }
    destruct (matches_next s q Hm) as (q1 & Hn & Hm1);
      [by destruct Hty as [-> | ->]|].
    rewrite Hn, bind_ret in K.
    rewrite advance_eta in H. cbv beta iota in H. bind_inv H.
    destruct (lands_inv _ _ _ (IHt _ _ _ _ _ _ Hm1 E eq_refl
                                 (bind_first _ _ _ K Kf)))
      as [(Hflag & q2 & Kr & Hout)|(q2 & Kr & Hm2)]; rewrite Kr in K; clear Kr.
    { simpl in K. simplify_eq.
      destruct (decide (type _ = TOK_PLUS)); by eapply muted_expr_loop. }
    rewrite bind_ret in K.
    destruct (decide (type _ = TOK_PLUS)) as [Hplus|Hplus].
    { rewrite decide_True in K by (by rewrite Htok, Hplus).
      by eapply IHel. }
    rewrite decide_False in K
      by (rewrite Htok; by intros ?%(inj kind _ TOK_PLUS)).
    by eapply IHel.
  - (* parse_expr *)
    intros s q v s' [|f] x Hm H K Kf; [by subst|].
    rewrite parse_expr_S in H.
    rewrite SimpleParserSpec.simple_parse_expr_S in K. bind_inv H.
    destruct (lands_inv _ _ _ (IHt _ _ _ _ _ _ Hm E eq_refl
                                 (bind_first _ _ _ K Kf)))
      as [(Hflag & q2 & Kr & Hout)|(q2 & Kr & Hm2)]; rewrite Kr in K; clear Kr.
    + simpl in K. simplify_eq. by eapply muted_expr_loop.
    + rewrite bind_ret in K. by eapply IHel.
Qed.

(** *** Statements *)

(** The table of [simple_parser.c] is the smaller one. *)
Lemma simple_capacity : (SimpleParser.MAX_VARS < MAX_VARS)%nat.
Proof. apply Nat.ltb_lt. vm_compute. reflexivity. Qed.

Hypothesis Hshort : Forall short tokens.

Lemma matches_short s q : matches s q → short (current_token tokens s).
Proof.
  intros (_ & Hr & _). destruct (reads_cons _ _ Hr) as (t & rest & Hd).
  rewrite (current_token_drop tokens s t rest Hd).
  pose proof (lookup_drop tokens (pos s) 0) as Hl. rewrite Hd in Hl.
  simpl in Hl. symmetry in Hl.
  by apply (Forall_lookup_1 _ _ _ _ Hshort Hl).
Qed.

Lemma expect_current ty s :
  (expect tokens ty s).1 = current_token tokens s.
Proof. unfold expect. by case_decide. Qed.

Lemma list_find_table s q x :
  matches s q →
  list_find (λ v, v.1 = x) (SimpleParser.vars q)
  = prod_map id (λ v, (name v, value v))
      <$> list_find (λ v, name v = x) (sym_table s).
Proof. intros (_ & _ & -> & _). by rewrite list_find_fmap. Qed.

Lemma muted_chain s1 s2 s3 :
  muted s1 s2 → muted s2 s3 → muted s1 s3.
Proof.
  unfold muted. intros H12 H23 H1.
  destruct (H12 H1) as (H2 & ? & ?). destruct (H23 H2) as (? & ? & ?).
  split_and!; congruence.
Qed.

Lemma declaration_lockstep fuel s q s' f x :
  matches s q → type (current_token tokens s) = TOK_INT →
  (length (sym_table s') ≤ SimpleParser.MAX_VARS)%nat →
  parse_declaration tokens fuel s = Done s' →
  SimpleParser.parse_stmt f q = x → finishes x → lands s' () x.
Proof.
  intros Hm Hkw Hroom H K Kf. unfold parse_declaration in H.
  destruct (expect tokens TOK_IDENTIFIER (expect tokens TOK_INT s).2)
    as [id s2] eqn:Hid.
  bind_inv H. rename z into val, s0 into s4, E into He.
  set (s1 := (expect tokens TOK_INT s).2) in *.
  set (s3 := (expect tokens TOK_ASSIGN s2).2) in *.
  set (s5 := (expect tokens TOK_SEMICOLON s4).2) in *.
  assert (id = current_token tokens s1
          ∧ s2 = (expect tokens TOK_IDENTIFIER s1).2) as [-> Hs2].
  { rewrite <-(expect_current TOK_IDENTIFIER s1), Hid. done. }
  assert (muted s2 s3) as M23
    by apply (operation_muted tokens (op_expect TOK_ASSIGN) s2 s3 eq_refl).
  assert (muted s3 s4) as M34.
  { apply (operation_muted tokens (op_parse_expr fuel)). simpl.
    by rewrite He. }
  assert (muted s4 s5) as M45
    by apply (operation_muted tokens (op_expect TOK_SEMICOLON) s4 s5 eq_refl).
  assert (had_error s5 = true → s' = s5) as Hflagged.
  { intros Hflag. rewrite Hflag in H. by injection H. }
  (* the keyword *)
  destruct (matches_reads s q Hm) as (rest & Hr & Hd).
  unfold SimpleParser.parse_stmt in K. tok_is Hr TOK_INT K.
  rewrite bool_decide_eq_true_2 in K by done. cbv iota in K.
  destruct (matches_next s q Hm ltac:(congruence)) as (q1 & Hn1 & Hm1).
  rewrite Hn1, bind_ret in K.
  assert (s1 = (advance tokens s).2) as Hs1
    by (unfold s1; by rewrite expect_match).
  rewrite <-Hs1 in Hm1.
  (* the name *)
  destruct (matches_reads s1 q1 Hm1) as (rest1 & Hr1 & Hd1).
  tok_is Hr1 TOK_IDENTIFIER K.
  pose proof Hr1 as (? & ? & [= <- <-] & _ & Htext & _).
  pose proof (matches_short s1 q1 Hm1) as Hcut.
  destruct (decide (type (current_token tokens s1) = TOK_IDENTIFIER))
    as [Hty|Hty]; cycle 1.
  { rewrite (bool_decide_eq_false_2 _ Hty) in K.
    unfold SimpleParser.die in K. subst x.
    assert (had_error s2 = true ∧ stdout s2 = stdout s1) as [Hf2 Ho2].
    { rewrite Hs2. unfold expect. by rewrite decide_False. }
    destruct (muted_chain _ _ _ (muted_chain _ _ _ M23 M34) M45 Hf2)
      as (Hf5 & Ho5 & _).
    rewrite (Hflagged Hf5). apply lands_exit; [done|]. simpl.
    rewrite Ho5, Ho2. apply Hm1. }
  rewrite bool_decide_eq_true_2 in K by done. cbv iota zeta in K.
  rewrite (Htext Hty) in K.
  destruct (matches_next s1 q1 Hm1 ltac:(congruence)) as (q2 & Hn2 & Hm2).
  rewrite Hn2, bind_ret in K.
  assert (s2 = (advance tokens s1).2) as Hs2'
    by (rewrite Hs2; by rewrite expect_match).
  rewrite <-Hs2' in Hm2.
  (* the equals sign *)
  destruct (lands_inv _ _ _ (matches_expect TOK_ASSIGN s2 q2 Hm2 ltac:(done)))
    as [(Hf3 & q3 & Kr & Ho3)|(q3 & Kr & Hm3)];
    simpl kind in Kr; rewrite Kr in K; clear Kr.
  { simpl in K. subst x.
    destruct (muted_chain _ _ _ M34 M45 Hf3) as (Hf5 & Ho5 & _).
    rewrite (Hflagged Hf5). apply lands_exit; [done | by rewrite Ho5]. }
  rewrite bind_ret in K.
  (* the expression *)
  destruct (expression_lockstep fuel) as (_ & _ & _ & _ & IHe).
  destruct (lands_inv _ _ _ (IHe _ _ _ _ _ _ Hm3 He eq_refl
                               (bind_first _ _ _ K Kf)))
    as [(Hf4 & q4 & Kr & Ho4)|(q4 & Kr & Hm4)]; rewrite Kr in K; clear Kr.
  { simpl in K. subst x.
    destruct (M45 Hf4) as (Hf5 & Ho5 & _).
    rewrite (Hflagged Hf5). apply lands_exit; [done | by rewrite Ho5]. }
  rewrite bind_ret in K.
  (* the semicolon *)
  destruct (lands_inv _ _ _ (matches_expect TOK_SEMICOLON s4 q4 Hm4 ltac:(done)))
    as [(Hf5 & q5 & Kr & Ho5)|(q5 & Kr & Hm5)];
    simpl kind in Kr; rewrite Kr in K; clear Kr.
  { simpl in K. subst x.
    rewrite (Hflagged Hf5). by apply lands_exit. }
  rewrite bind_ret in K. fold s5 in Hm5.
  (* the declaration itself *)
  clear Hflagged. rewrite (proj1 Hm5) in H.
  assert (sym_table s5 = sym_table s) as Htbl.
  { unfold s5. destruct (expect_frame tokens TOK_SEMICOLON s4) as (_ & -> & _).
    destruct (parse_expr_frame tokens fuel s3 val s4 He) as (_ & -> & _).
    unfold s3. destruct (expect_frame tokens TOK_ASSIGN s2) as (_ & -> & _).
    rewrite Hs2', Hs1. unfold advance. simpl. by repeat case_decide. }
  unfold sym_declare, sym_lookup in H. unfold SimpleParser.var_set in K.
  rewrite (list_find_table s5 q5 _ Hm5) in K.
  destruct (list_find _ (sym_table s5)) as [[i w]|] eqn:Hfind; simpl in H, K.
  { unfold SimpleParser.die in K. simplify_eq.
    apply lands_exit; [done|]. simpl. apply Hm5. }
  pose proof simple_capacity as Hcap.
  destruct (decide (MAX_VARS ≤ length (sym_table s5))%nat) as [Hfull|_].
  { simplify_eq. simpl in Hroom. lia. }
  assert (length (sym_table s5) < SimpleParser.MAX_VARS)%nat as Hfree.
  { simplify_eq. simpl in Hroom.
    rewrite length_alter, length_app in Hroom. simpl in Hroom. lia. }
  rewrite decide_False in K
    by (rewrite (proj1 (proj2 (proj2 Hm5))), length_fmap; lia).
  simplify_eq. apply lands_ret.
  destruct Hm5 as (Hflag & Hr5 & Hvars & Hout).
  split_and!; [done | exact Hr5 | | done].
  simpl. rewrite Hvars, alter_last, fmap_app. simpl.
  by rewrite (strncpy_short _ 255) by (unfold short in Hcut; lia).
Qed.

Lemma print_lockstep fuel s q s' f x :
  matches s q → type (current_token tokens s) = TOK_PRINT →
  parse_print tokens fuel s = Done s' →
  SimpleParser.parse_stmt f q = x → finishes x → lands s' () x.
Proof.
  intros Hm Hkw H K Kf. unfold parse_print in H.
  bind_inv H. rename z into val, s0 into s3, E into He.
  set (s1 := (expect tokens TOK_PRINT s).2) in *.
  set (s2 := (expect tokens TOK_LPAREN s1).2) in *.
  set (s4 := (expect tokens TOK_RPAREN s3).2) in *.
  set (s5 := (expect tokens TOK_SEMICOLON s4).2) in *.
  assert (muted s3 s4) as M34
    by apply (operation_muted tokens (op_expect TOK_RPAREN) s3 s4 eq_refl).
  assert (muted s2 s3) as M23.
  { apply (operation_muted tokens (op_parse_expr fuel)). simpl.
    by rewrite He. }
  assert (muted s4 s5) as M45
    by apply (operation_muted tokens (op_expect TOK_SEMICOLON) s4 s5 eq_refl).
  assert (had_error s5 = true → s' = s5) as Hflagged.
  { intros Hflag. rewrite Hflag in H. by injection H. }
  (* the keyword *)
  destruct (matches_reads s q Hm) as (rest & Hr & Hd).
  unfold SimpleParser.parse_stmt in K.
  tok_is Hr TOK_INT K. tok_is Hr TOK_PRINT K.
  rewrite bool_decide_eq_false_2 in K by congruence.
  rewrite bool_decide_eq_true_2 in K by done. cbv iota in K.
  destruct (matches_next s q Hm ltac:(congruence)) as (q1 & Hn1 & Hm1).
  rewrite Hn1, bind_ret in K.
  assert (s1 = (advance tokens s).2) as Hs1
    by (unfold s1; by rewrite expect_match).
  rewrite <-Hs1 in Hm1.
  (* the left parenthesis *)
  destruct (lands_inv _ _ _ (matches_expect TOK_LPAREN s1 q1 Hm1 ltac:(done)))
    as [(Hf2 & q2 & Kr & Ho2)|(q2 & Kr & Hm2)];
    simpl kind in Kr; rewrite Kr in K; clear Kr.
  { simpl in K. subst x.
    destruct (muted_chain _ _ _ (muted_chain _ _ _ M23 M34) M45 Hf2)
      as (Hf5 & Ho5 & _).
    rewrite (Hflagged Hf5). apply lands_exit; [done | by rewrite Ho5]. }
  rewrite bind_ret in K.
  (* the expression *)
  destruct (expression_lockstep fuel) as (_ & _ & _ & _ & IHe).
  destruct (lands_inv _ _ _ (IHe _ _ _ _ _ _ Hm2 He eq_refl
                               (bind_first _ _ _ K Kf)))
    as [(Hf3 & q3 & Kr & Ho3)|(q3 & Kr & Hm3)]; rewrite Kr in K; clear Kr.
  { simpl in K. subst x.
    destruct (muted_chain _ _ _ M34 M45 Hf3) as (Hf5 & Ho5 & _).
    rewrite (Hflagged Hf5). apply lands_exit; [done | by rewrite Ho5]. }
  rewrite bind_ret in K.
  (* the right parenthesis *)
  destruct (lands_inv _ _ _ (matches_expect TOK_RPAREN s3 q3 Hm3 ltac:(done)))
    as [(Hf4 & q4 & Kr & Ho4)|(q4 & Kr & Hm4)];
    simpl kind in Kr; rewrite Kr in K; clear Kr.
  { simpl in K. subst x.
    destruct (M45 Hf4) as (Hf5 & Ho5 & _).
    rewrite (Hflagged Hf5). apply lands_exit; [done | by rewrite Ho5]. }
  rewrite bind_ret in K.
  (* the semicolon *)
  destruct (lands_inv _ _ _ (matches_expect TOK_SEMICOLON s4 q4 Hm4 ltac:(done)))
    as [(Hf5 & q5 & Kr & Ho5)|(q5 & Kr & Hm5)];
    simpl kind in Kr; rewrite Kr in K; clear Kr.
  { simpl in K. subst x.
    rewrite (Hflagged Hf5). by apply lands_exit. }
  rewrite bind_ret in K. fold s5 in Hm5.
  (* the line *)
  rewrite (proj1 Hm5) in H. simplify_eq. apply lands_ret.
  destruct Hm5 as (Hflag & Hr5 & Hvars & Hout).
  split_and!; [done | exact Hr5 | done |]. simpl. by rewrite Hout.
Qed.

Lemma stmt_lockstep fuel s q s' f x :
  matches s q → (length (sym_table s') ≤ SimpleParser.MAX_VARS)%nat →
  parse_stmt tokens fuel s = Done s' →
  SimpleParser.parse_stmt f q = x → finishes x → lands s' () x.
Proof.
  intros Hm Hroom H K Kf. unfold parse_stmt in H.
  destruct (decide (type _ = TOK_INT)); [by eapply declaration_lockstep|].
  destruct (decide (type _ = TOK_PRINT)); [by eapply print_lockstep|].
  destruct (matches_reads s q Hm) as (rest & Hr & Hd).
  unfold SimpleParser.parse_stmt in K.
  tok_is Hr TOK_INT K. tok_is Hr TOK_PRINT K.
  rewrite !bool_decide_eq_false_2 in K by done.
  eapply lands_die; [done | |]; simplify_eq.
  - case_decide; [done|]. unfold advance. simpl. by case_decide.
  - destruct Hm as (_ & _ & _ & ->).
    case_decide; [done|]. unfold advance. simpl. by case_decide.
Qed.

Lemma program_lockstep fuel :
  ∀ s q s' f x,
    matches s q → (length (sym_table s') ≤ SimpleParser.MAX_VARS)%nat →
    parse_program_loop tokens fuel s = Done s' →
    SimpleParser.parse_program f q = x → finishes x → lands s' () x.
Proof.
  induction fuel as [|fuel IH]; [done|].
  intros s q s' [|f] x Hm Hroom H K Kf; [by subst|].
  rewrite parse_program_loop_S in H.
  rewrite SimpleParserSpec.simple_parse_program_S in K.
  destruct (matches_reads s q Hm) as (rest & Hr & Hd).
  tok_is Hr TOK_EOF K. rewrite check_type in H.
  case_bool_decide as Heof.
  { rewrite expect_match, advance_eof in H by done. simplify_eq.
    by apply lands_ret. }
  apply bind_Done in H as (s1 & Hs1 & H).
  destruct (operation_appends tokens (op_parse_program fuel) s1 s' H)
    as (_ & _ & tbl1 & _ & _ & Htbl1 & _).
  assert (length (sym_table s1) ≤ SimpleParser.MAX_VARS)%nat as Hroom1.
  { rewrite Htbl1, length_app in Hroom. revert Hroom.
    generalize SimpleParser.MAX_VARS. intros. lia. }
  destruct (lands_inv _ _ _ (stmt_lockstep fuel s q s1 f _ Hm Hroom1 Hs1
                               eq_refl (bind_first _ _ _ K Kf)))
    as [(Hf1 & q1 & Kr & Ho1)|(q1 & Kr & Hm1)]; rewrite Kr in K; clear Kr.
  - simpl in K. subst x.
    by apply (lands_muted (op_parse_program fuel) s1).
  - rewrite bind_ret in K. by eapply IH.
Qed.

End lockstep.

(** ** What the two programs leave *)

(** X19: what [parser.c] accepts, [simple_parser.c] runs in the same
    way.  When [parser.c] runs a source to its end without any error, no
    word or number of the source has 255 characters or more, and at most
    [MAX_VARS] (100) variables are declared, [simple_parser.c] returns at
    the end of the input, having stored the same variables with the same
    values in the same order and printed the same lines; neither program
    writes to standard error, and both processes end with status 0. *)
Theorem accepted_source_runs_the_same src toks st :
  tokenise src = LexOk toks → parse_program toks = Done st →
  had_error st = false →
  Forall (λ t, (String.length (text t) < 255)%nat) toks →
  (length (sym_table st) ≤ SimpleParser.MAX_VARS)%nat →
  (∃ q,
     SimpleParser.bind (SimpleParser.next (SimpleParser.initial_state src))
       (λ _ s, SimpleParser.parse_program (SimpleParser.program_fuel src) s)
     = Done (SimpleParser.Ret () q)
     ∧ SimpleParser.tok q = SimpleParser.T_EOF
     ∧ SimpleParser.vars q = (λ v, (name v, value v)) <$> sym_table st
     ∧ SimpleParser.stdout q = stdout st
     ∧ SimpleParser.stderr q = [])
  ∧ stderr st = []
  ∧ ∀ prog path more fs buf,
      fs path = Some buf → c_str buf = src →
      main (prog :: path :: more) fs = Done (mkOutcome 0 (stdout st) [])
      ∧ SimpleParser.main (prog :: path :: more) fs
        = Done (mkOutcome 0 (stdout st) []).
Proof.
  intros Htok Hrun Hclear Hshort Hvars.
  assert (lexes src toks) as Hlex.
  { split; [done|]. exists 1%nat, 1%nat, [].
    by rewrite <-tokenise_tokenise_from. }
  destruct (next_reads (SimpleParser.initial_state src) _ Hlex)
    as (q1 & Hn & (Hv1 & Ho1 & He1) & Hr).
  pose proof (SimpleRuns.next_weight _ _ _ Hn) as Hw. simpl in Hw.
  assert (finishes (SimpleParser.parse_program
                      (SimpleParser.program_fuel src) q1)) as Hfin.
  { apply SimpleRuns.simple_parse_program_total.
    unfold SimpleParser.program_fuel. lia. }
  assert (matches toks initial_state q1) as Hm by by split_and!.
  destruct (program_lockstep toks Hshort _ _ _ _ _ _ Hm Hvars Hrun eq_refl
              Hfin) as (r & Hprog & Hag).
  unfold agree in Hag. rewrite Hclear in Hag.
  destruct Hag as (q2 & -> & _ & Hr2 & Hvars2 & Hout2).
  pose proof (SimpleParserSpec.parse_program_quiet _ _ _ Hprog) as Herr2.
  simpl in Herr2. rewrite He1 in Herr2. simpl in Herr2.
  destruct (parse_program_total toks
              (tokenised_eof_terminated _ (tokenise_LexOk _ _ Htok)))
    as [Hst'|(st' & Hst' & Heof)]; [congruence|].
  rewrite Hrun in Hst'. apply (inj Done) in Hst' as <-.
  assert (SimpleParser.tok q2 = SimpleParser.T_EOF) as Htok2.
  { destruct (reads_cons _ _ Hr2) as (t & rest & Hd).
    rewrite Hd in Hr2. destruct Hr2 as (? & ? & [= <- <-] & -> & _).
    by rewrite <-(current_token_drop toks st t rest Hd), Heof. }
  destruct (accepted_program_runs toks st (tokenise_LexOk _ _ Htok) Hrun
              Hclear)
    as (body & eof & p & evs & _ & _ & _ & _ & Hst).
  assert (stderr st = []) as Hse by by rewrite Hst.
  assert (SimpleParser.bind
            (SimpleParser.next (SimpleParser.initial_state src))
            (λ _ s, SimpleParser.parse_program
                      (SimpleParser.program_fuel src) s)
          = Done (SimpleParser.Ret () q2)) as Hsimple
    by by rewrite Hn, bind_ret.
  split; [by exists q2|]. split; [done|].
  intros prog path more fs buf Hfs Hsrc. split.
  - unfold main. rewrite Hfs, Hsrc, Htok, Hrun. cbn [mbind run_bind].
    rewrite Hclear. by rewrite Hse.
  - unfold SimpleParser.main. rewrite Hfs. cbv zeta. rewrite Hsrc, Hsimple.
    cbn [mbind run_bind]. by rewrite Hout2, Herr2.
Qed.

(** A source with a comment, two declarations and one [print]; its
    tokens, and the state in which [parser.c] ends on them. *)
Definition agreed_source : string :=
  "int a = 6; // six" +:+ String newline
    "int b = a * (a + 1) / 2; print(b - a);".

Definition agreed_tokens : list Token :=
  Eval vm_compute in
    match tokenise agreed_source with LexOk toks => toks | _ => [] end.

Definition agreed_final : State :=
  Eval vm_compute in returned initial_state (parse_program agreed_tokens).

Lemma accepted_source_runs_the_same_witness :
  (∃ s',
     SimpleParser.bind
       (SimpleParser.next (SimpleParser.initial_state agreed_source))
       (λ _ s, SimpleParser.parse_program
                 (SimpleParser.program_fuel agreed_source) s)
     = Done (SimpleParser.Ret () s')
     ∧ SimpleParser.tok s' = SimpleParser.T_EOF
     ∧ SimpleParser.vars s' = [("a", 6); ("b", 21)]
     ∧ SimpleParser.stdout s' = ["15"]
     ∧ SimpleParser.stderr s' = [])
  ∧ stderr agreed_final = []
  ∧ ∀ prog path more fs buf,
      fs path = Some buf → c_str buf = agreed_source →
      main (prog :: path :: more) fs = Done (mkOutcome 0 ["15"] [])
      ∧ SimpleParser.main (prog :: path :: more) fs
        = Done (mkOutcome 0 ["15"] []).
Proof.
  refine (accepted_source_runs_the_same agreed_source agreed_tokens
            agreed_final _ _ _ _ _).
  - vm_compute. reflexivity.
  - vm_compute. reflexivity.
  - reflexivity.
  - unfold agreed_tokens. repeat (constructor; [simpl; lia|]). constructor.
  - simpl. unfold SimpleParser.MAX_VARS. lia.
Defined.

(** X20: on every source that [tokenise] accepts and on which
    [parse_program] of [parser.c] returns, the two programs end with the
    same exit status and the same standard output, whether the source is
    in error or not.  [simple_parser.c] follows [parser.c] token by token,
    declaration by declaration and line by line up to the first error that
    [parser.c] reports; there it leaves with status 1, and [parser.c],
    which goes on, prints nothing more and ends with status 1 as well.
    This holds for sources within the limits of [simple_parser.c]: no word
    or number of 255 characters or more, at most [MAX_VARS] (100)
    variables.  A run of [parser.c] that divides [INT_MIN] by -1, before or
    after its first error, does not return, and nothing is said about
    it. *)
Theorem same_status_and_output src toks st :
  tokenise src = LexOk toks → parse_program toks = Done st →
  Forall (λ t, (String.length (text t) < 255)%nat) toks →
  (length (sym_table st) ≤ SimpleParser.MAX_VARS)%nat →
  ∀ prog path more fs buf,
    fs path = Some buf → c_str buf = src →
    ∃ o o', SimpleParser.main (prog :: path :: more) fs = Done o
         ∧ main (prog :: path :: more) fs = Done o'
         ∧ exit_status o = exit_status o'
         ∧ out_lines o = out_lines o'
         ∧ exit_status o = (if had_error st then 1 else 0)
         ∧ out_lines o = stdout st.
Proof.
  intros Htok Hrun Hshort Hvars prog path more fs buf Hfs Hsrc.
  assert (lexes src toks) as Hlex.
  { split; [done|]. exists 1%nat, 1%nat, [].
    by rewrite <-tokenise_tokenise_from. }
  destruct (next_reads (SimpleParser.initial_state src) _ Hlex)
    as (q1 & Hn & (Hv1 & Ho1 & He1) & Hr).
  pose proof (SimpleRuns.next_weight _ _ _ Hn) as Hw. simpl in Hw.
  assert (finishes (SimpleParser.parse_program
                      (SimpleParser.program_fuel src) q1)) as Hfin.
  { apply SimpleRuns.simple_parse_program_total.
    unfold SimpleParser.program_fuel. lia. }
  assert (matches toks initial_state q1) as Hm by by split_and!.
  pose proof (program_lockstep toks Hshort _ _ _ _ _ _ Hm Hvars Hrun eq_refl
                Hfin) as Hag.
  unfold main, SimpleParser.main.
  rewrite Hfs. cbv zeta. rewrite Hsrc, Htok, Hrun, Hn, bind_ret.
  cbn [mbind run_bind].
  destruct (lands_inv _ _ _ _ Hag) as [(Hflag & q2 & -> & Hout)
                                      |(q2 & -> & Hflag & _ & _ & Hout)];
    simpl; rewrite Hflag; by eexists _, _.
Qed.

(** A source whose second statement divides by zero, its tokens, and the
    state in which [parser.c] ends on them. *)
Definition failing_source : string :=
  "int a = 7; print(a); print(a / (a - 7)); print(a + 1);".

Definition failing_tokens : list Token :=
  Eval vm_compute in
    match tokenise failing_source with LexOk toks => toks | _ => [] end.

Definition failing_final : State :=
  Eval vm_compute in returned initial_state (parse_program failing_tokens).

Lemma same_status_and_output_witness :
  let argv := ["simple_parser"; "failing.txt"] in
  let fs := λ _ : string, Some failing_source in
  ∃ o o', SimpleParser.main argv fs = Done o
       ∧ main argv fs = Done o'
       ∧ exit_status o = exit_status o'
       ∧ out_lines o = out_lines o'
       ∧ exit_status o = 1
       ∧ out_lines o = ["7"].
Proof.
  refine (same_status_and_output failing_source failing_tokens
            failing_final _ _ _ _ "simple_parser" "failing.txt" []
            (λ _, Some failing_source) failing_source _ _).
  - vm_compute. reflexivity.
  - vm_compute. reflexivity.
  - unfold failing_tokens. repeat (constructor; [simpl; lia|]). constructor.
  - simpl. unfold SimpleParser.MAX_VARS. lia.
  - reflexivity.
  - vm_compute. reflexivity.
Defined.

End Agreement.


(** * Programs as sequences of tokens *)

Module Tokens.
Import Parser ParserSpec Lexing.

(** What the parser reads of a token: everything but its position. *)
Definition strip (t : Token) : TokenType * string * Z :=
  (type t, text t, int_value t).

(** The texts of the tokens, each followed by one space. *)
Fixpoint spaced (ts : list Token) : string :=
  match ts with
  | [] => ""
  | t :: ts => text t +:+ " " +:+ spaced ts
  end.

Lemma room_left (n m limit : nat) : (n + S m < limit)%nat → (n < limit)%nat.
Proof. lia. Qed.

Lemma room_next (n m limit : nat) :
  (n + S m < limit)%nat → (S n + m < limit)%nat.
Proof. lia. Qed.

Lemma tokenise_from_space rest ln cl toks :
  tokenise_from (" " +:+ rest) ln cl toks = tokenise_from rest ln (S cl) toks.
Proof. by rewrite append_cons, tokenise_from_S. Qed.

(** One token of the text: the loop stores a token with the same type,
    text and value, and goes on behind the space. *)
Lemma relex_token t rest ln cl acc :
  lexeme_ok t → (String.length (text t) ≤ 255)%nat →
  (length acc < MAX_TOKENS)%nat →
  ∃ t' ln' cl',
    strip t' = strip t
    ∧ tokenise_from (text t +:+ " " +:+ rest) ln cl acc
      = tokenise_from rest ln' cl' (acc ++ [t']).
Proof.
  intros Hok Hlen Hroom. unfold lexeme_ok in Hok. unfold strip.
  destruct t as [ty txt val tl tc]. simpl in *.
  assert (∀ c w, txt = String c w → ident_start c = true →
            string_all ident_char w → keyword_type txt = ty → val = 0 →
            ∃ t' ln' cl',
              (type t', text t', int_value t') = (ty, txt, val)
              ∧ tokenise_from (txt +:+ " " +:+ rest) ln cl acc
                = tokenise_from rest ln' cl' (acc ++ [t'])) as Hword.
  { intros c w -> Hc Hw Hkw ->.
    eexists (mkToken ty (String c w) 0 ln cl), _, _. split; [done|].
    rewrite (tokenise_from_word c w (" " +:+ rest)) by done.
    rewrite push_room by done. rewrite strncpy_short by done.
    by rewrite Hkw, tokenise_from_space. }
  assert (∀ c, txt = String c "" → single_char_type c = Some ty → val = 0 →
            ∃ t' ln' cl',
              (type t', text t', int_value t') = (ty, txt, val)
              ∧ tokenise_from (txt +:+ " " +:+ rest) ln cl acc
                = tokenise_from rest ln' cl' (acc ++ [t'])) as Hsingle.
  { intros c -> Hc ->.
    eexists (mkToken ty (String c "") 0 ln cl), _, _. split; [done|].
    change (String c "" +:+ " " +:+ rest) with (String c (" " +:+ rest)).
    rewrite (tokenise_from_single c ty);
      [|done | simpl; apply andb_false_r].
    rewrite push_room by done. by rewrite tokenise_from_space. }
  destruct ty; try done.
  - destruct Hok as [-> ->]. by apply (Hword "i"%char "nt").
  - destruct Hok as [-> ->]. by apply (Hword "p"%char "rint").
  - destruct Hok as (Hc & Hw & Hni & Hnp & ->).
    destruct txt as [|c w]; [done|]. simpl in Hc, Hw.
    apply (Hword c w); [done | done | apply Hw | | done].
    unfold keyword_type. by rewrite !decide_False.
  - destruct Hok as (Hne & Hd & ->). destruct txt as [|c d]; [done|].
    simpl in Hd. destruct Hd as [Hc Hd].
    eexists (mkToken TOK_INTEGER (String c d) (atoi (String c d)) ln cl), _, _.
    split; [done|].
    rewrite (tokenise_from_number c d (" " +:+ rest)); [|done | |done..].
    + rewrite push_room by done. rewrite strncpy_short by done.
      by rewrite tokenise_from_space.
    + clear -Hd. induction d; simpl in *; [done|]. destruct Hd. auto.
  - destruct Hok as (c & -> & Hc & ->). by apply (Hsingle c).
  - destruct Hok as (c & -> & Hc & ->). by apply (Hsingle c).
  - destruct Hok as (c & -> & Hc & ->). by apply (Hsingle c).
  - destruct Hok as (c & -> & Hc & ->). by apply (Hsingle c).
  - destruct Hok as (c & -> & Hc & ->). by apply (Hsingle c).
  - destruct Hok as (c & -> & Hc & ->). by apply (Hsingle c).
  - destruct Hok as (c & -> & Hc & ->). by apply (Hsingle c).
  - destruct Hok as (c & -> & Hc & ->). by apply (Hsingle c).
Qed.

(** The loop of [tokenise] on the spaced texts of well-formed tokens. *)
Lemma relex body :
  ∀ ln cl acc,
    Forall lexeme_ok body →
    Forall (λ t, (String.length (text t) ≤ 255)%nat) body →
    (length acc + length body < MAX_TOKENS)%nat →
    ∃ out ln' cl',
      tokenise_from (spaced body) ln cl acc
      = LexOk (acc ++ out ++ [mkToken TOK_EOF "EOF" 0 ln' cl'])
      ∧ strip <$> out = strip <$> body.
Proof.
  induction body as [|t body IH]; intros ln cl acc Hok Hlen Hroom.
  { exists [], ln, cl. simpl in Hroom. rewrite Nat.add_0_r in Hroom.
    by rewrite (tokenise_from_nil_room _ _ _ Hroom). }
  apply Forall_cons in Hok as [Ht Hok]. apply Forall_cons in Hlen as [Hl Hlen].
  destruct (relex_token t (spaced body) ln cl acc Ht Hl) as
    (t' & ln1 & cl1 & Hs & Hstep).
  { apply (room_left _ (length body) _ Hroom). }
  destruct (IH ln1 cl1 (acc ++ [t']) Hok Hlen)
    as (out & ln' & cl' & Hrest & Hout).
  { rewrite length_app, Nat.add_1_r.
    apply (room_next _ (length body) _ Hroom). }
  exists (t' :: out), ln', cl'. split.
  - change (spaced (t :: body)) with (text t +:+ " " +:+ spaced body).
    by rewrite Hstep, Hrest, <-app_assoc.
  - by rewrite !fmap_cons, Hs, Hout.
Qed.

(** ** Positions are read for diagnostics only *)

Section positions.

Context (tokens1 tokens2 : list Token).
Hypothesis Hsame : strip <$> tokens1 = strip <$> tokens2.

(** Two states that differ at most in the text of the diagnostics. *)
Definition alike (s1 s2 : State) : Prop :=
  pos s1 = pos s2 ∧ had_error s1 = had_error s2
  ∧ sym_table s1 = sym_table s2 ∧ stdout s1 = stdout s2
  ∧ length (stderr s1) = length (stderr s2).

Definition alike_result {A} (r1 r2 : run (A * State)) : Prop :=
  match r1, r2 with
  | Done (a1, s1), Done (a2, s2) => a1 = a2 ∧ alike s1 s2
  | Undefined, Undefined => True
  | Unfinished, Unfinished => True
  | _, _ => False
  end.

Definition alike_state (r1 r2 : run State) : Prop :=
  match r1, r2 with
  | Done s1, Done s2 => alike s1 s2
  | Undefined, Undefined => True
  | Unfinished, Unfinished => True
  | _, _ => False
  end.

Lemma token_at_same p :
  strip (token_at tokens1 p) = strip (token_at tokens2 p).
Proof.
  unfold token_at.
  assert (strip <$> tokens1 !! p = strip <$> tokens2 !! p) as H
    by by rewrite <-!list_lookup_fmap, Hsame.
  destruct (tokens1 !! p), (tokens2 !! p); simpl in *; try done.
  congruence.
Qed.

Lemma current_same s1 s2 :
  alike s1 s2 →
  type (current_token tokens1 s1) = type (current_token tokens2 s2)
  ∧ text (current_token tokens1 s1) = text (current_token tokens2 s2)
  ∧ int_value (current_token tokens1 s1)
    = int_value (current_token tokens2 s2).
Proof.
  intros (Hpos & _). unfold current_token. rewrite <-Hpos.
  pose proof (token_at_same (pos s1)) as H. unfold strip in H.
  by injection H.
Qed.

Lemma alike_report msg1 msg2 s1 s2 :
  alike s1 s2 → alike (report msg1 s1) (report msg2 s2).
Proof.
  intros (? & ? & ? & ? & Herr). split_and!; simpl; try done.
  rewrite !length_app. simpl. lia.
Qed.

Lemma alike_advance s1 s2 :
  alike s1 s2 → alike (advance tokens1 s1).2 (advance tokens2 s2).2.
Proof.
  intros Hal. destruct (current_same s1 s2 Hal) as (Hty & _).
  unfold advance. simpl. rewrite Hty.
  destruct Hal as (? & ? & ? & ? & ?).
  case_decide; split_and!; simpl; try done. congruence.
Qed.

Lemma alike_expect ty s1 s2 :
  alike s1 s2 → alike (expect tokens1 ty s1).2 (expect tokens2 ty s2).2.
Proof.
  intros Hal. destruct (current_same s1 s2 Hal) as (Hty & _).
  unfold expect. rewrite Hty.
  case_decide; [by apply alike_advance | by apply alike_report].
Qed.

Lemma expression_alike fuel :
  (∀ s1 s2, alike s1 s2 →
     alike_result (parse_factor tokens1 fuel s1)
       (parse_factor tokens2 fuel s2))
  ∧ (∀ lhs s1 s2, alike s1 s2 →
       alike_result (parse_term_loop tokens1 fuel lhs s1)
         (parse_term_loop tokens2 fuel lhs s2))
  ∧ (∀ s1 s2, alike s1 s2 →
       alike_result (parse_term tokens1 fuel s1)
         (parse_term tokens2 fuel s2))
  ∧ (∀ lhs s1 s2, alike s1 s2 →
       alike_result (parse_expr_loop tokens1 fuel lhs s1)
         (parse_expr_loop tokens2 fuel lhs s2))
  ∧ (∀ s1 s2, alike s1 s2 →
       alike_result (parse_expr tokens1 fuel s1)
         (parse_expr tokens2 fuel s2)).
Proof.
  induction fuel as [|fuel (IHf & IHtl & IHt & IHel & IHe)];
    [by repeat split|].
  split_and!.
  - intros s1 s2 Hal. rewrite !parse_factor_cases. cbv zeta.
    destruct (current_same s1 s2 Hal) as (Hty & Htext & Hval).
    pose proof (alike_advance s1 s2 Hal) as Hadv.
    rewrite Hty, Htext, Hval.
    destruct (decide (_ = TOK_INTEGER)); [by split|].
    destruct (decide (_ = TOK_IDENTIFIER)).
    { destruct Hadv as (? & ? & Htbl & ? & ?) eqn:E. rewrite Htbl.
      destruct (sym_lookup _ _); simpl; [by split|].
      split; [done|]. by apply alike_report. }
    destruct (decide (_ = TOK_LPAREN)).
    { specialize (IHe _ _ Hadv).
      destruct (parse_expr tokens1 fuel _) as [[v1 s1']| |],
               (parse_expr tokens2 fuel _) as [[v2 s2']| |]; simpl in *;
        try done.
      destruct IHe as [-> ?]. split; [done|]. by apply alike_expect. }
    simpl. split; [done|].
    case_decide; [by apply alike_report|].
    apply (alike_advance (report _ s1) (report _ s2)).
    by apply alike_report.
  - intros lhs s1 s2 Hal. rewrite !parse_term_loop_S. unfold check.
    destruct (current_same s1 s2 Hal) as (Hty & _). rewrite Hty.
    destruct (_ || _); [|by split].
    rewrite (advance_eta tokens1 s1), (advance_eta tokens2 s2).
    cbv beta iota.
    specialize (IHf _ _ (alike_advance s1 s2 Hal)).
    destruct (parse_factor tokens1 fuel _) as [[v1 s1']| |],
             (parse_factor tokens2 fuel _) as [[v2 s2']| |]; simpl in *;
      try done.
    destruct IHf as [-> ?]. rewrite Hty.
    destruct (decide (_ = TOK_STAR)); [by apply IHtl|].
    destruct (decide (v2 = 0)); [by apply IHtl, alike_report|].
    destruct (int_div lhs v2); simpl; [by apply IHtl | done..].
  - intros s1 s2 Hal. rewrite !parse_term_S. specialize (IHf _ _ Hal).
    destruct (parse_factor tokens1 fuel _) as [[v1 s1']| |],
             (parse_factor tokens2 fuel _) as [[v2 s2']| |]; simpl in *;
      try done.
    destruct IHf as [-> ?]. by apply IHtl.
  - intros lhs s1 s2 Hal. rewrite !parse_expr_loop_S. unfold check.
    destruct (current_same s1 s2 Hal) as (Hty & _). rewrite Hty.
    destruct (_ || _); [|by split].
    rewrite (advance_eta tokens1 s1), (advance_eta tokens2 s2).
    cbv beta iota.
    specialize (IHt _ _ (alike_advance s1 s2 Hal)).
    destruct (parse_term tokens1 fuel _) as [[v1 s1']| |],
             (parse_term tokens2 fuel _) as [[v2 s2']| |]; simpl in *;
      try done.
    destruct IHt as [-> ?]. rewrite Hty.
    destruct (decide (_ = TOK_PLUS)); by apply IHel.
  - intros s1 s2 Hal. rewrite !parse_expr_S. specialize (IHt _ _ Hal).
    destruct (parse_term tokens1 fuel _) as [[v1 s1']| |],
             (parse_term tokens2 fuel _) as [[v2 s2']| |]; simpl in *;
      try done.
    destruct IHt as [-> ?]. by apply IHel.
Qed.

Lemma expect_token ty tokens s :
  (expect tokens ty s).1 = current_token tokens s.
Proof. unfold expect. by case_decide. Qed.

Lemma alike_declare nm ln1 ln2 s1 s2 :
  alike s1 s2 →
  (sym_declare nm ln1 s1).1 = (sym_declare nm ln2 s2).1
  ∧ alike (sym_declare nm ln1 s1).2 (sym_declare nm ln2 s2).2.
Proof.
  intros (? & ? & Htbl & ? & Herr). unfold sym_declare. rewrite Htbl.
  destruct (sym_lookup _ _); simpl.
  { split; [done|]. split_and!; simpl; try done.
    rewrite !length_app. simpl. lia. }
  case_decide; simpl.
  - split; [done|]. split_and!; simpl; try done.
    rewrite !length_app. simpl. lia.
  - split; [done|]. by split_and!.
Qed.

Lemma alike_flag s1 s2 : alike s1 s2 → had_error s1 = had_error s2.
Proof. by intros (_ & ? & _). Qed.

Lemma declaration_alike fuel s1 s2 :
  alike s1 s2 →
  alike_state (parse_declaration tokens1 fuel s1)
    (parse_declaration tokens2 fuel s2).
Proof.
  intros Hal. unfold parse_declaration.
  pose proof (alike_expect TOK_INT _ _ Hal) as H1.
  pose proof (alike_expect TOK_IDENTIFIER _ _ H1) as H2.
  destruct (current_same _ _ H1) as (_ & Htext & _).
  rewrite <-!(expect_token TOK_IDENTIFIER) in Htext.
  destruct (expect tokens1 TOK_IDENTIFIER _) as [id1 s1b],
           (expect tokens2 TOK_IDENTIFIER _) as [id2 s2b].
  simpl in H2, Htext.
  pose proof (alike_expect TOK_ASSIGN _ _ H2) as H3.
  destruct (expression_alike fuel) as (_ & _ & _ & _ & IHe).
  specialize (IHe _ _ H3).
  destruct (parse_expr tokens1 fuel _) as [[v1 s1d]| |],
           (parse_expr tokens2 fuel _) as [[v2 s2d]| |]; simpl in *; try done.
  destruct IHe as [-> H4].
  pose proof (alike_expect TOK_SEMICOLON _ _ H4) as H5.
  rewrite (alike_flag _ _ H5). destruct (had_error _); [done|].
  destruct (alike_declare (text id1) (line id1) (line id2) _ _ H5)
    as [Hslot H6].
  rewrite <-Htext.
  destruct (sym_declare (text id1) (line id1) _) as [[i1|] s1f],
           (sym_declare (text id1) (line id2) _) as [[i2|] s2f];
    simpl in *; simplify_eq.
  - destruct H6 as (? & ? & Htbl & ? & ?). split_and!; simpl; try done.
    by rewrite Htbl.
  - destruct H6 as (? & ? & ? & ? & ?). by split_and!.
Qed.

Lemma print_alike fuel s1 s2 :
  alike s1 s2 →
  alike_state (parse_print tokens1 fuel s1) (parse_print tokens2 fuel s2).
Proof.
  intros Hal. unfold parse_print.
  pose proof (alike_expect TOK_PRINT _ _ Hal) as H1.
  pose proof (alike_expect TOK_LPAREN _ _ H1) as H2.
  destruct (expression_alike fuel) as (_ & _ & _ & _ & IHe).
  specialize (IHe _ _ H2).
  destruct (parse_expr tokens1 fuel _) as [[v1 s1d]| |],
           (parse_expr tokens2 fuel _) as [[v2 s2d]| |]; simpl in *; try done.
  destruct IHe as [-> H3].
  pose proof (alike_expect TOK_RPAREN _ _ H3) as H4.
  pose proof (alike_expect TOK_SEMICOLON _ _ H4) as H5.
  rewrite (alike_flag _ _ H5). destruct (had_error _); [done|].
  destruct H5 as (? & ? & ? & Hout & ?). split_and!; simpl; try done.
  by rewrite Hout.
Qed.

Lemma stmt_alike fuel s1 s2 :
  alike s1 s2 →
  alike_state (parse_stmt tokens1 fuel s1) (parse_stmt tokens2 fuel s2).
Proof.
  intros Hal. unfold parse_stmt.
  destruct (current_same s1 s2 Hal) as (Hty & _). rewrite Hty.
  destruct (decide (_ = TOK_INT)); [by apply declaration_alike|].
  destruct (decide (_ = TOK_PRINT)); [by apply print_alike|].
  simpl. case_decide; [by apply alike_report|].
  apply (alike_advance (report _ s1) (report _ s2)). by apply alike_report.
Qed.

Lemma program_alike fuel :
  ∀ s1 s2, alike s1 s2 →
    alike_state (parse_program_loop tokens1 fuel s1)
      (parse_program_loop tokens2 fuel s2).
Proof.
  induction fuel as [|fuel IH]; [done|]. intros s1 s2 Hal.
  rewrite !parse_program_loop_S. unfold check.
  destruct (current_same s1 s2 Hal) as (Hty & _). rewrite Hty.
  case_bool_decide; [by apply alike_expect|].
  pose proof (stmt_alike fuel s1 s2 Hal) as Hst.
  destruct (parse_stmt tokens1 fuel s1), (parse_stmt tokens2 fuel s2);
    simpl in *; try done.
  by apply IH.
Qed.

End positions.

(** X21: the parser reads the positions of the tokens for its
    diagnostics only.  On two token arrays that hold the same types, texts
    and values, whatever their lines and columns, [parse_program] ends in
    states with the same cursor, the same flag, the same symbol table, the
    same standard output and as many lines on standard error. *)
Theorem positions_only_in_diagnostics toks1 toks2 st1 :
  strip <$> toks1 = strip <$> toks2 →
  parse_program toks1 = Done st1 →
  ∃ st2, parse_program toks2 = Done st2
         ∧ pos st2 = pos st1 ∧ had_error st2 = had_error st1
         ∧ sym_table st2 = sym_table st1 ∧ stdout st2 = stdout st1
         ∧ length (stderr st2) = length (stderr st1).
Proof.
  intros Hsame Hrun. unfold parse_program in *.
  assert (program_fuel toks2 = program_fuel toks1) as ->.
  { unfold program_fuel.
    by rewrite <-(length_fmap strip toks2), <-Hsame, length_fmap. }
  pose proof (program_alike toks1 toks2 Hsame (program_fuel toks1)
                initial_state initial_state ltac:(by split_and!)) as Hal.
  rewrite Hrun in Hal.
  destruct (parse_program_loop toks2 _ _) as [st2| |]; simpl in Hal;
    [|done..].
  destruct Hal as (? & ? & ? & ? & ?). exists st2. by split_and!.
Qed.

(** The tokens of one program written on one line and spread over four
    lines with a comment, and where [parser.c] ends on the first. *)
Definition dense_tokens : list Token :=
  Eval vm_compute in
    match tokenise "print(7);print(1/0);" with
    | LexOk toks => toks
    | _ => []
    end.

Definition loose_tokens : list Token :=
  Eval vm_compute in
    match tokenise ("print ( 7 ) ;" +:+ String newline
                    ("print(1 // one" +:+ String newline
                     ("  / 0" +:+ String newline ");"))) with
    | LexOk toks => toks
    | _ => []
    end.

Definition dense_final : State :=
  Eval vm_compute in returned initial_state (parse_program dense_tokens).

Lemma positions_only_in_diagnostics_witness :
  ∃ st2, parse_program loose_tokens = Done st2
         ∧ pos st2 = 12%nat ∧ had_error st2 = true
         ∧ sym_table st2 = [] ∧ stdout st2 = ["7"]
         ∧ length (stderr st2) = 1%nat.
Proof.
  refine (positions_only_in_diagnostics dense_tokens loose_tokens
            dense_final _ _).
  - vm_compute. reflexivity.
  - vm_compute. reflexivity.
Defined.

(** X22: printing tokens and reading them back.  The texts of tokens
    whose type, text and value fit together (fewer than [MAX_TOKENS] of
    them, so that the EOF token has its place in the array, each of at
    most 255 characters, the value of a number being what [atoi] returns
    for its digits), written one after the other
    with a space behind each, are tokenised to tokens of the same types,
    texts and values, followed by the EOF token. *)
Theorem tokens_round_trip body :
  Forall lexeme_ok body →
  Forall (λ t, (String.length (text t) ≤ 255)%nat) body →
  (length body < MAX_TOKENS)%nat →
  ∃ toks,
    tokenise (spaced body) = LexOk toks
    ∧ strip <$> toks = (strip <$> body) ++ [(TOK_EOF, "EOF", 0)].
Proof.
  intros Hok Hlen Hroom.
  destruct (relex body 1%nat 1%nat [] Hok Hlen Hroom)
    as (out & ln & cl & Hlex & Hout).
  exists (out ++ [mkToken TOK_EOF "EOF" 0 ln cl]). split.
  - by rewrite tokenise_tokenise_from.
  - by rewrite fmap_app, Hout.
Qed.

Lemma tokens_round_trip_witness :
  ∃ toks,
    tokenise "int x1 = ( 12 + x1 ) / 3 ; print ( x1 ) ; "
    = LexOk toks
    ∧ strip <$> toks
      = [(TOK_INT, "int", 0); (TOK_IDENTIFIER, "x1", 0); (TOK_ASSIGN, "=", 0);
         (TOK_LPAREN, "(", 0); (TOK_INTEGER, "12", 12); (TOK_PLUS, "+", 0);
         (TOK_IDENTIFIER, "x1", 0); (TOK_RPAREN, ")", 0);
         (TOK_SLASH, "/", 0); (TOK_INTEGER, "3", 3);
         (TOK_SEMICOLON, ";", 0); (TOK_PRINT, "print", 0);
         (TOK_LPAREN, "(", 0); (TOK_IDENTIFIER, "x1", 0);
         (TOK_RPAREN, ")", 0); (TOK_SEMICOLON, ";", 0);
         (TOK_EOF, "EOF", 0)].
Proof.
  refine (tokens_round_trip
            [mkToken TOK_INT "int" 0 1 1; mkToken TOK_IDENTIFIER "x1" 0 1 5;
             mkToken TOK_ASSIGN "=" 0 1 7; mkToken TOK_LPAREN "(" 0 2 1;
             mkToken TOK_INTEGER "12" 12 2 2; mkToken TOK_PLUS "+" 0 2 4;
             mkToken TOK_IDENTIFIER "x1" 0 2 5; mkToken TOK_RPAREN ")" 0 2 7;
             mkToken TOK_SLASH "/" 0 2 8; mkToken TOK_INTEGER "3" 3 2 9;
             mkToken TOK_SEMICOLON ";" 0 2 10; mkToken TOK_PRINT "print" 0 3 1;
             mkToken TOK_LPAREN "(" 0 3 6; mkToken TOK_IDENTIFIER "x1" 0 3 7;
             mkToken TOK_RPAREN ")" 0 3 9; mkToken TOK_SEMICOLON ";" 0 3 10]
            _ _ _).
  - repeat (constructor;
              [unfold lexeme_ok; simpl; first [by eexists | by split_and!]|]).
    constructor.
  - repeat (constructor; [simpl; lia|]). constructor.
  - unfold MAX_TOKENS. simpl. lia.
Defined.

(** Two runs of [main] end alike: both are stopped by the division of
    [INT_MIN] by -1, or both return, with the same exit status, the same
    standard output and as many lines on standard error. *)
Definition same_outcome (m1 m2 : run Outcome) : Prop :=
  match m1, m2 with
  | Done o1, Done o2 =>
      exit_status o1 = exit_status o2 ∧ out_lines o1 = out_lines o2
      ∧ length (err_lines o1) = length (err_lines o2)
  | Undefined, Undefined => True
  | _, _ => False
  end.

(** X23: blanks, line breaks and comments do not matter.  The source
    rewritten as the texts of its tokens, a space behind each, is
    tokenised to the same types, texts and values, and [main] ends on it
    as on the source itself: with the same exit status and the same
    standard output, and as many lines on standard error, when it returns;
    and it returns on the one exactly when it returns on the other. *)
Theorem respaced_source_runs_the_same src body eof :
  tokenise src = LexOk (body ++ [eof]) →
  ∃ toks,
    tokenise (spaced body) = LexOk toks
    ∧ strip <$> toks = strip <$> (body ++ [eof])
    ∧ ∀ prog path more fs buf prog' path' more' fs' buf',
        fs path = Some buf → c_str buf = src →
        fs' path' = Some buf' → c_str buf' = spaced body →
        same_outcome (main (prog' :: path' :: more') fs')
          (main (prog :: path :: more) fs).
Proof.
  intros Htok.
  destruct (tokenise_lexed src _ Htok)
    as (body0 & ln & cl & Hsplit & (Hok & _) & Hroom).
  apply app_inj_tail in Hsplit as [<- ->].
  destruct (tokenise_LexOk _ _ Htok) as (body1 & eof1 & Hsplit & Hgood & _).
  apply app_inj_tail in Hsplit as [<- <-].
  assert (Forall (λ t, (String.length (text t) ≤ 255)%nat) body) as Hlen.
  { eapply Forall_impl; [exact Hgood|]. by intros t (_ & _ & _ & ?). }
  destruct (relex body 1%nat 1%nat [] Hok Hlen Hroom)
    as (out & ln' & cl' & Hlex & Hout).
  rewrite <-tokenise_tokenise_from in Hlex. simpl in Hlex.
  assert (strip <$> out ++ [mkToken TOK_EOF "EOF" 0 ln' cl']
          = strip <$> body ++ [mkToken TOK_EOF "EOF" 0 ln cl]) as Hsame
    by by rewrite !fmap_app, Hout.
  eexists. split; [done|]. split; [done|].
  intros prog path more fs buf prog' path' more' fs' buf' Hfs Hsrc Hfs' Hsrc'.
  unfold main. rewrite Hfs, Hfs', Hsrc, Hsrc', Htok, Hlex.
  unfold parse_program.
  assert (program_fuel (out ++ [mkToken TOK_EOF "EOF" 0 ln' cl'])
          = program_fuel (body ++ [mkToken TOK_EOF "EOF" 0 ln cl])) as ->.
  { unfold program_fuel.
    by rewrite <-(length_fmap strip (out ++ _)), Hsame, length_fmap. }
  pose proof (program_alike _ _ Hsame
                (program_fuel (body ++ [mkToken TOK_EOF "EOF" 0 ln cl]))
                initial_state initial_state ltac:(by split_and!)) as Hal.
  pose proof (parse_program_finishes _
                (tokenised_eof_terminated _ (tokenise_LexOk _ _ Htok)))
    as Hfin.
  unfold parse_program in Hfin.
  destruct (parse_program_loop (out ++ _) _ _) as [st'| |],
           (parse_program_loop (body ++ _) _ _) as [st| |]; simpl in Hal;
    try done.
  destruct Hal as (_ & Hflag & _ & Hout' & Herr).
  cbn [mbind run_bind].
  rewrite Hflag. destruct (had_error st); simpl; split_and!; try done.
  rewrite !length_app. simpl. lia.
Qed.

(** A source of two lines with a comment, and its tokens. *)
Definition respaced_source : string :=
  "int a = 6; // six" +:+ String newline
    "int b = a * (a + 1) / 2; print(b - a);".

Definition respaced_body : list Token :=
  Eval vm_compute in
    match tokenise respaced_source with
    | LexOk toks => removelast toks
    | _ => []
    end.

Definition respaced_eof : Token :=
  Eval vm_compute in
    match tokenise respaced_source with
    | LexOk toks => default zero_token (last toks)
    | _ => zero_token
    end.

Lemma respaced_source_runs_the_same_witness :
  ∃ toks,
    tokenise (spaced respaced_body) = LexOk toks
    ∧ strip <$> toks = strip <$> (respaced_body ++ [respaced_eof])
    ∧ ∀ prog path more fs buf prog' path' more' fs' buf',
        fs path = Some buf → c_str buf = respaced_source →
        fs' path' = Some buf' → c_str buf' = spaced respaced_body →
        same_outcome (main (prog' :: path' :: more') fs')
          (main (prog :: path :: more) fs).
Proof.
  refine (respaced_source_runs_the_same respaced_source
            respaced_body respaced_eof _).
  vm_compute. reflexivity.
Defined.

End Tokens.


(** * Where the diagnostics point *)

Module Diagnostics.
Import Parser ParserSpec Lexing.

(** ** Places in the source text *)

(** The line and the column of the character behind the text [pre], when
    [pre] starts at line [ln], column [cl]: a newline leads to column 1 of
    the next line, every other character, a tab included, to the next
    column of the same line. *)
Fixpoint position_from (ln cl : nat) (pre : string) : nat * nat :=
  match pre with
  | EmptyString => (ln, cl)
  | String c rest =>
      if is_char c newline then position_from (S ln) 1 rest
      else position_from ln (S cl) rest
  end.

(** Lines and columns are counted from 1. *)
Definition position (pre : string) : nat * nat := position_from 1 1 pre.

Definition no_newline (s : string) : Prop :=
  string_all (λ d, negb (is_char d newline)) s.




(** The loop of [tokenise] is at [x], with [ln] and [cl] as its line and
    column: they are the position of [x] in the source, unless a comment
    was skipped just before [x]; then they are the position of that
    comment, and [x] is empty or starts with a newline. *)
Definition skipped (com x : string) : Prop :=
  com = ""
  ∨ (starts_comment com = true ∧ no_newline com
     ∧ (x = "" ∨ ∃ r, x = String newline r)).







Lemma position_from_ge ln cl a :
  (1 ≤ ln)%nat → (1 ≤ cl)%nat →
  (1 ≤ (position_from ln cl a).1)%nat ∧ (1 ≤ (position_from ln cl a).2)%nat.
Proof.
  revert ln cl. induction a as [|c a IH]; intros ln cl ? ?; simpl; [done|].
  case_match; apply IH; lia.
Qed.

Lemma position_ge pre :
  (1 ≤ (position pre).1)%nat ∧ (1 ≤ (position pre).2)%nat.
Proof. by apply position_from_ge. Qed.




Lemma ident_start_not_nul : ident_start nul = false.
Proof. done. Qed.












(** ** The steps of the parser *)




Section lines.

Context (src : string) (tokens : list Token).
Hypothesis Htok : tokenise src = LexOk tokens.






End lines.

(** ** The places where [parser.c] writes a diagnostic *)

Section sites.

Context (tokens : list Token).






End sites.





End Diagnostics.
